(** * apostrophecms-astro-static: a shallow embedding of the crawl pipeline

    The development follows the JavaScript sources:
    - [src/utils.js]: [fetchWithRetry], [waitForServer], [cleanDir],
      [copyDir], [queryParamsToPath], [writeHtmlForPath], [mapLimit];
    - [src/sitemap.js]: [normalizeUrl], [fetchAllPages], [probeCandidates],
      [isPieceEndpoint], [discoverPieceTypes], [fetchAllPieces],
      [generateSitemap];
    - [src/processors/url-rewriter.js]: [extractInternalLinks],
      [makeUrlsRelative];
    - [src/processors/video-widgets.js]: [processVideoWidgets];
    - [src/processors/uploads.js]: the downloads of
      [extractImagesFromHtml];
    - [src/index.js]: [exportStatic] from the sitemap to the 404 page
      (the output directory, the crawl, the results), [applyLocalePrefix];
    - [bin/apos-astro-static.js]: [parseCliArgs].

    JavaScript strings are modelled as [string] (sequences of bytes, read as
    the UTF-8 encoding of the text); a page is the text that the preview
    server sends.  Platform functions that the sources call but do not
    define ([String.prototype.localeCompare], the WHATWG [URL] parser,
    [path.join], the parser and the serializer of jsdom) are parameters
    of the definitions that use them; small concrete instances are given
    at the end of the definitions so that the functions can be run on
    examples.  The file system is a tree of directories and files, on
    which [mkdirSync] and [writeFileSync] succeed or throw as node's do. *)

From Stdlib Require Import String Ascii List Arith NArith Lia Bool.
From Stdlib Require Import Permutation Sorted.
From Stdlib Require Import DecimalString.
Import ListNotations.
Set Warnings "-register-all".
Open Scope list_scope.
Open Scope string_scope.

(* ------------------------------------------------------------------ *)
(** ** String primitives of the JavaScript standard library           *)
(* ------------------------------------------------------------------ *)

Module Js.

(** [s.split(sep)] for a one-character separator: never empty. *)
Fixpoint split (sep : ascii) (s : string) : list string :=
  match s with
  | EmptyString => [EmptyString]
  | String c s' =>
      if Ascii.eqb c sep then EmptyString :: split sep s'
      else match split sep s' with
           | [] => [String c EmptyString]
           | p :: ps => String c p :: ps
           end
  end.

(** [s.startsWith(p)]. *)
Definition startsWith (p s : string) : bool := String.prefix p s.

(** [s.endsWith(suf)]. *)
Fixpoint endsWith (suf s : string) : bool :=
  String.eqb s suf ||
  match s with
  | EmptyString => false
  | String _ s' => endsWith suf s'
  end.

(** [s.includes(sub)]. *)
Fixpoint includes (sub s : string) : bool :=
  String.prefix sub s ||
  match s with
  | EmptyString => false
  | String _ s' => includes sub s'
  end.

(** [parts.join(sep)]. *)
Fixpoint join (sep : string) (parts : list string) : string :=
  match parts with
  | [] => EmptyString
  | [p] => p
  | p :: ps => p ++ sep ++ join sep ps
  end.

(** Truthiness of a string: [if (s)]. *)
Definition truthy (s : string) : bool := negb (String.eqb s EmptyString).

(** [s.replace(/\/$/, '')]: drops one trailing slash. *)
Fixpoint dropTrailingSlash (s : string) : string :=
  match s with
  | EmptyString => EmptyString
  | String c s' =>
      if Ascii.eqb c "/" && String.eqb s' EmptyString then EmptyString
      else String c (dropTrailingSlash s')
  end.

(** [s.replace(/^\//, "")]: drops one leading slash. *)
Definition dropLeadingSlash (s : string) : string :=
  match s with
  | String c s' => if Ascii.eqb c "/" then s' else s
  | EmptyString => EmptyString
  end.

Definition isAlnum (c : ascii) : bool :=
  let n := nat_of_ascii c in
  ((48 <=? n) && (n <=? 57) || (65 <=? n) && (n <=? 90)
   || (97 <=? n) && (n <=? 122))%nat.

Fixpoint allAlnum (s : string) : bool :=
  match s with
  | EmptyString => true
  | String c s' => isAlnum c && allAlnum s'
  end.

(** [/\.[a-z0-9]+$/i.test(s)]: some dot is followed by one or more
    alphanumeric characters up to the end of the string. *)
Fixpoint hasExtension (s : string) : bool :=
  match s with
  | EmptyString => false
  | String c s' =>
      (Ascii.eqb c "." && truthy s' && allAlnum s') || hasExtension s'
  end.

(** [String(n)] for a non-negative integer. *)
Definition ofNat (n : nat) : string :=
  match n with
  | O => "0"
  | _ => NilEmpty.string_of_uint (Nat.to_uint n)
  end.

(** Array.prototype.sort with a consistent comparator is the stable sort;
    it is written here as a stable insertion sort. *)
Section Sort.
Context {A : Type} (cmp : A -> A -> comparison).

Fixpoint insert (x : A) (l : list A) : list A :=
  match l with
  | [] => [x]
  | y :: l' =>
      match cmp x y with
      | Gt => y :: insert x l'
      | _ => x :: l
      end
  end.

Definition sort (l : list A) : list A := fold_right insert [] l.
End Sort.

End Js.

(* ------------------------------------------------------------------ *)
(** ** URLSearchParams (application/x-www-form-urlencoded parsing)     *)
(* ------------------------------------------------------------------ *)

Module UrlEncoded.

Definition hexValue (c : ascii) : option nat :=
  let n := nat_of_ascii c in
  if ((48 <=? n) && (n <=? 57))%nat then Some (n - 48)
  else if ((65 <=? n) && (n <=? 70))%nat then Some (n - 55)
  else if ((97 <=? n) && (n <=? 102))%nat then Some (n - 87)
  else None.

(** Percent-decoding: [%XY] with two hexadecimal digits becomes one byte,
    any other [%] stays.  The bytes are kept as they come: this is the
    text that the platform gives when the bytes of the escapes form
    UTF-8 (where they do not, the platform has U+FFFD in their place,
    which is not modelled). *)
Fixpoint percentDecode (s : string) : string :=
  match s with
  | EmptyString => EmptyString
  | String c rest =>
      if Ascii.eqb c "%" then
        match rest with
        | String h (String l rest') =>
            match hexValue h, hexValue l with
            | Some a, Some b =>
                String (ascii_of_nat (16 * a + b)) (percentDecode rest')
            | _, _ => String c (percentDecode rest)
            end
        | _ => String c (percentDecode rest)
        end
      else String c (percentDecode rest)
  end.

Fixpoint plusToSpace (s : string) : string :=
  match s with
  | EmptyString => EmptyString
  | String c s' =>
      String (if Ascii.eqb c "+" then " "%char else c) (plusToSpace s')
  end.

(** Splits at the first occurrence of [sep]; [None] when there is none. *)
Fixpoint cut (sep : ascii) (s : string) : option (string * string) :=
  match s with
  | EmptyString => None
  | String c s' =>
      if Ascii.eqb c sep then Some (EmptyString, s')
      else match cut sep s' with
           | Some (a, b) => Some (String c a, b)
           | None => None
           end
  end.

Definition decodeComponent (s : string) : string :=
  percentDecode (plusToSpace s).

Definition parsePair (seq : string) : string * string :=
  match cut "=" seq with
  | Some (name, value) => (decodeComponent name, decodeComponent value)
  | None => (decodeComponent seq, EmptyString)
  end.

(** [Array.from(new URLSearchParams(init).entries())]. *)
Definition entries (init : string) : list (string * string) :=
  let init :=
    match init with
    | String c rest => if Ascii.eqb c "?" then rest else init
    | EmptyString => init
    end in
  map parsePair (filter Js.truthy (Js.split "&" init)).

End UrlEncoded.

(* ------------------------------------------------------------------ *)
(** ** src/utils.js: queryParamsToPath                                 *)
(* ------------------------------------------------------------------ *)

Definition keyCompare (localeCompare : string -> string -> comparison)
    (a b : string * string) : comparison :=
  localeCompare (fst a) (fst b).

Definition renderPart (kv : string * string) : string :=
  fst kv ++ "-" ++ snd kv.

Definition keptParams (localeCompare : string -> string -> comparison)
    (search : string) : list (string * string) :=
  filter (fun kv => Js.truthy (snd kv))
    (Js.sort (keyCompare localeCompare) (UrlEncoded.entries search)).

Definition queryParamsToPath
    (localeCompare : string -> string -> comparison)
    (urlPath : string) : string :=
  let pieces := Js.split "?" urlPath in
  let pathname := hd EmptyString pieces in
  match nth_error pieces 1 with
  | None => pathname
  | Some search =>
      if negb (Js.truthy search) then pathname
      else
        let parts := map renderPart (keptParams localeCompare search) in
        match parts with
        | [] => pathname
        | _ =>
            let cleanPath := Js.dropTrailingSlash pathname in
            cleanPath ++ "/" ++ Js.join "-" parts ++ "/"
        end
  end.

(* ------------------------------------------------------------------ *)
(** ** The platform's URL parser                                       *)
(* ------------------------------------------------------------------ *)

(** The fields of a WHATWG [URL] object that the sources read. *)
Record URL : Type := mkURL {
  href : string;
  origin : string;
  pathname : string;
  search : string;
  hash : string
}.

(** [new URL(input, base)]: [None] when the constructor throws a
    [TypeError]; the base is absent in [new URL(input)]. *)
Definition UrlParser : Type := string -> option string -> option URL.

(* ------------------------------------------------------------------ *)
(** ** src/sitemap.js: normalizeUrl                                    *)
(* ------------------------------------------------------------------ *)

Definition ensureLeadingSlash (pathname : string) : string :=
  if negb (Js.startsWith "/" pathname) then "/" ++ pathname else pathname.

Definition normalizeUrl (parseURL : UrlParser) (urlString : string) : string :=
  match parseURL urlString (Some "http://dummy") with
  | Some url =>
      let pathname := ensureLeadingSlash (pathname url) in
      if negb (Js.endsWith ".html" pathname)
         && negb (Js.endsWith ".htm" pathname)
         && negb (Js.includes "." pathname)
      then
        if negb (Js.endsWith "/" pathname) then pathname ++ "/" else pathname
      else pathname
  | None =>
      (* the catch branch *)
      let pathname :=
        hd EmptyString (Js.split "#" (hd EmptyString (Js.split "?" urlString))) in
      let pathname := ensureLeadingSlash pathname in
      if negb (Js.hasExtension pathname) && negb (Js.endsWith "/" pathname)
      then pathname ++ "/"
      else pathname
  end.

(* ------------------------------------------------------------------ *)
(** ** src/utils.js: writeHtmlForPath                                  *)
(* ------------------------------------------------------------------ *)

(** The file that [writeHtmlForPath(rootDir, urlPath, html)] writes.
    [pathJoin] is node's [path.join]. *)
Definition outputPath (localeCompare : string -> string -> comparison)
    (pathJoin : list string -> string)
    (rootDir urlPath : string) : string :=
  let staticPath := queryParamsToPath localeCompare urlPath in
  let isFile := Js.hasExtension staticPath in
  if isFile then pathJoin [rootDir; Js.dropLeadingSlash staticPath]
  else if String.eqb staticPath "/" then pathJoin [rootDir; "index.html"]
  else pathJoin [rootDir; Js.dropLeadingSlash staticPath; "index.html"].

(* ------------------------------------------------------------------ *)
(** ** The network                                                     *)
(* ------------------------------------------------------------------ *)

(** A [fetch] response with a body of type [B]. *)
Record Response (B : Type) : Type := mkResponse {
  status : nat;
  statusText : string;
  body : B
}.
Arguments mkResponse {B} _ _ _.
Arguments status {B} _.
Arguments statusText {B} _.
Arguments body {B} _.

(** [response.ok] *)
Definition ok {B} (r : Response B) : bool :=
  ((200 <=? status r) && (status r <=? 299))%nat.

(** How one [fetchWithTimeout] call settles: it resolves with a response,
    or it rejects (network error, or abort when the timeout fires) with an
    error carrying a message. *)
Inductive Fetched (B : Type) : Type :=
| Responded (r : Response B)
| Rejected (message : string).
Arguments Responded {B} _.
Arguments Rejected {B} _.

(** The result of an [async] function: a value, or a thrown [Error] with
    its message. *)
Inductive Outcome (A : Type) : Type :=
| Returned (a : A)
| Thrown (message : string).
Arguments Returned {A} _.
Arguments Thrown {A} _.

(* ------------------------------------------------------------------ *)
(** ** src/utils.js: fetchWithRetry                                    *)
(* ------------------------------------------------------------------ *)

Definition httpError {B} (r : Response B) : string :=
  "HTTP " ++ Js.ofNat (status r) ++ ": " ++ statusText r.

(** How the [try] block of one loop iteration ends. *)
Inductive TryBlock (B : Type) : Type :=
| TryReturn (r : Response B)        (* [return response] *)
| TryThrow (error : string)         (* an exception leaves the block *)
| TryEnd (lastError : string).      (* the block runs to its end *)
Arguments TryReturn {B} _.
Arguments TryThrow {B} _.
Arguments TryEnd {B} _.

Definition tryAttempt {B} (f : Fetched B) : TryBlock B :=
  match f with
  | Rejected e => TryThrow e
  | Responded r =>
      if ok r then TryReturn r
      else if ((400 <=? status r) && (status r <? 500)
               && negb (status r =? 429))%nat
      then TryThrow (httpError r)
      else TryEnd (httpError r)
  end.

(** What a call of [fetchWithRetry] did: its result, the number of
    [fetchWithTimeout] calls it made, and the back-off delays it slept. *)
Record RetryRun (B : Type) : Type := mkRetryRun {
  result : Outcome (Response B);
  attempts : nat;
  delays : list nat
}.
Arguments mkRetryRun {B} _ _ _.
Arguments result {B} _.
Arguments attempts {B} _.
Arguments delays {B} _.

Definition backoff (attempt : nat) : nat := Nat.min (1000 * 2 ^ attempt) 5000.

(** The [for] loop of [fetchWithRetry], [remaining] iterations before
    [attempt] exceeds [retries].  [net attempt] is how the [attempt]-th
    request settles. *)
Fixpoint retryLoop {B} (net : nat -> Fetched B) (retries : nat)
    (remaining attempt : nat) (lastError : string) (slept : list nat)
    : RetryRun B :=
  match remaining with
  | O => mkRetryRun (Thrown lastError) attempt slept
  | S remaining' =>
      let continue (lastError : string) :=
        let slept :=
          if (attempt <? retries)%nat then (slept ++ [backoff attempt])%list
          else slept in
        retryLoop net retries remaining' (S attempt) lastError slept in
      match tryAttempt (net attempt) with
      | TryReturn r => mkRetryRun (Returned r) (S attempt) slept
      | TryThrow error => (* [catch (error)] *) continue error
      | TryEnd lastError => continue lastError
      end
  end.

Definition fetchWithRetry {B} (net : nat -> Fetched B) (retries : nat)
    : RetryRun B :=
  retryLoop net retries (S retries) 0 "undefined" [].

(* ------------------------------------------------------------------ *)
(** ** src/utils.js: waitForServer                                     *)
(* ------------------------------------------------------------------ *)

(** The [while] loop of [waitForServer].  [now k] is the value of the
    [k]-th call of [Date.now()], so that [now 0] is [startTime] and
    [now (S k)] is read by the test of round [k]; the sleeps between the
    rounds show in these values only.  [Date.now() - startTime < timeoutMs]
    is written without the subtraction.  [probe k] is how the request of
    round [k] settles.  The result comes with the number of requests made;
    it is [None] when [fuel] rounds were not enough. *)
Fixpoint waitLoop {B} (now : nat -> nat) (probe : nat -> Fetched B)
    (url : string) (timeoutMs startTime fuel k : nat)
    : option (Outcome bool * nat) :=
  match fuel with
  | O => None
  | S fuel' =>
      if (now (S k) <? startTime + timeoutMs)%nat then
        match probe k with
        | Responded response =>
            if ok response then Some (Returned true, S k)
            else waitLoop now probe url timeoutMs startTime fuel' (S k)
        | Rejected _ =>                              (* server not ready yet *)
            waitLoop now probe url timeoutMs startTime fuel' (S k)
        end
      else
        Some (Thrown ("Preview server did not respond at " ++ url ++ " within "
                      ++ Js.ofNat timeoutMs ++ "ms"), k)
  end.

Definition waitForServer {B} (now : nat -> nat) (probe : nat -> Fetched B)
    (url : string) (timeoutMs fuel : nat) : option (Outcome bool * nat) :=
  waitLoop now probe url timeoutMs (now 0) fuel 0.

(* ------------------------------------------------------------------ *)
(** ** HTML documents                                                  *)
(* ------------------------------------------------------------------ *)

(** A parsed document, as the processors see it through
    [querySelectorAll]: the elements they select, in document order, with
    the attributes they read; everything else is opaque markup.  An
    attribute is [None] when the element does not carry it.  A
    [video-widget] comes with what the setter of its [outerHTML] uses: the
    name of its parent element, under which the new markup is parsed, and
    the number of the entries after it that lie inside it and leave the
    document with it. *)
Inductive Node : Type :=
| Anchor (href : option string)
| Form (action : option string)
| VideoWidget (url title : option string) (parent : string) (inside : nat)
| Markup (html : string).

Definition Document : Type := list Node.

(** The parser and the serializer of the platform (jsdom): the document
    of [new JSDOM(html)], the nodes that the setter of [outerHTML] makes of
    a markup under a parent element, and [dom.serialize()]. *)
Record Jsdom : Type := mkJsdom {
  parseHTML : string -> Document;
  parseFragment : string -> string -> list Node;
  serialize : Document -> string
}.

(** A JavaScript [Set] of strings keeps insertion order. *)
Definition setHas (x : string) (s : list string) : bool :=
  existsb (String.eqb x) s.

Definition setAdd (x : string) (s : list string) : list string :=
  if setHas x s then s else (s ++ [x])%list.

(** [Array.from(new Set(l))] *)
Definition dedupe (l : list string) : list string :=
  fold_left (fun s x => setAdd x s) l [].

(* ------------------------------------------------------------------ *)
(** ** src/processors/url-rewriter.js                                  *)
(* ------------------------------------------------------------------ *)

Definition extractInternalLinks (parseURL : UrlParser)
    (html : Document) (baseUrl : string) : list string :=
  fold_left
    (fun links node =>
       match node with
       | Anchor (Some href) =>
           if negb (Js.truthy href) then links
           else
             match parseURL href (Some baseUrl), parseURL baseUrl None with
             | Some url, Some base =>
                 if String.eqb (origin url) (origin base) then
                   let pathWithoutHash := pathname url ++ search url in
                   if Js.truthy pathWithoutHash
                   then setAdd pathWithoutHash links
                   else links
                 else links
             | _, _ => links   (* invalid URL, skip *)
             end
       | _ => links
       end)
    html [].

(** The value that the loop body of [makeUrlsRelative] leaves in the
    attribute whose value was [url]. *)
Definition rewriteUrl (parseURL : UrlParser)
    (localeCompare : string -> string -> comparison)
    (previewUrl url : string) : string :=
  if negb (Js.truthy url) then url
  else
    let afterPreview : option string :=
      if Js.startsWith previewUrl url then
        match parseURL url None with
        | Some urlObj => Some (pathname urlObj ++ search urlObj ++ hash urlObj)
        | None => None                            (* thrown: skip *)
        end
      else Some url in
    match afterPreview with
    | None => url
    | Some finalUrl =>
        if Js.includes "?" finalUrl then
          let pieces := Js.split "?" finalUrl in
          let pathname := hd EmptyString pieces in
          let search := nth 1 pieces EmptyString in
          let '(searchWithoutHash, hash) :=
            match UrlEncoded.cut "#" search with
            | Some (before, after) => (before, "#" ++ after)
            | None => (search, EmptyString)
            end in
          let staticPath :=
            queryParamsToPath localeCompare (pathname ++ "?" ++ searchWithoutHash) in
          staticPath ++ hash
        else finalUrl
    end.

Definition rewriteNode (parseURL : UrlParser)
    (localeCompare : string -> string -> comparison)
    (previewUrl : string) (node : Node) : Node :=
  match node with
  | Anchor (Some url) => Anchor (Some (rewriteUrl parseURL localeCompare previewUrl url))
  | Form (Some url) => Form (Some (rewriteUrl parseURL localeCompare previewUrl url))
  | _ => node
  end.

Definition makeUrlsRelative (parseURL : UrlParser)
    (localeCompare : string -> string -> comparison)
    (html : Document) (previewUrl : string) : Document :=
  map (rewriteNode parseURL localeCompare previewUrl) html.

(* ------------------------------------------------------------------ *)
(** ** JSON values                                                     *)
(* ------------------------------------------------------------------ *)

Inductive Json : Type :=
| JNull
| JBool (b : bool)
| JNum (n : nat)
| JStr (s : string)
| JArr (items : list Json)
| JObj (fields : list (string * Json)).   (* the members, as the text has them *)

Module JsonOps.

(** [Boolean(v)] *)
Definition truthy (v : Json) : bool :=
  match v with
  | JNull => false
  | JBool b => b
  | JNum n => negb (n =? 0)%nat
  | JStr s => Js.truthy s
  | JArr _ | JObj _ => true
  end.

(** The value of a member of an object: when the JSON text repeats a
    name, [JSON.parse] keeps the value of its last occurrence. *)
Fixpoint lookup (key : string) (fields : list (string * Json)) : option Json :=
  match fields with
  | [] => None
  | (k, v) :: rest =>
      match lookup key rest with
      | Some later => Some later
      | None => if String.eqb k key then Some v else None
      end
  end.

Fixpoint digits (acc : N) (s : string) : option N :=
  match s with
  | EmptyString => Some acc
  | String c s' =>
      let n := N_of_ascii c in
      if ((48 <=? n) && (n <=? 57))%N then digits (10 * acc + (n - 48))%N s'
      else None
  end.

(** The array index that a property name is: the canonical decimal
    numeral of an integer from 0 to 2^32 - 2. *)
Definition arrayIndex (key : string) : option N :=
  match key with
  | EmptyString => None
  | String c rest =>
      if Ascii.eqb c "0" then
        match rest with EmptyString => Some 0%N | _ => None end
      else
        match digits 0 key with
        | Some n => if (n <=? 4294967294)%N then Some n else None
        | None => None
        end
  end.

Definition isArrayIndex (key : string) : bool :=
  match arrayIndex key with Some _ => true | None => false end.

Definition compareIndex (a b : string) : comparison :=
  match arrayIndex a, arrayIndex b with
  | Some m, Some n => N.compare m n
  | _, _ => Eq
  end.

(** [Object.keys(v)] of a parsed object: each name once, the array
    indices first, in ascending order, then the other names in the order
    in which the text first has them. *)
Definition keys (fields : list (string * Json)) : list string :=
  let names := dedupe (map fst fields) in
  (Js.sort compareIndex (filter isArrayIndex names)
   ++ filter (fun key => negb (isArrayIndex key)) names)%list.

(** [v?.key]: [None] is [undefined]. *)
Definition prop (key : string) (v : Json) : option Json :=
  match v with
  | JObj fields => lookup key fields
  | _ => None
  end.

(** Truthiness of a possibly undefined value. *)
Definition truthyOpt (v : option Json) : bool :=
  match v with
  | Some v => truthy v
  | None => false
  end.

(** [String(v)] *)
Fixpoint toStr (v : Json) : string :=
  match v with
  | JNull => "null"
  | JBool true => "true"
  | JBool false => "false"
  | JNum n => Js.ofNat n
  | JStr s => s
  | JArr items =>
      Js.join ","
        (map (fun x => match x with JNull => EmptyString | _ => toStr x end) items)
  | JObj _ => "[object Object]"
  end.

(** The values that [for (const x of v)] visits; [None] when [v] is not
    iterable and the loop throws a [TypeError]. *)
Definition iterate (v : Json) : option (list Json) :=
  match v with
  | JArr items => Some items
  | JStr s => Some (map (fun c => JStr (String c EmptyString)) (list_ascii_of_string s))
  | _ => None
  end.

(** [v.length] of an iterable value. *)
Definition lengthOf (v : Json) : nat :=
  match v with
  | JArr items => List.length items
  | JStr s => String.length s
  | _ => 0
  end.

End JsonOps.

(* ------------------------------------------------------------------ *)
(** ** src/processors/video-widgets.js                                 *)
(* ------------------------------------------------------------------ *)

Definition dq : string := String (ascii_of_nat 34) EmptyString.

Definition noVideoUrl : string :=
  "<div class=" ++ dq ++ "video-error" ++ dq ++ ">No video URL provided</div>".

Definition videoUnavailable : string :=
  "<div class=" ++ dq ++ "video-error" ++ dq ++ " style=" ++ dq
  ++ "padding: 2rem; background: #f5f5f5; border: 1px solid #ddd; border-radius: 4px; text-align: center; color: #666;"
  ++ dq ++ "><p>Video unavailable</p></div>".

Definition hexDigit (n : nat) : ascii :=
  ascii_of_nat (if (n <? 10)%nat then 48 + n else 55 + n).

(** The serializer of [URLSearchParams]: one byte of a name or value. *)
Definition formEncodeByte (c : ascii) : string :=
  let n := nat_of_ascii c in
  if Js.isAlnum c || (n =? 42)%nat || (n =? 45)%nat || (n =? 46)%nat
     || (n =? 95)%nat
  then String c EmptyString
  else if (n =? 32)%nat then "+"
  else String "%" (String (hexDigit (n / 16)) (String (hexDigit (n mod 16)) EmptyString)).

Fixpoint formEncode (s : string) : string :=
  match s with
  | EmptyString => EmptyString
  | String c s' => formEncodeByte c ++ formEncode s'
  end.

Definition oembedUrl (aposHost videoUrl : string) : string :=
  aposHost ++ "/api/v1/@apostrophecms/oembed/query?" ++ "url=" ++ formEncode videoUrl.

(** The content backend: how the [n]-th request of one [fetchWithRetry]
    call for a URL settles.  The body is [None] when it is not JSON and
    [response.json()] rejects. *)
Definition Backend : Type := string -> nat -> Fetched (option Json).

(** [fetchOembedData]: [None] for every failure ([return null]);
    [Some JNull] is a JSON [null] body. *)
Definition fetchOembedData (backend : Backend)
    (aposHost videoUrl : string) (retries : nat) : option Json :=
  match result (fetchWithRetry (backend (oembedUrl aposHost videoUrl)) retries) with
  | Returned response => body response
  | Thrown _ => None
  end.

(** [createResponsiveVideoHtml].  [renderEmbed oembedData title] is the
    wrapper markup of the second half of the function (iframe attributes
    and aspect-ratio padding). *)
Definition createResponsiveVideoHtml (renderEmbed : Json -> string -> string)
    (oembedData : option Json) (title : string) : string :=
  match oembedData with
  | None => videoUnavailable
  | Some data =>
      if negb (JsonOps.truthy data)
         || negb (JsonOps.truthyOpt (JsonOps.prop "html" data))
      then videoUnavailable
      else renderEmbed data title
  end.

(** The markup that the loop of [processVideoWidgets] gives to the
    [outerHTML] of a widget with these attributes. *)
Definition widgetMarkup (renderEmbed : Json -> string -> string)
    (backend : Backend) (aposHost : string) (retries : nat)
    (videoUrl title : option string) : string :=
  let videoTitle :=
    match title with
    | Some t => if Js.truthy t then t else "Video content"
    | None => "Video content"
    end in
  match videoUrl with
  | Some u =>
      if negb (Js.truthy u) then noVideoUrl
      else
        let oembedData := fetchOembedData backend aposHost u retries in
        createResponsiveVideoHtml renderEmbed oembedData videoTitle
  | None => noVideoUrl
  end.

(** The nodes that take the place of a widget. *)
Definition renderWidget (jsdom : Jsdom) (renderEmbed : Json -> string -> string)
    (backend : Backend) (aposHost : string) (retries : nat)
    (node : Node) : list Node :=
  match node with
  | VideoWidget videoUrl title parent _ =>
      parseFragment jsdom parent
        (widgetMarkup renderEmbed backend aposHost retries videoUrl title)
  | _ => [node]
  end.

Definition isVideoWidget (node : Node) : bool :=
  match node with
  | VideoWidget _ _ _ _ => true
  | _ => false
  end.

(** The document after the loop over the widgets.  The [skip] entries
    to come lie inside a widget that was replaced: they have left the
    document, and a widget among them is replaced outside it. *)
Fixpoint replaceWidgets (jsdom : Jsdom) (renderEmbed : Json -> string -> string)
    (backend : Backend) (aposHost : string) (retries : nat)
    (skip : nat) (document : Document) : Document :=
  match document with
  | [] => []
  | node :: rest =>
      match skip with
      | S skip' =>
          replaceWidgets jsdom renderEmbed backend aposHost retries skip' rest
      | O =>
          match node with
          | VideoWidget _ _ _ inside =>
              (renderWidget jsdom renderEmbed backend aposHost retries node
               ++ replaceWidgets jsdom renderEmbed backend aposHost retries
                    inside rest)%list
          | _ =>
              node :: replaceWidgets jsdom renderEmbed backend aposHost retries
                        0 rest
          end
      end
  end.

Definition processVideoWidgets (jsdom : Jsdom)
    (renderEmbed : Json -> string -> string)
    (backend : Backend) (html : string) (aposHost : string) (retries : nat)
    : string :=
  let document := parseHTML jsdom html in
  match filter isVideoWidget document with
  | [] => html
  | _ =>
      serialize jsdom
        (replaceWidgets jsdom renderEmbed backend aposHost retries 0 document)
  end.

(** The number of the matches of a pattern that is not empty, from left
    to right and without overlap; the [skip] characters to come belong to
    the last match. *)
Fixpoint countMatches (pattern : string) (skip : nat) (s : string) : nat :=
  match s with
  | EmptyString => 0
  | String _ s' =>
      match skip with
      | S skip' => countMatches pattern skip' s'
      | O =>
          if String.prefix pattern s
          then S (countMatches pattern (String.length pattern - 1) s')
          else countMatches pattern 0 s'
      end
  end.

(** [(html.match(/<video-widget/g) || []).length], of the text of the
    page. *)
Definition videoWidgetCount (html : string) : nat :=
  countMatches "<video-widget" 0 html.

(* ------------------------------------------------------------------ *)
(** ** src/sitemap.js                                                  *)
(* ------------------------------------------------------------------ *)

(** The content API as [fetchWithTimeout] sees it: how the request for a
    URL settles. *)
Definition Api : Type := string -> Fetched (option Json).

Definition bindOutcome {A B} (o : Outcome A) (k : A -> Outcome B) : Outcome B :=
  match o with
  | Returned a => k a
  | Thrown e => Thrown e
  end.

Notation "'let*' x ':=' o 'in' k" := (bindOutcome o (fun x => k))
  (at level 10, x name, o at level 100, k at level 200).

(** [await fetchWithTimeout(url, ...)] *)
Definition awaitFetch {B} (f : Fetched B) : Outcome (Response B) :=
  match f with
  | Responded r => Returned r
  | Rejected e => Thrown e
  end.

(** [await response.json()] *)
Definition awaitJson (r : Response (option Json)) : Outcome Json :=
  match body r with
  | Some json => Returned json
  | None => Thrown "Unexpected token in JSON"
  end.

Definition localeQuery (locale : option string) : string :=
  match locale with
  | Some l => if Js.truthy l then "&aposLocale=" ++ l else EmptyString
  | None => EmptyString
  end.

(** [for (const x of v) acc = body(acc, x)], where the body may throw. *)
Definition forOf {A} (v : Json) (body : A -> Json -> Outcome A) (init : A)
    : Outcome A :=
  match JsonOps.iterate v with
  | None => Thrown "not iterable"
  | Some items =>
      fold_left (fun acc x => let* a := acc in body a x) items (Returned init)
  end.

Definition fetchAllPages (parseURL : UrlParser) (api : Api)
    (aposHost : string) (locale : option string) : Outcome (list string) :=
  let url :=
    aposHost ++ "/api/v1/@apostrophecms/page?all=1&flat=1&published=1"
    ++ localeQuery locale in
  let* response := awaitFetch (api url) in
  if negb (ok response) then
    Thrown ("Failed to fetch pages: " ++ Js.ofNat (status response) ++ " "
            ++ statusText response)
  else
    let* json := awaitJson response in
    let* pages :=
      match json with
      | JArr _ => Returned json
      | JNull => Thrown "Cannot read properties of null"
      | _ =>
          match JsonOps.prop "results" json with
          | Some JNull | None => Returned json
          | Some results => Returned results
          end
      end in
    let* urls :=
      if negb (JsonOps.truthy pages) then Returned []
      else
        forOf pages
          (fun urls page =>
             match page with
             | JNull => Thrown "Cannot read properties of null"
             | _ =>
                 match JsonOps.prop "_url" page with
                 | Some (JStr u) => Returned (urls ++ [normalizeUrl parseURL u])%list
                 | _ => Returned urls
                 end
             end)
          [] in
    let urls :=
      match locale with
      | Some l =>
          if Js.truthy l then
            let expectedHomepage := "/" ++ l ++ "/" in
            if negb (setHas expectedHomepage urls) && negb (setHas "/" urls)
            then (urls ++ ["/"])%list else urls
          else if negb (setHas "/" urls) then (urls ++ ["/"])%list else urls
      | None => if negb (setHas "/" urls) then (urls ++ ["/"])%list else urls
      end in
    Returned (Js.sort String.compare (dedupe urls)).

Definition probeCandidates (api : Api) (aposHost : string) : list string :=
  match api (aposHost ++ "/api/v1/") with
  | Rejected _ => []                                   (* probing failed *)
  | Responded response =>
      if negb (ok response) then []
      else
        match body response with
        | Some (JObj fields) =>
            filter (fun key => negb (setHas key ["search"; "page"]))
              (filter (fun key => negb (Js.startsWith "@apostrophecms/" key))
                 (JsonOps.keys fields))
        | _ => []
        end
  end.

Definition isPieceEndpoint (api : Api) (aposHost endpointKey : string)
    (locale : option string) : bool :=
  let url := aposHost ++ "/api/v1/" ++ endpointKey ++ "?perPage=1"
             ++ localeQuery locale in
  match api url with
  | Rejected _ => false                           (* endpoint check failed *)
  | Responded response =>
      if negb (ok response) then false
      else
        match body response with
        | None => false
        | Some json =>
            match JsonOps.prop "results" json with
            | Some (JArr (first :: _)) =>
                JsonOps.truthyOpt (JsonOps.prop "_url" first)
            | Some (JArr []) => true
            | _ => false
            end
        end
  end.

Definition heuristicTypes : list string :=
  ["article"; "news"; "product"; "blog"; "event"].

Definition discoverPieceTypes (api : Api) (aposHost : string)
    (locale : option string) : list string :=
  let candidates := probeCandidates api aposHost in
  let discoveredTypes :=
    filter (fun key => isPieceEndpoint api aposHost key locale) candidates in
  let discoveredTypes :=
    fold_left
      (fun discovered heuristicType =>
         if negb (setHas heuristicType discovered)
            && isPieceEndpoint api aposHost heuristicType locale
         then (discovered ++ [heuristicType])%list
         else discovered)
      heuristicTypes discoveredTypes in
  dedupe discoveredTypes.

Definition itemsPerPage : nat := 100.

(** The URL of one page of the listing of a piece type. *)
Definition piecesUrl (aposHost : string) (locale : option string)
    (pieceType : string) (currentPage : nat) : string :=
  aposHost ++ "/api/v1/" ++ pieceType ++ "?page=" ++ Js.ofNat currentPage
  ++ "&perPage=" ++ Js.ofNat itemsPerPage ++ localeQuery locale.

(** The [for (;;)] loop of [fetchAllPieces]; [None] when [fuel] requests
    were not enough to reach a short page. *)
Fixpoint piecesLoop (parseURL : UrlParser) (api : Api)
    (aposHost pieceType : string) (locale : option string)
    (fuel currentPage : nat) (urls : list string)
    : option (Outcome (list string)) :=
  match fuel with
  | O => None
  | S fuel' =>
      let url := piecesUrl aposHost locale pieceType currentPage in
      match awaitFetch (api url) with
      | Thrown e => Some (Thrown e)
      | Returned response =>
          if negb (ok response) then Some (Returned urls)          (* break *)
          else
            match awaitJson response with
            | Thrown e => Some (Thrown e)
            | Returned json =>
                let results :=
                  match JsonOps.prop "results" json with
                  | Some JNull | None => JArr []
                  | Some results => results
                  end in
                match
                  forOf results
                    (fun urls piece =>
                       match JsonOps.prop "_url" piece with
                       | Some u =>
                           if JsonOps.truthy u
                           then Returned (urls ++ [normalizeUrl parseURL (JsonOps.toStr u)])%list
                           else Returned urls
                       | None => Returned urls
                       end)
                    urls
                with
                | Thrown e => Some (Thrown e)
                | Returned urls =>
                    if (JsonOps.lengthOf results <? itemsPerPage)%nat
                    then Some (Returned urls)                       (* break *)
                    else piecesLoop parseURL api aposHost pieceType locale
                           fuel' (S currentPage) urls
                end
            end
      end
  end.

Definition fetchAllPieces (parseURL : UrlParser) (api : Api) (fuel : nat)
    (aposHost pieceType : string) (locale : option string)
    : option (Outcome (list string)) :=
  piecesLoop parseURL api aposHost pieceType locale fuel 1 [].

(** The loop over the piece types in [generateSitemap]. *)
Fixpoint piecesOfTypes (parseURL : UrlParser) (api : Api) (fuel : nat)
    (aposHost : string) (locale : option string)
    (types : list string) (pieceUrls : list string)
    : option (Outcome (list string)) :=
  match types with
  | [] => Some (Returned pieceUrls)
  | pieceType :: rest =>
      match fetchAllPieces parseURL api fuel aposHost pieceType locale with
      | None => None
      | Some (Thrown e) => Some (Thrown e)
      | Some (Returned urls) =>
          piecesOfTypes parseURL api fuel aposHost locale rest
            (pieceUrls ++ urls)%list
      end
  end.

Definition generateSitemap (parseURL : UrlParser) (api : Api) (fuel : nat)
    (aposHost aposKey : string) (locale : option string)
    (pieceTypes : option (list string)) : option (Outcome (list string)) :=
  if negb (Js.truthy aposKey) then Some (Thrown "aposKey is required")
  else
    match fetchAllPages parseURL api aposHost locale with
    | Thrown e => Some (Thrown e)
    | Returned pageUrls =>
        let types :=
          match pieceTypes with
          | Some types => types
          | None => discoverPieceTypes api aposHost locale
          end in
        match piecesOfTypes parseURL api fuel aposHost locale types [] with
        | None => None
        | Some (Thrown e) => Some (Thrown e)
        | Some (Returned pieceUrls) =>
            Some (Returned (Js.sort String.compare (dedupe (pageUrls ++ pieceUrls))))
        end
    end.

(* ------------------------------------------------------------------ *)
(** ** src/utils.js: cleanDir, copyDir and the files of writeHtmlForPath *)
(* ------------------------------------------------------------------ *)

(** What a path of the file system leads to: a file with its content, or
    a directory with its entries by name, in the order of
    [fs.readdirSync].  (Links and special files are left out.)  A path
    that leads to nothing is [None]. *)
Inductive FsNode : Type :=
| FsFile (data : string)
| FsDir (entries : list (string * FsNode)).

(** The entry of a directory with this name. *)
Fixpoint getEntry (name : string) (entries : list (string * FsNode))
    : option FsNode :=
  match entries with
  | [] => None
  | (n, node) :: rest => if String.eqb n name then Some node else getEntry name rest
  end.

(** The directory after the entry with this name was created or
    replaced. *)
Fixpoint setEntry (name : string) (node : FsNode)
    (entries : list (string * FsNode)) : list (string * FsNode) :=
  match entries with
  | [] => [(name, node)]
  | (n, old) :: rest =>
      if String.eqb n name then (n, node) :: rest
      else (n, old) :: setEntry name node rest
  end.

(** [cleanDir(directory)]: what the path leads to afterwards
    ([rmSync] with [recursive] and [force], then [mkdirSync]). *)
Definition cleanDir (directory : option FsNode) : option FsNode :=
  Some (FsDir []).

(** The loop of [copyDir] over the entries of the source directory,
    given the copy of a directory ([copy], the recursive call): the
    entries of the destination afterwards, and how the loop ends.
    [copyFileSync] replaces a file and throws when its destination is a
    directory.  A thrown error is given by its code. *)
Section CopyEntries.
Variable copy : FsNode -> option FsNode -> option FsNode * Outcome unit.

Fixpoint copyEntries (entries made : list (string * FsNode))
    : list (string * FsNode) * Outcome unit :=
  match entries with
  | [] => (made, Returned tt)
  | (name, entry) :: rest =>
      match entry with
      | FsDir _ =>
          match copy entry (getEntry name made) with
          | (Some copied, Returned _) =>
              copyEntries rest (setEntry name copied made)
          | (Some copied, Thrown e) => (setEntry name copied made, Thrown e)
          | (None, ended) => (made, ended)
          end
      | FsFile data =>
          match getEntry name made with
          | Some (FsDir _) =>
              (made, Thrown "EISDIR")
          | _ => copyEntries rest (setEntry name (FsFile data) made)
          end
      end
  end.
End CopyEntries.

(** [copyDir(sourceDir, destDir)] for a source that exists: what the
    destination path leads to afterwards, and how the call ends.
    [mkdirSync] throws when the destination is a file, and [readdirSync]
    when the source is one. *)
Fixpoint copyExisting (source : FsNode) (dest : option FsNode)
    : option FsNode * Outcome unit :=
  match dest with
  | Some (FsFile _) => (dest, Thrown "EEXIST")
  | _ =>
      let made :=
        match dest with
        | Some (FsDir entries) => entries
        | _ => []
        end in
      match source with
      | FsFile _ => (Some (FsDir made), Thrown "ENOTDIR")
      | FsDir entries =>
          let '(made, ended) := copyEntries copyExisting entries made in
          (Some (FsDir made), ended)
      end
  end.

(** [copyDir(sourceDir, destDir)], for two paths of which neither lies
    under the other. *)
Definition copyDir (source dest : option FsNode) : option FsNode * Outcome unit :=
  match source with
  | None => (dest, Returned tt)              (* [!fs.existsSync(sourceDir)] *)
  | Some source => copyExisting source dest
  end.

(** What [path.join(directory, name)] leads to. *)
Definition entryOf (name : string) (directory : option FsNode) : option FsNode :=
  match directory with
  | Some (FsDir entries) => getEntry name entries
  | _ => None
  end.

(** [exportStatic], 'Preparing output directory...': the output directory
    afterwards; [dist] is what [path.join(process.cwd(), "dist")] leads
    to. *)
Definition prepareOutputDir (dist output : option FsNode)
    : option FsNode * Outcome unit :=
  let output := cleanDir output in
  match entryOf "client" dist with
  | Some distClient => copyDir (Some distClient) output
  | None =>
      match dist with
      | Some _ => copyDir dist output
      | None => (output, Returned tt)
      end
  end.

(** The names that a path leads through, from the root; the path is one
    that [path.join] or [path.resolve] has normalized. *)
Definition components (path : string) : list string :=
  filter Js.truthy (Js.split "/" path).

(** [path.dirname(path)] *)
Definition dirname (path : list string) : list string := removelast path.

(** [fs.mkdirSync(path, { recursive: true })] below a directory with
    these entries: the entries afterwards, or the error, by its code,
    when a file is in the way. *)
Fixpoint mkdirSync (path : list string) (entries : list (string * FsNode))
    : Outcome (list (string * FsNode)) :=
  match path with
  | [] => Returned entries
  | name :: rest =>
      let found :=
        match getEntry name entries with
        | Some (FsDir inner) => Some inner
        | Some (FsFile _) => None
        | None => Some []                              (* made *)
        end in
      match found with
      | Some inner =>
          match mkdirSync rest inner with
          | Returned inner' => Returned (setEntry name (FsDir inner') entries)
          | Thrown e => Thrown e
          end
      | None =>
          Thrown (match rest with [] => "EEXIST" | _ :: _ => "ENOTDIR" end)
      end
  end.

(** [fs.writeFileSync(path, data)]: the file is made or replaced; it is
    an error when its directory is not there or the path leads to a
    directory. *)
Fixpoint writeFileSync (path : list string) (data : string)
    (entries : list (string * FsNode)) : Outcome (list (string * FsNode)) :=
  match path with
  | [] => Thrown "EISDIR"
  | name :: rest =>
      match rest with
      | [] =>
          match getEntry name entries with
          | Some (FsDir _) => Thrown "EISDIR"
          | _ => Returned (setEntry name (FsFile data) entries)
          end
      | _ :: _ =>
          match getEntry name entries with
          | Some (FsDir inner) =>
              match writeFileSync rest data inner with
              | Returned inner' => Returned (setEntry name (FsDir inner') entries)
              | Thrown e => Thrown e
              end
          | Some (FsFile _) => Thrown "ENOTDIR"
          | None => Thrown "ENOENT"
          end
      end
  end.

(** [writeHtmlForPath(rootDir, urlPath, html)] on the file system with
    these entries in its root directory: the entries afterwards, and how
    the call ends. *)
Definition writeHtmlForPath (localeCompare : string -> string -> comparison)
    (pathJoin : list string -> string) (rootDir urlPath html : string)
    (entries : list (string * FsNode))
    : list (string * FsNode) * Outcome unit :=
  let staticPath := queryParamsToPath localeCompare urlPath in
  let isFile := Js.hasExtension staticPath in
  let outputPath :=
    components (outputPath localeCompare pathJoin rootDir urlPath) in
  let made :=
    if isFile then mkdirSync (dirname outputPath) entries
    else if String.eqb staticPath "/" then Returned entries
    else mkdirSync (dirname outputPath) entries in
  match made with
  | Thrown e => (entries, Thrown e)
  | Returned entries =>
      match writeFileSync outputPath html entries with
      | Returned entries' => (entries', Returned tt)
      | Thrown e => (entries, Thrown e)
      end
  end.

(* ------------------------------------------------------------------ *)
(** ** src/utils.js: mapLimit                                          *)
(* ------------------------------------------------------------------ *)

(** [mapLimit] starts [limit] runners over one shared queue.  A runner is
    an [async] function: it runs until it awaits, and is resumed later, in
    an order that the event loop decides.  The model makes the suspension
    points and the order explicit.

    An [async] worker over a shared state [State] runs synchronously from its
    call ([start]) or from a resumption ([resume]) to its next [await]
    ([Pending], with what is left to do) or to its end ([Settled]).
    [size] counts the awaits that a suspended still has before it,
    and [bound] bounds it for a worker that was just started. *)
Section MapLimit.
Context {Item State W : Type}.

Inductive Progress : Type :=
| Pending (w : W)
| Settled (r : Outcome unit).

Record Worker : Type := mkWorker {
  start : Item -> State -> State * Progress;
  resume : W -> State -> State * Progress;
  size : W -> nat;
  bound : nat
}.

(** [results] of [mapLimit] *)
Record Results : Type := mkResults {
  success : nat;
  failed : nat;
  errors : list (Item * string)
}.

(** A runner is suspended at [await worker(item)], or has returned. *)
Definition Runner : Type := option (Item * Progress).

Record Pool : Type := mkPool {
  queue : list Item;
  results : Results;
  runners : list Runner;
  shared : State;
  invoked : list Item;                  (* the calls [worker(item)] so far *)
  settledLog : list (Item * Outcome unit)  (* how they ended, so far *)
}.

Variable worker : Worker.

(** A runner at the top of [while (queue.length)]. *)
Definition nextItem (p : Pool) : Pool * Runner :=
  match queue p with
  | [] => (p, None)
  | item :: rest =>
      let '(s, progress) := start worker item (shared p) in
      (mkPool rest (results p) (runners p) s
         (invoked p ++ [item])%list (settledLog p),
       Some (item, progress))
  end.

(** The [try]/[catch] around [await worker(item)]. *)
Definition record (item : Item) (r : Outcome unit) (res : Results) : Results :=
  match r with
  | Returned _ => mkResults (S (success res)) (failed res) (errors res)
  | Thrown message =>
      mkResults (success res) (S (failed res))
        (errors res ++ [(item, message)])%list
  end.

Fixpoint setNth {A} (i : nat) (x : A) (l : list A) : list A :=
  match l, i with
  | [], _ => []
  | _ :: l', O => x :: l'
  | y :: l', S i' => y :: setNth i' x l'
  end.

Definition withRunner (i : nat) (r : Runner) (p : Pool) : Pool :=
  mkPool (queue p) (results p) (setNth i r (runners p)) (shared p)
    (invoked p) (settledLog p).

(** The event loop resumes runner [i]. *)
Definition stepRunner (i : nat) (p : Pool) : Pool :=
  match nth_error (runners p) i with
  | Some (Some (item, Settled r)) =>
      let p1 :=
        mkPool (queue p) (record item r (results p)) (runners p) (shared p)
          (invoked p) (settledLog p ++ [(item, r)])%list in
      let '(p2, runner) := nextItem p1 in
      withRunner i runner p2
  | Some (Some (item, Pending w)) =>
      let '(s, progress) := resume worker w (shared p) in
      withRunner i (Some (item, progress))
        (mkPool (queue p) (results p) (runners p) s (invoked p) (settledLog p))
  | _ => p
  end.

(** [Array.from({ length: limit }, processQueue)]: each runner is called
    in turn and runs to its first [await]. *)
Fixpoint spawn (limit : nat) (p : Pool) : Pool :=
  match limit with
  | O => p
  | S limit' =>
      let '(p1, runner) := nextItem p in
      spawn limit'
        (mkPool (queue p1) (results p1) (runners p1 ++ [runner])%list
           (shared p1) (invoked p1) (settledLog p1))
  end.

(** The indices of the runners that are still suspended. *)
Fixpoint suspendedFrom (i : nat) (rs : list Runner) : list nat :=
  match rs with
  | [] => []
  | Some _ :: rs' => i :: suspendedFrom (S i) rs'
  | None :: rs' => suspendedFrom (S i) rs'
  end.

Definition suspended (p : Pool) : list nat := suspendedFrom 0 (runners p).

(** [sched t] picks which suspended runner the event loop resumes at its
    [t]-th turn. *)
Fixpoint runPool (sched : nat -> nat) (fuel t : nat) (p : Pool) : Pool :=
  match fuel with
  | O => p
  | S fuel' =>
      match suspended p with
      | [] => p
      | i0 :: others =>
          let active := i0 :: others in
          let i := nth (sched t mod List.length active) active i0 in
          runPool sched fuel' (S t) (stepRunner i p)
      end
  end.

Definition initialPool (items : list Item) (s : State) : Pool :=
  mkPool items (mkResults 0 0 []) [] s [] [].

Definition poolFuel (items : list Item) : nat :=
  List.length items * (bound worker + 2).

Definition finalPool (items : list Item) (limit : nat)
    (sched : nat -> nat) (s : State) : Pool :=
  runPool sched (poolFuel items) 0 (spawn limit (initialPool items s)).

(** [await mapLimit(items, limit, worker)]: the results and the shared
    state once every runner has returned ([await Promise.all(runners)]);
    [None] when some runner is still suspended after [poolFuel] turns. *)
Definition mapLimit (items : list Item) (limit : nat)
    (sched : nat -> nat) (s : State) : option (Results * State) :=
  let p := finalPool items limit sched s in
  match suspended p with
  | [] => Some (results p, shared p)
  | _ => None
  end.
End MapLimit.

Arguments Progress : clear implicits.
Arguments Worker : clear implicits.
Arguments Results : clear implicits.
Arguments Pool : clear implicits.
Arguments Runner : clear implicits.

(* ------------------------------------------------------------------ *)
(** ** src/index.js: the crawl loop of exportStatic                    *)
(* ------------------------------------------------------------------ *)

(** What the crawl loop is closed over: the platform, the two servers,
    the options of [exportStatic], and the file system as the loop finds
    it (the entries of its root directory). *)
Record Env : Type := mkEnv {
  parseURL : UrlParser;
  localeCompare : string -> string -> comparison;
  pathJoin : list string -> string;
  jsdom : Jsdom;
  renderEmbed : Json -> string -> string;
  (** the preview server: how the [n]-th request of one [fetchWithRetry]
      call for a page URL settles; the body is the text of the page *)
  preview : string -> nat -> Fetched string;
  backend : Backend;
  aposHost : string;
  previewUrl : string;
  resolvedOutputDir : string;
  retries : nat;
  concurrency : nat;
  fileSystem : list (string * FsNode)
}.

(** The variables that the handlers of all runners share, and the file
    system, with two logs: the files written and the [fetchWithRetry]
    calls made for pages. *)
Record Crawl : Type := mkCrawl {
  processedUrls : list string;
  urlQueue : list string;
  processedVideoWidgets : nat;
  crawlErrors : list (string * string);
  written : list (string * string);
  fetchLog : list string;
  disk : list (string * FsNode)
}.

(** A handler suspended at [await fetchWithRetry(pageUrl, ...)] or at
    [await processVideoWidgets(html, ...)]. *)
Inductive Handler : Type :=
| Fetching (urlPath pageUrl : string)
| Rendering (urlPath html : string) (videoWidgetCount : nat).

(** [if (!processedUrls.has(link) && !urlQueue.includes(link)) urlQueue.push(link)] *)
Definition enqueueLink (c : Crawl) (link : string) : Crawl :=
  if negb (setHas link (processedUrls c)) && negb (setHas link (urlQueue c))
  then mkCrawl (processedUrls c) (urlQueue c ++ [link])%list
         (processedVideoWidgets c) (crawlErrors c) (written c) (fetchLog c)
         (disk c)
  else c.

Definition enqueueLinks (foundLinks : list string) (c : Crawl) : Crawl :=
  fold_left enqueueLink foundLinks c.

(** From [html = makeUrlsRelative(html, previewUrl)] to the end of the
    [try] statement: the page is written and its path marked as
    processed, or the error of [writeHtmlForPath] is caught and pushed to
    [results.errors].  ([onProgress] is taken not to throw.) *)
Definition finishPage (env : Env) (urlPath html : string) (c : Crawl) : Crawl :=
  let html :=
    serialize (jsdom env)
      (makeUrlsRelative (parseURL env) (localeCompare env)
         (parseHTML (jsdom env) html) (previewUrl env)) in
  match writeHtmlForPath (localeCompare env) (pathJoin env)
          (resolvedOutputDir env) urlPath html (disk c) with
  | (entries, Returned _) =>
      let file :=
        outputPath (localeCompare env) (pathJoin env) (resolvedOutputDir env)
          urlPath in
      mkCrawl (setAdd urlPath (processedUrls c)) (urlQueue c)
        (processedVideoWidgets c) (crawlErrors c)
        (written c ++ [(file, html)])%list (fetchLog c) entries
  | (entries, Thrown message) =>
      mkCrawl (processedUrls c) (urlQueue c) (processedVideoWidgets c)
        (crawlErrors c ++ [(urlPath, message)])%list (written c) (fetchLog c)
        entries
  end.

Definition handlerStart (env : Env) (urlPath : string) (c : Crawl)
    : Crawl * Progress Handler :=
  if setHas urlPath (processedUrls c) then (c, Settled (Returned tt))
  else
    match parseURL env urlPath (Some (previewUrl env)) with
    | None => (c, Settled (Thrown "Invalid URL"))
    | Some url =>
        (mkCrawl (processedUrls c) (urlQueue c) (processedVideoWidgets c)
           (crawlErrors c) (written c) (fetchLog c ++ [urlPath])%list (disk c),
         Pending (Fetching urlPath (href url)))
    end.

Definition handlerResume (env : Env) (h : Handler) (c : Crawl)
    : Crawl * Progress Handler :=
  match h with
  | Fetching urlPath pageUrl =>
      match result (fetchWithRetry (preview env pageUrl) (retries env)) with
      | Thrown message =>
          (mkCrawl (processedUrls c) (urlQueue c) (processedVideoWidgets c)
             (crawlErrors c ++ [(urlPath, message)])%list (written c) (fetchLog c)
             (disk c),
           Settled (Returned tt))
      | Returned response =>
          let html := body response in
          let foundLinks :=
            extractInternalLinks (parseURL env) (parseHTML (jsdom env) html)
              (previewUrl env) in
          let c := enqueueLinks foundLinks c in
          let videoWidgetCount := videoWidgetCount html in
          if (0 <? videoWidgetCount)%nat
          then (c, Pending (Rendering urlPath html videoWidgetCount))
          else (finishPage env urlPath html c, Settled (Returned tt))
      end
  | Rendering urlPath html videoWidgetCount =>
      let html :=
        processVideoWidgets (jsdom env) (renderEmbed env) (backend env) html
          (aposHost env) (retries env) in
      let c :=
        mkCrawl (processedUrls c) (urlQueue c)
          (processedVideoWidgets c + videoWidgetCount) (crawlErrors c)
          (written c) (fetchLog c) (disk c) in
      (finishPage env urlPath html c, Settled (Returned tt))
  end.

Definition handlerSize (h : Handler) : nat :=
  match h with
  | Fetching _ _ => 1
  | Rendering _ _ _ => 0
  end.

Definition handler (env : Env) : Worker string Crawl Handler :=
  mkWorker (handlerStart env) (handlerResume env) handlerSize 1.

(** The [while (urlQueue.length > 0)] loop.  [sched round] is the order in
    which the event loop resumes the runners of the [round]-th batch;
    [None] when [fuel] batches were not enough to empty the queue. *)
Fixpoint crawlLoop (env : Env) (sched : nat -> nat -> nat)
    (fuel round : nat) (c : Crawl) : option Crawl :=
  match urlQueue c with
  | [] => Some c
  | _ :: _ =>
      match fuel with
      | O => None
      | S fuel' =>
          let batch := firstn (concurrency env * 2) (urlQueue c) in
          let c :=
            mkCrawl (processedUrls c) (skipn (concurrency env * 2) (urlQueue c))
              (processedVideoWidgets c) (crawlErrors c) (written c) (fetchLog c)
              (disk c) in
          let batchUrls :=
            filter (fun url => negb (setHas url (processedUrls c))) batch in
          match batchUrls with
          | [] => crawlLoop env sched fuel' (S round) c
          | _ :: _ =>
              match mapLimit (handler env) batchUrls (concurrency env) (sched round) c with
              | None => None
              | Some (_, c) => crawlLoop env sched fuel' (S round) c
              end
          end
      end
  end.

Definition initialCrawl (allUrls : list string)
    (entries : list (string * FsNode)) : Crawl :=
  mkCrawl [] allUrls 0 [] [] [] entries.

Definition crawl (env : Env) (sched : nat -> nat -> nat) (fuel : nat)
    (allUrls : list string) : option Crawl :=
  crawlLoop env sched fuel 0 (initialCrawl allUrls (fileSystem env)).

(** The [results] that [exportStatic] returns for a finished crawl. *)
Record ExportResults : Type := mkExportResults {
  exportSuccess : bool;
  pagesRendered : nat;
  videoWidgetsProcessed : nat;
  exportErrors : list (string * string)
}.

Definition exportResults (c : Crawl) : ExportResults :=
  mkExportResults
    (match crawlErrors c with [] => true | _ => false end)
    (List.length (processedUrls c))
    (processedVideoWidgets c)
    (crawlErrors c).

(* ------------------------------------------------------------------ *)
(** ** src/index.js: the URLs to render                                *)
(* ------------------------------------------------------------------ *)

(** [applyLocalePrefix(urls, localePrefix)]; the prefix is [None] when the
    configuration of the locale has none. *)
Definition applyLocalePrefix (urls : list string) (localePrefix : option string)
    : list string :=
  match localePrefix with
  | None => urls
  | Some localePrefix =>
      if negb (Js.truthy localePrefix) then urls
      else
        map (fun url =>
               if Js.startsWith (localePrefix ++ "/") url
                  || String.eqb url localePrefix
               then url
               else if String.eqb url "/" then localePrefix ++ "/"
               else localePrefix ++ url)
          urls
  end.

(** The loop over [Object.entries(localeConfig)]: a locale is given by its
    key and by the [prefix] of its configuration. *)
Fixpoint localeUrls (parseURL : UrlParser) (api : Api) (fuel : nat)
    (aposHost aposKey : string) (pieceTypes : option (list string))
    (locales : list (string * option string)) (allUrls : list string)
    : option (Outcome (list string)) :=
  match locales with
  | [] => Some (Returned allUrls)
  | (locale, prefix) :: rest =>
      match generateSitemap parseURL api fuel aposHost aposKey (Some locale)
              pieceTypes with
      | None => None
      | Some (Thrown e) => Some (Thrown e)
      | Some (Returned urls) =>
          let prefixedUrls := applyLocalePrefix urls prefix in
          localeUrls parseURL api fuel aposHost aposKey pieceTypes rest
            (allUrls ++ prefixedUrls)%list
      end
  end.

(** The step "Generating sitemap" of [exportStatic]: the list [allUrls]
    that the crawl starts from. *)
Definition sitemapUrls (parseURL : UrlParser) (api : Api) (fuel : nat)
    (aposHost aposKey : string) (pieceTypes : option (list string))
    (localeConfig : option (list (string * option string)))
    : option (Outcome (list string)) :=
  let found :=
    match localeConfig with
    | Some locales =>
        match localeUrls parseURL api fuel aposHost aposKey pieceTypes
                locales [] with
        | Some (Returned allUrls) =>
            Some (Returned (Js.sort String.compare (dedupe allUrls)))
        | other => other
        end
    | None =>
        generateSitemap parseURL api fuel aposHost aposKey None pieceTypes
    end in
  match found with
  | Some (Returned allUrls) =>
      if (List.length allUrls =? 0)%nat
      then Some (Thrown "No URLs found to render")
      else Some (Returned allUrls)
  | other => other
  end.

Definition fallbackNotFound : string :=
  "<!doctype html><meta charset='utf-8'><title>Not found</title><h1>404</h1>".

(** The step "Create 404 page" of [exportStatic]: the text written to
    [404.html], [None] when nothing is written.  [net] is how the requests
    for [previewUrl/404] settle, with the body [None] when
    [response.text()] rejects; [exists404] is
    [fs.existsSync(notFoundPath)]. *)
Definition notFoundPage (net : nat -> Fetched (option string)) (retries : nat)
    (exists404 : bool) : option string :=
  let fallback := if negb exists404 then Some fallbackNotFound else None in
  match result (fetchWithRetry net retries) with
  | Returned response =>
      if ok response then
        match body response with
        | Some html => Some html
        | None => fallback                              (* [catch] *)
        end
      else None
  | Thrown _ => fallback                                (* [catch] *)
  end.

(* ------------------------------------------------------------------ *)
(** ** bin/apos-astro-static.js: parseCliArgs                          *)
(* ------------------------------------------------------------------ *)

(** The values that [parseCliArgs] gives to the options; [Num] stands for
    the numbers of the platform. *)
Inductive OptionValue (Num : Type) : Type :=
| OBool (b : bool)
| ONumber (n : Num)
| OString (s : string)
| OList (l : list string).
Arguments OBool {Num} _.
Arguments ONumber {Num} _.
Arguments OString {Num} _.
Arguments OList {Num} _.

Definition isLower (c : ascii) : bool :=
  let n := nat_of_ascii c in ((97 <=? n) && (n <=? 122))%nat.

(** [letter.toUpperCase()] for a letter of [a-z]. *)
Definition toUpper (c : ascii) : ascii := ascii_of_nat (nat_of_ascii c - 32).

(** [key.replace(/-([a-z])/g, (_, letter) => letter.toUpperCase())] *)
Fixpoint camelCase (key : string) : string :=
  match key with
  | EmptyString => EmptyString
  | String c rest =>
      if Ascii.eqb c "-" then
        match rest with
        | String letter rest' =>
            if isLower letter then String (toUpper letter) (camelCase rest')
            else String c (camelCase rest)
        | EmptyString => String c EmptyString
        end
      else String c (camelCase rest)
  end.

(** The object [options], as the list of its properties. *)
Definition Options (Num : Type) : Type := list (string * OptionValue Num).

(** [options.key] *)
Fixpoint getOption {Num} (key : string) (options : Options Num)
    : option (OptionValue Num) :=
  match options with
  | [] => None
  | (k, v) :: rest => if String.eqb k key then Some v else getOption key rest
  end.

(** [options.key = value] *)
Fixpoint setOption {Num} (key : string) (value : OptionValue Num)
    (options : Options Num) : Options Num :=
  match options with
  | [] => [(key, value)]
  | (k, v) :: rest =>
      if String.eqb k key then (key, value) :: rest
      else (k, v) :: setOption key value rest
  end.

(** [options[camelKey] = value] for a value that is not an object: the
    key [__proto__] names the setter of the prototype, which ignores such
    a value. *)
Definition assignOption {Num} (camelKey : string) (value : OptionValue Num)
    (options : Options Num) : Options Num :=
  if String.eqb camelKey "__proto__" then options
  else setOption camelKey value options.

(** [arg.slice(2)] *)
Definition slice2 (arg : string) : string :=
  match arg with
  | String _ (String _ rest) => rest
  | _ => EmptyString
  end.

(** The body of the loop of [parseCliArgs].  [toNumber] is [Number] on
    strings, [None] for [NaN]; [trim] is [String.prototype.trim]. *)
Definition parseArg {Num} (toNumber : string -> option Num)
    (trim : string -> string) (options : Options Num) (arg : string)
    : Options Num :=
  if Js.startsWith "--" arg then
    let pieces := Js.split "=" (slice2 arg) in
    let key := hd EmptyString pieces in
    let camelKey := camelCase key in
    match nth_error pieces 1 with
    | None =>
        (* handle flags *)
        if String.eqb key "download-uploads"
        then setOption "downloadUploads" (OBool true) options
        else assignOption camelKey (OBool true) options
    | Some value =>
        if String.eqb key "piece-types" then
          setOption "pieceTypes"
            (OList (filter Js.truthy (map trim (Js.split "," value)))) options
        else if String.eqb key "download-uploads" then
          if String.eqb value "copy" || String.eqb value "copy-only"
          then setOption "downloadUploads" (OString "copy-only") options
          else if String.eqb value "true"
          then setOption "downloadUploads" (OBool true) options
          else setOption "downloadUploads" (OBool false) options
        else
          match toNumber value with
          | Some n => assignOption camelKey (ONumber n) options
          | None => assignOption camelKey (OString value) options
          end
    end
  else options.

(** [parseCliArgs()], for [args = process.argv.slice(2)]. *)
Definition parseCliArgs {Num} (toNumber : string -> option Num)
    (trim : string -> string) (args : list string) : Options Num :=
  fold_left (parseArg toNumber trim) args [].

(* ------------------------------------------------------------------ *)
(** ** src/processors/uploads.js: the downloads of extractImagesFromHtml *)
(* ------------------------------------------------------------------ *)

(** What is left of [s] after the prefix [p]; [None] when [s] does not
    start with [p]. *)
Fixpoint afterPrefix (p s : string) : option string :=
  match p, s with
  | EmptyString, _ => Some s
  | String a p', String b s' =>
      if Ascii.eqb a b then afterPrefix p' s' else None
  | String _ _, EmptyString => None
  end.

(** The longest prefix without a slash, and the rest. *)
Fixpoint upToSlash (s : string) : string * string :=
  match s with
  | EmptyString => (EmptyString, EmptyString)
  | String c s' =>
      if Ascii.eqb c "/" then (EmptyString, s)
      else let '(a, b) := upToSlash s' in (String c a, b)
  end.

(** [s.replace(/^https?:\/\/[^/]+/, "")] *)
Definition stripOrigin (s : string) : string :=
  let strip (scheme : string) : option string :=
    match afterPrefix scheme s with
    | Some rest =>
        let '(authority, tail) := upToSlash rest in
        if Js.truthy authority then Some tail else None
    | None => None
    end in
  match strip "https://" with
  | Some tail => tail
  | None =>
      match strip "http://" with
      | Some tail => tail
      | None => s
      end
  end.

(** The counters of the loop, and the files that it wrote. *)
Record Downloads (Bytes : Type) : Type := mkDownloads {
  downloaded : nat;
  failedDownloads : nat;
  saved : list (string * Bytes)
}.
Arguments mkDownloads {Bytes} _ _ _.
Arguments downloaded {Bytes} _.
Arguments failedDownloads {Bytes} _.
Arguments saved {Bytes} _.

(** The body of the loop over [uploadUrls].  [net url] is how the requests
    of [fetchWithRetry] for [url] settle; the body of a response is [None]
    when [response.arrayBuffer()] rejects.  The calls of [mkdirSync] and
    [writeFileSync] are taken to succeed; [saved] has the files written. *)
Definition downloadUpload {Bytes} (pathJoin : list string -> string)
    (net : string -> nat -> Fetched (option Bytes))
    (staticDir aposHost : string) (retries : nat)
    (d : Downloads Bytes) (uploadUrl : string) : Downloads Bytes :=
  let fullUrl :=
    if Js.startsWith "http" uploadUrl then uploadUrl else aposHost ++ uploadUrl in
  let relativePath := stripOrigin fullUrl in
  let destPath := pathJoin [staticDir; relativePath] in
  let failure := mkDownloads (downloaded d) (S (failedDownloads d)) (saved d) in
  match result (fetchWithRetry (net fullUrl) retries) with
  | Returned response =>
      match body response with
      | Some buffer =>
          mkDownloads (S (downloaded d)) (failedDownloads d)
            (saved d ++ [(destPath, buffer)])%list
      | None => failure                                  (* [catch] *)
      end
  | Thrown _ => failure                                  (* [catch] *)
  end.

(** The loop [for (const uploadUrl of uploadUrls)]. *)
Definition downloadUploads {Bytes} (pathJoin : list string -> string)
    (net : string -> nat -> Fetched (option Bytes))
    (staticDir aposHost : string) (retries : nat)
    (uploadUrls : list string) : Downloads Bytes :=
  fold_left (downloadUpload pathJoin net staticDir aposHost retries)
    uploadUrls (mkDownloads 0 0 []).

(* ------------------------------------------------------------------ *)
(** ** Instances of the platform functions                             *)
(* ------------------------------------------------------------------ *)

(** Small instances of the platform parameters, used to run the model on
    examples.  Each agrees with the platform on the inputs described in its
    comment and makes no claim outside them. *)
Module Platform.

(** The part before the first character satisfying [stop], and the rest. *)
Fixpoint span (stop : ascii -> bool) (s : string) : string * string :=
  match s with
  | EmptyString => (EmptyString, EmptyString)
  | String c s' =>
      if stop c then (EmptyString, s)
      else let '(a, b) := span stop s' in (String c a, b)
  end.

Definition oneOf (cs : string) (c : ascii) : bool :=
  existsb (Ascii.eqb c) (list_ascii_of_string cs).

(** Path, search and hash of a reference without scheme and authority. *)
Definition splitRef (s : string) : string * string * string :=
  let '(path, rest) := span (oneOf "?#") s in
  let '(query, fragment) := span (oneOf "#") rest in
  (path, query, fragment).

Definition nonTrivial (s : string) : string :=
  if (String.length s <=? 1)%nat then EmptyString else s.

Definition makeURL (origin path query fragment : string) : URL :=
  mkURL (origin ++ path ++ query ++ fragment) origin path
    (nonTrivial query) (nonTrivial fragment).

Definition dropPrefix (n : nat) (s : string) : string :=
  String.substring n (String.length s - n) s.

Definition parseWithScheme (scheme input : string) : option URL :=
  let start := scheme ++ "://" in
  if Js.startsWith start input then
    let '(authority, ref) := span (oneOf "/?#") (dropPrefix (String.length start) input) in
    if Js.truthy authority then
      let '(path, query, fragment) := splitRef ref in
      let path := if Js.truthy path then path else "/" in
      Some (makeURL (start ++ authority) path query fragment)
    else None
  else None.

Definition parseAbsolute (input : string) : option URL :=
  match parseWithScheme "http" input with
  | Some u => Some u
  | None => parseWithScheme "https" input
  end.

Definition isAlpha (c : ascii) : bool :=
  let n := nat_of_ascii c in
  ((65 <=? n) && (n <=? 90) || (97 <=? n) && (n <=? 122))%nat.

(** [input] starts with a scheme ([mailto:], [tel:], [javascript:], ...). *)
Definition hasScheme (input : string) : bool :=
  match input with
  | String c _ =>
      isAlpha c &&
      (let '(name, rest) := span (fun c => negb (Js.isAlnum c || oneOf "+-." c)) input in
       Js.startsWith ":" rest)
  | EmptyString => false
  end.

(** The directory of a path: up to and including its last slash. *)
Fixpoint dirOf (path : string) : string :=
  match path with
  | EmptyString => EmptyString
  | String c rest =>
      if Js.includes "/" rest then String c (dirOf rest)
      else if Ascii.eqb c "/" then "/" else EmptyString
  end.

(** [new URL(input, base)] for [http] and [https] URLs written without
    credentials, default ports, upper-case hosts, dot segments,
    backslashes, white space or characters that the parser would
    percent-encode, and for references relative to such a base.  A
    reference with another scheme gets the opaque origin ["null"]. *)
Definition simpleURL : UrlParser := fun input base =>
  match parseAbsolute input with
  | Some u => Some u
  | None =>
      if hasScheme input then
        let '(name, rest) := span (oneOf ":") input in
        let '(path, query, fragment) := splitRef (dropPrefix 1 rest) in
        Some (mkURL input "null" path (nonTrivial query) (nonTrivial fragment))
      else
        match base with
        | None => None
        | Some b =>
            match parseAbsolute b with
            | None => None
            | Some bu =>
                let '(path, query, fragment) := splitRef input in
                if Js.startsWith "//" input then
                  parseAbsolute (fst (span (oneOf ":") b) ++ ":" ++ input)
                else if Js.startsWith "/" input then
                  Some (makeURL (origin bu) path query fragment)
                else if Js.truthy path then
                  Some (makeURL (origin bu) (dirOf (pathname bu) ++ path) query fragment)
                else if Js.truthy query then
                  Some (makeURL (origin bu) (pathname bu) query fragment)
                else
                  Some (makeURL (origin bu) (pathname bu) (search bu) fragment)
            end
        end
  end.

(** [path.join] for POSIX paths without [.] and [..] segments. *)
Definition simpleJoin (parts : list string) : string :=
  let segments := filter Js.truthy (flat_map (Js.split "/") parts) in
  let joined := Js.join "/" segments in
  match filter Js.truthy parts with
  | [] => "."
  | first :: _ => if Js.startsWith "/" first then "/" ++ joined else joined
  end.

(** Lexicographic comparison of weight sequences. *)
Fixpoint lexCompare (a b : list nat) : comparison :=
  match a, b with
  | [], [] => Eq
  | [], _ :: _ => Lt
  | _ :: _, [] => Gt
  | x :: a', y :: b' =>
      match Nat.compare x y with
      | Eq => lexCompare a' b'
      | c => c
      end
  end.

Definition isUpper (c : ascii) : bool :=
  let n := nat_of_ascii c in ((65 <=? n) && (n <=? 90))%nat.

Definition isDigit (c : ascii) : bool :=
  let n := nat_of_ascii c in ((48 <=? n) && (n <=? 57))%nat.

(** The primary weight of a character: digits before letters, letters in
    alphabetical order whatever their case. *)
Definition primary (c : ascii) : nat :=
  let n := nat_of_ascii c in
  if isUpper c then 1000 + (n - 65)
  else if isAlpha c then 1000 + (n - 97)
  else if isDigit c then 500 + (n - 48)
  else n.

(** The tertiary weight: lower case before upper case. *)
Definition tertiary (c : ascii) : nat := if isUpper c then 1 else 0.

(** [a.localeCompare(b)] in the root collation of ICU (the default of
    node), for strings of ASCII letters and digits: the strings are
    compared by their primary weights, and by case only when these are
    equal. *)
Definition rootCollation (a b : string) : comparison :=
  match lexCompare (map primary (list_ascii_of_string a))
                   (map primary (list_ascii_of_string b)) with
  | Eq => lexCompare (map tertiary (list_ascii_of_string a))
                     (map tertiary (list_ascii_of_string b))
  | c => c
  end.

(** Neither [#] nor [?]. *)
Definition clean (c : ascii) : Prop := c <> "#"%char /\ c <> "?"%char.

(** *** Documents *)

(** The character references [&amp;] and [&quot;] of an attribute value,
    read and written. *)
Fixpoint unescape (skip : nat) (s : string) : string :=
  match s with
  | EmptyString => EmptyString
  | String c s' =>
      match skip with
      | S skip' => unescape skip' s'
      | O =>
          if String.prefix "&amp;" s then String "&" (unescape 4 s')
          else if String.prefix "&quot;" s
          then String (ascii_of_nat 34) (unescape 5 s')
          else String c (unescape 0 s')
      end
  end.

Fixpoint escape (s : string) : string :=
  match s with
  | EmptyString => EmptyString
  | String c s' =>
      (if Ascii.eqb c "&" then "&amp;"
       else if Ascii.eqb c (ascii_of_nat 34) then "&quot;"
       else String c EmptyString) ++ escape s'
  end.

(** A value between two quotes of one kind at the head of [s], and what
    follows it. *)
Definition quoted (s : string) : option (string * string) :=
  match s with
  | String q rest =>
      if Ascii.eqb q "'" || Ascii.eqb q (ascii_of_nat 34)
      then UrlEncoded.cut q rest
      else None
  | EmptyString => None
  end.

(** The attribute [name] at the head of [s], after one space. *)
Definition attribute (name s : string) : option (string * string) :=
  match afterPrefix (" " ++ name ++ "=") s with
  | Some rest =>
      match quoted rest with
      | Some (value, after) => Some (unescape 0 value, after)
      | None => None
      end
  | None => None
  end.

(** The attribute, when it is there. *)
Definition optional (name s : string) : option string * string :=
  match attribute name s with
  | Some (value, after) => (Some value, after)
  | None => (None, s)
  end.

(** The start tag of an element that the processors select, at the head
    of [s], and what follows it.  The parent of a widget is taken to be
    [body]; the entries inside it are counted by [withExtents]. *)
Definition startTag (s : string) : option (Node * string) :=
  let close (node : Node) (after : string) :=
    match afterPrefix ">" after with
    | Some after' => Some (node, after')
    | None => None
    end in
  let anchor :=
    match afterPrefix "<a" s with
    | Some rest =>
        match attribute "href" rest with
        | Some (value, after) => close (Anchor (Some value)) after
        | None => None
        end
    | None => None
    end in
  let form :=
    match afterPrefix "<form" s with
    | Some rest =>
        match attribute "action" rest with
        | Some (value, after) => close (Form (Some value)) after
        | None => None
        end
    | None => None
    end in
  let widget :=
    match afterPrefix "<video-widget" s with
    | Some rest =>
        let '(url, rest) := optional "url" rest in
        let '(title, rest) := optional "title" rest in
        close (VideoWidget url title "body" 0) rest
    | None => None
    end in
  match anchor, form, widget with
  | Some found, _, _ => Some found
  | None, Some found, _ => Some found
  | None, None, found => found
  end.

(** The entries of a text: the start tags that the processors select,
    and between them the markup, cut before every [<]. *)
Fixpoint tokens (fuel : nat) (s : string) : list Node :=
  match fuel with
  | O => []
  | S fuel' =>
      match s with
      | EmptyString => []
      | String c rest =>
          match startTag s with
          | Some (node, after) => node :: tokens fuel' after
          | None =>
              let '(text, after) := span (fun x => Ascii.eqb x "<") rest in
              Markup (String c text) :: tokens fuel' after
          end
      end
  end.

(** The number of the entries up to the end tag of a widget, with it;
    [depth] widgets have started since. *)
Fixpoint extent (depth : nat) (rest : list Node) : nat :=
  match rest with
  | [] => 0
  | VideoWidget _ _ _ _ :: rest' => S (extent (S depth) rest')
  | Markup text :: rest' =>
      if String.eqb text "</video-widget>" then
        match depth with
        | O => 1
        | S depth' => S (extent depth' rest')
        end
      else S (extent depth rest')
  | _ :: rest' => S (extent depth rest')
  end.

Fixpoint withExtents (nodes : list Node) : list Node :=
  match nodes with
  | [] => []
  | VideoWidget url title parent _ :: rest =>
      VideoWidget url title parent (extent 0 rest) :: withExtents rest
  | node :: rest => node :: withExtents rest
  end.

Definition startTagOf (node : Node) : string :=
  let attr (name : string) (value : option string) :=
    match value with
    | Some v =>
        " " ++ name ++ "=" ++ String (ascii_of_nat 34) (escape v)
        ++ String (ascii_of_nat 34) EmptyString
    | None => EmptyString
    end in
  match node with
  | Anchor href => "<a" ++ attr "href" href ++ ">"
  | Form action => "<form" ++ attr "action" action ++ ">"
  | VideoWidget url title _ _ =>
      "<video-widget" ++ attr "url" url ++ attr "title" title ++ ">"
  | Markup text => text
  end.

(** [jsdom] for pages written in full ([html], [head] and [body] with
    their end tags) in which the [a] elements have the one attribute
    [href], the [form] elements the one attribute [action] and the
    [video-widget] elements, children of [body] with an end tag, at most
    [url] and [title] in this order; the values are between quotes of one
    kind and have no character reference but [&amp;] and [&quot;], and the
    rest of the page is markup that the parser and the serializer leave as
    it is written. *)
Definition simpleJsdom : Jsdom :=
  let parse (html : string) := withExtents (tokens (String.length html) html) in
  mkJsdom parse (fun _ markup => parse markup)
    (fun document => String.concat EmptyString (map startTagOf document)).

End Platform.

(* ------------------------------------------------------------------ *)
(** ** Vocabulary of the properties                                    *)
(* ------------------------------------------------------------------ *)

Open Scope list_scope.

(** The failures that the policy names as retryable: a rejected request
    (network error, timeout), a 5xx status, and 429. *)
Definition retryableFailure {B} (f : Fetched B) : Prop :=
  match f with
  | Rejected _ => True
  | Responded r => (500 <= status r < 600) \/ status r = 429
  end.

(** A response that the comment in the loop means not to retry. *)
Definition clientError {B} (r : Response B) : Prop :=
  400 <= status r < 500 /\ status r <> 429.

(** Every character of [s] satisfies [P]. *)
Fixpoint Every (P : ascii -> Prop) (s : string) : Prop :=
  match s with
  | EmptyString => True
  | String c s' => P c /\ Every P s'
  end.

(** The characters other than [c]. *)
Definition differs (c : ascii) : ascii -> Prop := fun x => x <> c.

(** [a] is not after [b]. *)
Definition notAfter {A} (cmp : A -> A -> comparison) (a b : A) : Prop := cmp a b <> Gt.

(** [x] comes before [y] in [l]. *)
Definition precedes {A} (x y : A) (l : list A) : Prop :=
  exists l1 l2 l3, l = l1 ++ x :: l2 ++ y :: l3.

(** What [Array.prototype.sort] asks of its comparator. *)
Definition consistentComparator (lc : string -> string -> comparison) : Prop :=
  (forall a b, lc a b = Gt -> lc b a <> Gt)
  /\ (forall a b c, lc a b <> Gt -> lc b c <> Gt -> lc a c <> Gt).

(** What the URL parser guarantees of a [pathname]: the query and the
    fragment are not part of it. *)
Definition pathnameWellFormed (parse : UrlParser) : Prop :=
  forall input base u,
    parse input base = Some u ->
    Js.includes "#" (pathname u) = false /\ Js.includes "?" (pathname u) = false.

(** *** Pools of runners *)

Section MapLimitVocabulary.
Context {Item State W : Type}.
Variable worker : Worker Item State W.

Abbreviation Pool := (Pool Item State W).
Abbreviation Runner := (Runner Item W).

(** Every call of the worker settles: a started worker has at most [bound]
    awaits before it, and each resumption uses one up. *)
Definition terminating : Prop :=
  (forall item s s' w, start worker item s = (s', Pending w) -> size worker w <= bound worker)
  /\ (forall w s s' w', resume worker w s = (s', Pending w') -> size worker w' < size worker w).

(** One turn of the event loop, as a relation between pools: a suspended
    worker is resumed, or a runner records a settled call and returns or
    calls the worker for the next item. *)
Inductive step : Pool -> Pool -> Prop :=
| step_resume q res l1 l2 s inv log item w s' progress :
    resume worker w s = (s', progress) ->
    step (mkPool q res (l1 ++ Some (item, Pending w) :: l2) s inv log)
         (mkPool q res (l1 ++ Some (item, progress) :: l2) s' inv log)
| step_return res l1 l2 s inv log item r :
    step (mkPool [] res (l1 ++ Some (item, Settled r) :: l2) s inv log)
         (mkPool [] (record item r res) (l1 ++ None :: l2) s inv
            (log ++ [(item, r)]))
| step_next next q res l1 l2 s inv log item r s' progress :
    start worker next s = (s', progress) ->
    step (mkPool (next :: q) res (l1 ++ Some (item, Settled r) :: l2) s inv log)
         (mkPool q (record item r res) (l1 ++ Some (next, progress) :: l2) s'
            (inv ++ [next]) (log ++ [(item, r)])).

(** One call of [processQueue] by [Array.from]. *)
Inductive spawnStep : Pool -> Pool -> Prop :=
| spawn_idle res rs s inv log :
    spawnStep (mkPool [] res rs s inv log) (mkPool [] res (rs ++ [None]) s inv log)
| spawn_start next q res rs s inv log s' progress :
    start worker next s = (s', progress) ->
    spawnStep (mkPool (next :: q) res rs s inv log)
              (mkPool q res (rs ++ [Some (next, progress)]) s' (inv ++ [next]) log).

(** The turns that a runner still takes before it asks for a new item. *)
Definition cost (r : Runner) : nat :=
  match r with
  | None => 0
  | Some (_, Settled _) => 1
  | Some (_, Pending w) => size worker w + 2
  end.

(** A bound on the turns that a pool still takes. *)
Definition potential (p : Pool) : nat :=
  list_sum (map cost (runners p)) + List.length (queue p) * (bound worker + 2).

(** The items whose worker has been called and has not been recorded. *)
Definition inFlight (rs : list Runner) : list Item :=
  flat_map (fun r => match r with Some (item, _) => [item] | None => [] end) rs.

(** The results that the [try]/[catch] of the runners makes of a log. *)
Definition tally (log : list (Item * Outcome unit)) : Results Item :=
  fold_left (fun res e => record (fst e) (snd e) res) log (mkResults 0 0 []).

(** The [{ item, error }] entries of the rejected calls of a log. *)
Definition rejections (log : list (Item * Outcome unit)) : list (Item * string) :=
  flat_map (fun e => match snd e with
                     | Thrown message => [(fst e, message)]
                     | Returned _ => []
                     end) log.

Variable items : list Item.

(** The bookkeeping of a pool over [items]: every item is in the queue or
    was passed to the worker, every call is in flight or recorded, the
    results are those of the log, and the queue is empty once a runner has
    returned. *)
Definition ledger (p : Pool) : Prop :=
  invoked p ++ queue p = items
  /\ Permutation (invoked p) (map fst (settledLog p) ++ inFlight (runners p))
  /\ results p = tally (settledLog p)
  /\ (In None (runners p) -> queue p = []).
End MapLimitVocabulary.

(** *** The journal of a worker *)

Section Journal.
Context {Item State W : Type}.

(** What a worker can note of itself in the shared state: the items it
    was called with, and how its calls ended, both in the order of the
    events. *)
Record Journal : Type := mkJournal {
  calls : list Item;
  outcomes : list (Item * Outcome unit)
}.

(** The note of a call that has settled. *)
Definition noted (item : Item) (j : Journal) (progress : Progress W)
    : Journal * Progress (Item * W) :=
  match progress with
  | Pending w => (j, Pending (item, w))
  | Settled r => (mkJournal (calls j) (outcomes j ++ [(item, r)]), Settled r)
  end.

(** A worker that does what [worker] does and keeps a journal. *)
Definition journalled (worker : Worker Item State W)
    : Worker Item (State * Journal) (Item * W) :=
  mkWorker
    (fun item sj =>
       let '(s, progress) := start worker item (fst sj) in
       let '(j, progress) :=
         noted item (mkJournal (calls (snd sj) ++ [item]) (outcomes (snd sj)))
           progress in
       ((s, j), progress))
    (fun iw sj =>
       let '(s, progress) := resume worker (snd iw) (fst sj) in
       let '(j, progress) := noted (fst iw) (snd sj) progress in
       ((s, j), progress))
    (fun iw => size worker (snd iw))
    (bound worker).

(** A pool of the journalled worker without the journal. *)
Definition plainRunner (r : Runner Item (Item * W)) : Runner Item W :=
  match r with
  | Some (item, Pending iw) => Some (item, Pending (snd iw))
  | Some (item, Settled o) => Some (item, Settled o)
  | None => None
  end.

Definition plainPool (p : Pool Item (State * Journal) (Item * W))
    : Pool Item State W :=
  mkPool (queue p) (results p) (map plainRunner (runners p)) (fst (shared p))
    (invoked p) (settledLog p).

(** The calls that have settled and are not yet recorded. *)
Definition settledCalls (rs : list (Runner Item (Item * W)))
    : list (Item * Outcome unit) :=
  flat_map (fun r => match r with
                     | Some (item, Settled o) => [(item, o)]
                     | _ => []
                     end) rs.

(** The journal agrees with the pool: the calls noted are the calls made,
    the ends noted are those recorded or about to be, and a suspended call
    knows its item. *)
Definition journalKept (p : Pool Item (State * Journal) (Item * W)) : Prop :=
  calls (snd (shared p)) = invoked p
  /\ Permutation (outcomes (snd (shared p)))
       (settledLog p ++ settledCalls (runners p))
  /\ forall item iw, In (Some (item, Pending iw)) (runners p) -> fst iw = item.
End Journal.

Arguments Journal : clear implicits.

(** *** The link graph and the crawl *)

(** Updates of single variables of the crawl. *)
Definition withQueue (c : Crawl) (q : list string) : Crawl :=
  mkCrawl (processedUrls c) q (processedVideoWidgets c) (crawlErrors c)
    (written c) (fetchLog c) (disk c).

Definition logFetch (c : Crawl) (urlPath : string) : Crawl :=
  mkCrawl (processedUrls c) (urlQueue c) (processedVideoWidgets c)
    (crawlErrors c) (written c) (fetchLog c ++ [urlPath]) (disk c).

Definition logError (c : Crawl) (urlPath message : string) : Crawl :=
  mkCrawl (processedUrls c) (urlQueue c) (processedVideoWidgets c)
    (crawlErrors c ++ [(urlPath, message)]) (written c) (fetchLog c) (disk c).

Definition withWidgets (c : Crawl) (widgets : nat) : Crawl :=
  mkCrawl (processedUrls c) (urlQueue c) widgets (crawlErrors c)
    (written c) (fetchLog c) (disk c).

(** The text of the page that the crawl gets for a raw path: [None] when
    the URL of the page cannot be built or [fetchWithRetry] fails. *)
Definition pageOf (env : Env) (urlPath : string) : option string :=
  match parseURL env urlPath (Some (previewUrl env)) with
  | None => None
  | Some url =>
      match result (fetchWithRetry (preview env (href url)) (retries env)) with
      | Returned response => Some (body response)
      | Thrown _ => None
      end
  end.

(** The raw path has a page. *)
Definition okPage (env : Env) (urlPath : string) : bool :=
  match pageOf env urlPath with
  | Some _ => true
  | None => false
  end.

(** The edges of the link graph: the internal links of the page of a raw
    path. *)
Definition linksOf (env : Env) (urlPath : string) : list string :=
  match pageOf env urlPath with
  | Some html =>
      extractInternalLinks (parseURL env) (parseHTML (jsdom env) html)
        (previewUrl env)
  | None => []
  end.

(** The raw paths that the links lead to from the seeds. *)
Inductive Reachable (env : Env) (seeds : list string) : string -> Prop :=
| reach_seed u : In u seeds -> Reachable env seeds u
| reach_link u l :
    Reachable env seeds u -> In l (linksOf env u) -> Reachable env seeds l.

(** A finite set of raw paths that the links do not leave. *)
Definition closedUnder (env : Env) (universe : list string) : Prop :=
  forall u l, In u universe -> In l (linksOf env u) -> In l universe.

(** What rendering a path can cost in batches: its own, and one for each
    link that it can add to the queue. *)
Definition weight (env : Env) (u : string) : nat :=
  S (List.length (linksOf env u)).

(** The batches that are enough to crawl a link graph. *)
Definition crawlFuel (env : Env) (seeds universe : list string) : nat :=
  List.length seeds + list_sum (map (weight env) universe).

(** The file of a raw path. *)
Definition outputFile (env : Env) (urlPath : string) : string :=
  outputPath (localeCompare env) (pathJoin env) (resolvedOutputDir env) urlPath.

(** *** The files of the pages *)

(** The file at [path] can be written below a directory with these
    entries, the directories on the way being made first if [mkdirs]: no
    file is where the path needs a directory, no directory where it ends,
    and without [mkdirs] the directories are there. *)
Fixpoint writable (mkdirs : bool) (path : list string)
    (entries : list (string * FsNode)) : bool :=
  match path with
  | [] => false
  | name :: rest =>
      match rest with
      | [] =>
          match getEntry name entries with
          | Some (FsDir _) => false
          | _ => true
          end
      | _ :: _ =>
          match getEntry name entries with
          | Some (FsDir inner) => writable mkdirs rest inner
          | Some (FsFile _) => false
          | None => mkdirs
          end
      end
  end.

(** The entries after the file at [path] was written in this way; [None]
    when it cannot be. *)
Fixpoint putFile (mkdirs : bool) (path : list string) (data : string)
    (entries : list (string * FsNode)) : option (list (string * FsNode)) :=
  match path with
  | [] => None
  | name :: rest =>
      match rest with
      | [] =>
          match getEntry name entries with
          | Some (FsDir _) => None
          | _ => Some (setEntry name (FsFile data) entries)
          end
      | _ :: _ =>
          let found :=
            match getEntry name entries with
            | Some (FsDir inner) => Some inner
            | Some (FsFile _) => None
            | None => if mkdirs then Some [] else None
            end in
          match found with
          | Some inner =>
              match putFile mkdirs rest data inner with
              | Some inner' => Some (setEntry name (FsDir inner') entries)
              | None => None
              end
          | None => None
          end
      end
  end.

(** The path [p] leads to a directory on the way to [q]. *)
Fixpoint properPrefix (p q : list string) : bool :=
  match p, q with
  | [], _ :: _ => true
  | x :: p', y :: q' => String.eqb x y && properPrefix p' q'
  | _, _ => false
  end.

(** [writeHtmlForPath] makes the directory of the file of this raw
    path. *)
Definition makesDirectory (env : Env) (urlPath : string) : bool :=
  let staticPath := queryParamsToPath (localeCompare env) urlPath in
  Js.hasExtension staticPath || negb (String.eqb staticPath "/").

(** The file of a raw path, by the names that lead to it. *)
Definition fileOf (env : Env) (urlPath : string) : list string :=
  components (outputFile env urlPath).

(** The files of the pages of [universe] fit the file system and each
    other: each can be written where the crawl starts, and none is where
    another needs a directory. *)
Definition filesFit (env : Env) (universe : list string) : bool :=
  let pages := filter (okPage env) universe in
  forallb
    (fun u =>
       writable (makesDirectory env u) (fileOf env u) (fileSystem env)
       && forallb (fun v => negb (properPrefix (fileOf env u) (fileOf env v)))
            pages)
    pages.

(** The weight of the paths of [l] that are not in [done]. *)
Definition unexpandedIn (env : Env) (l done : list string) : nat :=
  list_sum (map (weight env) (filter (fun u => negb (setHas u done)) l)).

Section CrawlVocabulary.
Variable env : Env.
Variables seeds universe : list string.

(** A suspended runner: its item and the progress of its handler. *)
Abbreviation Entry := (string * Progress Handler)%type.

(** The handler of the entry is suspended (it has not settled). *)
Definition isPending (e : Entry) : bool :=
  match snd e with
  | Pending _ => true
  | Settled _ => false
  end.

(** The handler of the entry has queued the links of its page and awaits
    the video widgets. *)
Definition isRendering (e : Entry) : bool :=
  match snd e with
  | Pending (Rendering _ _ _) => true
  | _ => false
  end.

Definition pendingItems (act : list Entry) : list string :=
  map fst (filter isPending act).

Definition renderingItems (act : list Entry) : list string :=
  map fst (filter isRendering act).

(** A suspended handler holds what it computed from its item. *)
Definition wellFormed (item : string) (h : Handler) : Prop :=
  match h with
  | Fetching urlPath pageUrl =>
      urlPath = item
      /\ exists url,
           parseURL env item (Some (previewUrl env)) = Some url
           /\ href url = pageUrl
  | Rendering urlPath html _ => urlPath = item /\ pageOf env item = Some html
  end.

(** The files of the pages can be written on this file system. *)
Definition fits (entries : list (string * FsNode)) : Prop :=
  forall u, In u universe -> okPage env u = true ->
    writable (makesDirectory env u) (fileOf env u) entries = true.

(** Where a discovered path can be: processed, queued, in the batch, in
    the hands of a runner, or failed. *)
Definition accounted (c : Crawl) (q : list string) (act : list Entry)
    (u : string) : Prop :=
  In u (processedUrls c) \/ In u (urlQueue c) \/ In u q
  \/ In u (pendingItems act) \/ pageOf env u = None.

(** The invariant of the crawl, for the shared variables [c], the queue [q]
    of the current batch and the entries [act] of its runners: the queue
    and the processed set have no duplicates; one file was written per
    processed path; the paths of the batch are distinct and not yet
    processed; every seed and every link of an expanded page is accounted
    for; only reachable paths are handled; [budget] bounds the batches
    still to come; and a path with a page is fetched once. *)
Record Inv (budget : nat) (c : Crawl) (q : list string) (act : list Entry)
  : Prop := mkInv {
  inv_queue : NoDup (urlQueue c);
  inv_processed : NoDup (processedUrls c);
  inv_written : map fst (written c) = map (outputFile env) (processedUrls c);
  inv_work : NoDup (q ++ pendingItems act);
  inv_pending :
    forall item h, In (item, Pending h) act ->
      ~ In item (processedUrls c) /\ wellFormed item h;
  inv_seeds : forall u, In u seeds -> accounted c q act u;
  inv_links :
    forall u l, In u (processedUrls c ++ renderingItems act) ->
      In l (linksOf env u) -> accounted c q act l;
  inv_reach :
    forall u, In u (processedUrls c) \/ In u (urlQueue c) \/ In u q
              \/ In u (map fst act) -> Reachable env seeds u;
  inv_pages : forall u, In u (processedUrls c) -> pageOf env u <> None;
  inv_budget :
    List.length (urlQueue c)
    + unexpandedIn env universe (processedUrls c ++ renderingItems act)
    <= budget;
  inv_fetched :
    forall u, In u (fetchLog c) ->
      In u (processedUrls c) \/ In u (pendingItems act) \/ pageOf env u = None;
  inv_fetched_once : NoDup (filter (okPage env) (fetchLog c));
  inv_disk : fits (disk c)
}.

(** The crawl after [finishPage] has written the page, with the counter
    of widgets that the handler leaves. *)
Definition finished (c : Crawl) (urlPath : string) (widgets : nat)
    (html : string) (entries : list (string * FsNode)) : Crawl :=
  mkCrawl (setAdd urlPath (processedUrls c)) (urlQueue c) widgets
    (crawlErrors c) (written c ++ [(outputFile env urlPath, html)]) (fetchLog c)
    entries.

(** The entries of the suspended runners. *)
Definition actives (rs : list (Runner string Handler)) : list Entry :=
  flat_map (fun r => match r with Some e => [e] | None => [] end) rs.

(** The invariant, of a pool. *)
Definition PoolInv (budget : nat) (p : Pool string Crawl Handler) : Prop :=
  Inv budget (shared p) (queue p) (actives (runners p)).
End CrawlVocabulary.

(** The request got a 2xx response. *)
Definition succeeded {B} (f : Fetched B) : bool :=
  match f with
  | Responded r => ok r
  | Rejected _ => false
  end.

(** The error that a failed request leaves in [lastError]. *)
Definition failureMessage {B} (f : Fetched B) : string :=
  match f with
  | Responded r => httpError r
  | Rejected e => e
  end.

(** *** Listings of the content API *)

(** The request for [url] gets a 2xx response whose JSON body has the
    array [items] as its [results]. *)
Definition servesResults (api : Api) (url : string) (items : list Json) : Prop :=
  exists response json,
    api url = Responded response /\ ok response = true
    /\ body response = Some json
    /\ JsonOps.prop "results" json = Some (JArr items).

(** The URLs that [fetchAllPieces] takes from the pieces of one page of a
    listing: the normalized [_url] of the pieces that have a truthy one. *)
Definition pieceUrls (parse : UrlParser) (items : list Json) : list string :=
  flat_map
    (fun piece =>
       match JsonOps.prop "_url" piece with
       | Some u =>
           if JsonOps.truthy u then [normalizeUrl parse (JsonOps.toStr u)]
           else []
       | None => []
       end)
    items.

(** The home page that a sitemap has: [/], or [/locale/] for a locale. *)
Definition hasHome (locale : option string) (urls : list string) : Prop :=
  In "/" urls
  \/ exists l, locale = Some l /\ Js.truthy l = true /\ In ("/" ++ l ++ "/")%string urls.

(** The URLs that [fetchAllPages] takes from the entries of the listing:
    the normalized [_url] of those that have one that is a string. *)
Definition pageUrls (parse : UrlParser) (items : list Json) : list string :=
  flat_map
    (fun page =>
       match JsonOps.prop "_url" page with
       | Some (JStr u) => [normalizeUrl parse u]
       | _ => []
       end)
    items.

(** The listing of the pages, as the backend serves it without a locale:
    a 2xx response whose body is the array [items], or an object with the
    array as its [results]. *)
Definition servesPages (api : Api) (aposHost : string) (items : list Json) : Prop :=
  exists response json,
    api (aposHost ++ "/api/v1/@apostrophecms/page?all=1&flat=1&published=1")%string
    = Responded response
    /\ ok response = true
    /\ body response = Some json
    /\ (json = JArr items
        \/ exists fields, json = JObj fields
                          /\ JsonOps.lookup "results" fields = Some (JArr items)).

(** *** Links and the parts of a URL *)

(** An anchor with this [href] gives the link [l]: the [href] resolves
    against [baseUrl] to a URL of the origin of [baseUrl], and [l] is its
    path and query. *)
Definition givesLink (parse : UrlParser) (baseUrl href l : string) : Prop :=
  href <> EmptyString
  /\ exists url base,
       parse href (Some baseUrl) = Some url
       /\ parse baseUrl None = Some base
       /\ origin url = origin base
       /\ l = (pathname url ++ search url)%string
       /\ l <> EmptyString.

(** The parts of a URL object in which the query and the fragment can be
    told from their place: the path has no [?]; the search is empty, or a
    [?] and a query without another [?] and without [#]; the hash is
    empty, or a [#] and a fragment without [?]. *)
Definition plainParts (u : URL) : Prop :=
  Every (differs "?") (pathname u)
  /\ (search u = EmptyString
      \/ exists q, search u = String "?" q
                   /\ Every (differs "?") q /\ Every (differs "#") q)
  /\ (hash u = EmptyString
      \/ exists h, hash u = String "#" h /\ Every (differs "?") h).

(** *** Uploads *)

(** A backend URL that is an origin: [http://] or [https://] and an
    authority, and no path. *)
Definition isOrigin (aposHost : string) : Prop :=
  exists scheme authority,
    (scheme = "http://" \/ scheme = "https://")
    /\ aposHost = (scheme ++ authority)%string
    /\ authority <> EmptyString
    /\ Every (differs "/") authority.

(** The URL of an upload as a page refers to it: by its path, or by its
    path at the backend. *)
Definition refersTo (aposHost uploadUrl path : string) : Prop :=
  Js.startsWith "/" path = true
  /\ (uploadUrl = path \/ uploadUrl = (aposHost ++ path)%string).

(** The body that [fetchWithRetry] gets for a URL, if any. *)
Definition fetched {Bytes} (net : string -> nat -> Fetched (option Bytes))
    (retries : nat) (url : string) : option Bytes :=
  match result (fetchWithRetry (net url) retries) with
  | Returned response => body response
  | Thrown _ => None
  end.

(** *** Widgets in the document *)

(** The number of the entries that are still to leave the document after
    those of [document], when [skip] were at its start: it is 0 when what
    follows [document] is inside no widget. *)
Fixpoint leaving (skip : nat) (document : Document) : nat :=
  match document with
  | [] => skip
  | node :: rest =>
      match skip with
      | S skip' => leaving skip' rest
      | O =>
          match node with
          | VideoWidget _ _ _ inside => leaving inside rest
          | _ => leaving 0 rest
          end
      end
  end.

(** *** The books of the crawl *)

(** [makeUrlsRelative(html, previewUrl)] on the text of a page. *)
Definition rewritten (env : Env) (html : string) : string :=
  serialize (jsdom env)
    (makeUrlsRelative (parseURL env) (localeCompare env)
       (parseHTML (jsdom env) html) (previewUrl env)).

(** The page of a raw path as the crawl writes it: its video widgets
    processed, when its text has [<video-widget], then its links
    rewritten. *)
Definition renderedPage (env : Env) (urlPath : string) : string :=
  match pageOf env urlPath with
  | Some html =>
      rewritten env
        (if (0 <? videoWidgetCount html)%nat
         then processVideoWidgets (jsdom env) (renderEmbed env) (backend env)
                html (aposHost env) (retries env)
         else html)
  | None => EmptyString
  end.

(** The number of times that the text of the page of a raw path has
    [<video-widget]. *)
Definition widgetsOn (env : Env) (urlPath : string) : nat :=
  match pageOf env urlPath with
  | Some html => videoWidgetCount html
  | None => 0
  end.

(** The message of the error with which [fetchWithRetry] fails for the
    page of a raw path, when it does. *)
Definition fetchFailure (env : Env) (urlPath : string) : option string :=
  match parseURL env urlPath (Some (previewUrl env)) with
  | Some url =>
      match result (fetchWithRetry (preview env (href url)) (retries env)) with
      | Thrown message => Some message
      | Returned _ => None
      end
  | None => None
  end.

Section CrawlBooks.
Variable env : Env.
Variable seeds : list string.

Abbreviation Entry := (string * Progress Handler)%type.

(** A path that the crawl has come across: a seed, or a link of a page
    whose links were queued. *)
Definition discovered (c : Crawl) (act : list Entry) (u : string) : Prop :=
  In u seeds
  \/ exists v,
       (In v (processedUrls c)
        \/ exists w html n, In (v, Pending (Rendering w html n)) act)
       /\ In u (linksOf env v).

(** Where a path whose fetch fails can be: waiting, in the hands of a
    runner, or in the errors. *)
Definition reported (c : Crawl) (q : list string) (act : list Entry)
    (u : string) : Prop :=
  In u (urlQueue c) \/ In u q \/ (exists h, In (u, Pending h) act)
  \/ In u (map fst (crawlErrors c)).

(** The books that the crawl keeps, for the shared variables [c], the
    queue [q] of the current batch and the entries [act] of its runners:
    the files written are the rendered pages of the processed paths; the
    counter of widgets is the number of times that the texts of these
    pages have [<video-widget]; a handler that awaits the widgets holds
    this number for its page, which is not 0; every error is the failure
    of the fetch of a reachable path; and every path come across whose
    fetch fails is reported. *)
Record Books (c : Crawl) (q : list string) (act : list Entry) : Prop := mkBooks {
  books_written :
    written c
    = map (fun u => (outputFile env u, renderedPage env u)) (processedUrls c);
  books_widgets :
    processedVideoWidgets c = list_sum (map (widgetsOn env) (processedUrls c));
  books_count :
    forall item u html n,
      In (item, Pending (Rendering u html n)) act ->
      n = videoWidgetCount html /\ 0 < n;
  books_errors :
    forall u message, In (u, message) (crawlErrors c) ->
      fetchFailure env u = Some message /\ Reachable env seeds u;
  books_failed :
    forall u, discovered c act u -> fetchFailure env u <> None ->
      reported c q act u
}.

(** The books, of a pool. *)
Definition PoolBooks (p : Pool string Crawl Handler) : Prop :=
  Books (shared p) (queue p) (actives (runners p)).
End CrawlBooks.

(** *** Trees of files *)

(** The names of a directory are distinct, down the tree. *)
Fixpoint distinctNames (node : FsNode) : Prop :=
  match node with
  | FsFile _ => True
  | FsDir entries =>
      NoDup (map fst entries)
      /\ (fix each (entries : list (string * FsNode)) : Prop :=
            match entries with
            | [] => True
            | (_, entry) :: rest => distinctNames entry /\ each rest
            end) entries
  end.

(** The content of the file at a path below a directory, given by the
    names to follow. *)
Fixpoint fileAt (path : list string) (node : FsNode) : option string :=
  match path, node with
  | [], FsFile data => Some data
  | name :: rest, FsDir entries =>
      match getEntry name entries with
      | Some entry => fileAt rest entry
      | None => None
      end
  | _, _ => None
  end.

Definition fileBelow (path : list string) (directory : option FsNode)
    : option string :=
  match directory with
  | Some node => fileAt path node
  | None => None
  end.

(* ------------------------------------------------------------------ *)
(** ** Examples                                                        *)
(* ------------------------------------------------------------------ *)

(** The build of a site, and an output directory with a file of an
    earlier export. *)
Definition demoBuild : FsNode :=
  FsDir [("index.html", FsFile "<h1>Home</h1>");
         ("_astro", FsDir [("site.css", FsFile "body{}")])].

Definition demoOutput : FsNode :=
  FsDir [("old.html", FsFile "<h1>Old</h1>");
         ("_astro", FsDir [("site.css", FsFile "stale")])].

Definition demoDist : FsNode :=
  FsDir [("server", FsDir [("entry.mjs", FsFile "export {}")]);
         ("client", demoBuild)].

(** A server that fails twice and then answers. *)
Definition flakyServer (n : nat) : Fetched unit :=
  if (n <? 2)%nat then Responded (mkResponse 503 "Service Unavailable" tt)
  else Responded (mkResponse 200 "OK" tt).

(** A page listing with two pages. *)
Definition pageListing : Json :=
  JObj [("results", JArr [JObj [("_url", JStr "/")];
                          JObj [("_url", JStr "/about")]])].

Definition pagesUrl : string :=
  "http://localhost:3000/api/v1/@apostrophecms/page?all=1&flat=1&published=1".

(** A backend that serves the page listing and rejects every other
    request; [brokenListing] answers them with a 500 status instead. *)
Definition unreachableListing : Api := fun url =>
  if String.eqb url pagesUrl
  then Responded (mkResponse 200 "OK" (Some pageListing))
  else Rejected "fetch failed".

Definition brokenListing : Api := fun url =>
  if String.eqb url pagesUrl
  then Responded (mkResponse 200 "OK" (Some pageListing))
  else Responded (mkResponse 500 "Internal Server Error" None).

(** A worker that awaits once and rejects the odd numbers. *)
Definition parityWorker : Worker nat (list nat) nat :=
  mkWorker
    (fun item seen => (seen, Pending item))
    (fun item seen =>
       (item :: seen,
        Settled (if Nat.even item then Returned tt else Thrown "odd")))
    (fun _ => 0)
    0.

(** A worker whose calls never settle. *)
Definition stuckWorker : Worker nat unit unit :=
  mkWorker (fun _ s => (s, Pending tt)) (fun _ s => (s, Pending tt))
    (fun _ => 0) 0.

Definition demoPage (html : string) : Fetched string :=
  Responded (mkResponse 200 "OK" html).

(** A site: the home page links to one listing under two spellings of
    its query string; a page with a video widget links to the home page;
    two pages have the text [<video-widget] in the tag of another
    element; a release has a page of its own and a page below it; and so
    has a version of the documentation, whose second page links to
    itself. *)
Definition demoSite (url : string) (attempt : nat) : Fetched string :=
  if String.eqb url "http://127.0.0.1:4321/" then
    demoPage ("<html><head></head><body><a href='/a?x=1&y=2'>A</a>"
              ++ "<a href='/a?y=2&x=1'>A</a></body></html>")
  else if String.eqb url "http://127.0.0.1:4321/a?x=1&y=2" then
    demoPage "<html><head></head><body><h1>A</h1></body></html>"
  else if String.eqb url "http://127.0.0.1:4321/a?y=2&x=1" then
    demoPage "<html><head></head><body><h1>A</h1></body></html>"
  else if String.eqb url "http://127.0.0.1:4321/video/" then
    demoPage ("<html><head></head><body><h1>Video</h1>"
              ++ "<video-widget url='https://youtu.be/x'></video-widget>"
              ++ "<a href='http://127.0.0.1:4321/'>Home</a></body></html>")
  else if String.eqb url "http://127.0.0.1:4321/gallery/" then
    demoPage ("<html><head></head><body>"
              ++ "<video-widget-list></video-widget-list></body></html>")
  else if String.eqb url "http://127.0.0.1:4321/media/" then
    demoPage ("<html><head></head><body>"
              ++ "<video-widget url='https://youtu.be/x'></video-widget>"
              ++ "<video-widget-list></video-widget-list></body></html>")
  else if String.eqb url "http://127.0.0.1:4321/releases/" then
    demoPage ("<html><head></head><body><a href='/releases/v1.2'>1.2</a>"
              ++ "<a href='/releases/v1.2/notes'>Notes</a></body></html>")
  else if String.eqb url "http://127.0.0.1:4321/releases/v1.2" then
    demoPage "<html><head></head><body><h1>1.2</h1></body></html>"
  else if String.eqb url "http://127.0.0.1:4321/releases/v1.2/notes" then
    demoPage "<html><head></head><body><h1>Notes</h1></body></html>"
  else if String.eqb url "http://127.0.0.1:4321/docs/v2.0" then
    demoPage "<html><head></head><body><h1>2.0</h1></body></html>"
  else if String.eqb url "http://127.0.0.1:4321/docs/v2.0/changes" then
    demoPage ("<html><head></head><body>"
              ++ "<a href='/docs/v2.0/changes'>Changes</a></body></html>")
  else Responded (mkResponse 404 "Not Found" "<h1>Not found</h1>").

(** An export of the site with two workers and one retry, into the empty
    directory [/out]; the content backend is unreachable. *)
Definition demoEnv : Env :=
  mkEnv Platform.simpleURL Platform.rootCollation Platform.simpleJoin
    Platform.simpleJsdom (fun _ _ => "<iframe></iframe>")
    demoSite (fun _ _ => Rejected "connect ECONNREFUSED")
    "http://localhost:3000" "http://127.0.0.1:4321" "/out" 1 2
    [("out", FsDir [])].

(** A server that starts to answer at the fourth request. *)
Definition slowStart (n : nat) : Fetched unit :=
  if (n <? 3)%nat then Rejected "connect ECONNREFUSED"
  else Responded (mkResponse 200 "OK" tt).

(** A preview server that serves its not-found page with the status 404. *)
Definition notFoundServer (n : nat) : Fetched (option string) :=
  Responded (mkResponse 404 "Not Found" (Some "<h1>Lost?</h1>")).

(** A backend that serves the page listing of every locale and no piece
    listing. *)
Definition localeListing : Api := fun url =>
  if Js.startsWith pagesUrl url
  then Responded (mkResponse 200 "OK" (Some pageListing))
  else Responded (mkResponse 500 "Internal Server Error" None).

(** A backend whose listings have a hundred pieces on every page. *)
Definition endlessListing : Api := fun _ =>
  Responded (mkResponse 200 "OK"
    (Some (JObj [("results", JArr (repeat (JObj [("_url", JStr "/x")]) 100))]))).

(** A backend with two endpoints beside the core ones: [article] has
    pieces with URLs, [menu] has pieces without. *)
Definition typedBackend : Api := fun url =>
  let reply json := Responded (mkResponse 200 "OK" (Some json)) in
  if String.eqb url "http://localhost:3000/api/v1/" then
    reply (JObj [("@apostrophecms/page", JNull); ("search", JNull);
                 ("article", JNull); ("menu", JNull)])
  else if String.eqb url "http://localhost:3000/api/v1/article?perPage=1" then
    reply (JObj [("results", JArr [JObj [("_url", JStr "/articles/one")]])])
  else if String.eqb url "http://localhost:3000/api/v1/menu?perPage=1" then
    reply (JObj [("results", JArr [JObj [("title", JStr "Main")]])])
  else if String.eqb url "http://localhost:3000/api/v1/article?page=1&perPage=100" then
    reply (JObj [("results", JArr [JObj [("_url", JStr "/articles/one")];
                                   JObj [("title", JStr "Draft")]])])
  else Responded (mkResponse 404 "Not Found" None).

(** An instance of [Number] for the examples: it agrees with the platform
    on the strings of decimal digits (the empty string is 0) and on the
    strings that start with a lower-case letter, which are not numbers. *)
Definition digitsOnly (s : string) : option nat :=
  match s with
  | EmptyString => Some 0
  | _ =>
      if forallb Platform.isDigit (list_ascii_of_string s)
      then Some (fold_left (fun n c => 10 * n + (nat_of_ascii c - 48))
                   (list_ascii_of_string s) 0)
      else None
  end.

(** A backend that has one of two images. *)
Definition imageServer (url : string) (attempt : nat) : Fetched (option string) :=
  if String.eqb url "http://localhost:3000/uploads/a.png"
  then Responded (mkResponse 200 "OK" (Some "PNG"))
  else Responded (mkResponse 404 "Not Found" None).

(** The export of the demo site, from its home page and a page that it
    does not have. *)
Definition demoSeeds : list string := ["/"; "/missing/"].

Definition demoUniverse : list string :=
  ["/"; "/a?x=1&y=2"; "/a?y=2&x=1"; "/missing/"].

Open Scope string_scope.


(* ================================================================== *)
(** * Properties                                                       *)
(* ================================================================== *)

(* ------------------------------------------------------------------ *)
(** ** fetchWithRetry                                                  *)
(* ------------------------------------------------------------------ *)

Section FetchWithRetry.
Context {B : Type}.
Implicit Types (net : nat -> Fetched B) (r : Response B).

Lemma retryLoop_attempts net retries remaining attempt lastError slept :
  attempts (retryLoop net retries remaining attempt lastError slept)
  <= attempt + remaining.
Proof.
  revert attempt lastError slept.
  induction remaining as [|k IH]; intros attempt lastError slept; simpl.
  - lia.
  - destruct (tryAttempt (net attempt)); simpl.
    + lia.
    + specialize (IH (S attempt)). etransitivity; [apply IH|lia].
    + specialize (IH (S attempt)). etransitivity; [apply IH|lia].
Qed.

Lemma ok_false_of_retryable r :
  (500 <= status r < 600) \/ status r = 429 -> ok r = false.
Proof.
  unfold ok. intros [H|H].
  - apply andb_false_iff. right. apply Nat.leb_gt. lia.
  - rewrite H. reflexivity.
Qed.

(** A failed attempt never leaves the loop: the [catch] takes the
    exception of the [try] block, whatever threw it. *)
Lemma tryAttempt_failure f :
  (forall r, f = Responded r -> ok r = false) ->
  exists e, tryAttempt f = TryThrow e \/ tryAttempt f = TryEnd e.
Proof.
  intros H. destruct f as [r|e]; simpl.
  - rewrite (H r eq_refl).
    match goal with
    | |- context [if ?c then _ else _] => destruct c
    end; eexists; eauto.
  - eexists; eauto.
Qed.

Lemma retryLoop_step_failure net retries k attempt lastError slept :
  (forall r, net attempt = Responded r -> ok r = false) ->
  exists e,
    retryLoop net retries (S k) attempt lastError slept =
    retryLoop net retries k (S attempt) e
      (if (attempt <? retries)%nat then (slept ++ [backoff attempt])%list
       else slept).
Proof.
  intros H. destruct (tryAttempt_failure _ H) as [e [He|He]];
    exists e; simpl; rewrite He; reflexivity.
Qed.

(** When every attempt fails, whatever the failure, all [retries + 1]
    attempts are made. *)
Lemma retryLoop_all_fail net retries remaining attempt lastError slept :
  (forall n r, net n = Responded r -> ok r = false) ->
  attempts (retryLoop net retries remaining attempt lastError slept)
  = attempt + remaining.
Proof.
  intros H. revert attempt lastError slept.
  induction remaining as [|k IH]; intros attempt lastError slept.
  - simpl. lia.
  - destruct (retryLoop_step_failure net retries k attempt lastError slept (H attempt))
      as [e ->].
    rewrite IH. lia.
Qed.
End FetchWithRetry.

(** A client error is retried like any other failure: with [retries]
    retries, a server that always answers with a 4xx status other than
    429 is asked [retries + 1] times. *)
Lemma fetchWithRetry_client_error_retried {B} (net : nat -> Fetched B) retries :
  (forall n, exists r, net n = Responded r /\ clientError r) ->
  attempts (fetchWithRetry net retries) = retries + 1.
Proof.
  intros H. unfold fetchWithRetry. rewrite retryLoop_all_fail.
  - lia.
  - intros n r Hn. destruct (H n) as [r' [Hr' [Hc _]]].
    rewrite Hn in Hr'. inversion Hr'; subst r'.
    unfold ok. apply andb_false_iff. right. apply Nat.leb_gt. lia.
Qed.

(** C2 (fails on the code).  The claim: a response with a status in
    [400,500) other than 429 makes [fetchWithRetry] fail at once, after
    exactly one attempt.  The code: the [throw] for such a response is
    inside the [try] block whose [catch] stores the error and lets the
    loop go on; with [retries = 3], a URL that always answers 404 is
    requested four times, after back-off delays of 1000, 2000 and 4000 ms,
    before the call fails with the 404 error. *)
Theorem fetchWithRetry_404_makes_four_attempts :
  let run :=
    fetchWithRetry (fun _ => Responded (mkResponse 404 "Not Found" tt)) 3 in
  attempts run = 4
  /\ delays run = [1000; 2000; 4000]
  /\ result run = Thrown "HTTP 404: Not Found".
Proof. vm_compute. repeat split. Qed.

(** C3.  [fetchWithRetry] makes at most [retries + 1] attempts; and with
    [retries = 3], when the first two attempts fail with retryable
    failures (5xx, 429, timeout or network error) and the third attempt
    gets a 2xx response, the call returns that response after exactly
    three attempts. *)
Theorem fetchWithRetry_retry_budget :
  forall (B : Type) (net : nat -> Fetched B),
    (forall retries, attempts (fetchWithRetry net retries) <= retries + 1)
    /\ (forall r,
          retryableFailure (net 0) -> retryableFailure (net 1) ->
          net 2 = Responded r -> ok r = true ->
          result (fetchWithRetry net 3) = Returned r
          /\ attempts (fetchWithRetry net 3) = 3).
Proof.
  intros B net. split.
  - intros retries. unfold fetchWithRetry.
    etransitivity; [apply retryLoop_attempts|lia].
  - intros r H0 H1 H2 Hok. unfold fetchWithRetry.
    assert (F : forall n, retryableFailure (net n) ->
                forall r', net n = Responded r' -> ok r' = false).
    { intros n Hn r' E. rewrite E in Hn. now apply ok_false_of_retryable. }
    destruct (retryLoop_step_failure net 3 3 0 "undefined" [] (F 0 H0)) as [e0 ->].
    destruct (retryLoop_step_failure net 3 2 1 e0
                (if (0 <? 3)%nat then ([] ++ [backoff 0])%list else []) (F 1 H1))
      as [e1 ->].
    simpl. rewrite H2. simpl. rewrite Hok. simpl. split; reflexivity.
Qed.

Lemma fetchWithRetry_retry_budget_witness :
  attempts (fetchWithRetry flakyServer 3) <= 3 + 1
  /\ result (fetchWithRetry flakyServer 3) = Returned (mkResponse 200 "OK" tt)
  /\ attempts (fetchWithRetry flakyServer 3) = 3.
Proof.
  destruct (fetchWithRetry_retry_budget unit flakyServer) as [Hle Hok].
  split; [apply Hle|].
  apply Hok; simpl; try reflexivity; left; lia.
Defined.

(* ------------------------------------------------------------------ *)
(** ** Sitemap discovery                                               *)
(* ------------------------------------------------------------------ *)

Section Sitemap.
Variable parse : UrlParser.
Variable api : Api.
Variables (aposHost aposKey : string) (locale : option string).

(** A failed page listing is fatal. *)
Lemma generateSitemap_pages_fatal fuel pieceTypes e :
  Js.truthy aposKey = true ->
  fetchAllPages parse api aposHost locale = Thrown e ->
  generateSitemap parse api fuel aposHost aposKey locale pieceTypes
  = Some (Thrown e).
Proof.
  intros Hkey Hpages. unfold generateSitemap. rewrite Hkey, Hpages. reflexivity.
Qed.

(** A listing that answers with an error status ends the pagination of
    its piece type with the URLs collected so far ([break]). *)
Lemma piecesLoop_error_status pieceType fuel page urls r :
  api (piecesUrl aposHost locale pieceType page) = Responded r -> ok r = false ->
  piecesLoop parse api aposHost pieceType locale (S fuel) page urls
  = Some (Returned urls).
Proof.
  intros Hr Hok. cbn [piecesLoop]. cbv zeta.
  rewrite Hr. cbn [awaitFetch]. rewrite Hok. reflexivity.
Qed.

(** A listing request that rejects is not caught in [fetchAllPieces]. *)
Lemma piecesLoop_rejected pieceType fuel page urls e :
  api (piecesUrl aposHost locale pieceType page) = Rejected e ->
  piecesLoop parse api aposHost pieceType locale (S fuel) page urls
  = Some (Thrown e).
Proof.
  intros Hr. cbn [piecesLoop]. cbv zeta.
  rewrite Hr. reflexivity.
Qed.

(** Nor in [generateSitemap]: discovery fails although the page listing
    was fetched. *)
Lemma generateSitemap_pieces_rejected fuel pieceType others pageUrls e :
  Js.truthy aposKey = true ->
  fetchAllPages parse api aposHost locale = Returned pageUrls ->
  api (piecesUrl aposHost locale pieceType 1) = Rejected e ->
  generateSitemap parse api (S fuel) aposHost aposKey locale
    (Some (pieceType :: others))
  = Some (Thrown e).
Proof.
  intros Hkey Hpages Hr. unfold generateSitemap. rewrite Hkey, Hpages.
  cbn [negb piecesOfTypes]. unfold fetchAllPieces.
  rewrite (piecesLoop_rejected _ _ _ _ _ Hr). reflexivity.
Qed.
End Sitemap.

(** An error status on a piece listing, and failing probes, leave the
    pages in the sitemap. *)
Example generateSitemap_tolerates_error_status :
  generateSitemap Platform.simpleURL brokenListing 5
    "http://localhost:3000" "key" None (Some ["article"])
  = Some (Returned ["/"; "/about/"])
  /\ generateSitemap Platform.simpleURL unreachableListing 5
       "http://localhost:3000" "key" None None
     = Some (Returned ["/"; "/about/"]).
Proof. vm_compute. split; reflexivity. Qed.

(** C7 (fails on the code).  The claim: a failure of a per-piece-type
    listing fetch is not fatal, the type is skipped and discovery returns
    the URLs of the pages and of the other types.  The code:
    [fetchAllPieces] awaits [fetchWithTimeout] outside any [try]; it
    breaks on an error status, but a request that rejects (network error,
    timeout) throws through [generateSitemap].  With the page listing
    served and the listing of the one piece type [article] unreachable,
    discovery fails with the network error and returns no sitemap. *)
Theorem generateSitemap_fails_on_unreachable_piece_listing :
  fetchAllPages Platform.simpleURL unreachableListing
    "http://localhost:3000" None
  = Returned ["/"; "/about/"]
  /\ generateSitemap Platform.simpleURL unreachableListing 5
       "http://localhost:3000" "key" None (Some ["article"])
     = Some (Thrown "fetch failed").
Proof. vm_compute. split; reflexivity. Qed.

(* ------------------------------------------------------------------ *)
(** ** The URL rewriter                                                *)
(* ------------------------------------------------------------------ *)

Section Rewriter.
Variable parse : UrlParser.
Variable lc : string -> string -> comparison.
Variable previewUrl : string.

(** A value that does not start with the preview URL and has no query
    string is left as it is. *)
Lemma rewriteUrl_unchanged url :
  Js.startsWith previewUrl url = false ->
  Js.includes "?" url = false ->
  rewriteUrl parse lc previewUrl url = url.
Proof.
  intros Hs Hq. unfold rewriteUrl.
  destruct (negb (Js.truthy url)); [reflexivity|].
  rewrite Hs, Hq. reflexivity.
Qed.

(** The rewriter keeps the elements and touches only the [href] of
    anchors and the [action] of forms. *)
Lemma makeUrlsRelative_frame html i node :
  nth_error html i = Some node ->
  match node with
  | Anchor (Some url) =>
      nth_error (makeUrlsRelative parse lc html previewUrl) i
      = Some (Anchor (Some (rewriteUrl parse lc previewUrl url)))
  | Form (Some url) =>
      nth_error (makeUrlsRelative parse lc html previewUrl) i
      = Some (Form (Some (rewriteUrl parse lc previewUrl url)))
  | _ => nth_error (makeUrlsRelative parse lc html previewUrl) i = Some node
  end.
Proof.
  intros H. unfold makeUrlsRelative.
  rewrite nth_error_map, H. simpl.
  destruct node as [[u|]|[u|]| |]; reflexivity.
Qed.
End Rewriter.

(** C8 (fails on the code).  The claim: an [href] or [action] that is an
    external URL is left unchanged.  The code: the conversion of the query
    string is not under the [startsWith(previewUrl)] test, it runs for
    every value that contains [?]; the link to
    [https://example.com/watch?v=abc] on a page of the preview server
    [http://127.0.0.1:4321] becomes
    [https://example.com/watch/v-abc/], and so does the action of a
    form. *)
Theorem makeUrlsRelative_rewrites_external_query :
  makeUrlsRelative Platform.simpleURL Platform.rootCollation
    [Anchor (Some "https://example.com/watch?v=abc");
     Form (Some "https://example.com/search?q=rocq")]
    "http://127.0.0.1:4321"
  = [Anchor (Some "https://example.com/watch/v-abc/");
     Form (Some "https://example.com/search/q-rocq/")].
Proof. vm_compute. reflexivity. Qed.

(* ------------------------------------------------------------------ *)
(** ** Facts about the string primitives                               *)
(* ------------------------------------------------------------------ *)

Section StringFacts.
Variable P : ascii -> Prop.

Lemma Every_app a b : Every P (a ++ b) <-> Every P a /\ Every P b.
Proof. induction a as [|c a IH]; simpl; tauto. Qed.

Lemma Every_join sep parts :
  Every P sep -> Forall (Every P) parts -> Every P (Js.join sep parts).
Proof.
  intros Hsep H. induction H as [|p ps Hp Hps IH]; simpl; [exact I|].
  destruct ps as [|p' ps']; [exact Hp|].
  apply Every_app. split; [exact Hp|]. apply Every_app. split; [exact Hsep|exact IH].
Qed.

Lemma Every_split sep s : Every P s -> Forall (Every P) (Js.split sep s).
Proof.
  induction s as [|c s IH]; simpl; intros H.
  - repeat constructor.
  - destruct H as [Hc Hs]. specialize (IH Hs).
    destruct (Ascii.eqb c sep).
    + constructor; [exact I|exact IH].
    + destruct (Js.split sep s) as [|p ps].
      * repeat constructor; assumption.
      * inversion IH; subst. constructor; [split; assumption|assumption].
Qed.

Lemma Every_cut sep s a b :
  UrlEncoded.cut sep s = Some (a, b) -> Every P s -> Every P a /\ Every P b.
Proof.
  revert a b. induction s as [|c s IH]; simpl; intros a b H Hs; [discriminate|].
  destruct Hs as [Hc Hs]. destruct (Ascii.eqb c sep).
  - inversion H; subst. simpl. tauto.
  - destruct (UrlEncoded.cut sep s) as [[a' b']|]; [|discriminate].
    inversion H; subst. destruct (IH a' b eq_refl Hs). simpl. tauto.
Qed.

Lemma Every_plusToSpace s :
  P " "%char -> Every P s -> Every P (UrlEncoded.plusToSpace s).
Proof.
  intros Hsp. induction s as [|c s IH]; simpl; [tauto|].
  intros [Hc Hs]. split; [|auto]. destruct (Ascii.eqb c "+"); assumption.
Qed.

Lemma Every_dropTrailingSlash s : Every P s -> Every P (Js.dropTrailingSlash s).
Proof.
  induction s as [|c s IH]; simpl; [tauto|]. intros [Hc Hs].
  destruct (Ascii.eqb c "/" && String.eqb s EmptyString); simpl; auto.
Qed.

Lemma Every_hd d l : Every P d -> Forall (Every P) l -> Every P (hd d l).
Proof. intros Hd H. destruct H; simpl; assumption. Qed.
End StringFacts.

Lemma Every_impl (P Q : ascii -> Prop) s :
  (forall c, P c -> Q c) -> Every P s -> Every Q s.
Proof. intros H. induction s; simpl; [tauto|]. intros []. split; auto. Qed.

Lemma Every_and (P Q : ascii -> Prop) s :
  Every (fun c => P c /\ Q c) s <-> Every P s /\ Every Q s.
Proof. induction s; simpl; tauto. Qed.

Lemma prefix_empty s : String.prefix EmptyString s = true.
Proof. destruct s; reflexivity. Qed.

(** [s.includes(c)] for a one-character string. *)
Lemma includes_char c s :
  Js.includes (String c EmptyString) s = false <-> Every (differs c) s.
Proof.
  unfold differs. induction s as [|a s IH]; simpl.
  - tauto.
  - destruct (ascii_dec c a) as [->|Hne]; simpl.
    + rewrite prefix_empty. simpl. split; [discriminate|]. intros [H _]. now elim H.
    + rewrite IH. split; [intros H; split; [congruence|exact H]|tauto].
Qed.

Lemma includes_char_true c s :
  Js.includes (String c EmptyString) s = true <-> ~ Every (differs c) s.
Proof.
  rewrite <- includes_char. destruct (Js.includes _ s); split; congruence.
Qed.

Lemma split_without_separator sep s :
  Every (differs sep) s -> Js.split sep s = [s].
Proof.
  induction s as [|c s IH]; simpl; [reflexivity|]. intros [Hc Hs].
  apply Ascii.eqb_neq in Hc. rewrite Hc, (IH Hs). reflexivity.
Qed.

Lemma split_at_separator sep p q :
  Every (differs sep) p ->
  Js.split sep (p ++ String sep q) = p :: Js.split sep q.
Proof.
  induction p as [|c p IH]; simpl; intros H.
  - rewrite Ascii.eqb_refl. reflexivity.
  - destruct H as [Hc Hp]. apply Ascii.eqb_neq in Hc. rewrite Hc, (IH Hp).
    reflexivity.
Qed.

Lemma split_pieces_without_separator sep s :
  Forall (Every (differs sep)) (Js.split sep s).
Proof.
  induction s as [|c s IH]; simpl.
  - repeat constructor.
  - destruct (Ascii.eqb c sep) eqn:E.
    + constructor; [exact I|exact IH].
    + apply Ascii.eqb_neq in E. destruct (Js.split sep s) as [|p ps].
      * repeat constructor. exact E.
      * inversion IH; subst. constructor; [split; assumption|assumption].
  Qed.

Lemma percentDecode_without_escape s :
  Every (differs "%") s -> UrlEncoded.percentDecode s = s.
Proof.
  induction s as [|c s IH]; simpl; [reflexivity|]. intros [Hc Hs].
  apply Ascii.eqb_neq in Hc. rewrite Hc, (IH Hs). reflexivity.
Qed.

Lemma endsWith_append suf p : Js.endsWith suf (p ++ suf) = true.
Proof.
  induction p as [|c p IH]; simpl.
  - destruct suf; simpl.
    + reflexivity.
    + rewrite Ascii.eqb_refl, String.eqb_refl. reflexivity.
  - rewrite IH. apply orb_true_r.
Qed.

Lemma endsWith_Every (P : ascii -> Prop) suf s :
  Js.endsWith suf s = true -> Every P s -> Every P suf.
Proof.
  induction s as [|c s IH]; cbn [Js.endsWith Every].
  - rewrite orb_false_r. intros H _. apply String.eqb_eq in H. subst. exact I.
  - intros H [Hc Hs]. apply orb_true_iff in H. destruct H as [H|H].
    + apply String.eqb_eq in H. subst. split; assumption.
    + auto.
Qed.

Lemma hasExtension_has_dot s :
  Js.hasExtension s = true -> ~ Every (differs ".") s.
Proof.
  induction s as [|c s IH]; simpl; [discriminate|].
  intros H [Hc Hs]. apply orb_true_iff in H. destruct H as [H|H].
  - apply andb_true_iff in H. destruct H as [H _].
    apply andb_true_iff in H. destruct H as [H _].
    apply Ascii.eqb_eq in H. contradiction.
  - exact (IH H Hs).
Qed.

Lemma startsWith_ensureLeadingSlash p :
  Js.startsWith "/" (ensureLeadingSlash p) = true.
Proof.
  unfold ensureLeadingSlash. destruct (Js.startsWith "/" p) eqn:E; simpl.
  - exact E.
  - apply prefix_empty.
Qed.

Lemma startsWith_append p q s :
  Js.startsWith p s = true -> Js.startsWith p (s ++ q) = true.
Proof.
  unfold Js.startsWith. revert s. induction p as [|c p IH]; intros s; simpl.
  - intros _. apply prefix_empty.
  - destruct s as [|d s]; simpl; [discriminate|].
    destruct (ascii_dec c d); [apply IH|discriminate].
Qed.

Lemma Every_ensureLeadingSlash (P : ascii -> Prop) p :
  P "/"%char -> Every P p -> Every P (ensureLeadingSlash p).
Proof.
  intros Hs Hp. unfold ensureLeadingSlash.
  destruct (negb (Js.startsWith "/" p)); simpl; auto.
Qed.

(* ------------------------------------------------------------------ *)
(** ** Facts about the sort                                            *)
(* ------------------------------------------------------------------ *)

Section SortFacts.
Context {A : Type} (cmp : A -> A -> comparison).

Hypothesis total : forall a b, cmp a b = Gt -> cmp b a <> Gt.
Hypothesis transitive :
  forall a b c, cmp a b <> Gt -> cmp b c <> Gt -> cmp a c <> Gt.

Lemma insert_perm x l : Permutation (Js.insert cmp x l) (x :: l).
Proof.
  induction l as [|y l IH]; simpl; [reflexivity|].
  destruct (cmp x y); try reflexivity.
  rewrite IH. apply perm_swap.
Qed.

Lemma sort_perm l : Permutation (Js.sort cmp l) l.
Proof.
  induction l as [|x l IH]; simpl; [reflexivity|].
  rewrite insert_perm. now constructor.
Qed.

Lemma insert_sorted x l :
  StronglySorted (notAfter cmp) l -> StronglySorted (notAfter cmp) (Js.insert cmp x l).
Proof.
  induction 1 as [|y l Hl IH Hy]; simpl.
  - repeat constructor.
  - destruct (cmp x y) eqn:E.
    + constructor; [constructor; assumption|].
      constructor; [unfold notAfter; congruence|].
      eapply Forall_impl; [|exact Hy]. intros z Hz.
      apply (transitive x y z); [congruence|exact Hz].
    + constructor; [constructor; assumption|].
      constructor; [unfold notAfter; congruence|].
      eapply Forall_impl; [|exact Hy]. intros z Hz.
      apply (transitive x y z); [congruence|exact Hz].
    + constructor; [exact IH|].
      eapply Permutation_Forall; [symmetry; apply insert_perm|].
      constructor; [apply total; exact E|exact Hy].
Qed.

Lemma sort_sorted l : StronglySorted (notAfter cmp) (Js.sort cmp l).
Proof.
  induction l as [|x l IH]; simpl; [constructor|]. apply insert_sorted, IH.
Qed.
End SortFacts.

Lemma append_nil_r (s : string) : (s ++ EmptyString)%string = s.
Proof. induction s as [|c s IH]; simpl; congruence. Qed.

(** *** The sort is stable *)

Section SortStable.
Context {A : Type} (cmp : A -> A -> comparison).

Lemma precedes_cons (x y z : A) l : precedes x y l -> precedes x y (z :: l).
Proof.
  intros (l1 & l2 & l3 & ->). now exists (z :: l1), l2, l3.
Qed.

Lemma precedes_head (x y : A) l : In y l -> precedes x y (x :: l).
Proof.
  intros H. apply in_split in H. destruct H as (l2 & l3 & ->).
  now exists [], l2, l3.
Qed.

Lemma precedes_inv (x y z : A) l :
  precedes x y (z :: l) -> (z = x /\ In y l) \/ precedes x y l.
Proof.
  intros ([|w l1] & l2 & l3 & E); simpl in E; inversion E; subst.
  - left. split; [reflexivity|]. apply in_or_app. right. now left.
  - right. now exists l1, l2, l3.
Qed.

Lemma precedes_nil (x y : A) : ~ precedes x y [].
Proof. intros ([|w l1] & l2 & l3 & E); discriminate. Qed.

(** An insertion keeps the order of the others. *)
Lemma insert_keeps_order (z x y : A) l :
  precedes x y l -> precedes x y (Js.insert cmp z l).
Proof.
  induction l as [|w l IH]; intros H; [now apply precedes_nil in H|].
  simpl. destruct (cmp z w); try now apply precedes_cons.
  apply precedes_inv in H. destruct H as [[-> Hy]|H].
  - apply precedes_head.
    eapply Permutation_in; [symmetry; apply insert_perm|]. now right.
  - apply precedes_cons, IH, H.
Qed.

(** The inserted element does not pass one that is not before it. *)
Lemma insert_before (z y : A) l :
  In y l -> cmp z y <> Gt -> precedes z y (Js.insert cmp z l).
Proof.
  induction l as [|w l IH]; intros Hy Hz; [contradiction|].
  simpl. destruct (cmp z w) eqn:E; try now apply precedes_head.
  destruct Hy as [->|Hy]; [contradiction|].
  apply precedes_cons, IH; assumption.
Qed.

Lemma sort_stable (x y : A) l :
  precedes x y l -> cmp x y <> Gt -> precedes x y (Js.sort cmp l).
Proof.
  induction l as [|z l IH]; intros H Hxy; [now apply precedes_nil in H|].
  simpl. apply precedes_inv in H. destruct H as [[-> Hy]|H].
  - apply insert_before; [|exact Hxy].
    eapply Permutation_in; [symmetry; apply sort_perm|exact Hy].
  - apply insert_keeps_order, IH; assumption.
Qed.
End SortStable.

Lemma filter_precedes {A} (f : A -> bool) (x y : A) l :
  f x = true -> f y = true -> precedes x y l -> precedes x y (filter f l).
Proof.
  intros Hx Hy (l1 & l2 & l3 & ->).
  exists (filter f l1), (filter f l2), (filter f l3).
  rewrite filter_app. simpl. rewrite Hx, filter_app. simpl. now rewrite Hy.
Qed.

Lemma precedes_filter {A} (f : A -> bool) (x y : A) l :
  precedes x y (filter f l) -> precedes x y l /\ f x = true /\ f y = true.
Proof.
  induction l as [|z l IH]; simpl; intros H; [now apply precedes_nil in H|].
  destruct (f z) eqn:E.
  - apply precedes_inv in H. destruct H as [[-> Hy]|H].
    + apply filter_In in Hy. destruct Hy as [Hy Hfy].
      split; [now apply precedes_head|auto].
    + destruct (IH H) as (H1 & H2 & H3). split; [now apply precedes_cons|auto].
  - destruct (IH H) as (H1 & H2 & H3). split; [now apply precedes_cons|auto].
Qed.

Lemma filter_perm {A} (f : A -> bool) l l' :
  Permutation l l' -> Permutation (filter f l) (filter f l').
Proof.
  induction 1 as [|x l l' _ IH|x y l|l l' l'' _ IH1 _ IH2]; simpl.
  - constructor.
  - destruct (f x); [constructor|]; exact IH.
  - destruct (f x), (f y); try reflexivity. apply perm_swap.
  - etransitivity; eassumption.
Qed.

Lemma filter_sorted {A} (R : A -> A -> Prop) (f : A -> bool) l :
  StronglySorted R l -> StronglySorted R (filter f l).
Proof.
  induction 1 as [|x l Hl IH Hx]; simpl; [constructor|].
  destruct (f x); [|exact IH]. constructor; [exact IH|].
  apply Forall_forall. intros y Hy. apply filter_In in Hy.
  rewrite Forall_forall in Hx. apply Hx, Hy.
Qed.

(* ------------------------------------------------------------------ *)
(** ** The collation instance is a consistent comparator               *)
(* ------------------------------------------------------------------ *)

Module PlatformFacts.
Import Platform.

Ltac compare_cases :=
  repeat match goal with
  | |- context [Nat.compare ?x ?y] => destruct (Nat.compare_spec x y)
  | H : context [Nat.compare ?x ?y] |- _ => destruct (Nat.compare_spec x y)
  end.

Lemma lexCompare_antisym a b : lexCompare b a = CompOpp (lexCompare a b).
Proof.
  revert b. induction a as [|x a IH]; intros [|y b]; simpl; try reflexivity.
  rewrite (Nat.compare_antisym x y).
  destruct (Nat.compare x y); simpl; auto.
Qed.

Lemma lexCompare_eq a b : lexCompare a b = Eq -> a = b.
Proof.
  revert b. induction a as [|x a IH]; intros [|y b]; simpl; try congruence.
  destruct (Nat.compare_spec x y); try discriminate.
  intros Hab. subst. f_equal. auto.
Qed.

Lemma lexCompare_refl a : lexCompare a a = Eq.
Proof. induction a; simpl; [|rewrite Nat.compare_refl]; auto. Qed.

Lemma lexCompare_lt_trans a b c :
  lexCompare a b = Lt -> lexCompare b c = Lt -> lexCompare a c = Lt.
Proof.
  revert b c. induction a as [|x a IH]; intros [|y b] [|z c]; simpl;
    try congruence.
  compare_cases; subst; try congruence; try lia; eauto.
Qed.

Lemma lexCompare_le_trans a b c :
  lexCompare a b <> Gt -> lexCompare b c <> Gt -> lexCompare a c <> Gt.
Proof.
  revert b c. induction a as [|x a IH]; intros [|y b] [|z c]; simpl;
    try congruence.
  compare_cases; subst; try congruence; try lia; eauto.
Qed.

Lemma rootCollation_antisym a b :
  rootCollation b a = CompOpp (rootCollation a b).
Proof.
  unfold rootCollation.
  rewrite (lexCompare_antisym (map primary (list_ascii_of_string a))).
  rewrite (lexCompare_antisym (map tertiary (list_ascii_of_string a))).
  destruct (lexCompare (map primary (list_ascii_of_string a)) _); reflexivity.
Qed.

Lemma rootCollation_total a b :
  rootCollation a b = Gt -> rootCollation b a <> Gt.
Proof. intros H. rewrite rootCollation_antisym, H. discriminate. Qed.

Lemma rootCollation_transitive a b c :
  rootCollation a b <> Gt -> rootCollation b c <> Gt -> rootCollation a c <> Gt.
Proof.
  unfold rootCollation.
  destruct (lexCompare (map primary (list_ascii_of_string a))
                       (map primary (list_ascii_of_string b))) eqn:Eab;
    [|..|congruence];
  destruct (lexCompare (map primary (list_ascii_of_string b))
                       (map primary (list_ascii_of_string c))) eqn:Ebc;
    try congruence.
  - apply lexCompare_eq in Eab. rewrite Eab, Ebc. apply lexCompare_le_trans.
  - apply lexCompare_eq in Eab. rewrite Eab, Ebc. congruence.
  - apply lexCompare_eq in Ebc. rewrite <- Ebc, Eab. congruence.
  - rewrite (lexCompare_lt_trans _ _ _ Eab Ebc). congruence.
Qed.

End PlatformFacts.

(* ------------------------------------------------------------------ *)
(** ** queryParamsToPath and normalizeUrl                              *)
(* ------------------------------------------------------------------ *)

Section Canonicalizer.
Variable lc : string -> string -> comparison.

Lemma keptParams_empty : keptParams lc EmptyString = [].
Proof. reflexivity. Qed.

Lemma queryParamsToPath_without_query s :
  Every (differs "?") s -> queryParamsToPath lc s = s.
Proof.
  intros H. unfold queryParamsToPath.
  rewrite (split_without_separator _ _ H). reflexivity.
Qed.

Lemma queryParamsToPath_with_query p q :
  Every (differs "?") p -> Every (differs "?") q ->
  queryParamsToPath lc (p ++ "?" ++ q) =
  match keptParams lc q with
  | [] => p
  | kept =>
      Js.dropTrailingSlash p ++ "/" ++ Js.join "-" (map renderPart kept) ++ "/"
  end.
Proof.
  intros Hp Hq. unfold queryParamsToPath.
  change ("?" ++ q) with (String "?" q).
  rewrite (split_at_separator _ _ _ Hp), (split_without_separator _ _ Hq).
  cbn [hd nth_error].
  destruct q as [|c q]; [reflexivity|].
  cbn [Js.truthy String.eqb negb].
  destruct (keptParams lc (String c q)); reflexivity.
Qed.

(** What follows a second [?] is not read. *)
Lemma queryParamsToPath_second_question p q r :
  Every (differs "?") p -> Every (differs "?") q ->
  queryParamsToPath lc (p ++ "?" ++ q ++ "?" ++ r)
  = queryParamsToPath lc (p ++ "?" ++ q).
Proof.
  intros Hp Hq. unfold queryParamsToPath.
  change ("?" ++ q ++ "?" ++ r) with (String "?" (q ++ String "?" r)).
  change ("?" ++ q) with (String "?" q).
  rewrite !(split_at_separator _ _ _ Hp), (split_at_separator _ _ _ Hq),
    (split_without_separator _ _ Hq).
  reflexivity.
Qed.

(** The keys and values of a query string without [%] and [?] have no
    [?] either. *)
Lemma entries_without_question search :
  Every (differs "?") search -> Every (differs "%") search ->
  Forall (fun kv => Every (differs "?") (fst kv) /\ Every (differs "?") (snd kv))
    (UrlEncoded.entries search).
Proof.
  intros Hq Hp.
  assert (D : forall t, Every (differs "?") t -> Every (differs "%") t ->
              Every (differs "?") (UrlEncoded.decodeComponent t)).
  { intros t H1 H2. unfold UrlEncoded.decodeComponent.
    rewrite percentDecode_without_escape.
    - apply Every_plusToSpace; [discriminate|exact H1].
    - apply Every_plusToSpace; [discriminate|exact H2]. }
  unfold UrlEncoded.entries.
  set (init := match search with
               | EmptyString => search
               | String c rest => if Ascii.eqb c "?" then rest else search
               end).
  assert (Hi : Every (differs "?") init /\ Every (differs "%") init).
  { subst init. destruct search as [|c rest]; [tauto|].
    destruct (Ascii.eqb c "?"); simpl in *; tauto. }
  destruct Hi as [Hi1 Hi2].
  apply Forall_forall. intros kv Hkv.
  apply in_map_iff in Hkv. destruct Hkv as [seq [<- Hseq]].
  apply filter_In in Hseq. destruct Hseq as [Hseq _].
  pose proof (Every_split _ "&"%char _ Hi1) as S1.
  pose proof (Every_split _ "&"%char _ Hi2) as S2.
  rewrite Forall_forall in S1, S2.
  specialize (S1 _ Hseq). specialize (S2 _ Hseq).
  unfold UrlEncoded.parsePair.
  destruct (UrlEncoded.cut "=" seq) as [[name value]|] eqn:E; simpl.
  - destruct (Every_cut _ _ _ _ _ E S1), (Every_cut _ _ _ _ _ E S2). auto.
  - auto.
Qed.

Lemma keptParams_incl search kv :
  In kv (keptParams lc search) -> In kv (UrlEncoded.entries search).
Proof.
  unfold keptParams. intros H. apply filter_In in H. destruct H as [H _].
  eapply Permutation_in; [apply sort_perm|exact H].
Qed.

Lemma queryParamsToPath_without_escape x :
  Every (differs "%") x -> Every (differs "?") (queryParamsToPath lc x).
Proof.
  intros Hx. unfold queryParamsToPath.
  pose proof (split_pieces_without_separator "?" x) as S1.
  pose proof (Every_split _ "?"%char _ Hx) as S2.
  destruct (Js.split "?" x) as [|pathname [|search rest]]; simpl; [exact I|..].
  - now inversion S1.
  - inversion S1 as [|? ? Hp S1']; subst. inversion S1' as [|? ? Hs _]; subst.
    inversion S2 as [|? ? _ S2']; subst. inversion S2' as [|? ? Hs' _]; subst.
    destruct (negb (Js.truthy search)); [exact Hp|].
    destruct (map renderPart (keptParams lc search)) as [|part parts] eqn:E;
      [exact Hp|].
    rewrite <- E.
    apply Every_app. split; [now apply Every_dropTrailingSlash|].
    cbn [String.append Every]. split; [discriminate|].
    apply Every_app. split; [|simpl; split; [discriminate|exact I]].
    apply Every_join; [simpl; split; [discriminate|exact I]|].
    apply Forall_forall. intros part' Hin.
    apply in_map_iff in Hin. destruct Hin as [kv [<- Hkv]].
    apply keptParams_incl in Hkv.
    pose proof (entries_without_question search Hs Hs') as F.
    rewrite Forall_forall in F. destruct (F _ Hkv) as [Fk Fv].
    unfold renderPart. apply Every_app. split; [exact Fk|].
    apply Every_app. split; [simpl; split; [discriminate|exact I]|exact Fv].
Qed.
End Canonicalizer.

(** The sorted keys are in collation order, not in byte order, and no
    segment is appended when every value is empty. *)
Lemma queryParamsToPath_not_byte_order :
  queryParamsToPath Platform.rootCollation "/a?B=1&a=2" = "/a/a-2-B-1/"
  /\ String.compare "B" "a" = Lt
  /\ queryParamsToPath Platform.rootCollation "/a/?x=" = "/a/".
Proof. vm_compute. repeat split. Qed.

(** C4 (amended).  For a raw path with a [?], let [p] be what is before
    the first [?] and [q] what is between the first [?] and the second
    (or the end; what follows a second [?] is not read).
    [queryParamsToPath] sorts the parameters of [q] by key in the order
    of [localeCompare] (a consistent comparator; the collation of the
    platform, not the byte order), with a stable sort: of two parameters
    the first of which is not after the second in this order, the first
    stays before the second.  It drops the parameters whose value is
    empty, and, when some parameter is left, returns [p] without one
    trailing slash, followed by one segment made of the [key-value] parts
    joined by [-], between slashes; when no parameter is left it returns
    [p] unchanged.  [/a?x=&y=1] gives [/a/y-1/]. *)
Theorem queryParamsToPath_query_segment :
  forall lc : string -> string -> comparison,
    consistentComparator lc ->
    (forall p q rest,
        Js.includes "?" p = false -> Js.includes "?" q = false ->
        rest = EmptyString \/ Js.startsWith "?" rest = true ->
        let given :=
          filter (fun kv => Js.truthy (snd kv)) (UrlEncoded.entries q) in
        let kept := keptParams lc q in
        Permutation kept given
        /\ StronglySorted (fun a b => lc (fst a) (fst b) <> Gt) kept
        /\ (forall a b, precedes a b given -> lc (fst a) (fst b) <> Gt ->
                        precedes a b kept)
        /\ queryParamsToPath lc (p ++ "?" ++ q ++ rest) =
           match kept with
           | [] => p
           | _ =>
               Js.dropTrailingSlash p ++ "/"
               ++ Js.join "-" (map renderPart kept) ++ "/"
           end)
    /\ queryParamsToPath lc "/a?x=&y=1" = "/a/y-1/".
Proof.
  intros lc [Htotal Htrans]. split.
  - intros p q rest Hp Hq Hrest given kept. subst given kept.
    apply includes_char in Hp. apply includes_char in Hq.
    split; [|split; [|split]].
    + unfold keptParams. apply filter_perm, sort_perm.
    + unfold keptParams. apply filter_sorted.
      apply (sort_sorted (keyCompare lc)); unfold keyCompare.
      * intros a b. apply Htotal.
      * intros a b c. apply Htrans.
    + intros a b Hab Hle. unfold keptParams.
      apply precedes_filter in Hab. destruct Hab as (Hab & Ha & Hb).
      apply filter_precedes; [exact Ha|exact Hb|].
      apply sort_stable; [exact Hab|exact Hle].
    + assert (E : queryParamsToPath lc (p ++ "?" ++ q ++ rest)
                  = queryParamsToPath lc (p ++ "?" ++ q)).
      { destruct Hrest as [->|Hrest].
        - now rewrite append_nil_r.
        - destruct rest as [|c r]; [discriminate|].
          unfold Js.startsWith in Hrest. cbn [String.prefix] in Hrest.
          destruct (ascii_dec "?" c) as [<-|]; [|discriminate].
          apply (queryParamsToPath_second_question lc p q r Hp Hq). }
      rewrite E, (queryParamsToPath_with_query lc p q Hp Hq).
      destruct (keptParams lc q); reflexivity.
  - unfold queryParamsToPath, keptParams. cbn.
    unfold keyCompare. cbn. destruct (lc "x" "y"); reflexivity.
Qed.

Lemma queryParamsToPath_query_segment_witness :
  queryParamsToPath Platform.rootCollation
    ("/articles/" ++ "?" ++ "page=2&category=news" ++ "?draft=1")
  = "/articles/category-news-page-2/".
Proof.
  destruct (queryParamsToPath_query_segment Platform.rootCollation
              (conj PlatformFacts.rootCollation_total
                    PlatformFacts.rootCollation_transitive)) as [H _].
  destruct (H "/articles/" "page=2&category=news" "?draft=1"
              eq_refl eq_refl (or_intror eq_refl)) as (_ & _ & _ & E).
  exact E.
Defined.

(** The canonical form of a path that had a percent-encoded [?] in its
    query has a query of its own. *)
Lemma queryParamsToPath_not_idempotent :
  queryParamsToPath Platform.rootCollation "/a?x=%3Fb%3D1" = "/a/x-?b=1/"
  /\ queryParamsToPath Platform.rootCollation "/a/x-?b=1/" = "/a/x-/b-1//"
  /\ queryParamsToPath Platform.rootCollation
       (queryParamsToPath Platform.rootCollation "/a?x=%3Fb%3D1")
     <> queryParamsToPath Platform.rootCollation "/a?x=%3Fb%3D1".
Proof. vm_compute. repeat split. discriminate. Qed.

(** C6 (amended).  [queryParamsToPath] is idempotent at every input whose
    canonical form contains no [?]; this is the case of every input
    without a percent escape.  ([URLSearchParams] decodes [%3F] to a [?]
    that the second pass takes for the start of a query.) *)
Theorem queryParamsToPath_idempotent :
  forall (lc : string -> string -> comparison) (x : string),
    (Js.includes "?" (queryParamsToPath lc x) = false ->
     queryParamsToPath lc (queryParamsToPath lc x) = queryParamsToPath lc x)
    /\ (Js.includes "%" x = false ->
        Js.includes "?" (queryParamsToPath lc x) = false).
Proof.
  intros lc x. split.
  - intros H. apply queryParamsToPath_without_query, includes_char, H.
  - intros H. apply includes_char, queryParamsToPath_without_escape.
    apply includes_char, H.
Qed.

Lemma queryParamsToPath_idempotent_witness :
  queryParamsToPath Platform.rootCollation
    (queryParamsToPath Platform.rootCollation "/articles/?page=2&category=news")
  = queryParamsToPath Platform.rootCollation "/articles/?page=2&category=news".
Proof.
  destruct (queryParamsToPath_idempotent Platform.rootCollation
              "/articles/?page=2&category=news") as [H1 H2].
  apply H1, H2. reflexivity.
Defined.

Module SimpleUrlFacts.
Import Platform.

Lemma span_prefix stop s a b :
  span stop s = (a, b) -> Every (fun c => stop c = false) a.
Proof.
  revert a b. induction s as [|c s IH]; simpl; intros a b H.
  - inversion H. exact I.
  - destruct (stop c) eqn:E.
    + inversion H. exact I.
    + destruct (span stop s) as [a' b']. inversion H; subst.
      split; [exact E|]. eapply IH. reflexivity.
Qed.

Lemma splitRef_path s path query fragment :
  splitRef s = (path, query, fragment) -> Every clean path.
Proof.
  unfold splitRef. destruct (span (oneOf "?#") s) as [p rest] eqn:E.
  destruct (span (oneOf "#") rest) as [q f]. intros H. inversion H; subst.
  apply span_prefix in E. eapply Every_impl; [|exact E].
  intros c Hc. unfold oneOf in Hc. simpl in Hc.
  apply orb_false_iff in Hc. destruct Hc as [H1 H2].
  apply orb_false_iff in H2. destruct H2 as [H2 _].
  apply Ascii.eqb_neq in H1, H2. split; assumption.
Qed.

Lemma parseWithScheme_pathname scheme input u :
  parseWithScheme scheme input = Some u -> Every clean (pathname u).
Proof.
  unfold parseWithScheme. destruct (Js.startsWith _ input); [|discriminate].
  destruct (span _ _) as [authority ref].
  destruct (Js.truthy authority); [|discriminate].
  destruct (splitRef ref) as [[path query] fragment] eqn:E.
  intros H. inversion H; subst. simpl.
  apply splitRef_path in E.
  destruct (Js.truthy path); [exact E|].
  simpl. repeat split; discriminate.
Qed.

Lemma parseAbsolute_pathname input u :
  parseAbsolute input = Some u -> Every clean (pathname u).
Proof.
  unfold parseAbsolute.
  destruct (parseWithScheme "http" input) eqn:E.
  - intros H. inversion H; subst. eapply parseWithScheme_pathname, E.
  - apply parseWithScheme_pathname.
Qed.

Lemma Every_dirOf (P : ascii -> Prop) path : Every P path -> Every P (dirOf path).
Proof.
  induction path as [|c path IH]; simpl; [tauto|]. intros [Hc Hp].
  destruct (Js.includes "/" path); simpl; [auto|].
  destruct (Ascii.eqb c "/") eqn:E; simpl; [|exact I].
  apply Ascii.eqb_eq in E. subst. auto.
Qed.

Lemma simpleURL_pathname input base u :
  simpleURL input base = Some u -> Every clean (pathname u).
Proof.
  unfold simpleURL.
  destruct (parseAbsolute input) eqn:Eabs.
  { intros H. inversion H; subst. eapply parseAbsolute_pathname, Eabs. }
  destruct (hasScheme input).
  { destruct (span (oneOf ":") input) as [name rest].
    destruct (splitRef _) as [[path query] fragment] eqn:E.
    intros H. inversion H; subst. simpl. eapply splitRef_path, E. }
  destruct base as [b|]; [|discriminate].
  destruct (parseAbsolute b) as [bu|] eqn:Eb; [|discriminate].
  apply parseAbsolute_pathname in Eb.
  destruct (splitRef input) as [[path query] fragment] eqn:E.
  apply splitRef_path in E.
  destruct (Js.startsWith "//" input); [apply parseAbsolute_pathname|].
  destruct (Js.startsWith "/" input).
  { intros H. inversion H; subst. exact E. }
  destruct (Js.truthy path).
  { intros H. inversion H; subst. simpl. apply Every_app.
    split; [apply Every_dirOf, Eb|exact E]. }
  destruct (Js.truthy query); intros H; inversion H; subst; exact Eb.
Qed.

Lemma simpleURL_wellFormed : pathnameWellFormed simpleURL.
Proof.
  intros input base u H. apply simpleURL_pathname in H.
  apply Every_and in H. destruct H as [H1 H2].
  split; apply includes_char; assumption.
Qed.

End SimpleUrlFacts.

(** A canonical path can lack the trailing slash though it has no
    extension: [queryParamsToPath] returns a path without query as it is,
    and [normalizeUrl] appends no slash to a path with a dot in a
    directory name. *)
Lemma canonical_path_without_trailing_slash :
  queryParamsToPath Platform.rootCollation "/about" = "/about"
  /\ Js.hasExtension "/about" = false
  /\ Js.endsWith "/" "/about" = false
  /\ normalizeUrl Platform.simpleURL "/v1.2/docs" = "/v1.2/docs"
  /\ Js.hasExtension "/v1.2/docs" = false
  /\ Js.endsWith "/" "/v1.2/docs" = false.
Proof. vm_compute. repeat split. Qed.

(** C5 (amended).  [normalizeUrl], which canonicalizes the URLs of the
    sitemap, returns a path that begins with [/], contains no [#], and
    ends with [/] whenever it contains no dot at all; [queryParamsToPath],
    which chooses the output file, returns such a path unchanged.  (The
    test for a file is "contains a dot", and [queryParamsToPath] itself
    adds no slash.) *)
Theorem normalizeUrl_shape :
  forall (parse : UrlParser) (lc : string -> string -> comparison)
         (urlString : string),
    pathnameWellFormed parse ->
    let p := normalizeUrl parse urlString in
    Js.startsWith "/" p = true
    /\ Js.includes "#" p = false
    /\ (Js.includes "." p = false -> Js.endsWith "/" p = true)
    /\ queryParamsToPath lc p = p.
Proof.
  intros parse lc urlString Hparse p.
  assert (Hclean : exists q,
             Every (differs "#") q /\ Every (differs "?") q
             /\ Js.startsWith "/" q = true
             /\ (p = q \/ p = q ++ "/")
             /\ (Every (differs ".") p -> Js.endsWith "/" p = true)).
  { subst p. unfold normalizeUrl.
    destruct (parse urlString (Some "http://dummy")) as [u|] eqn:E.
    - destruct (Hparse _ _ _ E) as [H1 H2].
      apply includes_char in H1. apply includes_char in H2.
      exists (ensureLeadingSlash (pathname u)).
      split; [apply Every_ensureLeadingSlash; [discriminate|exact H1]|].
      split; [apply Every_ensureLeadingSlash; [discriminate|exact H2]|].
      split; [apply startsWith_ensureLeadingSlash|].
      set (q := ensureLeadingSlash (pathname u)).
      destruct (Js.includes "." q) eqn:Edot.
      + rewrite !andb_false_r. split; [now left|].
        intros Hd. apply includes_char in Hd. congruence.
      + assert (Eh : Js.endsWith ".html" q = false).
        { destruct (Js.endsWith ".html" q) eqn:Eh; [|reflexivity].
          apply includes_char in Edot.
          pose proof (endsWith_Every _ _ _ Eh Edot) as [C _]. now elim C. }
        assert (Em : Js.endsWith ".htm" q = false).
        { destruct (Js.endsWith ".htm" q) eqn:Em; [|reflexivity].
          apply includes_char in Edot.
          pose proof (endsWith_Every _ _ _ Em Edot) as [C _]. now elim C. }
        rewrite Eh, Em. cbn [negb andb].
        destruct (Js.endsWith "/" q) eqn:Es; cbn [negb].
        * split; [now left|]. intros _. exact Es.
        * split; [now right|]. intros _. apply endsWith_append.
    - set (q := ensureLeadingSlash
                  (hd EmptyString (Js.split "#" (hd EmptyString (Js.split "?" urlString))))).
      exists q.
      split.
      { apply Every_ensureLeadingSlash; [discriminate|].
        apply Every_hd; [exact I|apply split_pieces_without_separator]. }
      split.
      { apply Every_ensureLeadingSlash; [discriminate|].
        apply Every_hd; [exact I|]. apply Every_split.
        apply Every_hd; [exact I|apply split_pieces_without_separator]. }
      split; [apply startsWith_ensureLeadingSlash|].
      destruct (Js.hasExtension q) eqn:Ex; cbn [negb andb].
      + split; [now left|]. intros Hd.
        now apply hasExtension_has_dot in Ex.
      + destruct (Js.endsWith "/" q) eqn:Es; cbn [negb].
        * split; [now left|]. intros _. exact Es.
        * split; [now right|]. intros _. apply endsWith_append. }
  destruct Hclean as (q & Hhash & Hquery & Hstart & Hp & Hslash).
  assert (Hall : forall c, c <> "/"%char -> Every (differs c) q -> Every (differs c) p).
  { intros c Hc Hq. destruct Hp as [->| ->]; [exact Hq|].
    apply Every_app. split; [exact Hq|]. split; [|exact I].
    intros C. apply Hc. now rewrite C. }
  split.
  { destruct Hp as [->| ->]; [exact Hstart|now apply startsWith_append]. }
  split; [apply includes_char, Hall; [discriminate|exact Hhash]|].
  split; [intros Hd; apply Hslash, includes_char, Hd|].
  apply queryParamsToPath_without_query, Hall; [discriminate|exact Hquery].
Qed.

Lemma normalizeUrl_shape_witness :
  Js.startsWith "/" (normalizeUrl Platform.simpleURL "http://localhost:3000/about") = true
  /\ Js.endsWith "/" (normalizeUrl Platform.simpleURL "http://localhost:3000/about") = true.
Proof.
  destruct (normalizeUrl_shape Platform.simpleURL Platform.rootCollation
              "http://localhost:3000/about" SimpleUrlFacts.simpleURL_wellFormed)
    as (H1 & _ & H3 & _).
  split; [exact H1|]. apply H3. reflexivity.
Defined.

(* ------------------------------------------------------------------ *)
(** ** mapLimit                                                        *)
(* ------------------------------------------------------------------ *)

Open Scope list_scope.

Section MapLimitFacts.
Context {Item State W : Type}.
Variable worker : Worker Item State W.

Abbreviation Pool := (Pool Item State W).
Abbreviation Runner := (Runner Item W).

Lemma setNth_middle {A} (l1 l2 : list A) old new :
  setNth (List.length l1) new (l1 ++ old :: l2) = l1 ++ new :: l2.
Proof. induction l1 as [|x l1 IH]; simpl; [reflexivity|]. now rewrite IH. Qed.

Lemma suspendedFrom_In k (rs : list Runner) i :
  In i (suspendedFrom k rs) ->
  exists l1 e l2, rs = l1 ++ Some e :: l2 /\ i = k + List.length l1.
Proof.
  revert k. induction rs as [|r rs IH]; simpl; intros k H; [contradiction|].
  destruct r as [e|].
  - destruct H as [<-|H].
    + exists [], e, rs. simpl. split; [reflexivity|lia].
    + destruct (IH _ H) as (l1 & e' & l2 & -> & ->).
      exists (Some e :: l1), e', l2. simpl. split; [reflexivity|lia].
  - destruct (IH _ H) as (l1 & e' & l2 & -> & ->).
    exists (None :: l1), e', l2. simpl. split; [reflexivity|lia].
Qed.

Lemma suspendedFrom_nil k (rs : list Runner) :
  suspendedFrom k rs = [] -> Forall (fun r => r = None) rs.
Proof.
  revert k. induction rs as [|[e|] rs IH]; simpl; intros k H.
  - constructor.
  - discriminate.
  - constructor; [reflexivity|eauto].
Qed.

Lemma stepRunner_step p i :
  In i (suspended p) -> step worker p (stepRunner worker i p).
Proof.
  destruct p as [q res rs s inv log]. unfold suspended, stepRunner. simpl.
  intros H. apply suspendedFrom_In in H.
  destruct H as (l1 & [item progress] & l2 & -> & ->). simpl.
  rewrite nth_error_app2 by lia. rewrite Nat.sub_diag. simpl.
  destruct progress as [w|r].
  - destruct (resume worker w s) as [s' progress] eqn:E.
    unfold withRunner. simpl. rewrite setNth_middle. now constructor.
  - unfold nextItem. simpl. destruct q as [|next q].
    + unfold withRunner. simpl. rewrite setNth_middle. constructor.
    + destruct (start worker next s) as [s' progress] eqn:E.
      unfold withRunner. simpl. rewrite setNth_middle. now constructor.
Qed.

(** A property that the calls and the turns keep holds of the final
    pool. *)
Section Invariant.
Variable Inv : Pool -> Prop.
Hypothesis Inv_spawn : forall p p', spawnStep worker p p' -> Inv p -> Inv p'.
Hypothesis Inv_step : forall p p', step worker p p' -> Inv p -> Inv p'.

Lemma spawn_invariant limit p : Inv p -> Inv (spawn worker limit p).
Proof.
  revert p. induction limit as [|limit IH]; intros p H; simpl; [exact H|].
  destruct p as [q res rs s inv log]. unfold nextItem. simpl.
  destruct q as [|next q].
  - apply IH. simpl. eapply Inv_spawn; [|exact H]. constructor.
  - destruct (start worker next s) as [s' progress] eqn:E.
    apply IH. simpl. eapply Inv_spawn; [|exact H]. now constructor.
Qed.

Lemma runPool_invariant sched fuel t p :
  Inv p -> Inv (runPool worker sched fuel t p).
Proof.
  revert t p. induction fuel as [|fuel IH]; intros t p H; cbn [runPool];
    [exact H|].
  destruct (suspended p) as [|i0 active] eqn:E; [exact H|]. cbv zeta.
  apply IH. eapply Inv_step; [|exact H]. apply stepRunner_step.
  rewrite E. apply nth_In. apply Nat.mod_upper_bound. discriminate.
Qed.

Lemma finalPool_invariant items limit sched s :
  Inv (initialPool items s) -> Inv (finalPool worker items limit sched s).
Proof. intros H. apply runPool_invariant, spawn_invariant, H. Qed.
End Invariant.

(** *** Every runner returns *)

Lemma list_sum_middle (l1 l2 : list Runner) r :
  list_sum (map (cost worker) (l1 ++ r :: l2))
  = cost worker r + list_sum (map (cost worker) (l1 ++ l2)).
Proof.
  rewrite !map_app, !list_sum_app. simpl. lia.
Qed.

Hypothesis worker_terminating : terminating worker.

Lemma cost_started item s s' progress :
  start worker item s = (s', progress) ->
  cost worker (Some (item, progress)) <= bound worker + 2.
Proof.
  intros H. destruct progress as [w|r]; simpl; [|lia].
  destruct worker_terminating as [Hb _]. specialize (Hb _ _ _ _ H). lia.
Qed.

Lemma cost_resumed item w s s' progress :
  resume worker w s = (s', progress) ->
  cost worker (Some (item, progress)) < cost worker (Some (item, Pending w)).
Proof.
  intros H. destruct progress as [w'|r]; simpl; [|lia].
  destruct worker_terminating as [_ Hd]. specialize (Hd _ _ _ _ H). lia.
Qed.

Lemma step_potential p p' : step worker p p' -> potential worker p' < potential worker p.
Proof.
  intros H. destruct H as [q res l1 l2 s inv log item w s' progress E
                          |res l1 l2 s inv log item r
                          |next q res l1 l2 s inv log item r s' progress E];
    unfold potential; simpl; rewrite !list_sum_middle.
  - pose proof (cost_resumed item _ _ _ _ E). lia.
  - simpl. lia.
  - pose proof (cost_started _ _ _ _ E). simpl (cost worker (Some (item, Settled r))). lia.
Qed.

Lemma spawnStep_potential p p' : spawnStep worker p p' -> potential worker p' <= potential worker p.
Proof.
  intros H. destruct H as [res rs s inv log|next q res rs s inv log s' progress E];
    unfold potential; cbn [runners queue];
    rewrite !map_app, !list_sum_app; cbn [map list_sum fold_right List.length].
  - simpl. lia.
  - pose proof (cost_started _ _ _ _ E). lia.
Qed.

Lemma cost_zero (rs : list Runner) k :
  list_sum (map (cost worker) rs) = 0 -> suspendedFrom k rs = [].
Proof.
  revert k. induction rs as [|r rs IH]; intros k H0; simpl in *.
  - reflexivity.
  - destruct r as [[item [w|r]]|]; simpl in H0; try lia. apply IH. lia.
Qed.

Lemma potential_zero p : potential worker p = 0 -> suspended p = [].
Proof. unfold potential, suspended. intros H. apply cost_zero. lia. Qed.

Lemma runPool_settles sched fuel t p :
  potential worker p <= fuel -> suspended (runPool worker sched fuel t p) = [].
Proof.
  revert t p. induction fuel as [|fuel IH]; intros t p H; cbn [runPool].
  - apply potential_zero. lia.
  - destruct (suspended p) as [|i0 active] eqn:E; [exact E|]. cbv zeta.
    apply IH.
    assert (S : step worker p (stepRunner worker
                          (nth (sched t mod List.length (i0 :: active)) (i0 :: active) i0) p)).
    { apply stepRunner_step. rewrite E. apply nth_In.
      apply Nat.mod_upper_bound. discriminate. }
    apply step_potential in S. lia.
Qed.

Lemma finalPool_settles items limit sched s :
  suspended (finalPool worker items limit sched s) = [].
Proof.
  unfold finalPool. apply runPool_settles.
  apply (spawn_invariant (fun p => potential worker p <= poolFuel worker items)).
  - intros p p' H Hp. apply spawnStep_potential in H. lia.
  - unfold potential, poolFuel. simpl. lia.
Qed.

Lemma mapLimit_returns items limit sched s :
  mapLimit worker items limit sched s
  = Some (results (finalPool worker items limit sched s),
          shared (finalPool worker items limit sched s)).
Proof. unfold mapLimit. now rewrite finalPool_settles. Qed.

End MapLimitFacts.

(** *** The ledger of a pool *)

Section MapLimitLedger.
Context {Item State W : Type}.
Variable worker : Worker Item State W.
Variable items : list Item.

Abbreviation Pool := (Pool Item State W).
Abbreviation Runner := (Runner Item W).

Lemma inFlight_app (l1 l2 : list Runner) :
  inFlight (l1 ++ l2) = inFlight l1 ++ inFlight l2.
Proof. apply flat_map_app. Qed.

Lemma tally_snoc (log : list (Item * Outcome unit)) item r :
  tally (log ++ [(item, r)]) = record item r (tally log).
Proof. unfold tally. now rewrite fold_left_app. Qed.

Lemma perm_return (inv L F1 F2 : list Item) item :
  Permutation inv (L ++ F1 ++ item :: F2) ->
  Permutation inv ((L ++ [item]) ++ F1 ++ F2).
Proof.
  intros H. rewrite H, <- app_assoc. apply Permutation_app_head. simpl.
  symmetry. apply Permutation_middle.
Qed.

Lemma perm_next (inv L F1 F2 : list Item) item next :
  Permutation inv (L ++ F1 ++ item :: F2) ->
  Permutation (inv ++ [next]) ((L ++ [item]) ++ F1 ++ next :: F2).
Proof.
  intros H. rewrite (perm_return _ _ _ _ _ H), <- !app_assoc.
  apply Permutation_app_head. simpl. apply perm_skip.
  apply Permutation_app_head. symmetry. apply Permutation_cons_append.
Qed.

Lemma In_None_middle (l1 l2 : list Runner) e e' :
  In None (l1 ++ Some e :: l2) -> In None (l1 ++ Some e' :: l2).
Proof.
  rewrite !in_app_iff. simpl. intros [H|[H|H]]; [auto|discriminate|auto].
Qed.

Lemma ledger_spawn p p' : spawnStep worker p p' -> ledger items p -> ledger items p'.
Proof.
  intros H (H1 & H2 & H3 & H4).
  destruct H as [res rs s inv log|next q res rs s inv log s' progress E];
    unfold ledger in *; simpl in *; rewrite inFlight_app; simpl.
  - rewrite !app_nil_r in *. repeat split; auto.
  - repeat split.
    + now rewrite <- app_assoc.
    + rewrite app_assoc. now apply Permutation_app_tail.
    + exact H3.
    + intros Hin. apply in_app_iff in Hin.
      destruct Hin as [Hin|[Hin|[]]]; [|discriminate].
      discriminate (H4 Hin).
Qed.

Lemma ledger_step p p' : step worker p p' -> ledger items p -> ledger items p'.
Proof.
  intros H (H1 & H2 & H3 & H4).
  destruct H as [q res l1 l2 s inv log item w s' progress E
                |res l1 l2 s inv log item r
                |next q res l1 l2 s inv log item r s' progress E];
    unfold ledger in *; simpl in *;
    rewrite inFlight_app in *; simpl in *.
  - repeat split; auto. intros Hin. eapply H4, In_None_middle, Hin.
  - rewrite map_app, tally_snoc. simpl. repeat split; auto.
    + now apply perm_return.
    + now rewrite H3.
  - rewrite map_app, tally_snoc. simpl. repeat split.
    + now rewrite <- app_assoc.
    + now apply perm_next.
    + now rewrite H3.
    + intros Hin. apply (In_None_middle _ _ _ (item, Settled r)) in Hin.
      discriminate (H4 Hin).
Qed.

Lemma tally_from res (log : list (Item * Outcome unit)) :
  let final := fold_left (fun res e => record (fst e) (snd e) res) log res in
  success final + failed final = success res + failed res + List.length log
  /\ errors final = errors res ++ rejections log
  /\ failed final = failed res + List.length (rejections log).
Proof.
  revert res. induction log as [|[item r] log IH]; intros res; simpl.
  - rewrite app_nil_r. repeat split; lia.
  - destruct (IH (record item r res)) as (I1 & I2 & I3).
    simpl in I1, I2, I3. rewrite I1, I2, I3.
    destruct r as [[]|message]; simpl; rewrite ?length_app, <- ?app_assoc;
      simpl; repeat split; lia.
Qed.

Lemma runners_spawn limit (p : Pool) :
  List.length (runners (spawn worker limit p)) = List.length (runners p) + limit.
Proof.
  revert p. induction limit as [|limit IH]; intros p; simpl; [lia|].
  destruct (nextItem worker p) as [p1 runner] eqn:E. rewrite IH. simpl.
  rewrite length_app. simpl.
  assert (runners p1 = runners p).
  { unfold nextItem in E. destruct (queue p); [now inversion E|].
    destruct (start worker i (shared p)). now inversion E. }
  rewrite H. lia.
Qed.

Lemma runners_step p p' :
  step worker p p' -> List.length (runners p') = List.length (runners p).
Proof. intros []; simpl; rewrite !length_app; reflexivity. Qed.

End MapLimitLedger.

(** *** The journal of the worker *)

Section MapLimitJournal.
Context {Item State W : Type}.
Variable worker : Worker Item State W.

Abbreviation JPool := (Pool Item (State * Journal Item) (Item * W)).
Abbreviation JRunner := (Runner Item (Item * W)).

Lemma journalled_terminating : terminating worker -> terminating (journalled worker).
Proof.
  intros [Hb Hd]. split; cbn [journalled start resume size bound].
  - intros item [s j] [s' j'] [i w]. cbn [fst snd].
    destruct (start worker item s) as [s1 [w1|r]] eqn:E; cbn [noted];
      intros H; inversion H; subst. cbn [snd]. exact (Hb _ _ _ _ E).
  - intros [i w] [s j] [s' j'] [i' w']. cbn [fst snd].
    destruct (resume worker w s) as [s1 [w1|r]] eqn:E; cbn [noted];
      intros H; inversion H; subst. cbn [snd]. exact (Hd _ _ _ _ E).
Qed.

(** What a call or a resumption of the journalled worker gives. *)
Lemma journalled_start item s j s' j' progress :
  start (journalled worker) item (s, j) = ((s', j'), progress) ->
  exists progress0,
    start worker item s = (s', progress0)
    /\ calls j' = calls j ++ [item]
    /\ match progress0 with
       | Pending w => progress = Pending (item, w) /\ outcomes j' = outcomes j
       | Settled r => progress = Settled r
                      /\ outcomes j' = outcomes j ++ [(item, r)]
       end.
Proof.
  cbn [journalled start fst snd].
  destruct (start worker item s) as [s1 [w1|r]]; cbn [noted calls outcomes];
    intros H; inversion H; subst; eexists; (split; [reflexivity|]); auto.
Qed.

Lemma journalled_resume item w s j s' j' progress :
  resume (journalled worker) (item, w) (s, j) = ((s', j'), progress) ->
  exists progress0,
    resume worker w s = (s', progress0)
    /\ calls j' = calls j
    /\ match progress0 with
       | Pending w' => progress = Pending (item, w') /\ outcomes j' = outcomes j
       | Settled r => progress = Settled r
                      /\ outcomes j' = outcomes j ++ [(item, r)]
       end.
Proof.
  cbn [journalled resume fst snd].
  destruct (resume worker w s) as [s1 [w1|r]]; cbn [noted calls outcomes];
    intros H; inversion H; subst; eexists; (split; [reflexivity|]); auto.
Qed.

Lemma settledCalls_app (l1 l2 : list JRunner) :
  settledCalls (l1 ++ l2) = settledCalls l1 ++ settledCalls l2.
Proof. apply flat_map_app. Qed.

Lemma journalKept_spawn (p p' : JPool) :
  spawnStep (journalled worker) p p' -> journalKept p -> journalKept p'.
Proof.
  intros H (H1 & H2 & H3).
  destruct H as [res rs s inv log|next q res rs [s j] inv log [s' j'] progress E];
    unfold journalKept in *; cbn [shared invoked settledLog runners fst snd] in *.
  - rewrite settledCalls_app. cbn [settledCalls flat_map]. rewrite !app_nil_r.
    repeat split; auto. intros item iw Hin. apply in_app_iff in Hin.
    destruct Hin as [Hin|[Hin|[]]]; [eauto|discriminate].
  - apply journalled_start in E.
    destruct E as (progress0 & _ & Ec & Ep). rewrite Ec, H1.
    rewrite settledCalls_app. split; [reflexivity|].
    destruct progress0 as [w|r]; destruct Ep as [-> Eo]; rewrite Eo;
      cbn [settledCalls flat_map app].
    + rewrite app_nil_r. split; [exact H2|].
      intros item iw Hin. apply in_app_iff in Hin.
      destruct Hin as [Hin|[Hin|[]]]; [eauto|]. now inversion Hin.
    + split.
      * rewrite H2, !app_assoc. reflexivity.
      * intros item iw Hin. apply in_app_iff in Hin.
        destruct Hin as [Hin|[Hin|[]]]; [eauto|discriminate].
Qed.

Lemma settledCalls_pending (l1 l2 : list JRunner) item iw :
  settledCalls (l1 ++ Some (item, Pending iw) :: l2) = settledCalls (l1 ++ l2).
Proof. now rewrite !settledCalls_app. Qed.

Lemma settledCalls_settled (l1 l2 : list JRunner) item r :
  Permutation (settledCalls (l1 ++ Some (item, Settled r) :: l2))
    ((item, r) :: settledCalls (l1 ++ l2)).
Proof.
  rewrite !settledCalls_app. cbn [settledCalls flat_map app].
  symmetry. apply Permutation_middle.
Qed.

Lemma settledCalls_returned (l1 l2 : list JRunner) :
  settledCalls (l1 ++ None :: l2) = settledCalls (l1 ++ l2).
Proof. now rewrite !settledCalls_app. Qed.

Lemma note_perm {X} (out log rest : list X) e :
  Permutation out (log ++ rest) -> Permutation (out ++ [e]) (log ++ e :: rest).
Proof.
  intros H. rewrite H, <- app_assoc. apply Permutation_app_head.
  symmetry. apply Permutation_cons_append.
Qed.

Lemma journalKept_step (p p' : JPool) :
  step (journalled worker) p p' -> journalKept p -> journalKept p'.
Proof.
  intros H (H1 & H2 & H3).
  assert (Hknown : forall (l1 l2 : list JRunner) e e',
             (forall item iw, In (Some (item, Pending iw)) (l1 ++ e :: l2) ->
                              fst iw = item) ->
             (forall item iw, e' = Some (item, Pending iw) -> fst iw = item) ->
             forall item iw, In (Some (item, Pending iw)) (l1 ++ e' :: l2) ->
                             fst iw = item).
  { intros l1 l2 e e' Hall He' item iw Hin. apply in_app_iff in Hin.
    destruct Hin as [Hin|[Hin|Hin]].
    - apply Hall, in_app_iff. now left.
    - now apply He'.
    - apply Hall, in_app_iff. right. now right. }
  destruct H as [q res l1 l2 [s j] inv log item [i w] [s' j'] progress E
                |res l1 l2 s inv log item r
                |next q res l1 l2 [s j] inv log item r [s' j'] progress E];
    unfold journalKept in *; cbn [shared invoked settledLog runners fst snd] in *.
  - assert (Hi : i = item).
    { apply (H3 item (i, w)), in_app_iff. right. now left. }
    subst i. apply journalled_resume in E.
    destruct E as (progress0 & _ & Ec & Ep). rewrite Ec.
    split; [exact H1|].
    rewrite settledCalls_pending in H2.
    destruct progress0 as [w'|r]; destruct Ep as [-> Eo]; rewrite Eo.
    + rewrite settledCalls_pending. split; [exact H2|].
      apply (Hknown _ _ _ _ H3). intros it iw0 Heq. now inversion Heq.
    + split.
      * rewrite settledCalls_settled. apply note_perm, H2.
      * apply (Hknown _ _ _ _ H3). intros it iw0 Heq. discriminate.
  - split; [exact H1|]. split.
    + rewrite settledCalls_returned, H2, settledCalls_settled, <- app_assoc.
      apply Permutation_app_head. reflexivity.
    + apply (Hknown _ _ _ _ H3). intros it iw0 Heq. discriminate.
  - apply journalled_start in E.
    destruct E as (progress0 & _ & Ec & Ep). rewrite Ec, H1.
    split; [reflexivity|].
    assert (H2' : Permutation (outcomes j)
                    ((log ++ [(item, r)]) ++ settledCalls (l1 ++ l2))).
    { rewrite H2, settledCalls_settled, <- app_assoc.
      apply Permutation_app_head. reflexivity. }
    destruct progress0 as [w|r0]; destruct Ep as [-> Eo]; rewrite Eo.
    + rewrite settledCalls_pending. split; [exact H2'|].
      apply (Hknown _ _ _ _ H3). intros it iw0 Heq. now inversion Heq.
    + split.
      * rewrite settledCalls_settled. apply note_perm, H2'.
      * apply (Hknown _ _ _ _ H3). intros it iw0 Heq. discriminate.
Qed.

(** *** The journal changes nothing *)

Lemma plain_suspendedFrom k (rs : list JRunner) :
  suspendedFrom k (map plainRunner rs) = suspendedFrom k rs.
Proof.
  revert k. induction rs as [|[[item [iw|r]]|] rs IH]; intros k; simpl;
    now rewrite ?IH.
Qed.

Lemma plain_suspended (p : JPool) : suspended (plainPool p) = suspended p.
Proof. apply plain_suspendedFrom. Qed.

Lemma plain_setNth i r (rs : list JRunner) :
  map plainRunner (setNth i r rs) = setNth i (plainRunner r) (map plainRunner rs).
Proof.
  revert i. induction rs as [|x rs IH]; intros [|i]; simpl; try reflexivity.
  now rewrite IH.
Qed.

Lemma plain_nextItem (p : JPool) :
  nextItem worker (plainPool p)
  = (plainPool (fst (nextItem (journalled worker) p)),
     plainRunner (snd (nextItem (journalled worker) p))).
Proof.
  destruct p as [q res rs [s j] inv log]. unfold nextItem, plainPool.
  cbn [queue shared fst snd results runners invoked settledLog].
  destruct q as [|item q]; [reflexivity|].
  cbn [journalled start fst snd].
  destruct (start worker item s) as [s1 [w|r]]; reflexivity.
Qed.

Lemma plain_stepRunner i (p : JPool) :
  stepRunner worker i (plainPool p) = plainPool (stepRunner (journalled worker) i p).
Proof.
  destruct p as [q res rs [s j] inv log]. unfold stepRunner.
  cbn [plainPool queue shared fst snd results runners invoked settledLog].
  rewrite nth_error_map.
  destruct (nth_error rs i) as [[[item [[i' w]|r]]|]|] eqn:E;
    cbn [option_map plainRunner snd]; try reflexivity.
  - cbn [journalled resume fst snd].
    destruct (resume worker w s) as [s1 [w1|r1]]; cbn [noted];
      unfold withRunner, plainPool;
      cbn [queue shared fst snd results runners invoked settledLog];
      now rewrite plain_setNth.
  - match goal with
    | |- context [nextItem worker ?P] =>
        change P with (plainPool (mkPool q (record item r res) rs (s, j) inv
                                    (log ++ [(item, r)])))
    end.
    rewrite plain_nextItem.
    destruct (nextItem (journalled worker)
                (mkPool q (record item r res) rs (s, j) inv (log ++ [(item, r)])))
      as [p2 runner].
    cbn [fst snd]. unfold withRunner, plainPool.
    cbn [queue shared fst snd results runners invoked settledLog].
    now rewrite plain_setNth.
Qed.

Lemma plain_spawn limit (p : JPool) :
  spawn worker limit (plainPool p) = plainPool (spawn (journalled worker) limit p).
Proof.
  revert p. induction limit as [|limit IH]; intros p; [reflexivity|].
  cbn [spawn]. rewrite plain_nextItem.
  destruct (nextItem (journalled worker) p) as [p1 runner]. cbn [fst snd].
  rewrite <- IH. f_equal. unfold plainPool.
  cbn [queue shared fst snd results runners invoked settledLog].
  now rewrite map_app.
Qed.

Lemma plain_runPool sched fuel t (p : JPool) :
  runPool worker sched fuel t (plainPool p)
  = plainPool (runPool (journalled worker) sched fuel t p).
Proof.
  revert t p. induction fuel as [|fuel IH]; intros t p; [reflexivity|].
  cbn [runPool]. rewrite plain_suspended.
  destruct (suspended p) as [|i0 others]; [reflexivity|]. cbv zeta.
  now rewrite plain_stepRunner, IH.
Qed.

Lemma plain_finalPool items limit sched s j :
  finalPool worker items limit sched s
  = plainPool (finalPool (journalled worker) items limit sched (s, j)).
Proof.
  unfold finalPool.
  change (initialPool items s)
    with (plainPool (@initialPool Item (State * Journal Item) (Item * W)
                       items (s, j))).
  now rewrite plain_spawn, plain_runPool.
Qed.
End MapLimitJournal.



(** Once the runners of a pool with at least one runner have all returned,
    the queue is empty. *)
Lemma finalPool_drained {Item State W : Type} (worker : Worker Item State W)
    (items : list Item) (limit : nat) (sched : nat -> nat) (s : State) :
  terminating worker -> 1 <= limit ->
  queue (finalPool worker items limit sched s) = []
  /\ Forall (fun r => r = None) (runners (finalPool worker items limit sched s)).
Proof.
  intros Hterm Hlimit.
  set (p := finalPool worker items limit sched s).
  assert (Hdone : suspended p = []) by now apply finalPool_settles.
  assert (Hledger : ledger items p).
  { apply (finalPool_invariant worker (ledger items)).
    - apply ledger_spawn.
    - apply ledger_step.
    - unfold ledger. simpl. repeat split; auto. contradiction. }
  assert (Hlen : List.length (runners p) = limit).
  { apply (runPool_invariant worker (fun p => List.length (runners p) = limit)).
    - intros p0 p1 H0 <-. exact (runners_step worker _ _ H0).
    - now rewrite runners_spawn. }
  clearbody p. destruct Hledger as (_ & _ & _ & H4).
  apply suspendedFrom_nil in Hdone. split; [|exact Hdone].
  apply H4. destruct (runners p) as [|r rs]; [simpl in Hlen; lia|].
  inversion Hdone; subst. now left.
Qed.



Open Scope string_scope.
Open Scope list_scope.
(* ------------------------------------------------------------------ *)
(** ** The entries of a directory                                      *)
(* ------------------------------------------------------------------ *)

Lemma getEntry_absent (name : string) (entries : list (string * FsNode)) :
  ~ In name (map fst entries) -> getEntry name entries = None.
Proof.
  induction entries as [|[n e] entries IH]; intros Hin; [reflexivity|].
  cbn [getEntry]. destruct (String.eqb n name) eqn:E.
  - apply String.eqb_eq in E. subst. exfalso. apply Hin. now left.
  - apply IH. intros H. apply Hin. now right.
Qed.

Lemma getEntry_present (name : string) (entries : list (string * FsNode)) :
  In name (map fst entries) -> exists entry, getEntry name entries = Some entry.
Proof.
  induction entries as [|[n e] entries IH]; intros Hin; [destruct Hin|].
  cbn [getEntry]. destruct (String.eqb n name) eqn:E; [now exists e|].
  destruct Hin as [Hin|Hin]; [|now apply IH].
  cbn in Hin. subst. rewrite String.eqb_refl in E. discriminate.
Qed.

Lemma getEntry_In (name : string) (entry : FsNode)
    (entries : list (string * FsNode)) :
  getEntry name entries = Some entry -> In (name, entry) entries.
Proof.
  induction entries as [|[n e] entries IH]; intros H; [discriminate|].
  cbn [getEntry] in H. destruct (String.eqb n name) eqn:E.
  - apply String.eqb_eq in E. inversion H; subst. now left.
  - right. now apply IH.
Qed.

Lemma setEntry_absent (name : string) (node : FsNode)
    (entries : list (string * FsNode)) :
  ~ In name (map fst entries) ->
  setEntry name node entries = entries ++ [(name, node)].
Proof.
  induction entries as [|[n e] entries IH]; intros Hin; [reflexivity|].
  cbn [setEntry]. destruct (String.eqb n name) eqn:E.
  - apply String.eqb_eq in E. subst. exfalso. apply Hin. now left.
  - cbn [app]. f_equal. apply IH. intros H. apply Hin. now right.
Qed.

Lemma getEntry_setEntry_same (name : string) (node : FsNode)
    (entries : list (string * FsNode)) :
  getEntry name (setEntry name node entries) = Some node.
Proof.
  induction entries as [|[n e] entries IH]; cbn [setEntry getEntry].
  - now rewrite String.eqb_refl.
  - destruct (String.eqb n name) eqn:E; cbn [getEntry]; rewrite E;
      [reflexivity|exact IH].
Qed.

Lemma getEntry_setEntry_other (name other : string) (node : FsNode)
    (entries : list (string * FsNode)) :
  name <> other ->
  getEntry other (setEntry name node entries) = getEntry other entries.
Proof.
  intros Hne. induction entries as [|[n e] entries IH]; cbn [setEntry getEntry].
  - destruct (String.eqb name other) eqn:E; [|reflexivity].
    apply String.eqb_eq in E. contradiction.
  - destruct (String.eqb n name) eqn:E; cbn [getEntry].
    + apply String.eqb_eq in E. subst n.
      destruct (String.eqb name other) eqn:E'; [|reflexivity].
      apply String.eqb_eq in E'. contradiction.
    + destruct (String.eqb n other); [reflexivity|exact IH].
Qed.

Lemma setEntry_twice (name : string) (node node' : FsNode)
    (entries : list (string * FsNode)) :
  setEntry name node' (setEntry name node entries) = setEntry name node' entries.
Proof.
  induction entries as [|[n e] entries IH]; cbn [setEntry].
  - now rewrite String.eqb_refl.
  - destruct (String.eqb n name) eqn:E; cbn [setEntry]; rewrite E;
      [reflexivity|now rewrite IH].
Qed.

(* ------------------------------------------------------------------ *)
(** ** The files of the pages                                          *)
(* ------------------------------------------------------------------ *)

Lemma writable_below mkdirs name next rest entries :
  writable mkdirs (name :: next :: rest) entries
  = match getEntry name entries with
    | Some (FsDir inner) => writable mkdirs (next :: rest) inner
    | Some (FsFile _) => false
    | None => mkdirs
    end.
Proof. reflexivity. Qed.

Lemma writable_last mkdirs name entries :
  writable mkdirs [name] entries
  = match getEntry name entries with
    | Some (FsDir _) => false
    | _ => true
    end.
Proof. reflexivity. Qed.

Lemma putFile_below mkdirs name next rest data entries :
  putFile mkdirs (name :: next :: rest) data entries
  = match
      match getEntry name entries with
      | Some (FsDir inner) => Some inner
      | Some (FsFile _) => None
      | None => if mkdirs then Some [] else None
      end
    with
    | Some inner =>
        match putFile mkdirs (next :: rest) data inner with
        | Some inner' => Some (setEntry name (FsDir inner') entries)
        | None => None
        end
    | None => None
    end.
Proof. reflexivity. Qed.

Lemma putFile_last mkdirs name data entries :
  putFile mkdirs [name] data entries
  = match getEntry name entries with
    | Some (FsDir _) => None
    | _ => Some (setEntry name (FsFile data) entries)
    end.
Proof. reflexivity. Qed.

(** A file that can be written is written. *)
Lemma writable_putFile mkdirs path data : forall entries,
  writable mkdirs path entries = true ->
  exists entries', putFile mkdirs path data entries = Some entries'.
Proof.
  induction path as [|name rest IH]; intros entries H; [discriminate|].
  cbn [writable putFile] in *. destruct rest as [|next rest].
  - destruct (getEntry name entries) as [[d|inner]|]; try discriminate; eauto.
  - destruct (getEntry name entries) as [[d|inner]|]; try discriminate.
    + destruct (IH _ H) as [inner' E]. rewrite E. eauto.
    + subst mkdirs.
      assert (Hfresh : writable true (next :: rest) [] = true).
      { cbn [writable getEntry]. now destruct rest. }
      destruct (IH _ Hfresh) as [inner' E]. rewrite E. eauto.
Qed.

(** Writing the file is what [mkdirSync] and [writeFileSync] do. *)
Lemma putFile_made path data : forall entries entries',
  putFile true path data entries = Some entries' ->
  exists made,
    mkdirSync (dirname path) entries = Returned made
    /\ writeFileSync path data made = Returned entries'.
Proof.
  unfold dirname.
  induction path as [|name rest IH]; intros entries entries' H; [discriminate|].
  cbn [putFile] in H. destruct rest as [|next rest].
  - cbn [removelast mkdirSync writeFileSync]. exists entries. split; [reflexivity|].
    destruct (getEntry name entries) as [[d|inner]|]; try discriminate;
      now inversion H.
  - assert (Hstep : forall inner,
               match putFile true (next :: rest) data inner with
               | Some inner' => Some (setEntry name (FsDir inner') entries)
               | None => None
               end = Some entries' ->
               match mkdirSync (removelast (next :: rest)) inner with
               | Returned inner' => Returned (setEntry name (FsDir inner') entries)
               | Thrown e => Thrown e
               end
               = Returned (setEntry name
                             (FsDir match mkdirSync (removelast (next :: rest)) inner with
                                    | Returned made => made
                                    | Thrown _ => []
                                    end) entries)
               /\ writeFileSync (name :: next :: rest) data
                    (setEntry name
                       (FsDir match mkdirSync (removelast (next :: rest)) inner with
                              | Returned made => made
                              | Thrown _ => []
                              end) entries)
                  = Returned entries').
    { intros inner Hput.
      destruct (putFile true (next :: rest) data inner) as [inner'|] eqn:E;
        [|discriminate].
      inversion Hput; subst entries'.
      destruct (IH _ _ E) as (made & Hmk & Hwr). rewrite Hmk.
      split; [reflexivity|].
      cbn [writeFileSync]. rewrite getEntry_setEntry_same.
      cbn [writeFileSync] in Hwr. rewrite Hwr. now rewrite setEntry_twice. }
    change (removelast (name :: next :: rest))
      with (name :: removelast (next :: rest)).
    cbn [mkdirSync].
    destruct (getEntry name entries) as [[d|inner]|]; try discriminate.
    + destruct (Hstep _ H) as [H1 H2]. eauto.
    + destruct (Hstep _ H) as [H1 H2]. eauto.
Qed.

Lemma putFile_there path data : forall entries entries',
  putFile false path data entries = Some entries' ->
  writeFileSync path data entries = Returned entries'.
Proof.
  induction path as [|name rest IH]; intros entries entries' H; [discriminate|].
  cbn [putFile writeFileSync] in *. destruct rest as [|next rest].
  - destruct (getEntry name entries) as [[d|inner]|]; try discriminate;
      now inversion H.
  - destruct (getEntry name entries) as [[d|inner]|]; try discriminate.
    destruct (putFile false (next :: rest) data inner) as [inner'|] eqn:E;
      [|discriminate].
    rewrite (IH _ _ E). now inversion H.
Qed.

Lemma writable_fresh path : path <> [] -> writable true path [] = true.
Proof.
  destruct path as [|name [|next rest]]; [congruence|reflexivity|reflexivity].
Qed.

(** A file stays writable when another is written that is not in its
    way, nor it in the way of the other. *)
Lemma putFile_keeps_writable mkdirs g data : forall mkdirs' f entries entries',
  putFile mkdirs g data entries = Some entries' ->
  writable mkdirs' f entries = true ->
  properPrefix g f = false -> properPrefix f g = false ->
  writable mkdirs' f entries' = true.
Proof.
  induction g as [|gn gr IH]; intros mkdirs' f entries entries' Hput Hw Hgf Hfg;
    [discriminate|].
  destruct f as [|fn fr]; [discriminate|].
  cbn [properPrefix] in Hgf, Hfg.
  destruct (String.eqb_spec gn fn) as [<-|Hne].
  - rewrite String.eqb_refl in Hfg. cbn [andb] in Hgf, Hfg.
    destruct gr as [|gnext gr].
    + destruct fr as [|fnext fr]; [|discriminate].
      rewrite putFile_last in Hput. rewrite writable_last.
      destruct (getEntry gn entries) as [[d|inner]|]; try discriminate;
        inversion Hput; subst; now rewrite getEntry_setEntry_same.
    + destruct fr as [|fnext fr]; [discriminate|].
      rewrite putFile_below in Hput. rewrite writable_below in Hw |- *.
      destruct (getEntry gn entries) as [[d|inner]|]; try discriminate.
      * destruct (putFile mkdirs (gnext :: gr) data inner) as [inner'|] eqn:E;
          [|discriminate].
        inversion Hput; subst. rewrite getEntry_setEntry_same.
        exact (IH _ _ _ _ E Hw Hgf Hfg).
      * subst mkdirs'. destruct mkdirs; [|discriminate].
        destruct (putFile true (gnext :: gr) data []) as [inner'|] eqn:E;
          [|discriminate].
        inversion Hput; subst. rewrite getEntry_setEntry_same.
        apply (IH _ _ _ _ E); [|exact Hgf|exact Hfg].
        now apply writable_fresh.
  - assert (Hsame : getEntry fn entries' = getEntry fn entries).
    { destruct gr as [|gnext gr].
      - rewrite putFile_last in Hput.
        destruct (getEntry gn entries) as [[d|inner]|]; try discriminate;
          inversion Hput; subst; now apply getEntry_setEntry_other.
      - rewrite putFile_below in Hput.
        destruct (match getEntry gn entries with
                  | Some (FsDir inner) => Some inner
                  | Some (FsFile _) => None
                  | None => if mkdirs then Some [] else None
                  end) as [inner|]; [|discriminate].
        destruct (putFile mkdirs (gnext :: gr) data inner); [|discriminate].
        inversion Hput; subst. now apply getEntry_setEntry_other. }
    destruct fr as [|fnext fr].
    + rewrite writable_last in Hw |- *. now rewrite Hsame.
    + rewrite writable_below in Hw |- *. now rewrite Hsame.
Qed.

(** [writeHtmlForPath] writes a file that can be written. *)
Lemma writeHtmlForPath_writes (env : Env) (urlPath html : string)
    (entries : list (string * FsNode)) :
  writable (makesDirectory env urlPath) (fileOf env urlPath) entries = true ->
  exists entries',
    putFile (makesDirectory env urlPath) (fileOf env urlPath) html entries
    = Some entries'
    /\ writeHtmlForPath (localeCompare env) (pathJoin env) (resolvedOutputDir env)
         urlPath html entries
       = (entries', Returned tt).
Proof.
  intros Hw. destruct (writable_putFile _ _ html _ Hw) as [entries' Hput].
  exists entries'. split; [exact Hput|].
  unfold writeHtmlForPath. unfold makesDirectory, fileOf, outputFile in Hput.
  cbv zeta in *.
  destruct (Js.hasExtension (queryParamsToPath (localeCompare env) urlPath)).
  - cbn [orb] in Hput. destruct (putFile_made _ _ _ _ Hput) as (made & -> & ->).
    reflexivity.
  - cbn [orb] in Hput.
    destruct (String.eqb (queryParamsToPath (localeCompare env) urlPath) "/").
    + cbn [negb] in Hput. now rewrite (putFile_there _ _ _ _ Hput).
    + cbn [negb] in Hput. destruct (putFile_made _ _ _ _ Hput) as (made & -> & ->).
      reflexivity.
Qed.
(* ------------------------------------------------------------------ *)
(** ** Sets and the frontier                                           *)
(* ------------------------------------------------------------------ *)

Lemma setHas_In x s : setHas x s = true <-> In x s.
Proof.
  unfold setHas. rewrite existsb_exists. split.
  - intros [y [Hy E]]. apply String.eqb_eq in E. now subst.
  - intros H. exists x. split; [exact H|apply String.eqb_refl].
Qed.

Lemma setHas_not_In x s : setHas x s = false <-> ~ In x s.
Proof.
  rewrite <- setHas_In. destruct (setHas x s); split; congruence.
Qed.

Lemma setAdd_new x s : ~ In x s -> setAdd x s = s ++ [x].
Proof. intros H. unfold setAdd. apply setHas_not_In in H. now rewrite H. Qed.

Lemma setAdd_In x y s : In y (setAdd x s) <-> y = x \/ In y s.
Proof.
  unfold setAdd. destruct (setHas x s) eqn:E.
  - apply setHas_In in E. split; [auto|]. intros [->|H]; auto.
  - rewrite in_app_iff. simpl. intuition.
Qed.

Lemma dedupe_NoDup l : NoDup (dedupe l).
Proof.
  unfold dedupe. assert (H : NoDup (@nil string)) by constructor.
  revert H. generalize (@nil string). induction l as [|x l IH]; intros acc H.
  - exact H.
  - simpl. apply IH. unfold setAdd. destruct (setHas x acc) eqn:E; [exact H|].
    apply setHas_not_In in E.
    apply NoDup_app; [exact H|repeat constructor; easy|].
    intros y Hy [<-|[]]. contradiction.
Qed.

(** The sitemap that seeds the crawl has no duplicates. *)
Lemma generateSitemap_NoDup parse api fuel aposHost aposKey locale pieceTypes urls :
  generateSitemap parse api fuel aposHost aposKey locale pieceTypes
  = Some (Returned urls) ->
  NoDup urls.
Proof.
  unfold generateSitemap. destruct (negb (Js.truthy aposKey)); [discriminate|].
  destruct (fetchAllPages parse api aposHost locale); [|discriminate].
  destruct (piecesOfTypes _ _ _ _ _ _ _) as [[pieceUrls|e]|]; try discriminate.
  intros H. inversion H; subst.
  eapply Permutation_NoDup; [symmetry; apply sort_perm|apply dedupe_NoDup].
Qed.

(** What the loop over [foundLinks] does to the queue. *)
Lemma enqueueLinks_spec foundLinks c :
  exists added,
    enqueueLinks foundLinks c = withQueue c (urlQueue c ++ added)
    /\ incl added foundLinks
    /\ List.length added <= List.length foundLinks
    /\ (NoDup (urlQueue c) -> NoDup (urlQueue c ++ added))
    /\ (forall l, In l added -> ~ In l (processedUrls c))
    /\ (forall l, In l foundLinks ->
          In l (processedUrls c) \/ In l (urlQueue c ++ added)).
Proof.
  revert c. induction foundLinks as [|link links IH]; intros c.
  - exists []. rewrite app_nil_r. destruct c. simpl.
    repeat split; auto; easy.
  - unfold enqueueLinks. simpl. fold (enqueueLinks links (enqueueLink c link)).
    unfold enqueueLink at 1.
    destruct (setHas link (processedUrls c)) eqn:Ep; simpl;
      [|destruct (setHas link (urlQueue c)) eqn:Eq; simpl].
    + apply setHas_In in Ep.
      destruct (IH c) as (added & E & Hi & Hl & Hn & Hp & Hc).
      exists added. repeat split; auto.
      * now apply incl_tl.
      * intros l [<-|Hin]; auto.
    + apply setHas_In in Eq.
      destruct (IH c) as (added & E & Hi & Hl & Hn & Hp & Hc).
      exists added. repeat split; auto.
      * now apply incl_tl.
      * intros l [<-|Hin]; auto. right. apply in_app_iff. now left.
    + apply setHas_not_In in Ep. apply setHas_not_In in Eq.
      destruct (IH (withQueue c (urlQueue c ++ [link])))
        as (added & E & Hi & Hl & Hn & Hp & Hc).
      simpl in *. exists (link :: added).
      unfold withQueue in *. simpl in *. rewrite <- app_assoc in *. simpl in *.
      repeat split; auto.
      * intros x [<-|Hx]; [now left|right; now apply Hi].
      * lia.
      * intros Hnd. apply Hn.
        apply NoDup_app; [exact Hnd|repeat constructor; easy|].
        intros x Hx [<-|[]]. contradiction.
      * intros l [<-|Hl']; auto.
      * intros l [<-|Hin]; auto. right. apply in_app_iff. right. now left.
Qed.

(* ------------------------------------------------------------------ *)
(** ** The crawl loop                                                  *)
(* ------------------------------------------------------------------ *)

Lemma Reachable_in_universe env seeds universe u :
  incl seeds universe -> closedUnder env universe ->
  Reachable env seeds u -> In u universe.
Proof.
  intros Hs Hc H. induction H as [u H|u l _ IH Hl]; [now apply Hs|].
  eapply Hc; eassumption.
Qed.

Section Unexpanded.
Variable env : Env.

Lemma unexpandedIn_ext l done done' :
  (forall u, In u done <-> In u done') ->
  unexpandedIn env l done = unexpandedIn env l done'.
Proof.
  intros H. unfold unexpandedIn. f_equal. f_equal.
  apply filter_ext. intros u. f_equal.
  destruct (setHas u done) eqn:E, (setHas u done') eqn:E'; try reflexivity.
  - apply setHas_In, H, setHas_In in E. congruence.
  - apply setHas_In, H, setHas_In in E'. congruence.
Qed.

Lemma unexpandedIn_mono l done done' :
  incl done done' -> unexpandedIn env l done' <= unexpandedIn env l done.
Proof.
  intros H. unfold unexpandedIn. induction l as [|u l IH]; simpl; [lia|].
  destruct (setHas u done) eqn:E; simpl.
  - apply setHas_In, H, setHas_In in E. rewrite E. simpl. exact IH.
  - destruct (setHas u done'); simpl.
    + etransitivity; [exact IH|]. apply le_S, Nat.le_add_l.
    + apply le_n_S, Nat.add_le_mono_l, IH.
Qed.

Lemma unexpandedIn_add l done done' x :
  In x l -> ~ In x done -> In x done' -> incl done done' ->
  unexpandedIn env l done' + weight env x <= unexpandedIn env l done.
Proof.
  intros Hx Hn Hd Hi. induction l as [|u l IH]; [contradiction|].
  pose proof (unexpandedIn_mono l _ _ Hi) as Hm.
  unfold unexpandedIn in *. simpl.
  destruct Hx as [->|Hx].
  - apply setHas_not_In in Hn. apply setHas_In in Hd.
    rewrite Hn, Hd. cbn [negb map list_sum fold_right].
    rewrite Nat.add_comm. apply Nat.add_le_mono_l, Hm.
  - specialize (IH Hx).
    destruct (setHas u done) eqn:E; simpl.
    + apply setHas_In, Hi, setHas_In in E. rewrite E. simpl. exact IH.
    + destruct (setHas u done'); simpl.
      * etransitivity; [exact IH|]. apply le_S, Nat.le_add_l.
      * apply le_n_S. rewrite <- Nat.add_assoc.
        apply Nat.add_le_mono_l, IH.
Qed.
End Unexpanded.

(** *** The invariant of the crawl *)

Section CrawlInvariant.
Variable env : Env.
Variables seeds universe : list string.
Hypothesis seeds_in_universe : incl seeds universe.
Hypothesis universe_closed : closedUnder env universe.
Hypothesis files_apart :
  forall u v, In u universe -> In v universe ->
    okPage env u = true -> okPage env v = true ->
    properPrefix (fileOf env u) (fileOf env v) = false.

Abbreviation Entry := (string * Progress Handler)%type.

Lemma rendering_pending act u : In u (renderingItems act) -> In u (pendingItems act).
Proof.
  unfold renderingItems, pendingItems. intros H.
  apply in_map_iff in H. destruct H as [[item progress] [<- H]].
  apply filter_In in H. destruct H as [H E].
  apply in_map_iff. exists (item, progress). split; [reflexivity|].
  apply filter_In. split; [exact H|].
  unfold isRendering, isPending in *. simpl in *. now destruct progress.
Qed.

Lemma pending_entry act item h : In (item, Pending h) act -> In item (pendingItems act).
Proof.
  intros H. unfold pendingItems. apply in_map_iff. exists (item, Pending h).
  split; [reflexivity|]. apply filter_In. split; [exact H|reflexivity].
Qed.

Lemma Inv_perm budget c q act act' :
  Permutation act act' -> Inv env seeds universe budget c q act -> Inv env seeds universe budget c q act'.
Proof.
  intros Hp [I1 I2 I3 I4 I5 I6 I7 I8 I9 I10 I11 I12 I13].
  assert (HP : Permutation (pendingItems act) (pendingItems act')).
  { unfold pendingItems. now apply Permutation_map, filter_perm. }
  assert (HR : Permutation (renderingItems act) (renderingItems act')).
  { unfold renderingItems. now apply Permutation_map, filter_perm. }
  assert (Hacc : forall u, accounted env c q act u -> accounted env c q act' u).
  { unfold accounted. intros u H. intuition.
    right. right. right. left. eapply Permutation_in; eassumption. }
  assert (Hset : forall u, In u (processedUrls c ++ renderingItems act') ->
                           In u (processedUrls c ++ renderingItems act)).
  { intros u H. apply in_app_iff in H. apply in_app_iff.
    destruct H as [H|H]; [now left|right].
    eapply Permutation_in; [symmetry; exact HR|exact H]. }
  constructor; auto.
  - eapply Permutation_NoDup; [|exact I4]. now apply Permutation_app_head.
  - intros item h H. apply I5. eapply Permutation_in; [symmetry; exact Hp|exact H].
  - intros u l Hu Hl. apply Hacc. eapply I7; [apply Hset, Hu|exact Hl].
  - intros u H. apply I8. intuition. right. right. right.
    eapply Permutation_in; [apply Permutation_map; symmetry; exact Hp|assumption].
  - erewrite unexpandedIn_ext; [exact I10|].
    intros u. split; [apply Hset|].
    intros H. apply in_app_iff in H. apply in_app_iff.
    destruct H as [H|H]; [now left|right].
    eapply Permutation_in; [exact HR|exact H].
  - intros u H. destruct (I11 u H) as [H'|[H'|H']]; auto.
    right. left. eapply Permutation_in; eassumption.
Qed.

Lemma pendingItems_settled item r act :
  pendingItems ((item, Settled r) :: act) = pendingItems act.
Proof. reflexivity. Qed.

Lemma pendingItems_pending item h act :
  pendingItems ((item, Pending h) :: act) = item :: pendingItems act.
Proof. reflexivity. Qed.

Lemma renderingItems_settled item r act :
  renderingItems ((item, Settled r) :: act) = renderingItems act.
Proof. reflexivity. Qed.

Lemma renderingItems_fetching item u pageUrl act :
  renderingItems ((item, Pending (Fetching u pageUrl)) :: act) = renderingItems act.
Proof. reflexivity. Qed.

Lemma renderingItems_rendering item u html n act :
  renderingItems ((item, Pending (Rendering u html n)) :: act)
  = item :: renderingItems act.
Proof. reflexivity. Qed.

Create Rewrite HintDb entries.
Hint Rewrite pendingItems_settled pendingItems_pending renderingItems_settled
  renderingItems_fetching renderingItems_rendering : entries.

Lemma Inv_return budget c q act item r :
  Inv env seeds universe budget c q ((item, Settled r) :: act) -> Inv env seeds universe budget c q act.
Proof.
  intros [I1 I2 I3 I4 I5 I6 I7 I8 I9 I10 I11 I12 I13].
  autorewrite with entries in *.
  constructor; try assumption.
  - intros i h H. apply I5. now right.
  - intros u H. apply I8. simpl. intuition.
Qed.

Lemma Inv_start_settled budget c q act next r :
  Inv env seeds universe budget c (next :: q) act ->
  In next (processedUrls c) \/ pageOf env next = None ->
  Inv env seeds universe budget c q ((next, Settled r) :: act).
Proof.
  intros [I1 I2 I3 I4 I5 I6 I7 I8 I9 I10 I11 I12 I13] Hnext.
  assert (Hacc : forall u, accounted env c (next :: q) act u ->
                           accounted env c q ((next, Settled r) :: act) u).
  { unfold accounted. autorewrite with entries. simpl. intros u H.
    destruct H as [H|[H|[[<-|H]|H]]]; intuition. }
  constructor; autorewrite with entries; try assumption.
  - simpl in I4. now inversion I4.
  - intros item h [H|H]; [discriminate|]. now apply I5.
  - intros u H. apply Hacc, I6, H.
  - intros u l Hu Hl. apply Hacc. eapply I7; eassumption.
  - intros u H. apply I8. simpl in *. intuition.
Qed.

Lemma Inv_start_fetch budget c q act next url :
  Inv env seeds universe budget c (next :: q) act ->
  ~ In next (processedUrls c) ->
  parseURL env next (Some (previewUrl env)) = Some url ->
  Inv env seeds universe budget (logFetch c next) q ((next, Pending (Fetching next (href url))) :: act).
Proof.
  intros [I1 I2 I3 I4 I5 I6 I7 I8 I9 I10 I11 I12 I13] Hnew Hurl.
  assert (Hacc : forall u, accounted env c (next :: q) act u ->
                   accounted env (logFetch c next) q
                     ((next, Pending (Fetching next (href url))) :: act) u).
  { unfold accounted. autorewrite with entries. simpl. intros u H.
    destruct H as [H|[H|[[<-|H]|H]]]; intuition. }
  assert (Hfresh : ~ In next (pendingItems act)).
  { simpl in I4. inversion I4 as [|? ? Hn _]; subst.
    intros H. apply Hn, in_app_iff. now right. }
  constructor; autorewrite with entries; cbn [logFetch processedUrls urlQueue
    written fetchLog disk]; try assumption.
  - eapply Permutation_NoDup; [|exact I4]. apply Permutation_middle.
  - intros item h [H|H].
    + inversion H; subst. split; [exact Hnew|]. simpl. eauto.
    + now apply I5.
  - intros u H. apply Hacc, I6, H.
  - intros u l Hu Hl. apply Hacc. eapply I7; eassumption.
  - intros u H. apply I8. simpl in *. intuition.
  - intros u H. apply in_app_iff in H. destruct H as [H|[<-|[]]].
    + destruct (I11 u H) as [H'|[H'|H']]; auto. right. left. now right.
    + right. left. now left.
  - rewrite filter_app. simpl.
    destruct (okPage env next) eqn:E; [|now rewrite app_nil_r].
    apply NoDup_app; [exact I12|repeat constructor; easy|].
    intros x Hx [<-|[]]. apply filter_In in Hx. destruct Hx as [Hx _].
    destruct (I11 _ Hx) as [H'|[H'|H']]; [contradiction|contradiction|].
    unfold okPage in E. now rewrite H' in E.
Qed.

Lemma Inv_fetch_failed budget c q act item urlPath pageUrl message :
  Inv env seeds universe budget c q ((item, Pending (Fetching urlPath pageUrl)) :: act) ->
  pageOf env item = None ->
  Inv env seeds universe budget (logError c urlPath message) q ((item, Settled (Returned tt)) :: act).
Proof.
  intros [I1 I2 I3 I4 I5 I6 I7 I8 I9 I10 I11 I12 I13] Hfail.
  autorewrite with entries in *.
  assert (Hacc : forall u,
             accounted env c q ((item, Pending (Fetching urlPath pageUrl)) :: act) u ->
             accounted env (logError c urlPath message) q
               ((item, Settled (Returned tt)) :: act) u).
  { unfold accounted. autorewrite with entries. simpl. intros u H.
    destruct H as [H|[H|[H|[[<-|H]|H]]]]; intuition. }
  constructor; autorewrite with entries; cbn [logError processedUrls urlQueue
    written fetchLog disk]; try assumption.
  - now apply NoDup_remove_1 in I4.
  - intros i h [H|H]; [discriminate|]. apply I5. now right.
  - intros u H. apply Hacc, I6, H.
  - intros u l Hu Hl. apply Hacc. eapply I7; eassumption.
  - intros u H. destruct (I11 u H) as [H'|[[<-|H']|H']]; auto.
Qed.

Lemma Inv_fetch_rendering budget c q act item urlPath pageUrl html n :
  Inv env seeds universe budget c q ((item, Pending (Fetching urlPath pageUrl)) :: act) ->
  pageOf env item = Some html ->
  Inv env seeds universe budget (enqueueLinks (linksOf env item) c) q
    ((item, Pending (Rendering item html n)) :: act).
Proof.
  intros [I1 I2 I3 I4 I5 I6 I7 I8 I9 I10 I11 I12 I13] Hpage.
  autorewrite with entries in *.
  destruct (enqueueLinks_spec (linksOf env item) c)
    as (added & -> & Hincl & Hlen & Hnodup & Hfreshq & Hcover).
  destruct (I5 item _ (or_introl eq_refl)) as [Hnew _].
  assert (Hitem : Reachable env seeds item).
  { apply I8. right. right. right. now left. }
  assert (Hnotpending : ~ In item (pendingItems act)).
  { apply NoDup_remove_2 in I4. intros H. apply I4, in_app_iff. now right. }
  assert (Hacc : forall u,
             accounted env c q ((item, Pending (Fetching urlPath pageUrl)) :: act) u ->
             accounted env (withQueue c (urlQueue c ++ added)) q
               ((item, Pending (Rendering item html n)) :: act) u).
  { unfold accounted. autorewrite with entries. simpl. intros u H.
    rewrite in_app_iff. intuition. }
  constructor; autorewrite with entries; cbn [withQueue processedUrls urlQueue
    written fetchLog disk]; try assumption.
  - now apply Hnodup.
  - intros i h [H|H].
    + inversion H; subst. split; [exact Hnew|]. simpl. auto.
    + apply I5. now right.
  - intros u H. apply Hacc, I6, H.
  - intros u l Hu Hl. apply in_app_iff in Hu. destruct Hu as [Hu|[<-|Hu]].
    + apply Hacc. eapply I7; [apply in_app_iff; left; exact Hu|exact Hl].
    + unfold accounted. cbn [withQueue processedUrls urlQueue].
      destruct (Hcover l Hl) as [H|H]; auto.
    + apply Hacc. eapply I7; [apply in_app_iff; right; exact Hu|exact Hl].
  - intros u H. rewrite in_app_iff in H.
    destruct H as [H|[[H|H]|H]].
    + apply I8. auto.
    + apply I8. auto.
    + eapply reach_link; [exact Hitem|apply Hincl, H].
    + apply I8. simpl in *. intuition.
  - rewrite length_app.
    assert (Hw : unexpandedIn env universe (processedUrls c ++ item :: renderingItems act)
                 + weight env item
                 <= unexpandedIn env universe (processedUrls c ++ renderingItems act)).
    { apply unexpandedIn_add.
      - eapply Reachable_in_universe; eassumption.
      - intros H. apply in_app_iff in H. destruct H as [H|H]; [contradiction|].
        now apply Hnotpending, rendering_pending.
      - apply in_app_iff. right. now left.
      - intros u H. apply in_app_iff in H. apply in_app_iff. simpl. intuition. }
    unfold weight in Hw. lia.
Qed.

Lemma Inv_render_finish budget c q act item html n widgets html' entries' :
  Inv env seeds universe budget c q ((item, Pending (Rendering item html n)) :: act) ->
  putFile (makesDirectory env item) (fileOf env item) html' (disk c)
  = Some entries' ->
  Inv env seeds universe budget (finished env c item widgets html' entries') q
    ((item, Settled (Returned tt)) :: act).
Proof.
  intros [I1 I2 I3 I4 I5 I6 I7 I8 I9 I10 I11 I12 I13] Hput.
  autorewrite with entries in *.
  destruct (I5 item _ (or_introl eq_refl)) as [Hnew [_ Hpage]].
  assert (Hnotpending : ~ In item (pendingItems act)).
  { apply NoDup_remove_2 in I4. intros H. apply I4, in_app_iff. now right. }
  assert (Hacc : forall u,
             accounted env c q ((item, Pending (Rendering item html n)) :: act) u ->
             accounted env (finished env c item widgets html' entries') q
               ((item, Settled (Returned tt)) :: act) u).
  { unfold accounted. autorewrite with entries.
    cbn [finished processedUrls urlQueue]. intros u H.
    rewrite setAdd_In. simpl in H. intuition. }
  constructor; autorewrite with entries; cbn [finished processedUrls urlQueue
    written fetchLog disk]; try assumption.
  - rewrite (setAdd_new _ _ Hnew).
    apply NoDup_app; [exact I2|repeat constructor; easy|].
    intros x Hx [<-|[]]. contradiction.
  - rewrite (setAdd_new _ _ Hnew), !map_app, I3. reflexivity.
  - now apply NoDup_remove_1 in I4.
  - intros i h [H|H]; [discriminate|].
    destruct (I5 i h (or_intror H)) as [Hi Hwf]. split; [|exact Hwf].
    rewrite setAdd_In. intros [->|Hin]; [|contradiction].
    apply Hnotpending. eapply pending_entry, H.
  - intros u H. apply Hacc, I6, H.
  - intros u l Hu Hl. apply Hacc. eapply I7; [|exact Hl].
    rewrite in_app_iff in *. rewrite setAdd_In in Hu. simpl. intuition.
  - intros u H. rewrite setAdd_In in H. apply I8. simpl in *. intuition.
  - intros u H. rewrite setAdd_In in H. destruct H as [->|H]; [|now apply I9].
    now rewrite Hpage.
  - erewrite unexpandedIn_ext; [exact I10|].
    intros u. rewrite !in_app_iff, setAdd_In. simpl. intuition.
  - intros u H. rewrite setAdd_In. destruct (I11 u H) as [H'|[[<-|H']|H']]; auto.
  - assert (Hitem : In item universe).
    { eapply Reachable_in_universe; [eassumption|eassumption|].
      apply I8. right. right. right. now left. }
    assert (Hok : okPage env item = true).
    { unfold okPage. now rewrite Hpage. }
    intros u Hu Hpu.
    apply (putFile_keeps_writable _ _ _ _ _ _ _ Hput (I13 u Hu Hpu));
      now apply files_apart.
Qed.

(** A page of the universe is written. *)
Lemma finishPage_fits c item html :
  fits env universe (disk c) -> In item universe -> okPage env item = true ->
  exists entries',
    putFile (makesDirectory env item) (fileOf env item) (rewritten env html)
      (disk c) = Some entries'
    /\ finishPage env item html c
       = finished env c item (processedVideoWidgets c) (rewritten env html)
           entries'.
Proof.
  intros Hfits Hitem Hok.
  destruct (writeHtmlForPath_writes env item (rewritten env html) (disk c)
              (Hfits item Hitem Hok)) as (entries' & Hput & Hwrite).
  exists entries'. split; [exact Hput|].
  unfold finishPage. fold (rewritten env html). now rewrite Hwrite.
Qed.


Lemma pageOf_invalid next :
  parseURL env next (Some (previewUrl env)) = None -> pageOf env next = None.
Proof. intros H. unfold pageOf. now rewrite H. Qed.

Lemma Inv_start budget c q act next c' progress :
  Inv env seeds universe budget c (next :: q) act ->
  handlerStart env next c = (c', progress) ->
  Inv env seeds universe budget c' q ((next, progress) :: act).
Proof.
  intros HI. unfold handlerStart.
  destruct (setHas next (processedUrls c)) eqn:Ehas.
  - intros H. inversion H; subst. apply Inv_start_settled; [exact HI|].
    left. now apply setHas_In.
  - apply setHas_not_In in Ehas.
    destruct (parseURL env next (Some (previewUrl env))) as [url|] eqn:Eurl.
    + intros H. inversion H; subst. now apply Inv_start_fetch.
    + intros H. inversion H; subst. apply Inv_start_settled; [exact HI|].
      right. now apply pageOf_invalid.
Qed.

Lemma Inv_resume budget c q act item h c' progress :
  Inv env seeds universe budget c q ((item, Pending h) :: act) ->
  handlerResume env h c = (c', progress) ->
  Inv env seeds universe budget c' q ((item, progress) :: act).
Proof.
  intros HI.
  destruct (inv_pending _ _ _ _ _ _ _ HI item h (or_introl eq_refl)) as [_ Hwf].
  assert (Hitem : In item universe).
  { eapply Reachable_in_universe; [eassumption|eassumption|].
    apply (inv_reach _ _ _ _ _ _ _ HI). right. right. right. now left. }
  destruct h as [urlPath pageUrl|urlPath html n]; simpl in Hwf.
  - destruct Hwf as [-> [url [Hurl Hhref]]]. unfold handlerResume.
    destruct (result (fetchWithRetry (preview env pageUrl) (retries env)))
      as [response|message] eqn:Efetch.
    + assert (Hpage : pageOf env item = Some (body response)).
      { unfold pageOf. now rewrite Hurl, Hhref, Efetch. }
      assert (Hok : okPage env item = true).
      { unfold okPage. now rewrite Hpage. }
      assert (Hlinks : extractInternalLinks (parseURL env)
                         (parseHTML (jsdom env) (body response)) (previewUrl env)
                       = linksOf env item).
      { unfold linksOf. now rewrite Hpage. }
      cbv zeta. rewrite Hlinks.
      pose proof (Inv_fetch_rendering _ _ _ _ _ _ _ _
                    (videoWidgetCount (body response)) HI Hpage) as HR.
      destruct (0 <? videoWidgetCount (body response))%nat.
      * intros H. inversion H; subst. exact HR.
      * destruct (finishPage_fits (enqueueLinks (linksOf env item) c) item
                    (body response) (inv_disk _ _ _ _ _ _ _ HR) Hitem Hok)
          as (entries' & Hput & ->).
        intros H. inversion H; subst.
        exact (Inv_render_finish _ _ _ _ _ _ _ _ _ _ HR Hput).
    + assert (Hpage : pageOf env item = None).
      { unfold pageOf. now rewrite Hurl, Hhref, Efetch. }
      intros H. inversion H; subst c' progress.
      exact (Inv_fetch_failed _ _ _ _ _ _ _ _ HI Hpage).
  - destruct Hwf as [-> Hpage]. unfold handlerResume. cbv zeta.
    assert (Hok : okPage env item = true).
    { unfold okPage. now rewrite Hpage. }
    fold (withWidgets c (processedVideoWidgets c + n)).
    destruct (finishPage_fits (withWidgets c (processedVideoWidgets c + n)) item
                (processVideoWidgets (jsdom env) (renderEmbed env) (backend env)
                   html (aposHost env) (retries env))
                (inv_disk _ _ _ _ _ _ _ HI) Hitem Hok)
      as (entries' & Hput & ->).
    intros H. inversion H; subst.
    exact (Inv_render_finish _ _ _ _ _ _ _ _ _ _ HI Hput).
Qed.

(** *** The invariant in a pool of runners *)

Lemma actives_middle l1 e l2 :
  Permutation (e :: actives (l1 ++ l2)) (actives (l1 ++ Some e :: l2)).
Proof.
  unfold actives. rewrite !flat_map_app. simpl. apply Permutation_middle.
Qed.

Lemma actives_returned l1 l2 : actives (l1 ++ None :: l2) = actives (l1 ++ l2).
Proof. unfold actives. now rewrite !flat_map_app. Qed.

Lemma PoolInv_step budget p p' :
  step (handler env) p p' -> PoolInv env seeds universe budget p -> PoolInv env seeds universe budget p'.
Proof.
  unfold PoolInv.
  intros [q res l1 l2 s inv log item w s' progress E
         |res l1 l2 s inv log item r
         |next q res l1 l2 s inv log item r s' progress E] HI;
    cbn [shared queue runners] in *.
  - eapply Inv_perm; [apply actives_middle|].
    eapply Inv_resume; [|exact E].
    eapply Inv_perm; [symmetry; apply actives_middle|exact HI].
  - rewrite actives_returned. eapply Inv_return.
    eapply Inv_perm; [symmetry; apply actives_middle|exact HI].
  - eapply Inv_perm; [apply actives_middle|].
    eapply Inv_start; [|exact E].
    eapply Inv_return.
    eapply Inv_perm; [symmetry; apply actives_middle|exact HI].
Qed.

Lemma PoolInv_spawn budget p p' :
  spawnStep (handler env) p p' -> PoolInv env seeds universe budget p -> PoolInv env seeds universe budget p'.
Proof.
  unfold PoolInv.
  intros [res rs s inv log|next q res rs s inv log s' progress E] HI;
    cbn [shared queue runners] in *.
  - unfold actives in *. rewrite flat_map_app. simpl. now rewrite app_nil_r.
  - eapply Inv_perm; [|eapply Inv_start; [exact HI|exact E]].
    unfold actives. rewrite flat_map_app. simpl. apply Permutation_cons_append.
Qed.

Lemma handler_terminating : terminating (handler env).
Proof.
  split; simpl.
  - intros item s s' w _. destruct w; simpl; lia.
  - intros w s s' w'. destruct w as [urlPath pageUrl|urlPath html n]; simpl.
    + destruct (result (fetchWithRetry (preview env pageUrl) (retries env)));
        [|discriminate].
      destruct (0 <? videoWidgetCount (body a))%nat; [|discriminate].
      intros H. inversion H; subst. simpl. lia.
    + discriminate.
Qed.

Lemma actives_none rs : Forall (fun r => r = None) rs -> actives rs = [].
Proof. induction 1 as [|r rs -> _ IH]; simpl; auto. Qed.

(** *** The loop over the batches *)

Lemma Inv_batch budget c n :
  Inv env seeds universe budget c [] [] -> urlQueue c <> [] -> 1 <= n ->
  let c1 := withQueue c (skipn n (urlQueue c)) in
  let batchUrls :=
    filter (fun url => negb (setHas url (processedUrls c1)))
      (firstn n (urlQueue c)) in
  1 <= budget /\ Inv env seeds universe (budget - 1) c1 batchUrls [].
Proof.
  intros [I1 I2 I3 I4 I5 I6 I7 I8 I9 I10 I11 I12 I13] Hq Hn c1 batchUrls.
  assert (Hsplit : urlQueue c = firstn n (urlQueue c) ++ skipn n (urlQueue c))
    by (symmetry; apply firstn_skipn).
  assert (Hfirst : 1 <= List.length (firstn n (urlQueue c))).
  { rewrite length_firstn. destruct (urlQueue c); [congruence|simpl; lia]. }
  assert (Hlen : List.length (urlQueue c)
                 = List.length (firstn n (urlQueue c)) + List.length (skipn n (urlQueue c))).
  { rewrite <- length_app, <- Hsplit. reflexivity. }
  assert (Hacc : forall u, accounted env c [] [] u -> accounted env c1 batchUrls [] u).
  { unfold accounted. subst c1 batchUrls. cbn [withQueue processedUrls urlQueue].
    intros u [H|[H|[H|H]]]; auto.
    rewrite Hsplit in H. apply in_app_iff in H. destruct H as [H|H]; auto.
    destruct (setHas u (processedUrls c)) eqn:E.
    - left. now apply setHas_In.
    - right. right. left. apply filter_In. split; [exact H|]. now rewrite E. }
  split; [simpl in I10; lia|].
  constructor; subst c1 batchUrls; cbn [withQueue processedUrls urlQueue written
    fetchLog disk]; try assumption.
  - rewrite Hsplit in I1. now apply NoDup_app_remove_l in I1.
  - rewrite app_nil_r. apply NoDup_filter.
    rewrite Hsplit in I1. now apply NoDup_app_remove_r in I1.
  - intros u H. apply Hacc, I6, H.
  - intros u l Hu Hl. apply Hacc. eapply I7; eassumption.
  - intros u H. apply I8. rewrite Hsplit, in_app_iff.
    destruct H as [H|[H|[H|[]]]]; auto.
    apply filter_In in H. destruct H as [H _]. auto.
  - simpl in *. lia.
Qed.

Lemma crawlLoop_terminates sched fuel :
  1 <= concurrency env ->
  forall budget round c,
    Inv env seeds universe budget c [] [] -> budget <= fuel ->
    exists c' budget',
      crawlLoop env sched fuel round c = Some c'
      /\ urlQueue c' = [] /\ Inv env seeds universe budget' c' [] [].
Proof.
  intros Hconc. induction fuel as [|fuel IH]; intros budget round c HI Hfuel.
  - destruct (urlQueue c) as [|x queue'] eqn:Eq.
    + exists c, budget. simpl. rewrite Eq. auto.
    + destruct (Inv_batch budget c 1 HI) as [Hb _]; [congruence|lia|lia].
  - destruct (urlQueue c) as [|x queue'] eqn:Eq.
    + exists c, budget. simpl. rewrite Eq. auto.
    + destruct (Inv_batch budget c (concurrency env * 2) HI) as [Hb HI1];
        [congruence|lia|].
      cbn [crawlLoop]. rewrite Eq. rewrite <- Eq.
      cbv zeta in HI1. unfold withQueue in HI1.
      set (c1 := mkCrawl (processedUrls c) (skipn (concurrency env * 2) (urlQueue c))
                   (processedVideoWidgets c) (crawlErrors c) (written c) (fetchLog c)
                   (disk c)) in *.
      destruct (filter (fun url => negb (setHas url (processedUrls c1)))
                  (firstn (concurrency env * 2) (urlQueue c)))
        as [|url batchUrls] eqn:Eb.
      * apply (IH (budget - 1)); [exact HI1|lia].
      * rewrite (mapLimit_returns (handler env) handler_terminating).
        destruct (finalPool_drained (handler env) (url :: batchUrls)
                    (concurrency env) (sched round) c1 handler_terminating Hconc)
          as [Hdrained Hreturned].
        apply (IH (budget - 1)); [|lia].
        pose proof (finalPool_invariant (handler env) (PoolInv env seeds universe (budget - 1))
                      (PoolInv_spawn _) (PoolInv_step _)
                      (url :: batchUrls) (concurrency env) (sched round) c1 HI1)
          as HP.
        unfold PoolInv in HP.
        now rewrite Hdrained, (actives_none _ Hreturned) in HP.
Qed.

End CrawlInvariant.



Lemma unexpandedIn_nil env l : unexpandedIn env l [] = list_sum (map (weight env) l).
Proof.
  unfold unexpandedIn. induction l as [|u l IH]; [reflexivity|].
  simpl in *. now rewrite IH.
Qed.

Lemma linksOf_page env u l : In l (linksOf env u) -> pageOf env u <> None.
Proof. unfold linksOf. destruct (pageOf env u); [discriminate|contradiction]. Qed.

(** What it is for the files to fit. *)
Lemma filesFit_spec env universe :
  filesFit env universe = true ->
  fits env universe (fileSystem env)
  /\ forall u v, In u universe -> In v universe ->
       okPage env u = true -> okPage env v = true ->
       properPrefix (fileOf env u) (fileOf env v) = false.
Proof.
  unfold filesFit. intros H. rewrite forallb_forall in H.
  assert (Hpage : forall u, In u universe -> okPage env u = true ->
                            In u (filter (okPage env) universe)).
  { intros u Hu Hok. apply filter_In. now split. }
  split.
  - intros u Hu Hok. specialize (H u (Hpage u Hu Hok)).
    apply andb_true_iff in H. apply H.
  - intros u v Hu Hv Hpu Hpv. specialize (H u (Hpage u Hu Hpu)).
    apply andb_true_iff in H. destruct H as [_ H].
    rewrite forallb_forall in H. specialize (H v (Hpage v Hv Hpv)).
    now apply negb_true_iff in H.
Qed.

(** Two raw paths with one canonical path are two crawl targets: each is
    fetched and rendered, and the second page written replaces the first
    in the one output file. *)
Lemma crawl_renders_equivalent_paths_twice :
  queryParamsToPath Platform.rootCollation "/a?x=1&y=2"
  = queryParamsToPath Platform.rootCollation "/a?y=2&x=1"
  /\ option_map fetchLog (crawl demoEnv (fun _ t => t) 10 ["/"])
     = Some ["/"; "/a?x=1&y=2"; "/a?y=2&x=1"]
  /\ option_map processedUrls (crawl demoEnv (fun _ t => t) 10 ["/"])
     = Some ["/"; "/a?x=1&y=2"; "/a?y=2&x=1"]
  /\ option_map (fun c => map fst (written c)) (crawl demoEnv (fun _ t => t) 10 ["/"])
     = Some ["/out/index.html"; "/out/a/x-1-y-2/index.html";
             "/out/a/x-1-y-2/index.html"].
Proof. vm_compute. repeat split. Qed.

(** A page whose file is where another page needs a directory: the
    second write throws, its path goes to the errors and is not marked as
    processed. *)
Example crawl_with_a_file_in_the_way :
  option_map (fun c => (processedUrls c, crawlErrors c, map fst (written c)))
    (crawl demoEnv (fun _ t => t) 10 ["/releases/"])
  = Some (["/releases/"; "/releases/v1.2"],
          [("/releases/v1.2/notes", "ENOTDIR")],
          ["/out/releases/index.html"; "/out/releases/v1.2"])
  /\ filesFit demoEnv ["/releases/"; "/releases/v1.2"; "/releases/v1.2/notes"]
     = false.
Proof. vm_compute. split; reflexivity. Qed.

(** A page whose file cannot be written is not marked as processed: when
    it links to itself it is queued again each time it is rendered, and
    the loop does not end.  Here [/docs/v2.0] was written as a file, and
    [/docs/v2.0/changes] needs it as a directory. *)
Lemma crawl_batch_with_a_file_in_the_way errs log w :
  mapLimit (handler demoEnv) ["/docs/v2.0/changes"] 2 (fun t => t)
    (mkCrawl ["/docs/v2.0"] [] 0 errs w log
       [("out", FsDir [("docs", FsDir [("v2.0", FsFile "<html><head></head><body><h1>2.0</h1></body></html>")])])])
  = Some (mkResults 1 0 [],
          mkCrawl ["/docs/v2.0"] ["/docs/v2.0/changes"] 0
            (errs ++ [("/docs/v2.0/changes", "ENOTDIR")]) w
            (log ++ ["/docs/v2.0/changes"])
            [("out", FsDir [("docs", FsDir [("v2.0", FsFile "<html><head></head><body><h1>2.0</h1></body></html>")])])]).
Proof. vm_compute. reflexivity. Qed.

Lemma crawlLoop_with_a_file_in_the_way fuel : forall round errs log w,
  crawlLoop demoEnv (fun _ t => t) fuel round
    (mkCrawl ["/docs/v2.0"] ["/docs/v2.0/changes"] 0 errs w log
       [("out", FsDir [("docs", FsDir [("v2.0", FsFile "<html><head></head><body><h1>2.0</h1></body></html>")])])])
  = None.
Proof.
  induction fuel as [|fuel IH]; intros round errs log w; [reflexivity|].
  transitivity
    (match
       mapLimit (handler demoEnv) ["/docs/v2.0/changes"] 2 (fun t => t)
         (mkCrawl ["/docs/v2.0"] [] 0 errs w log
            [("out", FsDir [("docs", FsDir [("v2.0", FsFile "<html><head></head><body><h1>2.0</h1></body></html>")])])])
     with
     | Some (_, c) => crawlLoop demoEnv (fun _ t => t) fuel (S round) c
     | None => None
     end); [reflexivity|].
  rewrite crawl_batch_with_a_file_in_the_way. apply IH.
Qed.

Example crawl_without_end :
  forall fuel,
    crawl demoEnv (fun _ t => t) fuel ["/docs/v2.0"; "/docs/v2.0/changes"] = None.
Proof.
  intros [|fuel]; [reflexivity|].
  transitivity
    (crawlLoop demoEnv (fun _ t => t) fuel 1
       (mkCrawl ["/docs/v2.0"] ["/docs/v2.0/changes"] 0
          [("/docs/v2.0/changes", "ENOTDIR")]
          [("/out/docs/v2.0", "<html><head></head><body><h1>2.0</h1></body></html>")]
          ["/docs/v2.0"; "/docs/v2.0/changes"]
          [("out", FsDir [("docs", FsDir [("v2.0", FsFile "<html><head></head><body><h1>2.0</h1></body></html>")])])]));
    [|apply crawlLoop_with_a_file_in_the_way].
  transitivity
    (match
       mapLimit (handler demoEnv) ["/docs/v2.0"; "/docs/v2.0/changes"] 2
         (fun t => t)
         (mkCrawl [] [] 0 [] [] [] (fileSystem demoEnv))
     with
     | Some (_, c) => crawlLoop demoEnv (fun _ t => t) fuel 1 c
     | None => None
     end); [reflexivity|].
  replace (mapLimit (handler demoEnv) ["/docs/v2.0"; "/docs/v2.0/changes"] 2
             (fun t => t) (mkCrawl [] [] 0 [] [] [] (fileSystem demoEnv)))
    with (Some (mkResults 2 0 ([] : list (string * string)),
                mkCrawl ["/docs/v2.0"] ["/docs/v2.0/changes"] 0
                  [("/docs/v2.0/changes", "ENOTDIR")]
                  [("/out/docs/v2.0", "<html><head></head><body><h1>2.0</h1></body></html>")]
                  ["/docs/v2.0"; "/docs/v2.0/changes"]
                  [("out", FsDir [("docs", FsDir [("v2.0", FsFile "<html><head></head><body><h1>2.0</h1></body></html>")])])]))
    by (vm_compute; reflexivity).
  reflexivity.
Qed.

(** C1 (amended).  For any finite same-origin link graph and any worker
    count of at least one, in whatever order the event loop resumes the
    workers, and when the files of the pages fit (each can be written on
    the file system as the crawl finds it, and none is where another needs
    a directory, so that [writeHtmlForPath] does not throw): the crawl loop
    ends with an empty queue and has rendered (fetched, processed and
    written, once) exactly the raw paths that are reachable from the seeds
    and can be fetched; no page that can be fetched is fetched twice.  The
    crawl target is the raw path (pathname and query string as written in
    the link): two raw paths that differ are two targets, also when they
    have the same canonical path, and then they are written to the same
    output file. *)
Theorem crawl_renders_each_raw_path_once :
  forall (env : Env) (sched : nat -> nat -> nat)
         (seeds universe : list string) (fuel : nat),
    1 <= concurrency env ->
    NoDup seeds -> incl seeds universe -> closedUnder env universe ->
    filesFit env universe = true ->
    crawlFuel env seeds universe <= fuel ->
    exists c,
      crawl env sched fuel seeds = Some c
      /\ urlQueue c = []
      /\ NoDup (processedUrls c)
      /\ map fst (written c) = map (outputFile env) (processedUrls c)
      /\ (forall u, In u (processedUrls c)
                    <-> Reachable env seeds u /\ pageOf env u <> None)
      /\ NoDup (filter (okPage env) (fetchLog c))
      /\ (forall u v,
            queryParamsToPath (localeCompare env) u
            = queryParamsToPath (localeCompare env) v ->
            outputFile env u = outputFile env v).
Proof.
  intros env sched seeds universe fuel Hconc Hnodup Hincl Hclosed Hfit Hfuel.
  destruct (filesFit_spec env universe Hfit) as [Hfits Hapart].
  assert (Hinit : Inv env seeds universe (crawlFuel env seeds universe)
                    (initialCrawl seeds (fileSystem env)) [] []).
  { constructor; cbn [initialCrawl processedUrls urlQueue written fetchLog disk
      pendingItems renderingItems filter map app].
    - exact Hnodup.
    - constructor.
    - reflexivity.
    - constructor.
    - intros item h [].
    - intros u H. unfold accounted. simpl. auto.
    - intros u l [].
    - intros u [[]|[H|[[]|[]]]]. now constructor.
    - intros u [].
    - rewrite unexpandedIn_nil. unfold crawlFuel. lia.
    - intros u [].
    - constructor.
    - exact Hfits. }
  destruct (crawlLoop_terminates env seeds universe Hincl Hclosed Hapart sched fuel
              Hconc _ 0 _ Hinit Hfuel) as (c & budget & Hrun & Hempty & HI).
  exists c. destruct HI as [I1 I2 I3 I4 I5 I6 I7 I8 I9 I10 I11 I12 I13].
  assert (Hacc : forall u, accounted env c [] [] u -> pageOf env u <> None ->
                           In u (processedUrls c)).
  { unfold accounted. rewrite Hempty. simpl. intros u H Hp.
    destruct H as [H|[[]|[[]|[[]|H]]]]; [exact H|contradiction]. }
  split; [exact Hrun|]. split; [exact Hempty|]. split; [exact I2|].
  split; [exact I3|]. split; [|split; [exact I12|]].
  - intros u. split.
    + intros H. split; [apply I8; auto|now apply I9].
    + intros [Hreach Hpage]. revert Hpage.
      induction Hreach as [u Hu|u l Hu IH Hl]; intros Hpage.
      * apply Hacc; auto.
      * apply Hacc; [|exact Hpage]. eapply I7; [|exact Hl].
        rewrite app_nil_r. apply IH. eapply linksOf_page, Hl.
  - intros u v E. unfold outputFile, outputPath. now rewrite E.
Qed.

Lemma crawl_renders_each_raw_path_once_witness :
  exists c,
    crawl demoEnv (fun _ t => t) 10 ["/"] = Some c
    /\ urlQueue c = []
    /\ NoDup (processedUrls c)
    /\ (forall u, In u (processedUrls c)
                  <-> Reachable demoEnv ["/"] u /\ pageOf demoEnv u <> None).
Proof.
  destruct (crawl_renders_each_raw_path_once demoEnv (fun _ t => t) ["/"]
              ["/"; "/a?x=1&y=2"; "/a?y=2&x=1"] 10)
    as (c & H1 & H2 & H3 & _ & H5 & _).
  - simpl. lia.
  - repeat constructor. simpl. tauto.
  - intros u [<-|[]]. simpl. tauto.
  - intros u l [<-|[<-|[<-|[]]]]; vm_compute; tauto.
  - reflexivity.
  - vm_compute. lia.
  - exists c. auto.
Defined.

(* ------------------------------------------------------------------ *)
(** ** Video widgets                                                   *)
(* ------------------------------------------------------------------ *)

(** *** The count of the widgets in the text *)

Lemma prefix_cons (a b : ascii) (s t : string) :
  String.prefix (String a s) (String b t) = Ascii.eqb a b && String.prefix s t.
Proof.
  cbn [String.prefix]. destruct (ascii_dec a b) as [->|Hne].
  - now rewrite Ascii.eqb_refl.
  - apply Ascii.eqb_neq in Hne. now rewrite Hne.
Qed.

Lemma prefix_nil (s : string) : String.prefix EmptyString s = true.
Proof. now destruct s. Qed.

(** A match cannot start in a piece and end in the match that follows
    it: [<] is only the first character of the pattern. *)
Lemma match_within_piece p rest :
  String.prefix "<video-widget" (p ++ "<video-widget" ++ rest)%string = true ->
  p <> EmptyString ->
  String.prefix "<video-widget" p = true.
Proof.
  intros H Hp. destruct p as [|c p]; [congruence|]. clear Hp.
  do 12 (destruct p as [|? p];
         [cbn [append] in H; repeat rewrite prefix_cons in H;
          cbn [Ascii.eqb Bool.eqb] in H;
          repeat rewrite andb_false_r in H; discriminate|]).
  cbn [append] in H. repeat rewrite prefix_cons in H.
  repeat rewrite prefix_cons. rewrite prefix_nil in *. exact H.
Qed.

Lemma countMatches_here pattern c s :
  countMatches pattern 0 (String c s)
  = if String.prefix pattern (String c s)
    then S (countMatches pattern (String.length pattern - 1) s)
    else countMatches pattern 0 s.
Proof. reflexivity. Qed.

Lemma countMatches_piece p : forall rest,
  Js.includes "<video-widget" p = false ->
  rest = EmptyString \/ (exists r, rest = ("<video-widget" ++ r)%string) ->
  countMatches "<video-widget" 0 (p ++ rest)%string
  = countMatches "<video-widget" 0 rest.
Proof.
  induction p as [|c p IH]; intros rest Hp Hrest; [reflexivity|].
  cbn [Js.includes] in Hp. apply orb_false_iff in Hp. destruct Hp as [Hhere Hp].
  assert (Hno : String.prefix "<video-widget" (String c p ++ rest)%string = false).
  { destruct (String.prefix "<video-widget" (String c p ++ rest)%string) eqn:E;
      [|reflexivity].
    destruct Hrest as [->|[r ->]].
    - rewrite append_nil_r in E. congruence.
    - apply match_within_piece in E; congruence. }
  cbn [append] in *. rewrite countMatches_here, Hno. now apply IH.
Qed.

Lemma countMatches_match rest :
  countMatches "<video-widget" 0 ("<video-widget" ++ rest)%string
  = S (countMatches "<video-widget" 0 rest).
Proof.
  cbn [append]. rewrite countMatches_here.
  repeat rewrite prefix_cons. rewrite prefix_nil. reflexivity.
Qed.

(** [(html.match(/<video-widget/g) || []).length] is one less than the
    number of the pieces that the matches cut the text into. *)
Lemma videoWidgetCount_pieces pieces :
  Forall (fun piece => Js.includes "<video-widget" piece = false) pieces ->
  videoWidgetCount (Js.join "<video-widget" pieces) = List.length pieces - 1.
Proof.
  unfold videoWidgetCount.
  induction pieces as [|p [|q pieces] IH]; intros H; [reflexivity| |].
  - inversion H; subst. cbn [Js.join].
    rewrite <- (append_nil_r p), countMatches_piece; auto.
  - inversion H; subst. cbn [Js.join] in *.
    rewrite countMatches_piece; [|assumption|right; eauto].
    rewrite countMatches_match, IH by assumption.
    cbn [List.length]. lia.
Qed.

Section VideoWidgets.
Variable jsdom : Jsdom.
Variable renderEmbed : Json -> string -> string.
Variable backend : Backend.
Variable aposHost : string.
Variable retries : nat.

Abbreviation replaced skip document :=
  (replaceWidgets jsdom renderEmbed backend aposHost retries skip document).

(** The loop goes through the document from left to right. *)
Lemma replaceWidgets_app before rest : forall skip,
  replaced skip (before ++ rest)
  = replaced skip before ++ replaced (leaving skip before) rest.
Proof.
  induction before as [|node before IH]; intros skip; [reflexivity|].
  cbn [app replaceWidgets leaving]. destruct skip as [|skip]; [|apply IH].
  destruct node as [href|action|url title parent inside|markup];
    rewrite IH; try reflexivity.
  now rewrite app_assoc.
Qed.

(** A widget whose oEmbed request fails gets the markup of the
    placeholder. *)
Lemma widgetMarkup_unavailable u title message :
  Js.truthy u = true ->
  result (fetchWithRetry (backend (oembedUrl aposHost u)) retries)
  = Thrown message ->
  widgetMarkup renderEmbed backend aposHost retries (Some u) title
  = videoUnavailable.
Proof.
  intros Hu Hfail. unfold widgetMarkup. rewrite Hu. cbn [negb].
  unfold fetchOembedData. rewrite Hfail. reflexivity.
Qed.

(** The widget that is inside no other is replaced where it is. *)
Lemma replaceWidgets_at before url title parent inside rest :
  leaving 0 before = 0 ->
  replaced 0 (before ++ VideoWidget url title parent inside :: rest)
  = replaced 0 before
    ++ parseFragment jsdom parent
         (widgetMarkup renderEmbed backend aposHost retries url title)
    ++ replaced inside rest.
Proof.
  intros H. rewrite replaceWidgets_app, H. reflexivity.
Qed.

(** What is inside a widget leaves the document with it. *)
Lemma replaceWidgets_skip document : forall skip,
  replaced skip document = replaced 0 (skipn skip document).
Proof.
  induction document as [|node document IH]; intros [|skip]; try reflexivity.
  cbn [replaceWidgets skipn]. apply IH.
Qed.

(** Without a widget nothing leaves the document. *)
Lemma replaceWidgets_without_widget document :
  filter isVideoWidget document = [] ->
  leaving 0 document = 0 /\ replaced 0 document = document.
Proof.
  induction document as [|node document IH]; intros H; [now split|].
  cbn [filter] in H. cbn [leaving replaceWidgets].
  destruct node as [href|action|url title parent inside|markup];
    cbn [isVideoWidget] in H; try discriminate;
    destruct (IH H) as [H1 H2]; now rewrite H1, H2.
Qed.

(** Where the nodes of the result come from. *)
Lemma replaceWidgets_In document : forall skip node,
  In node (replaced skip document) ->
  (In node document /\ isVideoWidget node = false)
  \/ exists parent markup, In node (parseFragment jsdom parent markup).
Proof.
  induction document as [|first document IH]; intros skip node H;
    [contradiction|].
  cbn [replaceWidgets] in H. destruct skip as [|skip].
  - destruct first as [href|action|url title parent inside|markup];
      try (destruct H as [<-|H];
           [left; split; [now left|reflexivity]
           |destruct (IH _ _ H) as [[H1 H2]|H1]; [left; split; [now right|exact H2]
                                                 |now right]]).
    apply in_app_iff in H. destruct H as [H|H].
    + right. cbn [renderWidget] in H. eauto.
    + destruct (IH _ _ H) as [[H1 H2]|H1]; [left; split; [now right|exact H2]
                                           |now right].
  - destruct (IH _ _ H) as [[H1 H2]|H1]; [left; split; [now right|exact H2]
                                         |now right].
Qed.
End VideoWidgets.

(** The counter counts the text [<video-widget], not the elements.  The
    page [/media/] has one [video-widget] element, whose oEmbed fetch
    fails, and one [video-widget-list] element: its widget gives its place
    to the placeholder and the counter is two.  The page [/gallery/] has
    no [video-widget] element: it is written as it was fetched, and the
    counter is one. *)
Lemma videoWidgetsProcessed_counts_the_text :
  let media :=
    ("<html><head></head><body>"
     ++ "<video-widget url='https://youtu.be/x'></video-widget>"
     ++ "<video-widget-list></video-widget-list></body></html>")%string in
  let gallery :=
    ("<html><head></head><body>"
     ++ "<video-widget-list></video-widget-list></body></html>")%string in
  (pageOf demoEnv "/media/" = Some media
   /\ filter isVideoWidget (parseHTML (jsdom demoEnv) media)
      = [VideoWidget (Some "https://youtu.be/x") None "body" 1]
   /\ fetchOembedData (backend demoEnv) (aposHost demoEnv) "https://youtu.be/x"
        (retries demoEnv)
      = None
   /\ option_map exportResults (crawl demoEnv (fun _ t => t) 10 ["/media/"])
      = Some (mkExportResults true 1 2 [])
   /\ option_map written (crawl demoEnv (fun _ t => t) 10 ["/media/"])
      = Some [("/out/media/index.html",
               ("<html><head></head><body>" ++ videoUnavailable
                ++ "<video-widget-list></video-widget-list></body></html>")%string)])
  /\ (pageOf demoEnv "/gallery/" = Some gallery
      /\ filter isVideoWidget (parseHTML (jsdom demoEnv) gallery) = []
      /\ option_map exportResults (crawl demoEnv (fun _ t => t) 10 ["/gallery/"])
         = Some (mkExportResults true 1 1 [])
      /\ option_map written (crawl demoEnv (fun _ t => t) 10 ["/gallery/"])
         = Some [("/out/gallery/index.html", gallery)]).
Proof. vm_compute. repeat split. Qed.

(** C9 (amended).  The handler looks for [<video-widget] in the text of
    the page that was fetched, and counts how often the text has it: one
    less than the number of the pieces that the occurrences cut the text
    into.  When the text has it, the handler goes on
    to [processVideoWidgets] and, whatever the oEmbed requests do, ends
    without an exception: it adds to the counter the number of times that
    the text has [<video-widget], rewrites the links of the processed
    page and writes it; it marks the path as processed and records no
    error, unless [writeHtmlForPath] throws, and then it records this
    error.  In the document that [processVideoWidgets] serializes, every
    widget element that is inside no other widget and whose oEmbed fetch
    failed has given its place, with what was inside it, to the nodes of
    the "Video unavailable" placeholder.  When the text does not have [<video-widget], the
    handler does not call [processVideoWidgets]: the counter stays, and
    the page is written as it was fetched, with its links rewritten,
    whatever elements it has. *)
Theorem video_widget_failure_keeps_page :
  forall (env : Env) (urlPath pageUrl : string) (response : Response string),
    result (fetchWithRetry (preview env pageUrl) (retries env)) = Returned response ->
    let html := body response in
    let n := videoWidgetCount html in
    let processed :=
      processVideoWidgets (jsdom env) (renderEmbed env) (backend env) html
        (aposHost env) (retries env) in
    let replaced :=
      replaceWidgets (jsdom env) (renderEmbed env) (backend env) (aposHost env)
        (retries env) in
    let queued :=
      enqueueLinks
        (extractInternalLinks (parseURL env) (parseHTML (jsdom env) html)
           (previewUrl env)) in
    (forall pieces,
        html = Js.join "<video-widget" pieces ->
        Forall (fun piece => Js.includes "<video-widget" piece = false) pieces ->
        n = List.length pieces - 1)
    /\ (0 < n ->
        forall c,
          handlerResume env (Fetching urlPath pageUrl) c
          = (queued c, Pending (Rendering urlPath html n)))
    /\ (forall c1, exists c2,
          handlerResume env (Rendering urlPath html n) c1
          = (c2, Settled (Returned tt))
          /\ processedVideoWidgets c2 = processedVideoWidgets c1 + n
          /\ match writeHtmlForPath (localeCompare env) (pathJoin env)
                     (resolvedOutputDir env) urlPath (rewritten env processed)
                     (disk c1) with
             | (_, Returned _) =>
                 crawlErrors c2 = crawlErrors c1
                 /\ In urlPath (processedUrls c2)
                 /\ written c2
                    = written c1
                      ++ [(outputFile env urlPath, rewritten env processed)]
             | (_, Thrown message) =>
                 crawlErrors c2 = crawlErrors c1 ++ [(urlPath, message)]
                 /\ processedUrls c2 = processedUrls c1
                 /\ written c2 = written c1
             end)
    /\ (forall before u title parent inside rest message,
          parseHTML (jsdom env) html
          = before ++ VideoWidget (Some u) title parent inside :: rest ->
          leaving 0 before = 0 ->
          Js.truthy u = true ->
          result (fetchWithRetry (backend env (oembedUrl (aposHost env) u))
                    (retries env))
          = Thrown message ->
          processed
          = serialize (jsdom env)
              (replaced 0 before
               ++ parseFragment (jsdom env) parent videoUnavailable
               ++ replaced 0 (skipn inside rest)))
    /\ (n = 0 ->
        forall c, exists c2,
          handlerResume env (Fetching urlPath pageUrl) c
          = (c2, Settled (Returned tt))
          /\ processedVideoWidgets c2 = processedVideoWidgets c
          /\ match writeHtmlForPath (localeCompare env) (pathJoin env)
                     (resolvedOutputDir env) urlPath (rewritten env html)
                     (disk c) with
             | (_, Returned _) =>
                 crawlErrors c2 = crawlErrors c
                 /\ In urlPath (processedUrls c2)
                 /\ written c2
                    = written c ++ [(outputFile env urlPath, rewritten env html)]
             | (_, Thrown message) =>
                 crawlErrors c2 = crawlErrors c ++ [(urlPath, message)]
                 /\ processedUrls c2 = processedUrls c
                 /\ written c2 = written c
             end).
Proof.
  intros env urlPath pageUrl response Hfetch html n processed replaced queued.
  split; [|split; [|split; [|split]]].
  - intros pieces Hhtml Hpieces. subst n. rewrite Hhtml.
    now apply videoWidgetCount_pieces.
  - intros Hcount c. unfold handlerResume. rewrite Hfetch. fold html. fold n.
    apply Nat.ltb_lt in Hcount. cbv zeta. now rewrite Hcount.
  - intros c1. unfold handlerResume. cbv zeta. fold processed.
    unfold finishPage. fold (rewritten env processed).
    cbn [disk processedUrls urlQueue processedVideoWidgets crawlErrors written
           fetchLog].
    destruct (writeHtmlForPath (localeCompare env) (pathJoin env)
                (resolvedOutputDir env) urlPath (rewritten env processed)
                (disk c1)) as [entries [[]|message]];
      eexists; (split; [reflexivity|]);
      cbn [disk processedUrls urlQueue processedVideoWidgets crawlErrors written
             fetchLog];
      (split; [reflexivity|]); repeat split.
    apply setAdd_In. now left.
  - intros before u title parent inside rest message Hdoc Hout Hu Hfail.
    subst processed. unfold processVideoWidgets. cbv zeta. rewrite Hdoc.
    rewrite filter_app. cbn [filter isVideoWidget].
    destruct (filter isVideoWidget before
              ++ VideoWidget (Some u) title parent inside
                 :: filter isVideoWidget rest) eqn:E.
    { apply app_eq_nil in E. destruct E as [_ E]. discriminate. }
    subst replaced.
    rewrite (replaceWidgets_at _ _ _ _ _ before (Some u) title parent inside rest
               Hout).
    rewrite (replaceWidgets_skip _ _ _ _ _ rest inside).
    now rewrite (widgetMarkup_unavailable _ _ _ _ u title message Hu Hfail).
  - intros Hzero c. unfold handlerResume. rewrite Hfetch. fold html. fold n.
    cbv zeta. rewrite Hzero. cbn [Nat.ltb Nat.leb].
    destruct (enqueueLinks_spec
                (extractInternalLinks (parseURL env) (parseHTML (jsdom env) html)
                   (previewUrl env)) c) as (added & -> & _).
    unfold finishPage. fold (rewritten env html). unfold withQueue.
    cbn [disk processedUrls urlQueue processedVideoWidgets crawlErrors written
           fetchLog].
    destruct (writeHtmlForPath (localeCompare env) (pathJoin env)
                (resolvedOutputDir env) urlPath (rewritten env html)
                (disk c)) as [entries [[]|message]];
      eexists; (split; [reflexivity|]);
      cbn [disk processedUrls urlQueue processedVideoWidgets crawlErrors written
             fetchLog];
      (split; [reflexivity|]); repeat split.
    apply setAdd_In. now left.
Qed.

Lemma video_widget_failure_keeps_page_witness :
  let html :=
    ("<html><head></head><body><h1>Video</h1>"
     ++ "<video-widget url='https://youtu.be/x'></video-widget>"
     ++ "<a href='http://127.0.0.1:4321/'>Home</a></body></html>")%string in
  let processed :=
    processVideoWidgets (jsdom demoEnv) (renderEmbed demoEnv) (backend demoEnv)
      html (aposHost demoEnv) (retries demoEnv) in
  exists c2,
    handlerResume demoEnv (Rendering "/video/" html 1)
      (initialCrawl [] (fileSystem demoEnv))
    = (c2, Settled (Returned tt))
    /\ processedVideoWidgets c2 = 1
    /\ crawlErrors c2 = []
    /\ In "/video/" (processedUrls c2)
    /\ written c2 = [(outputFile demoEnv "/video/", rewritten demoEnv processed)]
    /\ processed
       = serialize (jsdom demoEnv)
           ([Markup "<html>"; Markup "<head>"; Markup "</head>"; Markup "<body>";
             Markup "<h1>Video"; Markup "</h1>"]
            ++ parseFragment (jsdom demoEnv) "body" videoUnavailable
            ++ [Anchor (Some "http://127.0.0.1:4321/"); Markup "Home";
                Markup "</a>"; Markup "</body>"; Markup "</html>"]).
Proof.
  intros html processed.
  destruct (video_widget_failure_keeps_page demoEnv "/video/"
              "http://127.0.0.1:4321/video/" (mkResponse 200 "OK" html))
    as (_ & _ & H & Hplace & _).
  - reflexivity.
  - destruct (H (initialCrawl [] (fileSystem demoEnv)))
      as (c2 & H1 & H2 & H3).
    exists c2. split; [exact H1|]. split; [exact H2|].
    cbn [body] in H3. fold html in H3. fold processed in H3.
    assert (Hw : exists entries,
               writeHtmlForPath (localeCompare demoEnv) (pathJoin demoEnv)
                 (resolvedOutputDir demoEnv) "/video/"
                 (rewritten demoEnv processed)
                 (disk (initialCrawl [] (fileSystem demoEnv)))
               = (entries, Returned tt)).
    { eexists. vm_compute. reflexivity. }
    destruct Hw as [entries Hw]. rewrite Hw in H3.
    destruct H3 as (H3 & H4 & H5).
    split; [exact H3|]. split; [exact H4|]. split; [exact H5|].
    exact (Hplace [Markup "<html>"; Markup "<head>"; Markup "</head>";
                   Markup "<body>"; Markup "<h1>Video"; Markup "</h1>"]
             "https://youtu.be/x" None "body" 1
             [Markup "</video-widget>"; Anchor (Some "http://127.0.0.1:4321/");
              Markup "Home"; Markup "</a>"; Markup "</body>"; Markup "</html>"]
             "connect ECONNREFUSED" eq_refl eq_refl eq_refl eq_refl).
Defined.

(** The scenario end to end: the page with the widget is rendered, the
    counter is one, and no error is recorded. *)
Example crawl_with_unreachable_oembed :
  option_map exportResults (crawl demoEnv (fun _ t => t) 10 ["/video/"])
  = Some (mkExportResults true 4 1 []).
Proof. vm_compute. reflexivity. Qed.

Open Scope list_scope.
Open Scope string_scope.
(* ------------------------------------------------------------------ *)
(** ** fetchWithRetry: the whole loop                                  *)
(* ------------------------------------------------------------------ *)

Section RetryLoop.
Context {B : Type}.
Variable net : nat -> Fetched B.
Variable retries : nat.

Lemma tryAttempt_succeeded (f : Fetched B) (r : Response B) :
  f = Responded r -> ok r = true -> tryAttempt f = TryReturn r.
Proof. intros -> H. simpl. now rewrite H. Qed.

Lemma tryAttempt_failed (f : Fetched B) :
  succeeded f = false ->
  tryAttempt f = TryThrow (failureMessage f)
  \/ tryAttempt f = TryEnd (failureMessage f).
Proof.
  destruct f as [r|e]; simpl; [|auto].
  intros ->.
  match goal with |- context [if ?c then _ else _] => destruct c end; auto.
Qed.

Lemma retryLoop_failed k attempt lastError slept :
  succeeded (net attempt) = false ->
  retryLoop net retries (S k) attempt lastError slept =
  retryLoop net retries k (S attempt) (failureMessage (net attempt))
    (if (attempt <? retries)%nat then slept ++ [backoff attempt] else slept)%list.
Proof.
  intros H. destruct (tryAttempt_failed _ H) as [E|E]; simpl; now rewrite E.
Qed.

(** The loop from attempt [attempt] on, when the first request that
    succeeds is the one of attempt [attempt + k]. *)
Lemma retryLoop_success k : forall attempt remaining lastError slept r,
  attempt + k < retries + 1 -> k < remaining ->
  (forall j, j < k -> succeeded (net (attempt + j)) = false) ->
  net (attempt + k) = Responded r -> ok r = true ->
  retryLoop net retries remaining attempt lastError slept =
  mkRetryRun (Returned r) (attempt + k + 1)
    (slept ++ map backoff (seq attempt k))%list.
Proof.
  induction k as [|k IH]; intros attempt remaining lastError slept r Hk Hrem Hfail Hnet Hok.
  - destruct remaining as [|remaining]; [lia|].
    rewrite Nat.add_0_r in *. simpl.
    rewrite (tryAttempt_succeeded _ _ Hnet Hok), app_nil_r.
    f_equal. lia.
  - destruct remaining as [|remaining]; [lia|].
    rewrite retryLoop_failed.
    2:{ specialize (Hfail 0). rewrite Nat.add_0_r in Hfail. apply Hfail. lia. }
    assert (E : (attempt <? retries)%nat = true) by (apply Nat.ltb_lt; lia).
    rewrite E.
    rewrite (IH (S attempt) remaining _ _ r).
    + f_equal; [lia|]. simpl. now rewrite <- app_assoc.
    + lia.
    + lia.
    + intros j Hj. replace (S attempt + j) with (attempt + S j) by lia.
      apply Hfail. lia.
    + replace (S attempt + k) with (attempt + S k) by lia. exact Hnet.
    + exact Hok.
Qed.

(** The loop from attempt [attempt] on, when no request succeeds. *)
Lemma retryLoop_exhausted remaining : forall attempt lastError slept,
  attempt + remaining = retries ->
  (forall j, j <= remaining -> succeeded (net (attempt + j)) = false) ->
  retryLoop net retries (S remaining) attempt lastError slept =
  mkRetryRun (Thrown (failureMessage (net retries))) (retries + 1)
    (slept ++ map backoff (seq attempt remaining))%list.
Proof.
  induction remaining as [|remaining IH]; intros attempt lastError slept Hsum Hfail.
  - rewrite Nat.add_0_r in Hsum. subst attempt.
    rewrite retryLoop_failed.
    2:{ specialize (Hfail 0). rewrite Nat.add_0_r in Hfail. apply Hfail. lia. }
    rewrite Nat.ltb_irrefl. simpl. rewrite app_nil_r. f_equal. lia.
  - rewrite retryLoop_failed.
    2:{ specialize (Hfail 0). rewrite Nat.add_0_r in Hfail. apply Hfail. lia. }
    assert (E : (attempt <? retries)%nat = true) by (apply Nat.ltb_lt; lia).
    rewrite E. rewrite IH.
    + f_equal. simpl. now rewrite <- app_assoc.
    + lia.
    + intros j Hj. replace (S attempt + j) with (attempt + S j) by lia.
      apply Hfail. lia.
Qed.

(** Some request among the first [n] succeeds, or none does. *)
Lemma first_success n :
  (exists k, k < n /\ succeeded (net k) = true
             /\ forall j, j < k -> succeeded (net j) = false)
  \/ (forall j, j < n -> succeeded (net j) = false).
Proof.
  induction n as [|n [(k & Hk & Hs & Hf)|IH]].
  - right. intros j Hj. lia.
  - left. exists k. repeat split; auto.
  - destruct (succeeded (net n)) eqn:E.
    + left. exists n. repeat split; auto.
    + right. intros j Hj. destruct (Nat.eq_dec j n) as [->|Hne]; [exact E|].
      apply IH. lia.
Qed.
End RetryLoop.

Lemma backoff_capped n : 1000 <= backoff n <= 5000.
Proof.
  unfold backoff. split; [|apply Nat.le_min_r].
  apply Nat.min_glb; [|lia].
  assert (1 <= 2 ^ n) by (clear; induction n; simpl; lia). lia.
Qed.

(** The two ways in which a call of [fetchWithRetry] ends. *)
Lemma fetchWithRetry_cases {B} (net : nat -> Fetched B) retries :
  (exists k r,
      k <= retries /\ (forall j, j < k -> succeeded (net j) = false)
      /\ net k = Responded r /\ ok r = true
      /\ fetchWithRetry net retries
         = mkRetryRun (Returned r) (k + 1) (map backoff (seq 0 k)))
  \/ ((forall j, j <= retries -> succeeded (net j) = false)
      /\ fetchWithRetry net retries
         = mkRetryRun (Thrown (failureMessage (net retries))) (retries + 1)
             (map backoff (seq 0 retries))).
Proof.
  destruct (first_success net (S retries)) as [(k & Hk & Hs & Hf)|Hnone].
  - left. destruct (net k) as [r|e] eqn:Hnet; [|discriminate].
    exists k, r. repeat split; auto; [lia|]. unfold fetchWithRetry.
    rewrite (retryLoop_success net retries k 0 (S retries) _ _ r); auto; lia.
  - right. assert (Hfail : forall j, j <= retries -> succeeded (net j) = false)
      by (intros j Hj; apply Hnone; lia).
    split; [exact Hfail|]. unfold fetchWithRetry.
    now rewrite (retryLoop_exhausted net retries retries 0).
Qed.

(** X1.  [fetchWithRetry] returns the first 2xx response: when the requests of
    the attempts before attempt [k <= retries] fail, in whatever way, and
    the request of attempt [k] gets a 2xx response, this response is
    returned after [k + 1] requests and [k] sleeps of 1000 * 2^j ms capped
    at 5000 ms. *)
Theorem fetchWithRetry_returns_first_success :
  forall (B : Type) (net : nat -> Fetched B) (retries k : nat) (r : Response B),
    k <= retries ->
    (forall j, j < k -> succeeded (net j) = false) ->
    net k = Responded r -> ok r = true ->
    fetchWithRetry net retries
    = mkRetryRun (Returned r) (k + 1) (map backoff (seq 0 k)).
Proof.
  intros B net retries k r Hk Hfail Hnet Hok. unfold fetchWithRetry.
  rewrite (retryLoop_success net retries k 0 (S retries) _ _ r); auto; lia.
Qed.

Lemma fetchWithRetry_returns_first_success_witness :
  fetchWithRetry slowStart 5
  = mkRetryRun (Returned (mkResponse 200 "OK" tt)) 4 [1000; 2000; 4000].
Proof.
  apply (fetchWithRetry_returns_first_success unit slowStart 5 3).
  - lia.
  - intros j Hj. unfold slowStart.
    destruct (Nat.ltb_spec j 3) as [_|H]; [reflexivity|lia].
  - reflexivity.
  - reflexivity.
Defined.

(** X2.  [fetchWithRetry] gives up after [retries + 1] failed requests: it
    throws the error of the last one (the message of the rejection, or
    [HTTP status: statusText]), having slept [retries] times, and not after
    the last request. *)
Theorem fetchWithRetry_throws_last_error :
  forall (B : Type) (net : nat -> Fetched B) (retries : nat),
    (forall j, j <= retries -> succeeded (net j) = false) ->
    fetchWithRetry net retries
    = mkRetryRun (Thrown (failureMessage (net retries))) (retries + 1)
        (map backoff (seq 0 retries)).
Proof.
  intros B net retries Hfail. unfold fetchWithRetry.
  now rewrite (retryLoop_exhausted net retries retries 0).
Qed.

Lemma fetchWithRetry_throws_last_error_witness :
  fetchWithRetry slowStart 2
  = mkRetryRun (Thrown "connect ECONNREFUSED") 3 [1000; 2000].
Proof.
  apply (fetchWithRetry_throws_last_error unit slowStart 2).
  intros j Hj. unfold slowStart.
  destruct (Nat.ltb_spec j 3) as [_|H]; [reflexivity|lia].
Defined.

(** X3.  Whatever the network does, a response that [fetchWithRetry] returns
    has a 2xx status; a call that throws has made all its [retries + 1]
    requests; and the call sleeps once between two requests, between 1000
    and 5000 ms each time. *)
Theorem fetchWithRetry_outcomes :
  forall (B : Type) (net : nat -> Fetched B) (retries : nat),
    let run := fetchWithRetry net retries in
    match result run with
    | Returned r => ok r = true /\ net (attempts run - 1) = Responded r
    | Thrown e => attempts run = retries + 1 /\ e = failureMessage (net retries)
    end
    /\ List.length (delays run) = attempts run - 1
    /\ Forall (fun d => 1000 <= d <= 5000) (delays run).
Proof.
  intros B net retries run. subst run.
  assert (F : forall n, Forall (fun d => 1000 <= d <= 5000) (map backoff (seq 0 n))).
  { intros n. apply Forall_forall. intros d Hd. apply in_map_iff in Hd.
    destruct Hd as [j [<- _]]. apply backoff_capped. }
  destruct (fetchWithRetry_cases net retries)
    as [(k & r & Hk & Hf & Hnet & Hok & ->)|[Hfail ->]]; simpl.
  - replace (k + 1 - 1) with k by lia.
    rewrite length_map, length_seq. auto.
  - rewrite length_map, length_seq. repeat split; auto. lia.
Qed.

(* ------------------------------------------------------------------ *)
(** ** waitForServer                                                   *)
(* ------------------------------------------------------------------ *)

Section WaitForServer.
Context {B : Type}.
Variable now : nat -> nat.
Variable probe : nat -> Fetched B.
Variable url : string.
Variables timeoutMs intervalMs : nat.
Hypothesis Hinterval : 1 <= intervalMs.
Hypothesis Hfirst : now 0 <= now 1.
Hypothesis Hsleep : forall k, now (S k) + intervalMs <= now (S (S k)).

Lemma clock_advances k : now 0 + k * intervalMs <= now (S k).
Proof.
  induction k as [|k IH]; [simpl; lia|].
  specialize (Hsleep k). simpl. lia.
Qed.

Lemma waitLoop_ends fuel : forall k,
  timeoutMs <= (fuel + k) * intervalMs ->
  (k = 0 \/ (k - 1) * intervalMs < timeoutMs) ->
  (forall j, j < k -> now (S j) < now 0 + timeoutMs) ->
  (forall j, j < k -> succeeded (probe j) = false) ->
  exists outcome n,
    waitLoop now probe url timeoutMs (now 0) (S fuel) k = Some (outcome, n)
    /\ (n = 0 \/ (n - 1) * intervalMs < timeoutMs)
    /\ (forall j, j < n -> now (S j) < now 0 + timeoutMs)
    /\ (forall j, j < n - 1 -> succeeded (probe j) = false)
    /\ match outcome with
       | Returned b => b = true /\ 1 <= n /\ succeeded (probe (n - 1)) = true
       | Thrown message =>
           now 0 + timeoutMs <= now (S n)
           /\ (forall j, j < n -> succeeded (probe j) = false)
           /\ message
              = ("Preview server did not respond at " ++ url ++ " within "
                 ++ Js.ofNat timeoutMs ++ "ms")%string
       end.
Proof.
  induction fuel as [|fuel IH]; intros k Hfuel Hk Hearly Hfail.
  - cbn [waitLoop]. pose proof (clock_advances k) as Hclock.
    destruct (Nat.ltb_spec (now (S k)) (now 0 + timeoutMs)) as [Hlt|Hge].
    + simpl in Hfuel. lia.
    + eexists _, k. split; [reflexivity|]. split; [exact Hk|].
      split; [exact Hearly|].
      split; [intros j Hj; apply Hfail; lia|]. repeat split; auto.
  - pose proof (clock_advances k) as Hclock.
    cbn [waitLoop].
    destruct (Nat.ltb_spec (now (S k)) (now 0 + timeoutMs)) as [Hlt|Hge].
    + assert (Hearly' : forall j, j < S k -> now (S j) < now 0 + timeoutMs).
      { intros j Hj. destruct (Nat.eq_dec j k) as [->|Hne]; [exact Hlt|].
        apply Hearly. lia. }
      assert (Hnext : succeeded (probe k) = false ->
                exists outcome n,
                  waitLoop now probe url timeoutMs (now 0) (S fuel) (S k)
                  = Some (outcome, n)
                  /\ (n = 0 \/ (n - 1) * intervalMs < timeoutMs)
                  /\ (forall j, j < n -> now (S j) < now 0 + timeoutMs)
                  /\ (forall j, j < n - 1 -> succeeded (probe j) = false)
                  /\ match outcome with
                     | Returned b => b = true /\ 1 <= n
                                     /\ succeeded (probe (n - 1)) = true
                     | Thrown message =>
                         now 0 + timeoutMs <= now (S n)
                         /\ (forall j, j < n -> succeeded (probe j) = false)
                         /\ message
              = ("Preview server did not respond at " ++ url ++ " within "
                 ++ Js.ofNat timeoutMs ++ "ms")%string
                     end).
      { intros Hnot. apply IH.
        - replace (fuel + S k) with (S fuel + k) by lia. exact Hfuel.
        - right. replace (S k - 1) with k by lia. lia.
        - exact Hearly'.
        - intros j Hj. destruct (Nat.eq_dec j k) as [->|Hne]; [exact Hnot|].
          apply Hfail. lia. }
      destruct (probe k) as [response|e] eqn:Hprobe.
      * destruct (ok response) eqn:Hok.
        -- eexists _, (S k). split; [reflexivity|].
           replace (S k - 1) with k by lia.
           split; [right; lia|]. split; [exact Hearly'|]. split; [exact Hfail|].
           cbv beta iota. rewrite Hprobe. simpl. repeat split; auto. lia.
        -- apply Hnext. exact Hok.
      * apply Hnext. reflexivity.
    + eexists _, k. split; [reflexivity|]. split; [exact Hk|].
      split; [exact Hearly|].
      split; [intros j Hj; apply Hfail; lia|]. repeat split; auto.
Qed.
End WaitForServer.

(** X4.  [waitForServer] polls until the deadline.  On a clock that advances by
    at least [intervalMs >= 1] in each round (the sleep at its end), it
    settles after at most [timeoutMs / intervalMs] rounded up requests,
    each made while [Date.now() - startTime < timeoutMs]: with [true] at
    the first request that gets a 2xx response, any other response or a
    rejection meaning "not ready"; with its error only when the deadline
    is reached, at the test after the last request, and no request got a
    2xx response.  With [timeoutMs = 0] it makes no request. *)
Theorem waitForServer_polls_until_deadline :
  forall (B : Type) (now : nat -> nat) (probe : nat -> Fetched B)
         (url : string) (timeoutMs intervalMs fuel : nat),
    1 <= intervalMs ->
    now 0 <= now 1 ->
    (forall k, now (S k) + intervalMs <= now (S (S k))) ->
    timeoutMs + intervalMs <= fuel * intervalMs ->
    exists outcome n,
      waitForServer now probe url timeoutMs fuel = Some (outcome, n)
      /\ (n = 0 \/ (n - 1) * intervalMs < timeoutMs)
      /\ (forall j, j < n -> now (S j) < now 0 + timeoutMs)
      /\ (forall j, j < n - 1 -> succeeded (probe j) = false)
      /\ match outcome with
         | Returned b => b = true /\ 1 <= n /\ succeeded (probe (n - 1)) = true
         | Thrown message =>
             now 0 + timeoutMs <= now (S n)
             /\ (forall j, j < n -> succeeded (probe j) = false)
             /\ message
                = ("Preview server did not respond at " ++ url ++ " within "
                   ++ Js.ofNat timeoutMs ++ "ms")%string
         end.
Proof.
  intros B now probe url timeoutMs intervalMs fuel Hi H0 Hs Hfuel.
  unfold waitForServer.
  destruct fuel as [|fuel]; [simpl in Hfuel; lia|].
  apply (waitLoop_ends now probe url timeoutMs intervalMs Hi H0 Hs fuel 0).
  - rewrite Nat.add_0_r. simpl in Hfuel. lia.
  - now left.
  - intros j Hj. lia.
  - intros j Hj. lia.
Qed.

Lemma waitForServer_polls_until_deadline_witness :
  exists outcome n,
    waitForServer (fun k => 800 * k) slowStart "http://127.0.0.1:4321" 4000 6
    = Some (outcome, n)
    /\ (n = 0 \/ (n - 1) * 800 < 4000)
    /\ (forall j, j < n -> 800 * S j < 800 * 0 + 4000)
    /\ (forall j, j < n - 1 -> succeeded (slowStart j) = false)
    /\ match outcome with
       | Returned b => b = true /\ 1 <= n /\ succeeded (slowStart (n - 1)) = true
       | Thrown message =>
           800 * 0 + 4000 <= 800 * S n
           /\ (forall j, j < n -> succeeded (slowStart j) = false)
           /\ message
              = ("Preview server did not respond at " ++ "http://127.0.0.1:4321"
                 ++ " within " ++ Js.ofNat 4000 ++ "ms")%string
       end.
Proof.
  apply (waitForServer_polls_until_deadline unit (fun k => 800 * k) slowStart
           "http://127.0.0.1:4321" 4000 800 6); intros; lia.
Defined.

(** X5.  The page that the preview server serves at [/404] is kept only when it
    comes with a 2xx status.  When every request gets another status (404
    itself, say) or is rejected, the body served is never written: the
    built-in page is written, unless the output directory has a
    [404.html] already. *)
Theorem notFoundPage_needs_2xx :
  forall (net : nat -> Fetched (option string)) (retries : nat) (exists404 : bool),
    ((forall j, j <= retries -> succeeded (net j) = false) ->
     notFoundPage net retries exists404
     = if exists404 then None else Some fallbackNotFound)
    /\ (forall html,
          notFoundPage net retries exists404 = Some html ->
          (html = fallbackNotFound /\ exists404 = false)
          \/ exists k r, k <= retries /\ net k = Responded r /\ ok r = true
                         /\ body r = Some html).
Proof.
  intros net retries exists404. split.
  - intros Hfail. unfold notFoundPage, fetchWithRetry.
    rewrite (retryLoop_exhausted net retries retries 0) by auto.
    simpl. now destruct exists404.
  - intros html. unfold notFoundPage.
    destruct (fetchWithRetry_cases net retries)
      as [(k & r & Hk & Hf & Hnet & Hok & ->)|[Hfail ->]]; cbn [result].
    + rewrite Hok. destruct (body r) as [text|] eqn:Hbody.
      * intros E. inversion E; subst. right. exists k, r. auto.
      * destruct exists404; [discriminate|].
        intros E. inversion E. now left.
    + destruct exists404; [discriminate|].
      intros E. inversion E. now left.
Qed.

Lemma notFoundPage_needs_2xx_witness :
  notFoundPage notFoundServer 3 false = Some fallbackNotFound.
Proof.
  destruct (notFoundPage_needs_2xx notFoundServer 3 false) as [H _].
  apply H. intros j _. reflexivity.
Defined.

Open Scope list_scope.
Open Scope string_scope.
(* ------------------------------------------------------------------ *)
(** ** The order of the parameters, and the file of a page with a query *)
(* ------------------------------------------------------------------ *)

(** Two sorted lists with the same elements are equal when no two
    different elements are equivalent. *)
Lemma sorted_perm_unique {A} (R : A -> A -> Prop) (l1 : list A) :
  forall l2,
    (forall a b, In a l1 -> In b l1 -> R a b -> R b a -> a = b) ->
    StronglySorted R l1 -> StronglySorted R l2 -> Permutation l1 l2 ->
    l1 = l2.
Proof.
  induction l1 as [|x l1 IH]; intros l2 Hanti H1 H2 Hperm.
  - apply Permutation_nil in Hperm. now subst.
  - destruct l2 as [|y l2].
    + symmetry in Hperm. now apply Permutation_nil in Hperm.
    + inversion H1 as [|? ? S1 F1]; subst. inversion H2 as [|? ? S2 F2]; subst.
      rewrite Forall_forall in F1, F2.
      assert (Hx : In x (y :: l2)) by (eapply Permutation_in; [exact Hperm|now left]).
      assert (Hy : In y (x :: l1))
        by (eapply Permutation_in; [symmetry; exact Hperm|now left]).
      assert (E : x = y).
      { destruct Hx as [Hx|Hx]; [now subst|].
        destruct Hy as [Hy|Hy]; [now subst|].
        apply Hanti; [now left|now right|apply F1, Hy|apply F2, Hx]. }
      subst y. f_equal. apply IH; auto.
      * intros a b Ha Hb. apply Hanti; now right.
      * eapply Permutation_cons_inv. exact Hperm.
Qed.

(** X6.  The canonical path does not depend on the order in which the query
    gives its parameters, as long as no two different parameters have
    keys that the collation takes for equal: [/a?b=1&a=2] and [/a?a=2&b=1]
    have one canonical path. *)
Theorem queryParamsToPath_order_independent :
  forall (lc : string -> string -> comparison) (p q1 q2 : string),
    consistentComparator lc ->
    Js.includes "?" p = false ->
    Js.includes "?" q1 = false -> Js.includes "?" q2 = false ->
    Permutation (UrlEncoded.entries q1) (UrlEncoded.entries q2) ->
    (forall a b, In a (UrlEncoded.entries q1) -> In b (UrlEncoded.entries q1) ->
                 lc (fst a) (fst b) <> Gt -> lc (fst b) (fst a) <> Gt -> a = b) ->
    queryParamsToPath lc (p ++ "?" ++ q1) = queryParamsToPath lc (p ++ "?" ++ q2).
Proof.
  intros lc p q1 q2 [Htotal Htrans] Hp Hq1 Hq2 Hperm Hkeys.
  apply includes_char in Hp. apply includes_char in Hq1. apply includes_char in Hq2.
  rewrite !(queryParamsToPath_with_query lc p) by assumption.
  assert (E : Js.sort (keyCompare lc) (UrlEncoded.entries q1)
              = Js.sort (keyCompare lc) (UrlEncoded.entries q2)).
  { apply (sorted_perm_unique (notAfter (keyCompare lc))).
    - intros a b Ha Hb. unfold notAfter, keyCompare.
      apply Hkeys; (eapply Permutation_in; [apply sort_perm|eassumption]).
    - apply sort_sorted; unfold keyCompare; [intros a b; apply Htotal|].
      intros a b c. apply Htrans.
    - apply sort_sorted; unfold keyCompare; [intros a b; apply Htotal|].
      intros a b c. apply Htrans.
    - etransitivity; [apply sort_perm|].
      etransitivity; [exact Hperm|symmetry; apply sort_perm]. }
  unfold keptParams. now rewrite E.
Qed.

Lemma queryParamsToPath_order_independent_witness :
  queryParamsToPath Platform.rootCollation ("/a" ++ "?" ++ "b=1&a=2")
  = queryParamsToPath Platform.rootCollation ("/a" ++ "?" ++ "a=2&b=1").
Proof.
  apply (queryParamsToPath_order_independent Platform.rootCollation
           "/a" "b=1&a=2" "a=2&b=1").
  - exact (conj PlatformFacts.rootCollation_total
                PlatformFacts.rootCollation_transitive).
  - reflexivity.
  - reflexivity.
  - reflexivity.
  - apply perm_swap.
  - intros a b [<-|[<-|[]]] [<-|[<-|[]]]; vm_compute; congruence.
Defined.

(** Two parameters with one key keep the order that the query gives
    them: the sort is stable. *)
Example queryParamsToPath_repeated_key :
  queryParamsToPath Platform.rootCollation "/p?tag=b&tag=a" = "/p/tag-b-tag-a/"
  /\ queryParamsToPath Platform.rootCollation "/p?tag=a&tag=b" = "/p/tag-a-tag-b/".
Proof. vm_compute. split; reflexivity. Qed.

Lemma length_append (a b : string) :
  String.length (a ++ b) = String.length a + String.length b.
Proof. induction a as [|c a IH]; simpl; congruence. Qed.

Lemma allAlnum_slash s : Js.allAlnum (s ++ "/") = false.
Proof.
  induction s as [|c s IH]; [reflexivity|].
  simpl. rewrite IH. apply andb_false_r.
Qed.

(** A path that ends with a slash has no extension. *)
Lemma hasExtension_slash s : Js.hasExtension (s ++ "/") = false.
Proof.
  induction s as [|c s IH]; [reflexivity|].
  cbn [String.append Js.hasExtension]. rewrite IH, allAlnum_slash.
  now rewrite andb_false_r.
Qed.

Lemma append_assoc (a b c : string) : (a ++ b) ++ c = a ++ b ++ c.
Proof. induction a as [|x a IH]; simpl; congruence. Qed.

(** X7.  A page with a query is written as an [index.html] of its own
    directory.  When the query of a raw path keeps a parameter, whatever
    its keys and values look like (a value such as [report.pdf]
    included), [writeHtmlForPath] writes [index.html] in the directory of
    the canonical path. *)
Theorem outputPath_of_query_is_index :
  forall (lc : string -> string -> comparison) (pathJoin : list string -> string)
         (rootDir p q : string),
    Js.includes "?" p = false -> Js.includes "?" q = false ->
    keptParams lc q <> [] ->
    outputPath lc pathJoin rootDir (p ++ "?" ++ q)
    = pathJoin [rootDir;
                Js.dropLeadingSlash (queryParamsToPath lc (p ++ "?" ++ q));
                "index.html"]
    /\ Js.endsWith "/" (queryParamsToPath lc (p ++ "?" ++ q)) = true.
Proof.
  intros lc pathJoin rootDir p q Hp Hq Hkept.
  apply includes_char in Hp. apply includes_char in Hq.
  unfold outputPath. rewrite (queryParamsToPath_with_query lc p q Hp Hq).
  destruct (keptParams lc q) as [|kv kept]; [congruence|].
  set (parts := Js.join "-" (map renderPart (kv :: kept))).
  replace (Js.dropTrailingSlash p ++ "/" ++ parts ++ "/")
    with ((Js.dropTrailingSlash p ++ "/" ++ parts) ++ "/")
    by now rewrite !append_assoc.
  rewrite hasExtension_slash, endsWith_append.
  split; [|reflexivity].
  assert (Hlen : 2 <= String.length ((Js.dropTrailingSlash p ++ "/" ++ parts) ++ "/")).
  { rewrite !length_append. simpl. lia. }
  destruct (String.eqb_spec ((Js.dropTrailingSlash p ++ "/" ++ parts) ++ "/") "/")
    as [E|_]; [|reflexivity].
  rewrite E in Hlen. simpl in Hlen. lia.
Qed.

Lemma outputPath_of_query_is_index_witness :
  outputPath Platform.rootCollation Platform.simpleJoin "/out"
    ("/docs" ++ "?" ++ "file=report.pdf")
  = "/out/docs/file-report.pdf/index.html".
Proof.
  destruct (outputPath_of_query_is_index Platform.rootCollation Platform.simpleJoin
              "/out" "/docs" "file=report.pdf" eq_refl eq_refl) as [E _].
  - discriminate.
  - rewrite E. reflexivity.
Defined.

Open Scope string_scope.
Open Scope list_scope.
(* ------------------------------------------------------------------ *)
(** ** The sitemap: what it holds                                      *)
(* ------------------------------------------------------------------ *)

Lemma ascii_compare_trans a b c :
  Ascii.compare a b <> Gt -> Ascii.compare b c <> Gt -> Ascii.compare a c <> Gt.
Proof.
  unfold Ascii.compare. rewrite !N.compare_gt_iff. lia.
Qed.

Lemma ascii_compare_le_lt a b c :
  Ascii.compare a b <> Gt -> Ascii.compare b c = Lt -> Ascii.compare a c = Lt.
Proof.
  unfold Ascii.compare. rewrite N.compare_gt_iff, !N.compare_lt_iff. lia.
Qed.

Lemma ascii_compare_lt_le a b c :
  Ascii.compare a b = Lt -> Ascii.compare b c <> Gt -> Ascii.compare a c = Lt.
Proof.
  unfold Ascii.compare. rewrite N.compare_gt_iff, !N.compare_lt_iff. lia.
Qed.

Lemma string_compare_trans a : forall b c,
  String.compare a b <> Gt -> String.compare b c <> Gt -> String.compare a c <> Gt.
Proof.
  induction a as [|x a IH]; intros [|y b] [|z c]; simpl; try congruence.
  destruct (Ascii.compare x y) eqn:Exy; [| |congruence];
    destruct (Ascii.compare y z) eqn:Eyz; try congruence.
  - apply Ascii.compare_eq_iff in Exy, Eyz. subst.
    assert (E : Ascii.compare z z = Eq).
    { unfold Ascii.compare. apply N.compare_refl. }
    rewrite E. apply IH.
  - apply Ascii.compare_eq_iff in Exy. subst. rewrite Eyz. congruence.
  - apply Ascii.compare_eq_iff in Eyz. subst. rewrite Exy. congruence.
  - assert (E : Ascii.compare x z = Lt).
    { eapply ascii_compare_lt_le; [exact Exy|]. rewrite Eyz. discriminate. }
    rewrite E. congruence.
Qed.

Lemma string_compare_total a b : String.compare a b = Gt -> String.compare b a <> Gt.
Proof. rewrite (String.compare_antisym b a). intros ->. discriminate. Qed.

Lemma sort_strings_sorted l :
  StronglySorted (notAfter String.compare) (Js.sort String.compare l).
Proof.
  apply sort_sorted; [apply string_compare_total|].
  intros a b c. apply string_compare_trans.
Qed.

(** Sorting a sorted list changes nothing. *)
Lemma sort_of_sorted {A} (cmp : A -> A -> comparison) l :
  StronglySorted (notAfter cmp) l -> Js.sort cmp l = l.
Proof.
  induction 1 as [|x l S IH F]; [reflexivity|].
  unfold Js.sort in *. simpl. rewrite IH.
  destruct l as [|y l]; [reflexivity|]. simpl.
  inversion F as [|? ? Hxy _]; subst. unfold notAfter in Hxy.
  destruct (cmp x y); congruence.
Qed.

Lemma dedupe_from_In x l : forall acc,
  In x (fold_left (fun s y => setAdd y s) l acc) <-> In x acc \/ In x l.
Proof.
  induction l as [|y l IH]; intros acc; simpl; [tauto|].
  rewrite IH, setAdd_In. intuition congruence.
Qed.

Lemma dedupe_In x l : In x (dedupe l) <-> In x l.
Proof. unfold dedupe. rewrite dedupe_from_In. simpl. tauto. Qed.

Lemma dedupe_from_NoDup l : forall acc,
  NoDup (acc ++ l) -> fold_left (fun s y => setAdd y s) l acc = acc ++ l.
Proof.
  induction l as [|y l IH]; intros acc H; simpl; [now rewrite app_nil_r|].
  assert (Hy : ~ In y acc).
  { apply NoDup_remove_2 in H. intros C. apply H. apply in_app_iff. now left. }
  rewrite (setAdd_new _ _ Hy), IH; rewrite <- app_assoc; [reflexivity|exact H].
Qed.

(** A list without duplicates goes through a [Set] unchanged. *)
Lemma dedupe_of_NoDup l : NoDup l -> dedupe l = l.
Proof. intros H. unfold dedupe. now rewrite dedupe_from_NoDup. Qed.

Lemma sort_dedupe_In x l : In x (Js.sort String.compare (dedupe l)) <-> In x l.
Proof.
  rewrite <- (dedupe_In x l). split; apply Permutation_in;
    [apply sort_perm|symmetry; apply sort_perm].
Qed.

Lemma sort_dedupe_NoDup l : NoDup (Js.sort String.compare (dedupe l)).
Proof.
  eapply Permutation_NoDup; [symmetry; apply sort_perm|apply dedupe_NoDup].
Qed.

(** What is sorted and free of duplicates is not changed by
    [Array.from(new Set(l)).sort()]. *)
Lemma sort_dedupe_again l :
  Js.sort String.compare (dedupe (Js.sort String.compare (dedupe l)))
  = Js.sort String.compare (dedupe l).
Proof.
  rewrite (dedupe_of_NoDup _ (sort_dedupe_NoDup l)).
  apply sort_of_sorted, sort_strings_sorted.
Qed.

Section SitemapFacts.
Variable parse : UrlParser.
Variable api : Api.
Variable aposHost : string.
Variable locale : option string.

(** The list that [fetchAllPages] returns went through a set and a sort,
    and had a home page. *)
Lemma fetchAllPages_shape urls :
  fetchAllPages parse api aposHost locale = Returned urls ->
  exists raw, urls = Js.sort String.compare (dedupe raw) /\ hasHome locale raw.
Proof.
  unfold fetchAllPages.
  destruct (awaitFetch (api _)) as [response|e]; [|discriminate].
  cbn [bindOutcome]. destruct (negb (ok response)); [discriminate|].
  destruct (awaitJson response) as [json|e]; [|discriminate].
  cbn [bindOutcome].
  match goal with |- bindOutcome ?o _ = _ -> _ => destruct o as [pages|e] end;
    [|discriminate].
  cbn [bindOutcome].
  match goal with |- bindOutcome ?o _ = _ -> _ => destruct o as [found|e] end;
    [|discriminate].
  cbn [bindOutcome]. intros H. inversion H as [E]. clear H E.
  eexists. split; [reflexivity|].
  unfold hasHome. destruct locale as [l|].
  - destruct (Js.truthy l) eqn:El.
    + destruct (setHas (String "/" (l ++ "/")%string) found) eqn:E1; cbn [negb andb].
      * right. exists l. repeat split; auto. now apply setHas_In.
      * destruct (setHas "/" found) eqn:E2; cbn [negb].
        -- left. now apply setHas_In.
        -- left. apply in_app_iff. right. now left.
    + destruct (setHas "/" found) eqn:E2; cbn [negb].
      * left. now apply setHas_In.
      * left. apply in_app_iff. right. now left.
  - destruct (setHas "/" found) eqn:E2; cbn [negb].
    + left. now apply setHas_In.
    + left. apply in_app_iff. right. now left.
Qed.

Lemma hasHome_mono urls urls' :
  (forall u, In u urls -> In u urls') -> hasHome locale urls -> hasHome locale urls'.
Proof.
  intros H [H1|(l & E & T & H2)]; [left; auto|].
  right. exists l. auto.
Qed.
End SitemapFacts.

Lemma generateSitemap_shape parse api fuel aposHost aposKey locale pieceTypes urls :
  generateSitemap parse api fuel aposHost aposKey locale pieceTypes
  = Some (Returned urls) ->
  hasHome locale urls
  /\ urls <> []
  /\ NoDup urls
  /\ StronglySorted (notAfter String.compare) urls.
Proof.
  unfold generateSitemap. destruct (negb (Js.truthy aposKey)); [discriminate|].
  destruct (fetchAllPages parse api aposHost locale) as [pageUrls|e] eqn:Epages;
    [|discriminate].
  destruct (piecesOfTypes _ _ _ _ _ _ _) as [[found|e]|]; try discriminate.
  intros H. inversion H; subst. clear H.
  destruct (fetchAllPages_shape _ _ _ _ _ Epages) as (raw & -> & Hhome).
  assert (Hh : hasHome locale
                 (Js.sort String.compare
                    (dedupe (Js.sort String.compare (dedupe raw) ++ found)))).
  { eapply hasHome_mono; [|exact Hhome].
    intros u Hu. apply sort_dedupe_In, in_app_iff. left.
    now apply sort_dedupe_In. }
  split; [exact Hh|]. split.
  - intros E. rewrite E in Hh. destruct Hh as [[]|(l & _ & _ & [])].
  - split; [apply sort_dedupe_NoDup|apply sort_strings_sorted].
Qed.

(** X8.  Every sitemap has a home page.  The list that [generateSitemap]
    returns holds [/], or the home page [/locale/] of its locale; it is
    never empty; it has no duplicates; and it is in ascending order (of
    the bytes of the URLs). *)
Theorem generateSitemap_has_home :
  forall (parse : UrlParser) (api : Api) (fuel : nat)
         (aposHost aposKey : string) (locale : option string)
         (pieceTypes : option (list string)) (urls : list string),
    generateSitemap parse api fuel aposHost aposKey locale pieceTypes
    = Some (Returned urls) ->
    hasHome locale urls
    /\ urls <> []
    /\ NoDup urls
    /\ StronglySorted (notAfter String.compare) urls.
Proof.
  intros parse api fuel aposHost aposKey locale pieceTypes urls.
  apply generateSitemap_shape.
Qed.

Lemma generateSitemap_has_home_witness :
  hasHome None ["/"; "/about/"] /\ ["/"; "/about/"] <> []
  /\ NoDup ["/"; "/about/"]
  /\ StronglySorted (notAfter String.compare) ["/"; "/about/"].
Proof.
  apply (generateSitemap_has_home Platform.simpleURL brokenListing 5
           "http://localhost:3000" "key" None (Some ["article"])).
  reflexivity.
Defined.

(** X9.  With an empty list of piece types, the sitemap is the list of the
    pages: no piece listing is read and no type is discovered. *)
Theorem generateSitemap_without_piece_types :
  forall (parse : UrlParser) (api : Api) (fuel : nat)
         (aposHost aposKey : string) (locale : option string),
    Js.truthy aposKey = true ->
    generateSitemap parse api fuel aposHost aposKey locale (Some [])
    = Some (fetchAllPages parse api aposHost locale).
Proof.
  intros parse api fuel aposHost aposKey locale Hkey.
  unfold generateSitemap. rewrite Hkey. cbn [negb].
  destruct (fetchAllPages parse api aposHost locale) as [pageUrls|e] eqn:Epages;
    [|reflexivity].
  cbn [piecesOfTypes]. rewrite app_nil_r.
  destruct (fetchAllPages_shape _ _ _ _ _ Epages) as (raw & -> & _).
  now rewrite sort_dedupe_again.
Qed.

Lemma generateSitemap_without_piece_types_witness :
  generateSitemap Platform.simpleURL unreachableListing 0
    "http://localhost:3000" "key" None (Some [])
  = Some (Returned ["/"; "/about/"]).
Proof.
  rewrite (generateSitemap_without_piece_types Platform.simpleURL
             unreachableListing 0 "http://localhost:3000" "key" None eq_refl).
  reflexivity.
Defined.

(* ------------------------------------------------------------------ *)
(** ** The discovery of the piece types                                *)
(* ------------------------------------------------------------------ *)

Section Discovery.
Variable api : Api.
Variable aposHost : string.
Variable locale : option string.

Lemma heuristics_In (l : list string) t : forall discovered,
  In t (fold_left
          (fun discovered heuristicType =>
             if negb (setHas heuristicType discovered)
                && isPieceEndpoint api aposHost heuristicType locale
             then discovered ++ [heuristicType]
             else discovered)
          l discovered)
  <-> In t discovered
      \/ (In t l /\ isPieceEndpoint api aposHost t locale = true).
Proof.
  induction l as [|h l IH]; intros discovered; cbn [fold_left].
  - simpl. tauto.
  - rewrite IH. cbn [In].
    destruct (setHas h discovered) eqn:Ehas; cbn [negb andb].
    + apply setHas_In in Ehas. split; [tauto|].
      intros [H|[[<-|H] Hp]]; auto.
    + destruct (isPieceEndpoint api aposHost h locale) eqn:Ep.
      * rewrite in_app_iff. cbn [In]. split.
        -- intros [[H|[<-|[]]]|H]; auto. tauto.
        -- intros [H|[[<-|H] Hp]]; auto.
      * split; [tauto|].
        intros [H|[[<-|H] Hp]]; auto. congruence.
Qed.
End Discovery.

(** [Object.keys] lists the array indices first, and each name once. *)
Example keys_of_parsed_object :
  JsonOps.keys [("menu", JNull); ("10", JNull); ("2", JNull);
                ("menu", JBool true); ("01", JNull)]
  = ["2"; "10"; "menu"; "01"]
  /\ JsonOps.lookup "menu" [("menu", JNull); ("10", JNull); ("menu", JBool true)]
     = Some (JBool true).
Proof. split; reflexivity. Qed.

(** X10.  [discoverPieceTypes] finds the piece types among the keys that the
    API root lists and five usual names: a name is returned exactly when
    it is one of these and its endpoint answers as a listing of pieces
    does.  Each name is returned once; the core endpoints ([search],
    [page] and the [@apostrophecms/] modules) are never returned. *)
Theorem discoverPieceTypes_finds_piece_endpoints :
  forall (api : Api) (aposHost : string) (locale : option string),
    let found := discoverPieceTypes api aposHost locale in
    (forall t,
        In t found <->
        (In t (probeCandidates api aposHost) \/ In t heuristicTypes)
        /\ isPieceEndpoint api aposHost t locale = true)
    /\ NoDup found
    /\ (forall t, In t found ->
          t <> "search" /\ t <> "page"
          /\ Js.startsWith "@apostrophecms/" t = false).
Proof.
  intros api aposHost locale found.
  assert (Hiff : forall t,
             In t found <->
             (In t (probeCandidates api aposHost) \/ In t heuristicTypes)
             /\ isPieceEndpoint api aposHost t locale = true).
  { intros t. subst found. unfold discoverPieceTypes.
    rewrite dedupe_In, heuristics_In, filter_In. tauto. }
  split; [exact Hiff|]. split; [apply dedupe_NoDup|].
  intros t Ht. apply Hiff in Ht. destruct Ht as [[Ht|Ht] _].
  - unfold probeCandidates in Ht.
    destruct (api (aposHost ++ "/api/v1/")%string) as [response|e]; [|contradiction].
    destruct (negb (ok response)); [contradiction|].
    destruct (body response) as [[| | | | |fields]|]; try contradiction.
    apply filter_In in Ht. destruct Ht as [Ht Hcore].
    apply filter_In in Ht. destruct Ht as [_ Hmodule].
    apply negb_true_iff in Hcore, Hmodule.
    apply setHas_not_In in Hcore. repeat split; auto.
    + intros ->. apply Hcore. now left.
    + intros ->. apply Hcore. right. now left.
  - unfold heuristicTypes in Ht. cbn [In] in Ht.
    repeat (destruct Ht as [<-|Ht]; [repeat split; discriminate|]).
    contradiction.
Qed.

Lemma discoverPieceTypes_finds_piece_endpoints_witness :
  In "article" (discoverPieceTypes typedBackend "http://localhost:3000" None)
  /\ ~ In "menu" (discoverPieceTypes typedBackend "http://localhost:3000" None).
Proof.
  destruct (discoverPieceTypes_finds_piece_endpoints typedBackend
              "http://localhost:3000" None) as [H _].
  split.
  - apply H. split; [right; now left|reflexivity].
  - intros C. apply H in C. destruct C as [_ C]. discriminate.
Defined.

(* ------------------------------------------------------------------ *)
(** ** The pages of a piece listing                                    *)
(* ------------------------------------------------------------------ *)

Section Pagination.
Variable parse : UrlParser.
Variable api : Api.
Variables (aposHost pieceType : string) (locale : option string).

Lemma forOf_pieces items : forall urls,
  forOf (JArr items)
    (fun urls piece =>
       match JsonOps.prop "_url" piece with
       | Some u =>
           if JsonOps.truthy u
           then Returned (urls ++ [normalizeUrl parse (JsonOps.toStr u)])
           else Returned urls
       | None => Returned urls
       end)
    urls
  = Returned (urls ++ pieceUrls parse items).
Proof.
  unfold forOf. cbn [JsonOps.iterate].
  induction items as [|piece items IH]; intros urls; cbn [fold_left pieceUrls flat_map].
  - now rewrite app_nil_r.
  - cbn [bindOutcome].
    destruct (JsonOps.prop "_url" piece) as [u|].
    + destruct (JsonOps.truthy u).
      * fold (pieceUrls parse items). rewrite IH, <- app_assoc. reflexivity.
      * fold (pieceUrls parse items). now rewrite IH.
    + fold (pieceUrls parse items). now rewrite IH.
Qed.

(** One round of the loop, for a page that was served. *)
Lemma piecesLoop_served fuel page urls items :
  servesResults api (piecesUrl aposHost locale pieceType page) items ->
  piecesLoop parse api aposHost pieceType locale (S fuel) page urls =
  if (List.length items <? itemsPerPage)%nat
  then Some (Returned (urls ++ pieceUrls parse items))
  else piecesLoop parse api aposHost pieceType locale fuel (S page)
         (urls ++ pieceUrls parse items).
Proof.
  intros (response & json & Hnet & Hok & Hbody & Hresults).
  cbn [piecesLoop]. cbv zeta. rewrite Hnet. cbn [awaitFetch].
  rewrite Hok. cbn [negb]. unfold awaitJson. rewrite Hbody, Hresults.
  rewrite forOf_pieces. reflexivity.
Qed.

Lemma piecesLoop_pages full : forall fuel page urls last,
  Forall (fun items => itemsPerPage <= List.length items) full ->
  (forall i items, nth_error full i = Some items ->
     servesResults api (piecesUrl aposHost locale pieceType (page + i)) items) ->
  (servesResults api
     (piecesUrl aposHost locale pieceType (page + List.length full)) last
   /\ List.length last < itemsPerPage
   \/ last = []
      /\ exists response,
           api (piecesUrl aposHost locale pieceType (page + List.length full))
           = Responded response /\ ok response = false) ->
  List.length full < fuel ->
  piecesLoop parse api aposHost pieceType locale fuel page urls
  = Some (Returned (urls ++ flat_map (pieceUrls parse) (full ++ [last]))).
Proof.
  induction full as [|items full IH]; intros fuel page urls last Hfull Hserved Hlast Hfuel.
  - destruct fuel as [|fuel]; [simpl in Hfuel; lia|].
    cbn [List.length] in Hlast. rewrite Nat.add_0_r in Hlast.
    cbn [app flat_map]. rewrite app_nil_r.
    destruct Hlast as [[Hs Hshort]|[-> (response & Hnet & Hok)]].
    + rewrite (piecesLoop_served _ _ _ _ Hs).
      apply Nat.ltb_lt in Hshort. now rewrite Hshort.
    + cbn [piecesLoop]. cbv zeta. rewrite Hnet. cbn [awaitFetch].
      rewrite Hok. cbn [negb pieceUrls flat_map]. now rewrite app_nil_r.
  - destruct fuel as [|fuel]; [simpl in Hfuel; lia|].
    inversion Hfull as [|? ? Hlen Hfull']; subst.
    assert (Hs : servesResults api (piecesUrl aposHost locale pieceType page) items).
    { specialize (Hserved 0 items eq_refl). now rewrite Nat.add_0_r in Hserved. }
    rewrite (piecesLoop_served _ _ _ _ Hs).
    assert (E : (List.length items <? itemsPerPage)%nat = false)
      by (apply Nat.ltb_ge; exact Hlen).
    rewrite E. rewrite (IH fuel (S page) _ last Hfull').
    + cbn [app flat_map]. now rewrite <- app_assoc.
    + intros i its Hi. replace (S page + i) with (page + S i) by lia.
      apply Hserved. exact Hi.
    + cbn [List.length] in Hlast.
      replace (S page + List.length full) with (page + S (List.length full)) by lia.
      exact Hlast.
    + simpl in Hfuel. lia.
Qed.

Lemma piecesLoop_endless fuel : forall page urls,
  (forall n, page <= n -> exists items,
      servesResults api (piecesUrl aposHost locale pieceType n) items
      /\ itemsPerPage <= List.length items) ->
  piecesLoop parse api aposHost pieceType locale fuel page urls = None.
Proof.
  induction fuel as [|fuel IH]; intros page urls H; [reflexivity|].
  destruct (H page (le_n _)) as (items & Hs & Hlen).
  rewrite (piecesLoop_served _ _ _ _ Hs).
  assert (E : (List.length items <? itemsPerPage)%nat = false)
    by (apply Nat.ltb_ge; exact Hlen).
  rewrite E. apply IH. intros n Hn. apply H. lia.
Qed.
End Pagination.

(** X11.  [fetchAllPieces] reads a listing page by page, from page 1 on, as
    long as the pages are full (a hundred pieces or more).  It stops at
    the first page that is shorter, or at the first request that gets a
    status other than 2xx, and returns the normalized URLs of the pieces
    of the pages read, in their order; a failing status in the middle of
    a listing is not reported. *)
Theorem fetchAllPieces_reads_full_pages :
  forall (parse : UrlParser) (api : Api) (fuel : nat)
         (aposHost pieceType : string) (locale : option string)
         (full : list (list Json)) (last : list Json),
    Forall (fun items => itemsPerPage <= List.length items) full ->
    (forall i items, nth_error full i = Some items ->
       servesResults api (piecesUrl aposHost locale pieceType (1 + i)) items) ->
    (servesResults api
       (piecesUrl aposHost locale pieceType (1 + List.length full)) last
     /\ List.length last < itemsPerPage
     \/ last = []
        /\ exists response,
             api (piecesUrl aposHost locale pieceType (1 + List.length full))
             = Responded response /\ ok response = false) ->
    List.length full < fuel ->
    fetchAllPieces parse api fuel aposHost pieceType locale
    = Some (Returned (flat_map (pieceUrls parse) (full ++ [last]))).
Proof.
  intros parse api fuel aposHost pieceType locale full last Hfull Hserved Hlast Hfuel.
  unfold fetchAllPieces.
  now rewrite (piecesLoop_pages parse api aposHost pieceType locale full fuel 1 [] last).
Qed.

Lemma fetchAllPieces_reads_full_pages_witness :
  fetchAllPieces Platform.simpleURL typedBackend 1 "http://localhost:3000"
    "article" None
  = Some (Returned ["/articles/one/"]).
Proof.
  apply (fetchAllPieces_reads_full_pages Platform.simpleURL typedBackend 1
           "http://localhost:3000" "article" None []
           [JObj [("_url", JStr "/articles/one")]; JObj [("title", JStr "Draft")]]).
  - constructor.
  - intros [|i] items H; discriminate.
  - left. split; [|unfold itemsPerPage; simpl; lia].
    eexists _, _. repeat split; reflexivity.
  - simpl. lia.
Defined.

(** X12.  [fetchAllPieces] has no bound of its own on the number of pages: it
    does not return as long as the backend serves full pages. *)
Theorem fetchAllPieces_needs_a_short_page :
  forall (parse : UrlParser) (api : Api)
         (aposHost pieceType : string) (locale : option string),
    (forall n, 1 <= n -> exists items,
        servesResults api (piecesUrl aposHost locale pieceType n) items
        /\ itemsPerPage <= List.length items) ->
    forall fuel, fetchAllPieces parse api fuel aposHost pieceType locale = None.
Proof.
  intros parse api aposHost pieceType locale H fuel.
  unfold fetchAllPieces. now apply piecesLoop_endless.
Qed.

Lemma fetchAllPieces_needs_a_short_page_witness :
  fetchAllPieces Platform.simpleURL endlessListing 1000
    "http://localhost:3000" "article" None = None.
Proof.
  apply (fetchAllPieces_needs_a_short_page Platform.simpleURL endlessListing
           "http://localhost:3000" "article" None).
  intros n _. exists (repeat (JObj [("_url", JStr "/x")]) 100). split.
  - eexists _, _. repeat split; reflexivity.
  - rewrite repeat_length. unfold itemsPerPage. lia.
Defined.

Open Scope string_scope.
Open Scope list_scope.
(* ------------------------------------------------------------------ *)
(** ** The pages of the sitemap                                        *)
(* ------------------------------------------------------------------ *)

Section Pages.
Variable parse : UrlParser.

Lemma forOf_pages items : forall urls,
  Forall (fun page => page <> JNull) items ->
  forOf (JArr items)
    (fun urls page =>
       match page with
       | JNull => Thrown "Cannot read properties of null"
       | _ =>
           match JsonOps.prop "_url" page with
           | Some (JStr u) => Returned (urls ++ [normalizeUrl parse u])
           | _ => Returned urls
           end
       end)
    urls
  = Returned (urls ++ pageUrls parse items).
Proof.
  unfold forOf. cbn [JsonOps.iterate].
  induction items as [|page items IH]; intros urls Hitems;
    cbn [fold_left pageUrls flat_map].
  - now rewrite app_nil_r.
  - inversion Hitems as [|? ? Hpage Hrest]; subst. cbn [bindOutcome].
    fold (pageUrls parse items).
    assert (E : match page with
                | JNull => Thrown "Cannot read properties of null"
                | _ =>
                    match JsonOps.prop "_url" page with
                    | Some (JStr u) => Returned (urls ++ [normalizeUrl parse u])
                    | _ => Returned urls
                    end
                end
                = Returned (urls ++ match JsonOps.prop "_url" page with
                                    | Some (JStr u) => [normalizeUrl parse u]
                                    | _ => []
                                    end)).
    { destruct page; try congruence;
        destruct (JsonOps.prop "_url" _) as [[]|]; now rewrite ?app_nil_r. }
    rewrite E, (IH _ Hrest), <- app_assoc. reflexivity.
Qed.

Lemma forOf_null_page items1 items2 : forall urls,
  Forall (fun page => page <> JNull) items1 ->
  forOf (JArr (items1 ++ JNull :: items2))
    (fun urls page =>
       match page with
       | JNull => Thrown "Cannot read properties of null"
       | _ =>
           match JsonOps.prop "_url" page with
           | Some (JStr u) => Returned (urls ++ [normalizeUrl parse u])
           | _ => Returned urls
           end
       end)
    urls
  = Thrown "Cannot read properties of null".
Proof.
  intros urls H1.
  pose proof (forOf_pages items1 urls H1) as E. unfold forOf in *.
  cbn [JsonOps.iterate] in *. rewrite fold_left_app, E. cbn [fold_left bindOutcome].
  clear. induction items2 as [|page items2 IH]; [reflexivity|exact IH].
Qed.
End Pages.

(** X13.  The pages of the sitemap.  When the backend serves the listing of the
    pages as an array, or as an object with the array as [results],
    [fetchAllPages] returns the normalized URL of every entry that has a
    string as its [_url], and [/]; an entry without such a [_url] is
    passed over, but an entry that is [null] makes the call, and with it
    the sitemap, fail. *)
Theorem fetchAllPages_lists_the_pages :
  forall (parse : UrlParser) (api : Api) (aposHost : string) (items : list Json),
    servesPages api aposHost items ->
    (Forall (fun page => page <> JNull) items ->
     exists urls,
       fetchAllPages parse api aposHost None = Returned urls
       /\ forall u, In u urls <-> u = "/" \/ In u (pageUrls parse items))
    /\ (In JNull items ->
        exists message, fetchAllPages parse api aposHost None = Thrown message).
Proof.
  intros parse api aposHost items (response & json & Hnet & Hok & Hbody & Hjson).
  assert (Hrun : fetchAllPages parse api aposHost None =
    bindOutcome
      (if negb (JsonOps.truthy (JArr items)) then Returned []
       else forOf (JArr items)
              (fun urls page =>
                 match page with
                 | JNull => Thrown "Cannot read properties of null"
                 | _ =>
                     match JsonOps.prop "_url" page with
                     | Some (JStr u) => Returned (urls ++ [normalizeUrl parse u])
                     | _ => Returned urls
                     end
                 end) [])
      (fun urls =>
         Returned (Js.sort String.compare
                     (dedupe (if negb (setHas "/" urls) then urls ++ ["/"] else urls))))).
  { unfold fetchAllPages. cbn [localeQuery].
    change ("/api/v1/@apostrophecms/page?all=1&flat=1&published=1" ++ EmptyString)%string
      with "/api/v1/@apostrophecms/page?all=1&flat=1&published=1".
    rewrite Hnet. cbn [awaitFetch bindOutcome].
    rewrite Hok. cbn [negb]. unfold awaitJson. rewrite Hbody. cbn [bindOutcome].
    destruct Hjson as [->|(fields & -> & Hresults)]; [reflexivity|].
    cbn [JsonOps.prop]. rewrite Hresults. reflexivity. }
  rewrite Hrun. cbn [JsonOps.truthy negb]. split.
  - intros Hitems. rewrite (forOf_pages parse items [] Hitems). cbn [bindOutcome app].
    eexists. split; [reflexivity|]. intros u. rewrite sort_dedupe_In.
    destruct (setHas "/" (pageUrls parse items)) eqn:E; cbn [negb].
    + apply setHas_In in E. split; [auto|]. intros [->|H]; auto.
    + rewrite in_app_iff. cbn [In]. split.
      * intros [H|[<-|[]]]; auto.
      * intros [->|H]; auto.
  - intros Hnull.
    assert (Hsplit : exists items1 items2,
               items = items1 ++ JNull :: items2
               /\ Forall (fun page => page <> JNull) items1).
    { clear -Hnull. induction items as [|page items IH]; [contradiction|].
      destruct page; try (exists [], items; split; [reflexivity|constructor]);
        (destruct Hnull as [Hn|Hn]; [discriminate|];
         destruct (IH Hn) as (i1 & i2 & -> & H1);
         eexists (_ :: i1), i2; split; [reflexivity|];
         constructor; [discriminate|exact H1]). }
    destruct Hsplit as (items1 & items2 & -> & H1).
    rewrite (forOf_null_page parse items1 items2 [] H1). cbn [bindOutcome]. eauto.
Qed.

Lemma fetchAllPages_lists_the_pages_witness :
  exists urls,
    fetchAllPages Platform.simpleURL unreachableListing "http://localhost:3000" None
    = Returned urls
    /\ forall u,
         In u urls <->
         u = "/"
         \/ In u (pageUrls Platform.simpleURL
                    [JObj [("_url", JStr "/")]; JObj [("_url", JStr "/about")]]).
Proof.
  destruct (fetchAllPages_lists_the_pages Platform.simpleURL unreachableListing
              "http://localhost:3000"
              [JObj [("_url", JStr "/")]; JObj [("_url", JStr "/about")]])
    as [H _].
  - eexists _, _. split; [reflexivity|]. split; [reflexivity|].
    split; [reflexivity|]. right. eexists. split; reflexivity.
  - apply H. repeat constructor; discriminate.
Defined.

Open Scope string_scope.
Open Scope list_scope.
(* ------------------------------------------------------------------ *)
(** ** The links of a page                                             *)
(* ------------------------------------------------------------------ *)

Lemma truthy_iff s : Js.truthy s = true <-> s <> EmptyString.
Proof.
  unfold Js.truthy. destruct (String.eqb_spec s EmptyString); simpl; split;
    congruence.
Qed.

Lemma truthy_false s : Js.truthy s = false <-> s = EmptyString.
Proof.
  unfold Js.truthy. destruct (String.eqb_spec s EmptyString); simpl; split;
    congruence.
Qed.

Lemma setAdd_NoDup x s : NoDup s -> NoDup (setAdd x s).
Proof.
  intros H. unfold setAdd. destruct (setHas x s) eqn:E; [exact H|].
  apply setHas_not_In in E.
  apply NoDup_app; [exact H|repeat constructor; easy|].
  intros y Hy [<-|[]]. contradiction.
Qed.

(** A loop that adds to a set what its elements give. *)
Lemma fold_into_set {A} (f : list string -> A -> list string)
    (G : A -> string -> Prop) :
  (forall acc a l, In l (f acc a) <-> In l acc \/ G a l) ->
  (forall acc a, NoDup acc -> NoDup (f acc a)) ->
  forall items acc,
    NoDup acc ->
    NoDup (fold_left f items acc)
    /\ forall l, In l (fold_left f items acc)
                 <-> In l acc \/ exists a, In a items /\ G a l.
Proof.
  intros Hin Hnodup. induction items as [|a items IH]; intros acc Hacc; simpl.
  - split; [exact Hacc|]. intros l. split; [auto|].
    intros [H|(a & [] & _)]. exact H.
  - destruct (IH (f acc a) (Hnodup _ _ Hacc)) as [H1 H2].
    split; [exact H1|]. intros l. rewrite H2, Hin. split.
    + intros [[H|H]|(a' & Ha' & H)]; eauto.
    + intros [H|(a' & [<-|Ha'] & H)]; eauto.
Qed.

(** X14.  [extractInternalLinks] returns, each once, the links that the anchors
    of the page give: the path and query (never the fragment alone) of
    every [href] that resolves, against the base URL, to a URL of the
    origin of the base.  An anchor without [href], with an empty one, with
    one that does not parse or that leads to another origin gives
    nothing. *)
Theorem extractInternalLinks_same_origin_once :
  forall (parse : UrlParser) (html : Document) (baseUrl : string),
    NoDup (extractInternalLinks parse html baseUrl)
    /\ forall l,
         In l (extractInternalLinks parse html baseUrl)
         <-> exists href,
               In (Anchor (Some href)) html /\ givesLink parse baseUrl href l.
Proof.
  intros parse html baseUrl. unfold extractInternalLinks.
  match goal with
  | |- NoDup (fold_left ?f _ _) /\ _ =>
      destruct (fold_into_set f
                  (fun node l => exists href,
                       node = Anchor (Some href) /\ givesLink parse baseUrl href l))
        with (items := html) (acc := @nil string) as [H1 H2]
  end.
  - intros acc node l. unfold givesLink.
    destruct node as [[href|]|action|url title|markup];
      try (split; [now left|intros [H|(h & E & _)]; [exact H|discriminate]]).
    destruct (Js.truthy href) eqn:Et; cbn [negb].
    + apply truthy_iff in Et.
      destruct (parse href (Some baseUrl)) as [url|] eqn:Eu.
      * destruct (parse baseUrl None) as [base|] eqn:Eb.
        -- destruct (String.eqb_spec (origin url) (origin base)) as [Eo|Eo].
           ++ destruct (Js.truthy (pathname url ++ search url)) eqn:Ep.
              ** apply truthy_iff in Ep. rewrite setAdd_In. split.
                 --- intros [->|H]; [|now left]. right. exists href.
                     split; [reflexivity|]. split; [exact Et|].
                     exists url, base. auto.
                 --- intros [H|(h & E & _ & u & b & E1 & E2 & _ & -> & _)];
                       [now right|].
                     inversion E; subst h. rewrite Eu in E1. inversion E1.
                     now left.
              ** apply truthy_false in Ep. split; [now left|].
                 intros [H|(h & E & _ & u & b & E1 & E2 & _ & -> & Hne)];
                   [exact H|].
                 inversion E; subst h. rewrite Eu in E1. inversion E1; subst u.
                 contradiction.
           ++ split; [now left|].
              intros [H|(h & E & _ & u & b & E1 & E2 & Eo' & _)]; [exact H|].
              inversion E; subst h. rewrite Eu in E1.
              inversion E1; inversion E2; subst. contradiction.
        -- split; [now left|].
           intros [H|(h & E & _ & u & b & E1 & E2 & _)]; [exact H|].
           inversion E; subst h. congruence.
      * split; [now left|].
        intros [H|(h & E & _ & u & b & E1 & _)]; [exact H|].
        inversion E; subst h. congruence.
    + apply truthy_false in Et. split; [now left|].
      intros [H|(h & E & Hne & _)]; [exact H|].
      inversion E; subst h. contradiction.
  - intros acc node Hacc.
    destruct node as [[href|]|action|url title|markup]; try exact Hacc.
    destruct (negb (Js.truthy href)); [exact Hacc|].
    destruct (parse href (Some baseUrl)) as [url|]; [|exact Hacc].
    destruct (parse baseUrl None) as [base|]; [|exact Hacc].
    destruct (String.eqb (origin url) (origin base)); [|exact Hacc].
    destruct (Js.truthy (pathname url ++ search url)); [|exact Hacc].
    now apply setAdd_NoDup.
  - constructor.
  - split; [exact H1|]. intros l. rewrite H2. split.
    + intros [[]|(node & Hnode & href & -> & Hg)]. eauto.
    + intros (href & Hin & Hg). right. eauto.
Qed.

Lemma extractInternalLinks_same_origin_once_witness :
  In "/a?x=1&y=2"
    (extractInternalLinks Platform.simpleURL
       [Anchor (Some "/a?x=1&y=2"); Anchor (Some "https://example.com/")]
       "http://127.0.0.1:4321").
Proof.
  apply (extractInternalLinks_same_origin_once Platform.simpleURL
           [Anchor (Some "/a?x=1&y=2"); Anchor (Some "https://example.com/")]
           "http://127.0.0.1:4321").
  exists "/a?x=1&y=2". split; [now left|].
  split; [discriminate|].
  eexists _, _. repeat split; try reflexivity. discriminate.
Defined.

(* ------------------------------------------------------------------ *)
(** ** The rewritten link and the crawled link                         *)
(* ------------------------------------------------------------------ *)

Lemma cut_without_separator sep s :
  Every (differs sep) s -> UrlEncoded.cut sep s = None.
Proof.
  induction s as [|c s IH]; simpl; [reflexivity|]. intros [Hc Hs].
  apply Ascii.eqb_neq in Hc. now rewrite Hc, (IH Hs).
Qed.

Lemma cut_at_separator sep p q :
  Every (differs sep) p ->
  UrlEncoded.cut sep (p ++ String sep q)%string = Some (p, q).
Proof.
  induction p as [|c p IH]; simpl; intros H.
  - now rewrite Ascii.eqb_refl.
  - destruct H as [Hc Hp]. apply Ascii.eqb_neq in Hc. now rewrite Hc, (IH Hp).
Qed.

Section RewrittenLink.
Variable parse : UrlParser.
Variable lc : string -> string -> comparison.
Variable previewUrl : string.

(** What the second half of the loop body makes of a URL given by its
    parts. *)
Lemma rewriteUrl_parts url (u : URL) :
  Js.truthy url = true ->
  (Js.startsWith previewUrl url = true /\ parse url None = Some u
   \/ Js.startsWith previewUrl url = false
      /\ url = (pathname u ++ search u ++ hash u)%string) ->
  plainParts u ->
  rewriteUrl parse lc previewUrl url
  = (queryParamsToPath lc (pathname u ++ search u) ++ hash u)%string.
Proof.
  intros Ht Hcase (Hp & Hs & Hh). unfold rewriteUrl. rewrite Ht. cbn [negb].
  assert (Hfinal :
            (if Js.startsWith previewUrl url
             then match parse url None with
                  | Some urlObj =>
                      Some (pathname urlObj ++ search urlObj ++ hash urlObj)%string
                  | None => None
                  end
             else Some url)
            = Some (pathname u ++ search u ++ hash u)%string).
  { destruct Hcase as [[-> ->]|[-> <-]]; reflexivity. }
  rewrite Hfinal. clear Hfinal Hcase Ht.
  assert (Hhash : Every (differs "?") (hash u)).
  { destruct Hh as [->|(h & -> & Hh)]; [exact I|]. split; [discriminate|exact Hh]. }
  destruct Hs as [Es|(q & Es & Hq1 & Hq2)]; rewrite Es.
  - cbn [String.append]. rewrite append_nil_r.
    assert (Hall : Every (differs "?") (pathname u ++ hash u)%string)
      by (apply Every_app; auto).
    apply includes_char in Hall. rewrite Hall.
    now rewrite (queryParamsToPath_without_query lc _ Hp).
  - assert (Hinc : Js.includes "?" (pathname u ++ String "?" q ++ hash u)%string = true).
    { apply includes_char_true. intros C. apply Every_app in C.
      destruct C as [_ [C _]]. now apply C. }
    rewrite Hinc.
    change (String "?" q ++ hash u)%string with (String "?" (q ++ hash u))%string.
    rewrite (split_at_separator _ _ _ Hp).
    rewrite (split_without_separator "?" (q ++ hash u)%string)
      by (apply Every_app; auto).
    cbn [hd nth].
    destruct Hh as [Eh|(h & Eh & Hh)]; rewrite Eh.
    + rewrite append_nil_r, (cut_without_separator _ _ Hq2).
      rewrite !append_nil_r. reflexivity.
    + rewrite (cut_at_separator _ _ _ Hq2). reflexivity.
Qed.
End RewrittenLink.

(** X15.  The rewritten link leads to the page that the crawl writes for it.
    For an anchor whose [href] is a URL of the preview server, or a path
    from the root of the site, with a query and a fragment in their usual
    places: the crawl takes the path and query as the link to follow, and
    the rewriter replaces the [href] by the canonical path of this very
    link, the one that names the directory of its file, followed by the
    fragment. *)
Theorem makeUrlsRelative_follows_the_crawl :
  forall (parse : UrlParser) (lc : string -> string -> comparison)
         (previewUrl url : string) (u base : URL),
    Js.truthy url = true ->
    parse url (Some previewUrl) = Some u ->
    parse previewUrl None = Some base ->
    origin u = origin base ->
    (Js.startsWith previewUrl url = true /\ parse url None = Some u
     \/ Js.startsWith previewUrl url = false
        /\ url = (pathname u ++ search u ++ hash u)%string) ->
    plainParts u ->
    Js.truthy (pathname u ++ search u) = true ->
    let link := (pathname u ++ search u)%string in
    extractInternalLinks parse [Anchor (Some url)] previewUrl = [link]
    /\ makeUrlsRelative parse lc [Anchor (Some url)] previewUrl
       = [Anchor (Some (queryParamsToPath lc link ++ hash u)%string)].
Proof.
  intros parse lc previewUrl url u base Ht Hu Hb Ho Hcase Hparts Hl link. split.
  - unfold extractInternalLinks. cbn [fold_left].
    rewrite Ht, Hu, Hb, Ho, String.eqb_refl. cbn [negb]. subst link.
    rewrite Hl. reflexivity.
  - unfold makeUrlsRelative. cbn [map rewriteNode].
    now rewrite (rewriteUrl_parts parse lc previewUrl url u Ht Hcase Hparts).
Qed.

Lemma makeUrlsRelative_follows_the_crawl_witness :
  extractInternalLinks Platform.simpleURL
    [Anchor (Some "http://127.0.0.1:4321/blog?page=2#top")] "http://127.0.0.1:4321"
  = ["/blog?page=2"]
  /\ makeUrlsRelative Platform.simpleURL Platform.rootCollation
       [Anchor (Some "http://127.0.0.1:4321/blog?page=2#top")] "http://127.0.0.1:4321"
     = [Anchor (Some "/blog/page-2/#top")].
Proof.
  apply (makeUrlsRelative_follows_the_crawl Platform.simpleURL
           Platform.rootCollation "http://127.0.0.1:4321"
           "http://127.0.0.1:4321/blog?page=2#top"
           (mkURL "http://127.0.0.1:4321/blog?page=2#top" "http://127.0.0.1:4321"
              "/blog" "?page=2" "#top")
           (mkURL "http://127.0.0.1:4321/" "http://127.0.0.1:4321" "/"
              EmptyString EmptyString)).
  - reflexivity.
  - reflexivity.
  - reflexivity.
  - reflexivity.
  - left. split; reflexivity.
  - unfold plainParts, differs. simpl. split; [|split].
    + repeat split; discriminate.
    + right. eexists. split; [reflexivity|]. repeat split; discriminate.
    + right. eexists. split; [reflexivity|]. repeat split; discriminate.
  - reflexivity.
Defined.

Open Scope string_scope.
Open Scope list_scope.
(* ------------------------------------------------------------------ *)
(** ** The video widgets of a page                                     *)
(* ------------------------------------------------------------------ *)


(** A page with two widgets: the first, which has a link inside it, is
    answered by the oEmbed endpoint and gives its place to the two
    elements of its markup; the second has no [url]. *)
Example processVideoWidgets_on_a_page :
  let page :=
    ("<html><head></head><body><p>Intro</p>"
     ++ "<video-widget url='https://youtu.be/x' title='Talk'>"
     ++ "<a href='/inner/'>in</a></video-widget>"
     ++ "<video-widget></video-widget>"
     ++ "<a href='/next/'>Next</a></body></html>")%string in
  let embed (_ : Json) (title : string) :=
    ("<div class='video-wrapper'><iframe title='" ++ title
     ++ "'></iframe></div><style>.video-container iframe {}</style>")%string in
  let answering : Backend :=
    fun url _ =>
      if String.eqb url (oembedUrl "http://localhost:3000" "https://youtu.be/x")
      then Responded (mkResponse 200 "OK"
                        (Some (JObj [("html", JStr "<iframe></iframe>")])))
      else Rejected "connect ECONNREFUSED" in
  let refusing : Backend := fun _ _ => Rejected "connect ECONNREFUSED" in
  processVideoWidgets Platform.simpleJsdom embed answering page
    "http://localhost:3000" 1
  = ("<html><head></head><body><p>Intro</p>"
     ++ "<div class='video-wrapper'><iframe title='Talk'></iframe></div>"
     ++ "<style>.video-container iframe {}</style>"
     ++ noVideoUrl
     ++ "<a href=" ++ dq ++ "/next/" ++ dq ++ ">Next</a></body></html>")%string
  /\ processVideoWidgets Platform.simpleJsdom embed refusing page
       "http://localhost:3000" 1
     = ("<html><head></head><body><p>Intro</p>"
        ++ videoUnavailable
        ++ noVideoUrl
        ++ "<a href=" ++ dq ++ "/next/" ++ dq ++ ">Next</a></body></html>")%string
  /\ videoWidgetCount page = 2.
Proof. vm_compute. repeat split. Qed.

(* ------------------------------------------------------------------ *)
(** ** The query of the oEmbed request                                 *)
(* ------------------------------------------------------------------ *)

Lemma plusToSpace_app a b :
  UrlEncoded.plusToSpace (a ++ b)
  = (UrlEncoded.plusToSpace a ++ UrlEncoded.plusToSpace b)%string.
Proof. induction a as [|c a IH]; simpl; congruence. Qed.

(** Decoding undoes the encoding of one byte. *)
Lemma decode_encoded_byte c rest :
  UrlEncoded.percentDecode (UrlEncoded.plusToSpace (formEncodeByte c) ++ rest)
  = String c (UrlEncoded.percentDecode rest).
Proof. destruct c as [[] [] [] [] [] [] [] []]; reflexivity. Qed.

Lemma decode_encoded s : UrlEncoded.decodeComponent (formEncode s) = s.
Proof.
  unfold UrlEncoded.decodeComponent.
  induction s as [|c s IH]; [reflexivity|].
  cbn [formEncode]. rewrite plusToSpace_app, decode_encoded_byte. now rewrite IH.
Qed.

(** The serializer leaves none of the separators of a query. *)
Lemma formEncodeByte_plain c :
  Every (fun x => x <> "&"%char /\ x <> "="%char) (formEncodeByte c).
Proof.
  destruct c as [[] [] [] [] [] [] [] []]; cbv; repeat split; discriminate.
Qed.

Lemma formEncode_plain s :
  Every (fun x => x <> "&"%char /\ x <> "="%char) (formEncode s).
Proof.
  induction s as [|c s IH]; [exact I|].
  cbn [formEncode]. apply Every_app. split; [apply formEncodeByte_plain|exact IH].
Qed.

(** X17.  The backend reads the URL of the video as the page gave it.  The
    oEmbed request has one query parameter, [url], and parsing the query
    gives back the URL of the video, whatever characters it has ([&],
    [=], [#], spaces and [%] included). *)
Theorem oembedUrl_carries_the_video_url :
  forall aposHost videoUrl : string,
    exists query,
      oembedUrl aposHost videoUrl
      = (aposHost ++ "/api/v1/@apostrophecms/oembed/query?" ++ query)%string
      /\ UrlEncoded.entries query = [("url", videoUrl)].
Proof.
  intros aposHost videoUrl. exists ("url=" ++ formEncode videoUrl)%string.
  split; [reflexivity|].
  pose proof (formEncode_plain videoUrl) as Hplain.
  apply Every_and in Hplain. destruct Hplain as [Hamp Heq].
  unfold UrlEncoded.entries. cbn [String.append].
  change (Ascii.eqb "u" "?") with false. cbv iota.
  rewrite split_without_separator.
  2:{ repeat (split; [discriminate|]). exact Hamp. }
  cbn [filter Js.truthy String.eqb negb map].
  unfold UrlEncoded.parsePair.
  change (String "u" (String "r" (String "l" (String "=" (formEncode videoUrl)))))
    with ("url" ++ String "=" (formEncode videoUrl))%string.
  rewrite cut_at_separator by (repeat split; discriminate).
  now rewrite decode_encoded.
Qed.

Open Scope string_scope.
Open Scope list_scope.
(* ------------------------------------------------------------------ *)
(** ** mapLimit: the limit                                             *)
(* ------------------------------------------------------------------ *)

Lemma inFlight_length {Item W : Type} (rs : list (Runner Item W)) :
  List.length (inFlight rs) <= List.length rs.
Proof.
  induction rs as [|[[item progress]|] rs IH]; simpl; lia.
Qed.

(** X18.  [mapLimit] keeps to its limit.  At every turn of the event loop,
    whatever the order in which it resumes the runners, at most [limit]
    calls of the worker have started and are not yet recorded. *)
Theorem mapLimit_respects_limit :
  forall (Item State W : Type) (worker : Worker Item State W)
         (items : list Item) (limit : nat) (sched : nat -> nat) (s : State)
         (turns : nat),
    let p := runPool worker sched turns 0
               (spawn worker limit (initialPool items s)) in
    List.length (inFlight (runners p)) <= limit
    /\ List.length (invoked p) <= List.length (settledLog p) + limit.
Proof.
  intros Item State W worker items limit sched s turns p.
  assert (Hlen : List.length (runners p) = limit).
  { apply (runPool_invariant worker (fun p => List.length (runners p) = limit)).
    - intros p0 p1 H0 <-. exact (runners_step worker _ _ H0).
    - now rewrite runners_spawn. }
  assert (Hledger : ledger items p).
  { apply (runPool_invariant worker (ledger items)); [apply ledger_step|].
    apply (spawn_invariant worker (ledger items)); [apply ledger_spawn|].
    unfold ledger. simpl. repeat split; auto. contradiction. }
  clearbody p. destruct Hledger as (_ & H2 & _ & _).
  pose proof (inFlight_length (runners p)) as Hfl.
  split; [lia|].
  rewrite (Permutation_length H2), length_app, length_map. lia.
Qed.

(** X19.  Without a runner nothing is done: with [limit = 0], [mapLimit]
    returns at once with empty results; the worker is never called and
    every item is left in the queue. *)
Theorem mapLimit_without_runner :
  forall (Item State W : Type) (worker : Worker Item State W)
         (items : list Item) (sched : nat -> nat) (s : State),
    mapLimit worker items 0 sched s = Some (mkResults 0 0 [], s)
    /\ invoked (finalPool worker items 0 sched s) = []
    /\ queue (finalPool worker items 0 sched s) = items.
Proof.
  intros Item State W worker items sched s.
  assert (E : finalPool worker items 0 sched s = initialPool items s).
  { unfold finalPool. cbn [spawn]. destruct (poolFuel worker items); reflexivity. }
  unfold mapLimit. rewrite E. repeat split.
Qed.

(* ------------------------------------------------------------------ *)
(** ** The crawl without a worker                                      *)
(* ------------------------------------------------------------------ *)

Lemma crawlLoop_spins env sched fuel : forall round c,
  concurrency env = 0 -> urlQueue c <> [] ->
  crawlLoop env sched fuel round c = None.
Proof.
  induction fuel as [|fuel IH]; intros round c Hc Hq.
  - simpl. destruct (urlQueue c); [congruence|reflexivity].
  - cbn [crawlLoop]. destruct (urlQueue c) as [|u rest] eqn:E; [congruence|].
    rewrite Hc. cbn [Nat.mul firstn skipn filter]. apply IH; [exact Hc|].
    simpl. congruence.
Qed.

(** X20.  With [concurrency = 0] the crawl does not end.  The batch that the
    loop takes from the queue is empty, the queue stays as it is, and the
    loop goes round for ever: no page is fetched and nothing is
    returned. *)
Theorem crawl_needs_a_worker :
  forall (env : Env) (sched : nat -> nat -> nat) (allUrls : list string),
    concurrency env = 0 -> allUrls <> [] ->
    forall fuel, crawl env sched fuel allUrls = None.
Proof.
  intros env sched allUrls Hc Hq fuel. unfold crawl.
  apply crawlLoop_spins; [exact Hc|exact Hq].
Qed.

Lemma crawl_needs_a_worker_witness :
  crawl (mkEnv Platform.simpleURL Platform.rootCollation Platform.simpleJoin
           Platform.simpleJsdom (fun _ _ => "<iframe></iframe>") demoSite
           (fun _ _ => Rejected "connect ECONNREFUSED")
           "http://localhost:3000" "http://127.0.0.1:4321" "/out" 3 0
           [("out", FsDir [])])
    (fun _ t => t) 1000 ["/"]
  = None.
Proof.
  apply crawl_needs_a_worker; [reflexivity|discriminate].
Defined.

Open Scope string_scope.
Open Scope list_scope.
(* ------------------------------------------------------------------ *)
(** ** The prefixes of the locales                                     *)
(* ------------------------------------------------------------------ *)

Lemma startsWith_refl_app p q : Js.startsWith p (p ++ q)%string = true.
Proof.
  unfold Js.startsWith. induction p as [|c p IH]; simpl.
  - apply prefix_empty.
  - destruct (ascii_dec c c); [exact IH|congruence].
Qed.

Lemma startsWith_refl p : Js.startsWith p p = true.
Proof.
  rewrite <- (append_nil_r p) at 2. apply startsWith_refl_app.
Qed.

Lemma startsWith_shorter p q s :
  Js.startsWith (p ++ q)%string s = true -> Js.startsWith p s = true.
Proof.
  unfold Js.startsWith. revert s. induction p as [|c p IH]; intros s; simpl.
  - intros _. apply prefix_empty.
  - destruct s as [|d s]; [discriminate|]. simpl.
    destruct (ascii_dec c d); [apply IH|discriminate].
Qed.

Lemma startsWith_same_head p s t :
  Js.startsWith s t = true -> Js.startsWith (p ++ s)%string (p ++ t)%string = true.
Proof.
  unfold Js.startsWith. intros H. induction p as [|c p IH]; simpl; [exact H|].
  destruct (ascii_dec c c); [exact IH|congruence].
Qed.

(** X21.  [applyLocalePrefix] puts every URL under the prefix of its locale.
    With a prefix that is not empty, every URL that it returns starts with
    the prefix; the list has as many URLs as before; and a list of paths
    (each starts with [/], as those of a sitemap do) that went through it
    goes through it again unchanged. *)
Theorem applyLocalePrefix_puts_under_prefix :
  forall (urls : list string) (prefix : string),
    Js.truthy prefix = true ->
    let prefixed := applyLocalePrefix urls (Some prefix) in
    Forall (fun url => Js.startsWith prefix url = true) prefixed
    /\ List.length prefixed = List.length urls
    /\ (Forall (fun url => Js.startsWith "/" url = true) urls ->
        applyLocalePrefix prefixed (Some prefix) = prefixed).
Proof.
  intros urls prefix Ht prefixed. subst prefixed. unfold applyLocalePrefix.
  rewrite Ht. cbn [negb]. split; [|split].
  - apply Forall_forall. intros u Hu. apply in_map_iff in Hu.
    destruct Hu as [url [<- _]].
    destruct (Js.startsWith (prefix ++ "/") url) eqn:E1; cbn [orb].
    + exact (startsWith_shorter _ _ _ E1).
    + destruct (String.eqb_spec url prefix) as [->|_].
      * apply startsWith_refl.
      * destruct (String.eqb url "/"); apply startsWith_refl_app.
  - apply length_map.
  - intros Hroot. rewrite map_map. apply map_ext_in. intros url Hurl.
    rewrite Forall_forall in Hroot. specialize (Hroot _ Hurl).
    destruct (Js.startsWith (prefix ++ "/") url) eqn:E1; cbn [orb].
    + rewrite E1. reflexivity.
    + destruct (String.eqb_spec url prefix) as [->|_].
      * rewrite E1, String.eqb_refl. reflexivity.
      * destruct (String.eqb url "/").
        -- rewrite startsWith_refl. reflexivity.
        -- rewrite (startsWith_same_head prefix "/" url Hroot). reflexivity.
Qed.

Lemma applyLocalePrefix_puts_under_prefix_witness :
  applyLocalePrefix ["/"; "/about/"; "/es/contacto/"] (Some "/es")
  = ["/es/"; "/es/about/"; "/es/contacto/"]
  /\ applyLocalePrefix
       (applyLocalePrefix ["/"; "/about/"; "/es/contacto/"] (Some "/es"))
       (Some "/es")
     = applyLocalePrefix ["/"; "/about/"; "/es/contacto/"] (Some "/es").
Proof.
  split; [reflexivity|].
  apply (applyLocalePrefix_puts_under_prefix ["/"; "/about/"; "/es/contacto/"]
           "/es" eq_refl).
  repeat constructor.
Defined.

(* ------------------------------------------------------------------ *)
(** ** The URLs that the crawl starts from                             *)
(* ------------------------------------------------------------------ *)

Section LocaleUrls.
Variable parse : UrlParser.
Variable api : Api.
Variable fuel : nat.
Variables aposHost aposKey : string.
Variable pieceTypes : option (list string).

Lemma localeUrls_In locales : forall allUrls found,
  localeUrls parse api fuel aposHost aposKey pieceTypes locales allUrls
  = Some (Returned found) ->
  forall u,
    In u found <->
    In u allUrls
    \/ exists locale prefix urls,
         In (locale, prefix) locales
         /\ generateSitemap parse api fuel aposHost aposKey (Some locale) pieceTypes
            = Some (Returned urls)
         /\ In u (applyLocalePrefix urls prefix).
Proof.
  induction locales as [|[locale prefix] locales IH]; intros allUrls found; simpl.
  - intros H u. inversion H; subst. split; [auto|].
    intros [H1|(l & p & us & [] & _)]. exact H1.
  - destruct (generateSitemap parse api fuel aposHost aposKey (Some locale) pieceTypes)
      as [[urls|e]|] eqn:Eg; try discriminate.
    intros H u. rewrite (IH _ _ H u), in_app_iff. split.
    + intros [[H1|H1]|(l & p & us & Hin & Hg & Hu)].
      * now left.
      * right. exists locale, prefix, urls. auto.
      * right. exists l, p, us. auto.
    + intros [H1|(l & p & us & [E|Hin] & Hg & Hu)].
      * auto.
      * inversion E; subst. rewrite Eg in Hg. inversion Hg; subst. auto.
      * right. exists l, p, us. auto.
Qed.
End LocaleUrls.

(** X22.  The URLs that the crawl starts from.  Without a locale
    configuration they are the sitemap, and the test for an empty list
    never fires: a sitemap has a home page.  With a configuration without
    any locale the export stops with "No URLs found to render", without a
    request.  With locales, the list holds, each once, the URLs of the
    sitemaps of the locales, each put under the prefix of its locale. *)
Theorem sitemapUrls_of_locales :
  forall (parse : UrlParser) (api : Api) (fuel : nat)
         (aposHost aposKey : string) (pieceTypes : option (list string)),
    sitemapUrls parse api fuel aposHost aposKey pieceTypes None
    = generateSitemap parse api fuel aposHost aposKey None pieceTypes
    /\ sitemapUrls parse api fuel aposHost aposKey pieceTypes (Some [])
       = Some (Thrown "No URLs found to render")
    /\ forall locales allUrls,
         sitemapUrls parse api fuel aposHost aposKey pieceTypes (Some locales)
         = Some (Returned allUrls) ->
         NoDup allUrls
         /\ forall u,
              In u allUrls <->
              exists locale prefix urls,
                In (locale, prefix) locales
                /\ generateSitemap parse api fuel aposHost aposKey (Some locale)
                     pieceTypes
                   = Some (Returned urls)
                /\ In u (applyLocalePrefix urls prefix).
Proof.
  intros parse api fuel aposHost aposKey pieceTypes. split; [|split].
  - unfold sitemapUrls.
    destruct (generateSitemap parse api fuel aposHost aposKey None pieceTypes)
      as [[urls|e]|] eqn:Eg; try reflexivity.
    destruct (generateSitemap_shape _ _ _ _ _ _ _ _ Eg) as (_ & Hne & _).
    destruct urls; [congruence|reflexivity].
  - reflexivity.
  - intros locales allUrls. unfold sitemapUrls.
    destruct (localeUrls parse api fuel aposHost aposKey pieceTypes locales [])
      as [[found|e]|] eqn:El; try discriminate.
    destruct (List.length (Js.sort String.compare (dedupe found)) =? 0)%nat;
      [discriminate|].
    intros H. inversion H; subst. clear H.
    split; [apply sort_dedupe_NoDup|].
    intros u. rewrite sort_dedupe_In, (localeUrls_In _ _ _ _ _ _ _ _ _ El u).
    cbn [In]. tauto.
Qed.

Lemma sitemapUrls_of_locales_witness :
  NoDup ["/"; "/about/"; "/es/"; "/es/about/"]
  /\ In "/es/about/" ["/"; "/about/"; "/es/"; "/es/about/"].
Proof.
  destruct (sitemapUrls_of_locales Platform.simpleURL localeListing 5
              "http://localhost:3000" "key" (Some [])) as (_ & _ & H).
  destruct (H [("en", Some EmptyString); ("es", Some "/es")]
              ["/"; "/about/"; "/es/"; "/es/about/"] eq_refl) as [H1 H2].
  split; [exact H1|]. apply H2.
  exists "es", (Some "/es"), ["/"; "/about/"].
  split; [right; now left|]. split; [reflexivity|]. right. now left.
Defined.

Open Scope string_scope.
Open Scope list_scope.
(* ------------------------------------------------------------------ *)
(** ** The options of the command line                                 *)
(* ------------------------------------------------------------------ *)

Section Options.
Context {Num : Type}.
Implicit Types (options : Options Num) (value : OptionValue Num).

Lemma getOption_setOption_same key value options :
  getOption key (setOption key value options) = Some value.
Proof.
  induction options as [|[k v] options IH]; simpl.
  - now rewrite String.eqb_refl.
  - destruct (String.eqb k key) eqn:E; simpl.
    + now rewrite String.eqb_refl.
    + now rewrite E.
Qed.

Lemma getOption_setOption_other key key' value options :
  key' <> key ->
  getOption key' (setOption key value options) = getOption key' options.
Proof.
  intros Hne. induction options as [|[k v] options IH]; simpl.
  - destruct (String.eqb_spec key key'); [congruence|reflexivity].
  - destruct (String.eqb_spec k key) as [->|Hk]; simpl.
    + destruct (String.eqb_spec key key'); [congruence|reflexivity].
    + now rewrite IH.
Qed.

Lemma getOption_assignOption_other key key' value options :
  key' <> key ->
  getOption key' (assignOption key value options) = getOption key' options.
Proof.
  intros Hne. unfold assignOption.
  destruct (String.eqb key "__proto__"); [reflexivity|].
  now apply getOption_setOption_other.
Qed.
End Options.

Lemma split_nonempty sep s : exists p ps, Js.split sep s = p :: ps.
Proof.
  induction s as [|c s (p & ps & IH)]; simpl; [eauto|].
  destruct (Ascii.eqb c sep); [eauto|]. rewrite IH. eauto.
Qed.

Lemma split_option_text k v :
  Every (differs "=") k ->
  exists rest,
    Js.split "=" (slice2 ("--" ++ k ++ "=" ++ v)%string)
    = k :: hd EmptyString (Js.split "=" v) :: rest.
Proof.
  intros Hk. cbn [String.append slice2].
  change (k ++ String "=" v)%string with (k ++ String "=" v)%string.
  rewrite (split_at_separator _ _ _ Hk).
  destruct (split_nonempty "=" v) as (p & ps & ->). now exists ps.
Qed.

(** X23.  An option [--key=value] of the command line sets the property named
    by the key in camel case: to the text between the first [=] and the
    next one (what follows a second [=] is dropped), as a number when
    [Number] reads it as one and as a string otherwise.  It replaces what
    an earlier argument gave to this property, and leaves the other
    properties as they were. *)
Theorem parseCliArgs_last_option_wins :
  forall (Num : Type) (toNumber : string -> option Num) (trim : string -> string)
         (args : list string) (key text : string),
    Js.includes "=" key = false ->
    key <> "piece-types" -> key <> "download-uploads" ->
    camelCase key <> "__proto__" ->
    let options :=
      parseCliArgs toNumber trim (args ++ [("--" ++ key ++ "=" ++ text)%string]) in
    let value := hd EmptyString (Js.split "=" text) in
    getOption (camelCase key) options
    = Some (match toNumber value with
            | Some n => ONumber n
            | None => OString value
            end)
    /\ forall other,
         other <> camelCase key ->
         getOption other options
         = getOption other (parseCliArgs toNumber trim args).
Proof.
  intros Num toNumber trim args key text Hkey Hp Hd Hproto options value.
  subst options. unfold parseCliArgs. rewrite fold_left_app. cbn [fold_left].
  set (before := fold_left (parseArg toNumber trim) args []).
  apply includes_char in Hkey.
  destruct (split_option_text key text Hkey) as (rest & Hsplit).
  unfold parseArg.
  assert (Hs : Js.startsWith "--" ("--" ++ key ++ "=" ++ text)%string = true).
  { unfold Js.startsWith. simpl. apply prefix_empty. }
  rewrite Hs, Hsplit. cbn [hd nth_error]. fold value.
  destruct (String.eqb_spec key "piece-types") as [|_]; [contradiction|].
  destruct (String.eqb_spec key "download-uploads") as [|_]; [contradiction|].
  unfold assignOption.
  destruct (String.eqb_spec (camelCase key) "__proto__") as [|_]; [contradiction|].
  split.
  - destruct (toNumber value); apply getOption_setOption_same.
  - intros other Hother.
    destruct (toNumber value); now apply getOption_setOption_other.
Qed.

Lemma parseCliArgs_last_option_wins_witness :
  getOption "aposKey"
    (parseCliArgs digitsOnly (fun s => s)
       (["--apos-key=old"] ++ [("--" ++ "apos-key" ++ "=" ++ "c2VjcmV0=")%string]))
  = Some (OString "c2VjcmV0").
Proof.
  apply (parseCliArgs_last_option_wins nat digitsOnly (fun s => s)
           ["--apos-key=old"] "apos-key" "c2VjcmV0=");
    try reflexivity; discriminate.
Defined.

(** X24.  The option [--out=<dir>] does not set the output directory.  It sets
    the property [out]; the property [outputDir], the one that
    [exportStatic] reads, stays as the arguments before left it. *)
Theorem parseCliArgs_out_is_not_outputDir :
  forall (Num : Type) (toNumber : string -> option Num) (trim : string -> string)
         (args : list string) (dir : string),
    let options :=
      parseCliArgs toNumber trim (args ++ [("--out=" ++ dir)%string]) in
    getOption "outputDir" options
    = getOption "outputDir" (parseCliArgs toNumber trim args)
    /\ exists value, getOption "out" options = Some value.
Proof.
  intros Num toNumber trim args dir options. subst options.
  unfold parseCliArgs. rewrite fold_left_app. cbn [fold_left].
  set (before := fold_left (parseArg toNumber trim) args []).
  destruct (split_option_text "out" dir) as (rest & Hsplit).
  { repeat split; discriminate. }
  unfold parseArg.
  change ("--out=" ++ dir)%string with ("--" ++ "out" ++ "=" ++ dir)%string.
  assert (Hs : Js.startsWith "--" ("--" ++ "out" ++ "=" ++ dir)%string = true)
    by reflexivity.
  rewrite Hs, Hsplit. cbn [hd nth_error].
  change (camelCase "out") with "out".
  change (String.eqb "out" "piece-types") with false.
  change (String.eqb "out" "download-uploads") with false.
  cbv iota. unfold assignOption.
  change (String.eqb "out" "__proto__") with false. cbv iota.
  split.
  - destruct (toNumber _); now apply getOption_setOption_other.
  - destruct (toNumber _); eexists; apply getOption_setOption_same.
Qed.

Open Scope string_scope.
Open Scope list_scope.
(* ------------------------------------------------------------------ *)
(** ** The downloads of the uploads                                    *)
(* ------------------------------------------------------------------ *)

Lemma afterPrefix_app p s : afterPrefix p (p ++ s)%string = Some s.
Proof.
  induction p as [|c p IH]; simpl; [now destruct s|].
  now rewrite Ascii.eqb_refl.
Qed.

Lemma startsWith_slash path :
  Js.startsWith "/" path = true -> exists rest, path = String "/" rest.
Proof.
  destruct path as [|d path]; [discriminate|].
  unfold Js.startsWith. cbn [String.prefix].
  destruct (ascii_dec "/" d) as [<-|]; [eauto|discriminate].
Qed.

Lemma upToSlash_at authority path :
  Every (differs "/") authority -> Js.startsWith "/" path = true ->
  upToSlash (authority ++ path)%string = (authority, path).
Proof.
  intros Ha Hp. induction authority as [|c a IH]; simpl.
  - destruct (startsWith_slash _ Hp) as [rest ->]. reflexivity.
  - destruct Ha as [Hc Ha]. unfold differs in Hc.
    apply Ascii.eqb_neq in Hc. rewrite Hc, (IH Ha). reflexivity.
Qed.

Lemma stripOrigin_of_origin aposHost path :
  isOrigin aposHost -> Js.startsWith "/" path = true ->
  stripOrigin (aposHost ++ path) = path.
Proof.
  intros (scheme & authority & Hscheme & -> & Hne & Ha) Hp.
  apply truthy_iff in Hne. unfold stripOrigin.
  destruct Hscheme as [-> | ->].
  - rewrite append_assoc.
    assert (E : afterPrefix "https://" ("http://" ++ authority ++ path)%string = None)
      by reflexivity.
    rewrite E.
    rewrite (afterPrefix_app "http://" (authority ++ path)%string).
    now rewrite (upToSlash_at _ _ Ha Hp), Hne.
  - rewrite append_assoc.
    rewrite (afterPrefix_app "https://" (authority ++ path)%string).
    now rewrite (upToSlash_at _ _ Ha Hp), Hne.
Qed.

Lemma startsWith_http aposHost path :
  isOrigin aposHost -> Js.startsWith "http" (aposHost ++ path)%string = true.
Proof.
  intros (scheme & authority & [-> | ->] & -> & _); reflexivity.
Qed.

Section Uploads.
Context {Bytes : Type}.
Variable pathJoin : list string -> string.
Variable net : string -> nat -> Fetched (option Bytes).
Variables staticDir aposHost : string.
Variable retries : nat.
Hypothesis Horigin : isOrigin aposHost.

(** One round of the loop, for an upload of the backend. *)
Lemma downloadUpload_of_path d uploadUrl path :
  refersTo aposHost uploadUrl path ->
  downloadUpload pathJoin net staticDir aposHost retries d uploadUrl =
  match fetched net retries (aposHost ++ path) with
  | Some buffer =>
      mkDownloads (S (downloaded d)) (failedDownloads d)
        (saved d ++ [(pathJoin [staticDir; path], buffer)])
  | None => mkDownloads (downloaded d) (S (failedDownloads d)) (saved d)
  end.
Proof.
  intros [Hpath Hurl]. unfold downloadUpload, fetched.
  assert (Hfull : (if Js.startsWith "http" uploadUrl then uploadUrl
                   else (aposHost ++ uploadUrl)%string)
                  = (aposHost ++ path)%string).
  { destruct Hurl as [-> | ->].
    - destruct (startsWith_slash _ Hpath) as [rest ->]. reflexivity.
    - now rewrite (startsWith_http _ _ Horigin). }
  rewrite Hfull, (stripOrigin_of_origin _ _ Horigin Hpath).
  destruct (result (fetchWithRetry (net (aposHost ++ path)%string) retries))
    as [response|e]; [|reflexivity].
  destruct (body response); reflexivity.
Qed.

Lemma downloadUploads_from (refs : list (string * string)) : forall d,
  Forall (fun r => refersTo aposHost (fst r) (snd r)) refs ->
  let final :=
    fold_left (downloadUpload pathJoin net staticDir aposHost retries)
      (map fst refs) d in
  downloaded final + failedDownloads final
  = downloaded d + failedDownloads d + List.length refs
  /\ saved final
     = saved d
       ++ flat_map
            (fun r =>
               match fetched net retries (aposHost ++ snd r) with
               | Some buffer => [(pathJoin [staticDir; snd r], buffer)]
               | None => []
               end)
            refs.
Proof.
  induction refs as [|[url path] refs IH]; intros d Hrefs; cbv zeta;
    cbn [map fold_left fst].
  - cbn [flat_map List.length]. rewrite app_nil_r. split; [lia|reflexivity].
  - inversion Hrefs as [|? ? Hr Hrest]; subst. cbn [fst snd] in Hr.
    rewrite (downloadUpload_of_path d url path Hr).
    destruct (IH (match fetched net retries (aposHost ++ path) with
                  | Some buffer =>
                      mkDownloads (S (downloaded d)) (failedDownloads d)
                        (saved d ++ [(pathJoin [staticDir; path], buffer)])
                  | None =>
                      mkDownloads (downloaded d) (S (failedDownloads d)) (saved d)
                  end) Hrest) as [H1 H2].
    cbv zeta in H1, H2. rewrite H1, H2. cbn [flat_map List.length snd].
    destruct (fetched net retries (aposHost ++ path)); cbn [downloaded
      failedDownloads saved]; split; try lia.
    + now rewrite <- app_assoc.
    + reflexivity.
Qed.
End Uploads.



Open Scope string_scope.
Open Scope list_scope.
(* ------------------------------------------------------------------ *)
(** ** The books of the crawl                                          *)
(* ------------------------------------------------------------------ *)

Section BooksFacts.
Variable env : Env.
Variables seeds universe : list string.
Hypothesis Hincl : incl seeds universe.
Hypothesis Hclosed : closedUnder env universe.
Hypothesis Hapart :
  forall u v, In u universe -> In v universe ->
    okPage env u = true -> okPage env v = true ->
    properPrefix (fileOf env u) (fileOf env v) = false.

Abbreviation Entry := (string * Progress Handler)%type.

Lemma fetchFailure_no_page u : fetchFailure env u <> None -> pageOf env u = None.
Proof.
  unfold fetchFailure, pageOf.
  destruct (parseURL env u (Some (previewUrl env))); [|reflexivity].
  destruct (result _); congruence.
Qed.

Lemma Books_perm c q (act act' : list Entry) :
  Permutation act act' -> Books env seeds c q act -> Books env seeds c q act'.
Proof.
  intros Hperm [B1 B2 B3 B4 B5].
  assert (Hin : forall e, In e act' -> In e act)
    by (intros e; apply Permutation_in; now symmetry).
  assert (Hin' : forall e, In e act -> In e act')
    by (intros e; now apply Permutation_in).
  constructor; auto.
  - intros item u html n H. eapply B3, Hin, H.
  - intros u Hd Hf.
    assert (Hd' : discovered env seeds c act u).
    { destruct Hd as [H|(v & [H|(w & html & n & H)] & Hl)]; [now left|..].
      - right. exists v. auto.
      - right. exists v. split; [right; exists w, html, n; auto|exact Hl]. }
    destruct (B5 u Hd' Hf) as [H|[H|[(h & H)|H]]]; unfold reported; eauto 6.
Qed.

Lemma Books_return c q (act : list Entry) item r :
  Books env seeds c q ((item, Settled r) :: act) -> Books env seeds c q act.
Proof.
  intros [B1 B2 B3 B4 B5]. constructor; auto.
  - intros it u html n H. eapply B3. right. exact H.
  - intros u Hd Hf.
    assert (Hd' : discovered env seeds c ((item, Settled r) :: act) u).
    { destruct Hd as [H|(v & [H|(w & html & n & H)] & Hl)]; [now left|..].
      - right. exists v. auto.
      - right. exists v. split; [right; exists w, html, n; now right|exact Hl]. }
    destruct (B5 u Hd' Hf) as [H|[H|[(h & [H|H])|H]]]; unfold reported; eauto 6.
    discriminate.
Qed.

(** The entries of [act] that hold a page are those of [act'], and [u],
    reported before, is reported after. *)
Lemma Books_start budget c q (act : list Entry) next c' progress :
  Inv env seeds universe budget c (next :: q) act ->
  Books env seeds c (next :: q) act ->
  handlerStart env next c = (c', progress) ->
  Books env seeds c' q ((next, progress) :: act).
Proof.
  intros HI [B1 B2 B3 B4 B5]. unfold handlerStart.
  assert (Hsettled : forall r,
             (fetchFailure env next <> None -> False) ->
             Books env seeds c q ((next, Settled r) :: act)).
  { intros r Hnext. constructor; auto.
    - intros it u html n [H|H]; [discriminate|]. eapply B3, H.
    - intros u Hd Hf.
      assert (Hd' : discovered env seeds c act u).
      { destruct Hd as [H|(v & [H|(w & html & n & [H|H])] & Hl)];
          [now left| |discriminate|].
        - right. exists v. auto.
        - right. exists v. split; [right; exists w, html, n; auto|exact Hl]. }
      destruct (B5 u Hd' Hf) as [H|[[<-|H]|[(h & H)|H]]]; unfold reported.
      + auto.
      + now elim Hnext.
      + auto.
      + right. right. left. exists h. now right.
      + auto. }
  destruct (setHas next (processedUrls c)) eqn:Ehas.
  - intros H. inversion H; subst. apply Hsettled. intros Hf.
    apply fetchFailure_no_page in Hf. apply setHas_In in Ehas.
    exact (inv_pages _ _ _ _ _ _ _ HI _ Ehas Hf).
  - destruct (parseURL env next (Some (previewUrl env))) as [url|] eqn:Eurl.
    + intros H. inversion H; subst. clear H.
      constructor; cbn [written processedUrls processedVideoWidgets crawlErrors
        urlQueue]; auto.
      * intros it u html n [H|H]; [discriminate|]. eapply B3, H.
      * intros u Hd Hf.
        assert (Hd' : discovered env seeds c act u).
        { destruct Hd as [H|(v & [H|(w & html & n & [H|H])] & Hl)];
            [now left| |discriminate|].
          - right. exists v. auto.
          - right. exists v. split; [right; exists w, html, n; auto|exact Hl]. }
        destruct (B5 u Hd' Hf) as [H|[[<-|H]|[(h & H)|H]]]; unfold reported;
          cbn [urlQueue crawlErrors].
        -- auto.
        -- right. right. left. eexists. now left.
        -- auto.
        -- right. right. left. exists h. now right.
        -- auto.
    + intros H. inversion H; subst. apply Hsettled.
      unfold fetchFailure. rewrite Eurl. congruence.
Qed.

Lemma enqueueLinks_fields foundLinks c :
  processedUrls (enqueueLinks foundLinks c) = processedUrls c
  /\ processedVideoWidgets (enqueueLinks foundLinks c) = processedVideoWidgets c
  /\ crawlErrors (enqueueLinks foundLinks c) = crawlErrors c
  /\ written (enqueueLinks foundLinks c) = written c
  /\ (forall u, In u (urlQueue c) -> In u (urlQueue (enqueueLinks foundLinks c)))
  /\ (forall l, In l foundLinks ->
        In l (processedUrls c) \/ In l (urlQueue (enqueueLinks foundLinks c))).
Proof.
  destruct (enqueueLinks_spec foundLinks c) as (added & -> & _ & _ & _ & _ & H).
  unfold withQueue. cbn [processedUrls processedVideoWidgets crawlErrors written
    urlQueue]. repeat split; auto.
  intros u Hu. apply in_app_iff. now left.
Qed.

(** The books after [finishPage] has written the page of a path that
    was not processed. *)
Lemma Books_finish c item html added entries' :
  ~ In item (processedUrls c) ->
  pageOf env item = Some html ->
  added = videoWidgetCount html ->
  written c = map (fun u => (outputFile env u, renderedPage env u)) (processedUrls c) ->
  processedVideoWidgets c = list_sum (map (widgetsOn env) (processedUrls c)) ->
  let c' :=
    finished env c item (processedVideoWidgets c + added)
      (renderedPage env item) entries' in
  written c' = map (fun u => (outputFile env u, renderedPage env u)) (processedUrls c')
  /\ processedVideoWidgets c' = list_sum (map (widgetsOn env) (processedUrls c'))
  /\ processedUrls c' = processedUrls c ++ [item]
  /\ urlQueue c' = urlQueue c /\ crawlErrors c' = crawlErrors c.
Proof.
  intros Hnew Hpage -> Hw Hn c'. subst c'. unfold finished.
  cbn [processedUrls urlQueue processedVideoWidgets crawlErrors written].
  rewrite (setAdd_new _ _ Hnew), !map_app, list_sum_app, Hw, <- Hn.
  cbn [map list_sum fold_right]. unfold widgetsOn.
  rewrite Hpage. repeat split. lia.
Qed.

Lemma Books_resume budget c q (act : list Entry) item h c' progress :
  Inv env seeds universe budget c q ((item, Pending h) :: act) ->
  Books env seeds c q ((item, Pending h) :: act) ->
  handlerResume env h c = (c', progress) ->
  Books env seeds c' q ((item, progress) :: act).
Proof.
  intros HI [B1 B2 B3 B4 B5].
  destruct (inv_pending _ _ _ _ _ _ _ HI item h (or_introl eq_refl)) as [Hnew Hwf].
  assert (Hreach : Reachable env seeds item).
  { apply (inv_reach _ _ _ _ _ _ _ HI). right. right. right. now left. }
  assert (Huniv : In item universe).
  { eapply Reachable_in_universe; eassumption. }
  assert (Hfailing : forall u, fetchFailure env u <> None -> ~ In u (processedUrls c)).
  { intros u Hf Hin. apply fetchFailure_no_page in Hf.
    exact (inv_pages _ _ _ _ _ _ _ HI _ Hin Hf). }
  (* what was discovered before the page of [item] was finished *)
  assert (Hold : forall (c1 : Crawl) (progress1 : Progress Handler) u,
             (processedUrls c1 = processedUrls c
              \/ processedUrls c1 = processedUrls c ++ [item]) ->
             discovered env seeds c1 ((item, progress1) :: act) u ->
             discovered env seeds c ((item, Pending h) :: act) u
             \/ In u (linksOf env item)).
  { intros c1 progress1 u Hp Hd.
    destruct Hd as [H|(v & [H|(w & html & n & [H|H])] & Hl)].
    - left. now left.
    - destruct Hp as [Hp|Hp]; rewrite Hp in H.
      + left. right. exists v. auto.
      + apply in_app_iff in H. destruct H as [H|[<-|[]]]; [|now right].
        left. right. exists v. auto.
    - inversion H; subst. now right.
    - left. right. exists v. split; [right; exists w, html, n; now right|exact Hl]. }
  destruct h as [urlPath pageUrl|urlPath html n]; simpl in Hwf.
  - destruct Hwf as [-> [url [Hurl Hhref]]]. unfold handlerResume.
    destruct (result (fetchWithRetry (preview env pageUrl) (retries env)))
      as [response|message] eqn:Efetch.
    + assert (Hpage : pageOf env item = Some (body response)).
      { unfold pageOf. now rewrite Hurl, Hhref, Efetch. }
      assert (Hlinks : extractInternalLinks (parseURL env)
                         (parseHTML (jsdom env) (body response)) (previewUrl env)
                       = linksOf env item).
      { unfold linksOf. now rewrite Hpage. }
      assert (Hok : okPage env item = true).
      { unfold okPage. now rewrite Hpage. }
      cbv zeta. rewrite Hlinks.
      pose proof (Inv_fetch_rendering env seeds universe Hincl Hclosed _ _ _ _ _ _
                    _ _ (videoWidgetCount (body response)) HI Hpage) as HR.
      destruct (enqueueLinks_fields (linksOf env item) c)
        as (E1 & E2 & E3 & E4 & E5 & E6).
      set (c1 := enqueueLinks (linksOf env item) c) in *.
      (* the links of the page are queued *)
      assert (Hqueued : forall (c2 : Crawl) progress2 u,
                 urlQueue c2 = urlQueue c1 -> crawlErrors c2 = crawlErrors c ->
                 (forall h', In (u, Pending h') act -> In (u, Pending h') ((item, progress2) :: act)) ->
                 (u = item -> exists h', progress2 = Pending h' \/ fetchFailure env u = None) ->
                 discovered env seeds c ((item, Pending (Fetching item pageUrl)) :: act) u
                 \/ In u (linksOf env item) ->
                 fetchFailure env u <> None ->
                 reported c2 q ((item, progress2) :: act) u).
      { intros c2 progress2 u Hq He Hact Hitem Hd Hf. unfold reported.
        rewrite Hq, He. destruct Hd as [Hd|Hl].
        - destruct (B5 u Hd Hf) as [H|[H|[(h' & [H|H])|H]]]; auto.
          + inversion H; subst. destruct (Hitem eq_refl) as [h'' [->|Hn]].
            * right. right. left. exists h''. now left.
            * contradiction.
          + right. right. left. exists h'. now apply Hact.
        - destruct (E6 u Hl) as [H|H]; [now elim (Hfailing u Hf)|auto]. }
      destruct (0 <? videoWidgetCount (body response))%nat eqn:Ecount.
      * intros H. inversion H; subst c' progress. clear H.
        constructor.
        -- now rewrite E4, E1.
        -- now rewrite E2, E1.
        -- intros it u html n [H|H].
           ++ inversion H; subst. split; [reflexivity|].
              now apply Nat.ltb_lt.
           ++ eapply B3. right. exact H.
        -- intros u message H. rewrite E3 in H. now apply B4.
        -- intros u Hd Hf.
           eapply (Hqueued c1 _ u eq_refl E3).
           ++ intros h' Hh. now right.
           ++ intros _. eexists. now left.
           ++ eapply (Hold c1 _ u); [left; exact E1|exact Hd].
           ++ exact Hf.
      * apply Nat.ltb_ge in Ecount.
        assert (Ezero : videoWidgetCount (body response) = 0) by lia.
        intros H. inversion H; subst c' progress. clear H.
        assert (Hnew1 : ~ In item (processedUrls c1)) by now rewrite E1.
        assert (Hw1 : written c1
                      = map (fun u => (outputFile env u, renderedPage env u))
                          (processedUrls c1)) by now rewrite E4, E1.
        assert (Hn1 : processedVideoWidgets c1
                      = list_sum (map (widgetsOn env) (processedUrls c1)))
          by now rewrite E2, E1.
        destruct (finishPage_fits env universe c1 item (body response)
                    (inv_disk _ _ _ _ _ _ _ HR) Huniv Hok)
          as (entries' & _ & Hfin).
        assert (Hrendered : rewritten env (body response) = renderedPage env item).
        { unfold renderedPage. now rewrite Hpage, Ezero. }
        rewrite Hrendered in Hfin.
        pose proof (Books_finish c1 item (body response) 0 entries' Hnew1 Hpage
                      (eq_sym Ezero) Hw1 Hn1) as HF.
        cbv zeta in HF. rewrite Nat.add_0_r, <- Hfin in HF.
        destruct HF as (F1 & F2 & F3 & F4 & F5).
        constructor; auto.
        -- intros it u html n [H|H]; [discriminate|]. eapply B3. right. exact H.
        -- intros u message H. rewrite F5, E3 in H. now apply B4.
        -- intros u Hd Hf.
           eapply (Hqueued _ _ u F4); [now rewrite F5|..].
           ++ intros h' Hh. now right.
           ++ intros ->. exists (Fetching item pageUrl). right.
              unfold fetchFailure. now rewrite Hurl, Hhref, Efetch.
           ++ eapply (Hold _ _ u); [right; now rewrite F3, E1|exact Hd].
           ++ exact Hf.
    + intros H. inversion H; subst c' progress. clear H.
      assert (Hfail : fetchFailure env item = Some message).
      { unfold fetchFailure. now rewrite Hurl, Hhref, Efetch. }
      constructor; cbn [written processedUrls processedVideoWidgets crawlErrors
        urlQueue]; auto.
      * intros it u html n [H|H]; [discriminate|]. eapply B3. right. exact H.
      * intros u m H. apply in_app_iff in H. destruct H as [H|[H|[]]].
        -- now apply B4.
        -- inversion H; subst. auto.
      * intros u Hd Hf.
        destruct (Hold (mkCrawl (processedUrls c) (urlQueue c)
                          (processedVideoWidgets c)
                          (crawlErrors c ++ [(item, message)]) (written c)
                          (fetchLog c) (disk c)) _ u (or_introl eq_refl) Hd)
          as [Hd'|Hl].
        -- destruct (B5 u Hd' Hf) as [H|[H|[(h' & [H|H])|H]]]; unfold reported;
             cbn [urlQueue crawlErrors]; auto.
           ++ inversion H; subst. right. right. right.
              rewrite map_app, in_app_iff. right. now left.
           ++ right. right. left. exists h'. now right.
           ++ right. right. right. rewrite map_app, in_app_iff. now left.
        -- unfold linksOf in Hl.
           assert (Hp : pageOf env item = None).
           { unfold pageOf. now rewrite Hurl, Hhref, Efetch. }
           rewrite Hp in Hl. contradiction.
  - destruct Hwf as [-> Hpage]. unfold handlerResume. cbv zeta.
    destruct (B3 item item html n (or_introl eq_refl)) as [Hn Hpos].
    assert (Hok : okPage env item = true).
    { unfold okPage. now rewrite Hpage. }
    fold (withWidgets c (processedVideoWidgets c + n)).
    destruct (finishPage_fits env universe
                (withWidgets c (processedVideoWidgets c + n)) item
                (processVideoWidgets (jsdom env) (renderEmbed env) (backend env)
                   html (aposHost env) (retries env))
                (inv_disk _ _ _ _ _ _ _ HI) Huniv Hok)
      as (entries' & _ & Hfin).
    assert (Hrendered :
              rewritten env
                (processVideoWidgets (jsdom env) (renderEmbed env) (backend env)
                   html (aposHost env) (retries env))
              = renderedPage env item).
    { unfold renderedPage. rewrite Hpage.
      apply Nat.ltb_lt in Hpos. rewrite Hn in Hpos. now rewrite Hpos. }
    rewrite Hrendered in Hfin.
    intros H. inversion H; subst c' progress. clear H.
    pose proof (Books_finish c item html n entries' Hnew Hpage Hn B1 B2) as HF.
    cbv zeta in HF.
    change (finished env c item (processedVideoWidgets c + n)
              (renderedPage env item) entries')
      with (finished env (withWidgets c (processedVideoWidgets c + n)) item
              (processedVideoWidgets (withWidgets c (processedVideoWidgets c + n)))
              (renderedPage env item) entries') in HF.
    rewrite <- Hfin in HF.
    destruct HF as (F1 & F2 & F3 & F4 & F5).
    constructor; auto.
    + intros it u html' n' [H|H]; [discriminate|]. eapply B3. right. exact H.
    + intros u message H. rewrite F5 in H. now apply B4.
    + intros u Hd Hf.
      assert (Hd' : discovered env seeds c
                      ((item, Pending (Rendering item html n)) :: act) u).
      { destruct (Hold _ _ u (or_intror F3) Hd) as [Hd'|Hl]; [exact Hd'|].
        right. exists item. split; [|exact Hl].
        right. exists item, html, n. now left. }
      destruct (B5 u Hd' Hf) as [H|[H|[(h' & [H|H])|H]]]; unfold reported;
        rewrite ?F4, ?F5; auto.
      * inversion H; subst. apply fetchFailure_no_page in Hf. congruence.
      * right. right. left. exists h'. now right.
Qed.

Lemma PoolBooks_step budget p p' :
  step (handler env) p p' ->
  PoolInv env seeds universe budget p /\ PoolBooks env seeds p ->
  PoolInv env seeds universe budget p' /\ PoolBooks env seeds p'.
Proof.
  intros Hstep [HI HB].
  split; [exact (PoolInv_step env seeds universe Hincl Hclosed Hapart budget p p'
                   Hstep HI)|].
  unfold PoolInv, PoolBooks in *.
  destruct Hstep as [q res l1 l2 s inv log item w s' progress E
                    |res l1 l2 s inv log item r
                    |next q res l1 l2 s inv log item r s' progress E];
    cbn [shared queue runners] in *.
  - eapply Books_perm; [apply actives_middle|].
    eapply Books_resume; [| |exact E].
    + eapply Inv_perm; [symmetry; apply actives_middle|exact HI].
    + eapply Books_perm; [symmetry; apply actives_middle|exact HB].
  - rewrite actives_returned. eapply Books_return.
    eapply Books_perm; [symmetry; apply actives_middle|exact HB].
  - eapply Books_perm; [apply actives_middle|].
    eapply Books_start; [| |exact E].
    + eapply Inv_return.
      eapply Inv_perm; [symmetry; apply actives_middle|exact HI].
    + eapply Books_return.
      eapply Books_perm; [symmetry; apply actives_middle|exact HB].
Qed.

Lemma PoolBooks_spawn budget p p' :
  spawnStep (handler env) p p' ->
  PoolInv env seeds universe budget p /\ PoolBooks env seeds p ->
  PoolInv env seeds universe budget p' /\ PoolBooks env seeds p'.
Proof.
  intros Hstep [HI HB].
  split; [exact (PoolInv_spawn env seeds universe budget p p' Hstep HI)|].
  unfold PoolInv, PoolBooks in *.
  destruct Hstep as [res rs s inv log|next q res rs s inv log s' progress E];
    cbn [shared queue runners] in *.
  - unfold actives in *. rewrite flat_map_app. simpl. now rewrite app_nil_r.
  - eapply Books_perm; [|eapply Books_start; [exact HI|exact HB|exact E]].
    unfold actives. rewrite flat_map_app. simpl. apply Permutation_cons_append.
Qed.

Lemma Books_batch budget c n :
  Inv env seeds universe budget c [] [] -> Books env seeds c [] [] ->
  let c1 := withQueue c (skipn n (urlQueue c)) in
  let batchUrls :=
    filter (fun url => negb (setHas url (processedUrls c1)))
      (firstn n (urlQueue c)) in
  Books env seeds c1 batchUrls [].
Proof.
  intros HI [B1 B2 B3 B4 B5] c1 batchUrls. subst c1 batchUrls.
  constructor; cbn [withQueue written processedUrls processedVideoWidgets
    crawlErrors urlQueue]; auto.
  intros u Hd Hf.
  assert (Hd' : discovered env seeds c [] u).
  { destruct Hd as [H|(v & [H|(w & html & k & [])] & Hl)]; [now left|].
    right. exists v. auto. }
  destruct (B5 u Hd' Hf) as [H|[[]|[(h & [])|H]]]; unfold reported;
    cbn [urlQueue crawlErrors]; auto.
  rewrite <- (firstn_skipn n (urlQueue c)) in H. apply in_app_iff in H.
  destruct H as [H|H]; auto.
  right. left. apply filter_In. split; [exact H|].
  apply negb_true_iff, setHas_not_In. intros Hp.
  apply fetchFailure_no_page in Hf.
  exact (inv_pages _ _ _ _ _ _ _ HI _ Hp Hf).
Qed.

Lemma crawlLoop_keeps_books sched fuel :
  1 <= concurrency env ->
  forall budget round c,
    Inv env seeds universe budget c [] [] -> Books env seeds c [] [] ->
    budget <= fuel ->
    exists c' budget',
      crawlLoop env sched fuel round c = Some c'
      /\ urlQueue c' = []
      /\ Inv env seeds universe budget' c' [] [] /\ Books env seeds c' [] [].
Proof.
  intros Hconc. induction fuel as [|fuel IH]; intros budget round c HI HB Hfuel.
  - destruct (urlQueue c) as [|x queue'] eqn:Eq.
    + exists c, budget. simpl. rewrite Eq. auto.
    + destruct (Inv_batch env seeds universe budget c 1 HI) as [Hb _];
        [congruence|lia|lia].
  - destruct (urlQueue c) as [|x queue'] eqn:Eq.
    + exists c, budget. simpl. rewrite Eq. auto.
    + destruct (Inv_batch env seeds universe budget c (concurrency env * 2) HI)
        as [Hb HI1]; [congruence|lia|].
      pose proof (Books_batch budget c (concurrency env * 2) HI HB) as HB1.
      cbn [crawlLoop]. rewrite Eq. rewrite <- Eq.
      cbv zeta in HI1, HB1. unfold withQueue in HI1, HB1.
      set (c1 := mkCrawl (processedUrls c) (skipn (concurrency env * 2) (urlQueue c))
                   (processedVideoWidgets c) (crawlErrors c) (written c) (fetchLog c)
                   (disk c)) in *.
      destruct (filter (fun url => negb (setHas url (processedUrls c1)))
                  (firstn (concurrency env * 2) (urlQueue c)))
        as [|url batchUrls] eqn:Eb.
      * apply (IH (budget - 1)); [exact HI1|exact HB1|lia].
      * rewrite (mapLimit_returns (handler env) (handler_terminating env)).
        destruct (finalPool_drained (handler env) (url :: batchUrls)
                    (concurrency env) (sched round) c1 (handler_terminating env) Hconc)
          as [Hdrained Hreturned].
        pose proof (finalPool_invariant (handler env)
                      (fun p => PoolInv env seeds universe (budget - 1) p
                                /\ PoolBooks env seeds p)
                      (PoolBooks_spawn _) (PoolBooks_step _)
                      (url :: batchUrls) (concurrency env) (sched round) c1
                      (conj HI1 HB1))
          as [HP HQ].
        unfold PoolInv in HP. unfold PoolBooks in HQ.
        rewrite Hdrained, (actives_none _ Hreturned) in HP, HQ.
        apply (IH (budget - 1)); [exact HP|exact HQ|lia].
Qed.
End BooksFacts.

(** The crawl ends, with its queue empty, its invariant and its books. *)
Lemma crawl_ends_with_books env sched seeds universe fuel :
  1 <= concurrency env ->
  NoDup seeds -> incl seeds universe -> closedUnder env universe ->
  filesFit env universe = true ->
  crawlFuel env seeds universe <= fuel ->
  exists c budget,
    crawl env sched fuel seeds = Some c
    /\ urlQueue c = []
    /\ Inv env seeds universe budget c [] []
    /\ Books env seeds c [] [].
Proof.
  intros Hconc Hnodup Hincl Hclosed Hfit Hfuel.
  destruct (filesFit_spec env universe Hfit) as [Hfits Hapart].
  assert (Hinit : Inv env seeds universe (crawlFuel env seeds universe)
                    (initialCrawl seeds (fileSystem env)) [] []).
  { constructor; cbn [initialCrawl processedUrls urlQueue written fetchLog disk
      pendingItems renderingItems filter map app].
    - exact Hnodup.
    - constructor.
    - reflexivity.
    - constructor.
    - intros item h [].
    - intros u H. unfold accounted. simpl. auto.
    - intros u l [].
    - intros u [[]|[H|[[]|[]]]]. now constructor.
    - intros u [].
    - rewrite unexpandedIn_nil. unfold crawlFuel. lia.
    - intros u [].
    - constructor.
    - exact Hfits. }
  assert (Hbooks : Books env seeds (initialCrawl seeds (fileSystem env)) [] []).
  { constructor; cbn [initialCrawl processedUrls urlQueue written crawlErrors
      processedVideoWidgets map list_sum fold_right]; auto.
    - intros item u html n [].
    - intros u message [].
    - intros u [H|(v & [[]|(w & html & n & [])] & _)] _. now left. }
  exact (crawlLoop_keeps_books env seeds universe Hincl Hclosed Hapart sched fuel
           Hconc _ 0 _ Hinit Hbooks Hfuel).
Qed.


(** X27.  The counter of video widgets follows the texts of the pages
    rendered.  For a finite link graph whose output files fit on the
    disk, [videoWidgetsProcessed] is the sum, over the processed raw
    paths, of the number of times that the text fetched for the path has
    [<video-widget] (one less than the number of the pieces that the
    occurrences cut the text into), whatever elements that text parses
    to; a page whose text does not have it adds nothing. *)
Theorem crawl_counts_widgets_of_rendered_pages :
  forall (env : Env) (sched : nat -> nat -> nat)
         (seeds universe : list string) (fuel : nat),
    1 <= concurrency env ->
    NoDup seeds -> incl seeds universe -> closedUnder env universe ->
    filesFit env universe = true ->
    crawlFuel env seeds universe <= fuel ->
    exists c,
      crawl env sched fuel seeds = Some c
      /\ videoWidgetsProcessed (exportResults c)
         = list_sum (map (widgetsOn env) (processedUrls c))
      /\ (forall u pieces,
            pageOf env u = Some (Js.join "<video-widget" pieces) ->
            Forall (fun piece => Js.includes "<video-widget" piece = false)
              pieces ->
            widgetsOn env u = List.length pieces - 1).
Proof.
  intros env sched seeds universe fuel Hconc Hnodup Hincl Hclosed Hfit Hfuel.
  destruct (crawl_ends_with_books env sched seeds universe fuel Hconc Hnodup
              Hincl Hclosed Hfit Hfuel) as (c & budget & Hrun & _ & _ & [_ B2 _ _ _]).
  exists c. split; [exact Hrun|]. split; [exact B2|].
  intros u pieces Hpage Hpieces. unfold widgetsOn. rewrite Hpage.
  now apply videoWidgetCount_pieces.
Qed.

(** X28.  When the output files of the pages fit on the disk, the errors
    of the export are the fetches that failed.  Under this proviso
    [writeHtmlForPath] does not throw, so the [catch] of the handler
    sees only the errors of [fetchWithRetry]: every entry of [errors]
    names a reachable raw path and the error with which
    [fetchWithRetry] failed for its page; every reachable raw path whose
    fetch fails has an entry; and [success] is [true] exactly when no
    fetch of a reachable path fails.  (A path for which no URL can be
    built is dropped without an entry; without the proviso the error of
    a write is recorded in the same list.) *)
Theorem crawl_reports_failed_fetches :
  forall (env : Env) (sched : nat -> nat -> nat)
         (seeds universe : list string) (fuel : nat),
    1 <= concurrency env ->
    NoDup seeds -> incl seeds universe -> closedUnder env universe ->
    filesFit env universe = true ->
    crawlFuel env seeds universe <= fuel ->
    exists c,
      crawl env sched fuel seeds = Some c
      /\ (forall u message,
            In (u, message) (exportErrors (exportResults c)) ->
            Reachable env seeds u /\ fetchFailure env u = Some message)
      /\ (forall u,
            Reachable env seeds u -> fetchFailure env u <> None ->
            In u (map fst (exportErrors (exportResults c))))
      /\ (exportSuccess (exportResults c) = true
          <-> forall u, Reachable env seeds u -> fetchFailure env u = None).
Proof.
  intros env sched seeds universe fuel Hconc Hnodup Hincl Hclosed Hfit Hfuel.
  destruct (crawl_ends_with_books env sched seeds universe fuel Hconc Hnodup
              Hincl Hclosed Hfit Hfuel)
    as (c & budget & Hrun & Hempty & HI & [_ _ _ B4 B5]).
  exists c. cbn [exportResults exportErrors exportSuccess].
  assert (Hprocessed : forall u, Reachable env seeds u -> pageOf env u <> None ->
                                 In u (processedUrls c)).
  { assert (Hacc : forall u, accounted env c [] [] u -> pageOf env u <> None ->
                             In u (processedUrls c)).
    { unfold accounted. rewrite Hempty. simpl. intros u H Hp.
      destruct H as [H|[[]|[[]|[[]|H]]]]; [exact H|contradiction]. }
    intros u Hreach. induction Hreach as [u Hu|u l Hu IH Hl]; intros Hpage.
    - apply Hacc; [|exact Hpage]. exact (inv_seeds _ _ _ _ _ _ _ HI u Hu).
    - apply Hacc; [|exact Hpage].
      eapply (inv_links _ _ _ _ _ _ _ HI); [|exact Hl].
      rewrite app_nil_r. apply IH. eapply linksOf_page, Hl. }
  assert (Hcomplete : forall u, Reachable env seeds u -> fetchFailure env u <> None ->
                                In u (map fst (crawlErrors c))).
  { intros u Hreach Hf.
    assert (Hd : discovered env seeds c [] u).
    { destruct Hreach as [u Hu|u l Hu Hl]; [now left|].
      right. exists u. split; [left|exact Hl].
      apply Hprocessed; [exact Hu|]. eapply linksOf_page, Hl. }
    destruct (B5 u Hd Hf) as [H|[[]|[(h & [])|H]]]; [|exact H].
    rewrite Hempty in H. contradiction. }
  split; [exact Hrun|]. split; [|split; [exact Hcomplete|]].
  - intros u message H. destruct (B4 u message H). auto.
  - split.
    + intros Hs u Hreach. destruct (fetchFailure env u) as [m|] eqn:Ef; [|reflexivity].
      assert (Hin : In u (map fst (crawlErrors c)))
        by (apply Hcomplete; [exact Hreach|congruence]).
      destruct (crawlErrors c); [contradiction|discriminate].
    + intros Hnone. destruct (crawlErrors c) as [|[u m] errs] eqn:Ee; [reflexivity|].
      destruct (B4 u m (or_introl eq_refl)) as [Hf Hreach].
      rewrite (Hnone u Hreach) in Hf. discriminate.
Qed.

Lemma demo_closed : closedUnder demoEnv demoUniverse.
Proof. intros u l [<-|[<-|[<-|[<-|[]]]]]; vm_compute; tauto. Qed.

Lemma demo_seeds : NoDup demoSeeds /\ incl demoSeeds demoUniverse.
Proof.
  split.
  - repeat constructor; simpl; intuition discriminate.
  - intros u [<-|[<-|[]]]; simpl; tauto.
Qed.

Lemma demo_fuel : crawlFuel demoEnv demoSeeds demoUniverse <= 10.
Proof. vm_compute. lia. Qed.


Lemma crawl_counts_widgets_of_rendered_pages_witness :
  exists c,
    crawl demoEnv (fun _ t => t) 10 demoSeeds = Some c
    /\ videoWidgetsProcessed (exportResults c)
       = list_sum (map (widgetsOn demoEnv) (processedUrls c)).
Proof.
  destruct (crawl_counts_widgets_of_rendered_pages demoEnv (fun _ t => t) demoSeeds
              demoUniverse 10) as (c & H1 & H2 & _).
  - simpl. lia.
  - apply demo_seeds.
  - apply demo_seeds.
  - apply demo_closed.
  - reflexivity.
  - apply demo_fuel.
  - exists c. auto.
Defined.

Lemma crawl_reports_failed_fetches_witness :
  exists c,
    crawl demoEnv (fun _ t => t) 10 demoSeeds = Some c
    /\ In "/missing/" (map fst (exportErrors (exportResults c)))
    /\ exportSuccess (exportResults c) <> true.
Proof.
  destruct (crawl_reports_failed_fetches demoEnv (fun _ t => t) demoSeeds
              demoUniverse 10) as (c & H1 & _ & H3 & H4).
  - simpl. lia.
  - apply demo_seeds.
  - apply demo_seeds.
  - apply demo_closed.
  - reflexivity.
  - apply demo_fuel.
  - exists c. split; [exact H1|].
    assert (Hr : Reachable demoEnv demoSeeds "/missing/")
      by (constructor; right; now left).
    split.
    + apply H3; [exact Hr|]. vm_compute. discriminate.
    + intros Hs. rewrite H4 in Hs. specialize (Hs _ Hr).
      vm_compute in Hs. discriminate.
Defined.

Open Scope string_scope.
Open Scope list_scope.
(* ------------------------------------------------------------------ *)
(** ** Copies of directories                                           *)
(* ------------------------------------------------------------------ *)

(** Induction on a tree of files. *)
Lemma FsNode_induction (P : FsNode -> Prop) :
  (forall data, P (FsFile data)) ->
  (forall entries, Forall (fun e => P (snd e)) entries -> P (FsDir entries)) ->
  forall node, P node.
Proof.
  intros Hfile Hdir. fix IH 1. intros [data|entries].
  - apply Hfile.
  - apply Hdir. induction entries as [|[name entry] entries IHe].
    + constructor.
    + constructor; [apply IH|exact IHe].
Qed.

Lemma distinctNames_dir (entries : list (string * FsNode)) :
  distinctNames (FsDir entries) <->
  NoDup (map fst entries) /\ Forall (fun e => distinctNames (snd e)) entries.
Proof.
  cbn [distinctNames]. split; intros [Hn He]; split; try exact Hn; clear Hn.
  - induction entries as [|[name entry] entries IH]; constructor.
    + apply He.
    + apply IH, He.
  - induction entries as [|[name entry] entries IH]; [exact I|].
    inversion He; subst. split; [assumption|apply IH; assumption].
Qed.

(** Into a directory that has none of the names, the loop appends the
    entries. *)
Lemma copyEntries_fresh (entries : list (string * FsNode)) :
  Forall (fun e => distinctNames (snd e) ->
                   forall sub, snd e = FsDir sub ->
                   copyExisting (snd e) None = (Some (snd e), Returned tt))
         entries ->
  Forall (fun e => distinctNames (snd e)) entries ->
  forall made,
    NoDup (map fst made ++ map fst entries) ->
    copyEntries copyExisting entries made = (made ++ entries, Returned tt).
Proof.
  induction entries as [|[name entry] entries IH]; intros Hcopy Hd made Hn.
  - cbn [copyEntries]. now rewrite app_nil_r.
  - inversion Hcopy as [|? ? Hc Hcs]; subst.
    inversion Hd as [|? ? Hd1 Hds]; subst. cbn [snd] in *.
    assert (Hfresh : ~ In name (map fst made)).
    { cbn [map fst] in Hn. apply NoDup_remove_2 in Hn.
      intros H. apply Hn. apply in_or_app. now left. }
    assert (Hnext : forall node,
               NoDup (map fst (setEntry name node made) ++ map fst entries)).
    { intros node. rewrite (setEntry_absent _ _ _ Hfresh), map_app.
      cbn [map fst]. rewrite <- app_assoc. exact Hn. }
    cbn [copyEntries]. rewrite (getEntry_absent _ _ Hfresh).
    destruct entry as [data|sub].
    + rewrite (IH Hcs Hds _ (Hnext _)), (setEntry_absent _ _ _ Hfresh),
        <- app_assoc. reflexivity.
    + rewrite (Hc Hd1 sub eq_refl).
      rewrite (IH Hcs Hds _ (Hnext _)), (setEntry_absent _ _ _ Hfresh),
        <- app_assoc. reflexivity.
Qed.

Lemma copyExisting_fresh (source : FsNode) :
  distinctNames source ->
  forall entries, source = FsDir entries ->
  copyExisting source None = (Some source, Returned tt).
Proof.
  induction source as [data|entries IH] using FsNode_induction;
    intros Hd sub Hs; [discriminate|].
  apply distinctNames_dir in Hd. destruct Hd as [Hn Hd].
  cbn [copyExisting].
  rewrite (copyEntries_fresh entries IH Hd []); [reflexivity|exact Hn].
Qed.

(** After [copyDir] of an existing source the destination is there. *)
Lemma copyExisting_leads (source : FsNode) (dest : option FsNode)
    (ended : Outcome unit) :
  copyExisting source dest <> (None, ended).
Proof.
  destruct source as [data|entries]; destruct dest as [[d|made]|];
    cbn [copyExisting]; try discriminate.
  - now destruct (copyEntries copyExisting entries made).
  - now destruct (copyEntries copyExisting entries []).
Qed.

(** What the loop leaves under each name, when it ends without an error. *)
Lemma copyEntries_result (entries : list (string * FsNode)) :
  NoDup (map fst entries) ->
  forall made made',
    copyEntries copyExisting entries made = (made', Returned tt) ->
    forall name,
      match getEntry name entries with
      | None => getEntry name made' = getEntry name made
      | Some (FsFile data) =>
          getEntry name made' = Some (FsFile data)
          /\ forall sub, getEntry name made <> Some (FsDir sub)
      | Some (FsDir sub) =>
          exists copied,
            copyExisting (FsDir sub) (getEntry name made)
              = (Some copied, Returned tt)
            /\ getEntry name made' = Some copied
      end.
Proof.
  induction entries as [|[n entry] entries IH]; intros Hn made made' Hrun name.
  - cbn [copyEntries] in Hrun. inversion Hrun; subst. reflexivity.
  - cbn [map fst] in Hn. inversion Hn as [|? ? Hnotin Hn']; subst.
    cbn [copyEntries] in Hrun. cbn [getEntry].
    destruct (String.eqb n name) eqn:E.
    + apply String.eqb_eq in E. subst n.
      assert (Hlater : getEntry name entries = None)
        by now apply getEntry_absent.
      destruct entry as [data|sub].
      * destruct (getEntry name made) as [[d|s]|] eqn:Eold;
          try discriminate;
          (specialize (IH Hn' _ _ Hrun name); rewrite Hlater in IH;
           rewrite getEntry_setEntry_same in IH; split;
           [exact IH|intros s' Hs'; discriminate]).
      * destruct (copyExisting (FsDir sub) (getEntry name made))
          as [[copied|] [[]|e]] eqn:Ecopy; try discriminate;
          [|now apply copyExisting_leads in Ecopy].
        specialize (IH Hn' _ _ Hrun name). rewrite Hlater in IH.
        rewrite getEntry_setEntry_same in IH. exists copied. now split.
    + assert (Hne : n <> name).
      { intros ->. rewrite String.eqb_refl in E. discriminate. }
      assert (Hstep : forall node made'',
                 copyEntries copyExisting entries (setEntry n node made)
                   = (made'', Returned tt) ->
                 match getEntry name entries with
                 | None => getEntry name made'' = getEntry name made
                 | Some (FsFile data) =>
                     getEntry name made'' = Some (FsFile data)
                     /\ forall sub, getEntry name made <> Some (FsDir sub)
                 | Some (FsDir sub) =>
                     exists copied,
                       copyExisting (FsDir sub) (getEntry name made)
                         = (Some copied, Returned tt)
                       /\ getEntry name made'' = Some copied
                 end).
      { intros node made'' Hrun'. specialize (IH Hn' _ _ Hrun' name).
        rewrite (getEntry_setEntry_other _ _ _ _ Hne) in IH. exact IH. }
      destruct entry as [data|sub].
      * destruct (getEntry n made) as [[d|s]|]; try discriminate;
          now apply (Hstep _ _ Hrun).
      * destruct (copyExisting (FsDir sub) (getEntry n made))
          as [[copied|] [[]|e]] eqn:Ecopy; try discriminate;
          [|now apply copyExisting_leads in Ecopy].
        now apply (Hstep _ _ Hrun).
Qed.

Lemma copyExisting_dir (entries : list (string * FsNode))
    (dest : option FsNode) (result : option FsNode) :
  copyExisting (FsDir entries) dest = (result, Returned tt) ->
  exists made made',
    (dest = None /\ made = [] \/ dest = Some (FsDir made))
    /\ copyEntries copyExisting entries made = (made', Returned tt)
    /\ result = Some (FsDir made').
Proof.
  cbn [copyExisting]. destruct dest as [[data|made]|]; try discriminate.
  - destruct (copyEntries copyExisting entries made) as [made' ended] eqn:E.
    intros H. inversion H; subst. exists made, made'. repeat split; auto.
  - destruct (copyEntries copyExisting entries []) as [made' ended] eqn:E.
    intros H. inversion H; subst. exists [], made'. repeat split; auto.
Qed.

(** The files below the destination after a copy that ends without an
    error. *)
Lemma copyExisting_files (source : FsNode) :
  distinctNames source ->
  forall dest result,
    copyExisting source dest = (Some result, Returned tt) ->
    forall path,
      fileAt path result =
      match fileAt path source with
      | Some data => Some data
      | None => fileBelow path dest
      end.
Proof.
  induction source as [data|entries IH] using FsNode_induction;
    intros Hd dest result Hrun path.
  { cbn [copyExisting] in Hrun. destruct dest as [[d|m]|]; discriminate. }
  apply distinctNames_dir in Hd. destruct Hd as [Hn Hd].
  apply copyExisting_dir in Hrun.
  destruct Hrun as (made & made' & Hdest & Hrun & Hres).
  inversion Hres; subst result. clear Hres.
  pose proof (copyEntries_result entries Hn made made' Hrun) as Hspec.
  assert (Hbelow : fileBelow path dest = fileAt path (FsDir made)).
  { destruct Hdest as [[Hnone Hmade]|Hsome]; subst; [|reflexivity].
    destruct path; reflexivity. }
  rewrite Hbelow. clear Hbelow Hdest dest.
  destruct path as [|name rest]; [reflexivity|].
  cbn [fileAt]. specialize (Hspec name).
  destruct (getEntry name entries) as [[d|sub]|] eqn:Eentry.
  - destruct Hspec as [Hget Hnodir]. rewrite Hget.
    destruct rest as [|next rest]; [reflexivity|]. cbn [fileAt].
    destruct (getEntry name made) as [[d'|sub']|]; try reflexivity.
    exfalso. now apply (Hnodir sub').
  - destruct Hspec as (copied & Hcopy & Hget). rewrite Hget.
    apply getEntry_In in Eentry. rewrite Forall_forall in IH, Hd.
    rewrite (IH _ Eentry (Hd _ Eentry) _ _ Hcopy rest). cbn [snd].
    destruct (fileAt rest (FsDir sub)); [reflexivity|].
    now destruct (getEntry name made).
  - now rewrite Hspec.
Qed.

(** X29.  [exportStatic], preparing the output directory: when the names
    of the build are distinct in every directory, as they are in a file
    system, the output directory becomes an exact copy of [dist/client]
    if that is a directory, and of [dist] if [dist] is a directory with
    no entry [client]; nothing of what the output directory held before
    is left.  If [dist/client] is a file, [copyDir] throws the ENOTDIR of
    [readdirSync] and leaves an empty output directory. *)
Theorem prepareOutputDir_copies_the_build
    (entries : list (string * FsNode)) (previous : option FsNode) :
  distinctNames (FsDir entries) ->
  prepareOutputDir (Some (FsDir entries)) previous =
  match getEntry "client" entries with
  | Some (FsDir client) => (Some (FsDir client), Returned tt)
  | Some (FsFile _) => (Some (FsDir []), Thrown "ENOTDIR")
  | None => (Some (FsDir entries), Returned tt)
  end.
Proof.
  intros Hd.
  assert (Hempty : forall source,
             copyExisting source (Some (FsDir [])) = copyExisting source None)
    by (intros []; reflexivity).
  unfold prepareOutputDir, cleanDir, copyDir. cbn [entryOf].
  destruct (getEntry "client" entries) as [[data|client]|] eqn:Eclient.
  - reflexivity.
  - rewrite Hempty. apply (copyExisting_fresh _) with (entries := client);
      [|reflexivity].
    apply distinctNames_dir in Hd. destruct Hd as [_ Hd].
    rewrite Forall_forall in Hd.
    apply (Hd _ (getEntry_In _ _ _ Eclient)).
  - rewrite Hempty. now apply (copyExisting_fresh _) with (entries := entries).
Qed.

Lemma prepareOutputDir_copies_the_build_witness :
  distinctNames demoDist
  /\ prepareOutputDir (Some demoDist) (Some demoOutput)
     = (Some demoBuild, Returned tt).
Proof.
  assert (Hd : distinctNames demoDist).
  { cbn. repeat split; repeat constructor; cbn; intuition discriminate. }
  split; [exact Hd|].
  exact (prepareOutputDir_copies_the_build _ (Some demoOutput) Hd).
Defined.

(** X30.  [copyDir] merges: when the names of the source are distinct in
    every directory and the copy into an existing destination ends
    without an error, the destination holds at every path the file of the
    source, and where the source has no file, the file the destination
    had before.  So files of the destination are replaced by files of the
    source with the same path, and no other file is removed or added. *)
Theorem copyDir_merges_into_destination
    (source dest result : FsNode) (path : list string) :
  distinctNames source ->
  copyDir (Some source) (Some dest) = (Some result, Returned tt) ->
  fileAt path result =
  match fileAt path source with
  | Some data => Some data
  | None => fileAt path dest
  end.
Proof.
  intros Hd Hrun.
  exact (copyExisting_files source Hd (Some dest) result Hrun path).
Qed.

Lemma copyDir_merges_into_destination_witness :
  let result :=
    FsDir [("old.html", FsFile "<h1>Old</h1>");
           ("_astro", FsDir [("site.css", FsFile "body{}")]);
           ("index.html", FsFile "<h1>Home</h1>")] in
  distinctNames demoBuild
  /\ copyDir (Some demoBuild) (Some demoOutput) = (Some result, Returned tt)
  /\ fileAt ["_astro"; "site.css"] result = Some "body{}"
  /\ fileAt ["old.html"] result = Some "<h1>Old</h1>".
Proof.
  assert (Hd : distinctNames demoBuild).
  { cbn. repeat split; repeat constructor; cbn; intuition discriminate. }
  assert (Hrun : copyDir (Some demoBuild) (Some demoOutput)
                 = (Some (FsDir [("old.html", FsFile "<h1>Old</h1>");
                                 ("_astro", FsDir [("site.css", FsFile "body{}")]);
                                 ("index.html", FsFile "<h1>Home</h1>")]),
                    Returned tt)) by reflexivity.
  split; [exact Hd|]. split; [exact Hrun|]. split.
  - exact (copyDir_merges_into_destination _ _ _ ["_astro"; "site.css"]
             Hd Hrun).
  - exact (copyDir_merges_into_destination _ _ _ ["old.html"] Hd Hrun).
Defined.

